(** * JSON to S-expression converter: a shallow embedding and its properties

    The development follows the C sources of the converter:
    - [include/json_to_sexpr.h]: token, value and parser context types;
    - [src/parser.c]: the tokenizer and the recursive-descent parser;
    - [sexpr_output.c]: the S-expression writer;
    - [src/main.c]: the driver (parse, warn about trailing content, print).

    Conventions of the embedding.
    - A C string is a [list ascii]; [strlen] stops at the first NUL.
    - [size_t] positions are [nat], the [int] line and column counters are [Z]
      (no wrap-around is modelled: the counters stay far below 2^31 on any
      input the driver can hold in memory together with its tokens).
    - The [char value[MAX_TOKEN_SIZE]] buffer of a token is the list of the
      characters written so far; [value_pos] is the length of that list.
    - A [double] is a [spec_float] (binary64: precision 53, emax 1024).
    - [malloc] never fails; the tree of [json_value_t] nodes linked through
      [next] pointers is an inductive tree with lists of children.
    - A [while] loop that walks the input from [pos] is a structural recursion
      over the characters from [pos] on; the parser's recursion and its
      member and element loops take a fuel argument, and enough fuel is shown
      to exist for every input. *)

From Stdlib Require Import List Ascii String ZArith Lia Bool Arith.
From Stdlib Require Import Floats.SpecFloat.
From Stdlib Require Import Numbers.DecimalString Numbers.DecimalZ.
From Stdlib Require Numbers.DecimalPos Numbers.DecimalFacts.
Import ListNotations.

Set Implicit Arguments.

(** ** Characters *)

Definition text := list ascii.

Definition chars (s : string) : text := list_ascii_of_string s.

Definition NUL : ascii := "000"%char.
Definition BS : ascii := "008"%char.
Definition TAB : ascii := "009"%char.
Definition LF : ascii := "010"%char.
Definition FF : ascii := "012"%char.
Definition CR : ascii := "013"%char.
Definition DQUOTE : ascii := "034"%char.
Definition BACKSLASH : ascii := "\"%char.

(** [json s] reads [s] with every apostrophe standing for a double quote, so
    that JSON texts can be written as Rocq string literals. *)
Definition json (s : string) : text :=
  map (fun c => if Ascii.eqb c "'"%char then DQUOTE else c) (chars s).

(** [isdigit] of <ctype.h> in the C locale. *)
Definition isdigit (c : ascii) : bool :=
  (N.leb 48 (N_of_ascii c) && N.leb (N_of_ascii c) 57)%bool.

(** [strlen]: the number of characters before the first NUL. *)
Fixpoint strlen (s : text) : nat :=
  match s with
  | [] => 0
  | c :: s' => if Ascii.eqb c NUL then 0 else S (strlen s')
  end.

(** [strncmp (s, lit, strlen lit) == 0] for a literal without NUL. *)
Fixpoint starts_with (lit s : text) : bool :=
  match lit, s with
  | [], _ => true
  | _ :: _, [] => false
  | a :: lit', b :: s' => (Ascii.eqb a b && starts_with lit' s')%bool
  end.

(** ** Data model (json_to_sexpr.h) *)

Definition MAX_TOKEN_SIZE : nat := 1024.

Inductive token_type_t : Set :=
| TOKEN_LBRACE
| TOKEN_RBRACE
| TOKEN_LBRACKET
| TOKEN_RBRACKET
| TOKEN_COLON
| TOKEN_COMMA
| TOKEN_STRING
| TOKEN_NUMBER
| TOKEN_TRUE
| TOKEN_FALSE
| TOKEN_NULL
| TOKEN_EOF
| TOKEN_ERROR.

Definition token_type_eqb (a b : token_type_t) : bool :=
  match a, b with
  | TOKEN_LBRACE, TOKEN_LBRACE | TOKEN_RBRACE, TOKEN_RBRACE
  | TOKEN_LBRACKET, TOKEN_LBRACKET | TOKEN_RBRACKET, TOKEN_RBRACKET
  | TOKEN_COLON, TOKEN_COLON | TOKEN_COMMA, TOKEN_COMMA
  | TOKEN_STRING, TOKEN_STRING | TOKEN_NUMBER, TOKEN_NUMBER
  | TOKEN_TRUE, TOKEN_TRUE | TOKEN_FALSE, TOKEN_FALSE
  | TOKEN_NULL, TOKEN_NULL | TOKEN_EOF, TOKEN_EOF
  | TOKEN_ERROR, TOKEN_ERROR => true
  | _, _ => false
  end.

Definition double := spec_float.

Record token_t : Set := mk_token {
  type : token_type_t;
  value : text;
  number_value : double
}.

#[warnings="-register-all"]
Inductive json_value_t : Set :=
| JSON_OBJECT (members : list (text * json_value_t))
| JSON_ARRAY (elements : list json_value_t)
| JSON_STRING (s : text)
| JSON_NUMBER (number : double)
| JSON_BOOLEAN (boolean : bool)
| JSON_NULL.

(** The messages the program prints on standard error. *)
Inductive diagnostic : Set :=
| Unterminated_string (line column : Z)
    (* "Unterminated string at line %d, column %d" *)
| Leading_zero (line column : Z)
    (* "Invalid number with leading zero at line %d, column %d" *)
| Unexpected_character (c : ascii) (line column : Z)
    (* "Unexpected character '%c' at line %d, column %d" *)
| Invalid_token            (* "Parse error: Invalid token encountered" *)
| Unexpected_token_type    (* "Parse error: Unexpected token type" *)
| Expected_string_key      (* "Expected string key in object" *)
| Expected_colon           (* "Expected ':' after object key" *)
| Expected_comma_or_rbrace (* "Expected ',' or '}' in object" *)
| Expected_comma_or_rbracket (* "Expected ',' or ']' in array" *)
| Failed_to_parse          (* "Error: Failed to parse JSON" *)
| Extra_content (line column : Z).
    (* "Warning: Extra content after JSON at line %d, column %d" *)

(** The parser context.  The standard error stream, which every function
    that takes the context may write to, is carried along with it in the
    field [stderr] (the messages printed so far, oldest first). *)
Record parser_t : Set := mk_parser {
  input : text;
  pos : nat;
  length : nat;
  current_token : token_t;
  line : Z;
  column : Z;
  stderr : list diagnostic
}.

(** The characters [input[pos]], ..., [input[length - 1]]: what a loop
    guarded by [pos < length] can still read. *)
Definition remaining (p : parser_t) : text :=
  skipn (pos p) (firstn (length p) (input p)).

(** [parser->pos++; parser->column++;] *)
Definition step_column (p : parser_t) : parser_t :=
  mk_parser (input p) (S (pos p)) (length p) (current_token p)
            (line p) (column p + 1) (stderr p).

(** [parser->pos++; parser->line++; parser->column = 1;] *)
Definition step_line (p : parser_t) : parser_t :=
  mk_parser (input p) (S (pos p)) (length p) (current_token p)
            (line p + 1) 1 (stderr p).

(** [parser->pos += n; parser->column += n;] *)
Definition step_columns (n : nat) (p : parser_t) : parser_t :=
  mk_parser (input p) (pos p + n) (length p) (current_token p)
            (line p) (column p + Z.of_nat n) (stderr p).

Definition set_current_token (p : parser_t) (t : token_t) : parser_t :=
  mk_parser (input p) (pos p) (length p) t (line p) (column p) (stderr p).

(** [fprintf (stderr, ...)] *)
Definition report (p : parser_t) (d : diagnostic) : parser_t :=
  mk_parser (input p) (pos p) (length p) (current_token p) (line p) (column p)
            (stderr p ++ [d]).

(** ** Tokenizer (parser.c) *)

Definition zero : double := S754_zero false.

(** [token_t token = {ty, "", 0.0};] *)
Definition empty_token (ty : token_type_t) : token_t := mk_token ty [] zero.

Fixpoint skip_whitespace_loop (rest : text) (p : parser_t) : parser_t :=
  match rest with
  | [] => p
  | current_char :: rest' =>
      if (Ascii.eqb current_char " " || Ascii.eqb current_char TAB
          || Ascii.eqb current_char CR)%bool
      then skip_whitespace_loop rest' (step_column p)
      else if Ascii.eqb current_char LF
      then skip_whitespace_loop rest' (step_line p)
      else p
  end.

Definition tokenizer_skip_whitespace (p : parser_t) : parser_t :=
  skip_whitespace_loop (remaining p) p.

(** The character an escape sequence stands for; [None] is the [default:]
    case of the switch. *)
Definition unescape (escaped : ascii) : option ascii :=
  if Ascii.eqb escaped DQUOTE then Some DQUOTE
  else if Ascii.eqb escaped BACKSLASH then Some BACKSLASH
  else if Ascii.eqb escaped "/" then Some "/"%char
  else if Ascii.eqb escaped "b" then Some BS
  else if Ascii.eqb escaped "f" then Some FF
  else if Ascii.eqb escaped "n" then Some LF
  else if Ascii.eqb escaped "r" then Some CR
  else if Ascii.eqb escaped "t" then Some TAB
  else None.

(** [if (value_pos < MAX_TOKEN_SIZE - 1) token.value[value_pos++] = c;] *)
Definition push_guarded (buf : text) (c : ascii) : text :=
  if List.length buf <? MAX_TOKEN_SIZE - 1 then buf ++ [c] else buf.

(** The [while] loop of [tokenizer_parse_string_literal]; the result is
    [found_closing_quote], the buffer and the parser. *)
Fixpoint string_literal_loop (rest : text) (p : parser_t) (buf : text)
  : bool * text * parser_t :=
  match rest with
  | [] => (false, buf, p)
  | c :: rest' =>
      if MAX_TOKEN_SIZE - 1 <=? List.length buf then (false, buf, p)
      else if Ascii.eqb c DQUOTE then (true, buf, step_column p)
      else if Ascii.eqb c BACKSLASH then
        match rest' with
        | escaped :: rest'' =>
            let buf' :=
              match unescape escaped with
              | Some d => buf ++ [d]
              | None => push_guarded (buf ++ [BACKSLASH]) escaped
              end in
            string_literal_loop rest'' (step_column (step_column p)) buf'
        | [] => string_literal_loop rest' (step_column p) (buf ++ [c])
        end
      else string_literal_loop rest' (step_column p) (buf ++ [c])
  end.

Definition tokenizer_parse_string_literal (p : parser_t) : token_t * parser_t :=
  let p := step_column p in
  let '(found_closing_quote, buf, p) := string_literal_loop (remaining p) p [] in
  if found_closing_quote
  then (mk_token TOKEN_STRING buf zero, p)
  else (mk_token TOKEN_ERROR buf zero,
        report p (Unterminated_string (line p) (column p))).

(** *** [atof]

    [atof] belongs to the C library.  It is [strtod]: the longest prefix of
    the shape [-]digits[.digits][(e|E)[+|-]digits] with at least one mantissa
    digit is read (an exponent marker without digits is not part of it), and
    converted to the nearest binary64 value, ties to even; without a mantissa
    digit no conversion takes place and the result is [0.0]. *)

Definition prec : Z := 53.
Definition emax : Z := 1024.

Definition digit_value (c : ascii) : Z := Z.of_N (N_of_ascii c) - 48.

(** Reads a run of decimal digits: the number read so far, how many digits
    were read, and the rest of the text. *)
Fixpoint read_digits (s : text) (acc : Z) (count : nat) : Z * nat * text :=
  match s with
  | c :: s' =>
      if isdigit c then read_digits s' (10 * acc + digit_value c) (S count)
      else (acc, count, s)
  | [] => (acc, count, s)
  end.

(** [(-1)^sign * m * 10^e10] rounded to binary64. *)
Definition decimal_to_double (sign : bool) (m : Z) (e10 : Z) : double :=
  match m with
  | Zpos m' =>
      if 0 <=? e10
      then binary_normalize prec emax
             (if sign then - (m * 10 ^ e10) else m * 10 ^ e10) 0 sign
      else SFdiv prec emax (S754_finite sign m' 0)
             (S754_finite false (Z.to_pos (10 ^ (- e10))) 0)
  | _ => S754_zero sign
  end%Z.

Definition read_exponent (s : text) : Z :=
  match s with
  | c :: s' =>
      if (Ascii.eqb c "e" || Ascii.eqb c "E")%bool then
        let '(sign, s'') :=
          match s' with
          | d :: t => if Ascii.eqb d "-" then (true, t)
                      else if Ascii.eqb d "+" then (false, t)
                      else (false, s')
          | [] => (false, s')
          end in
        let '(e, count, _) := read_digits s'' 0%Z 0 in
        match count with
        | O => 0%Z
        | S _ => if sign then (- e)%Z else e
        end
      else 0%Z
  | [] => 0%Z
  end.

Definition atof (s : text) : double :=
  let '(sign, s) :=
    match s with
    | c :: s' => if Ascii.eqb c "-" then (true, s')
                 else if Ascii.eqb c "+" then (false, s')
                 else (false, s)
    | [] => (false, s)
    end in
  let '(int_part, int_count, s) := read_digits s 0%Z 0 in
  let '(mantissa, frac_count, s) :=
    match s with
    | c :: s' => if Ascii.eqb c "." then read_digits s' int_part 0
                 else (int_part, 0, s)
    | [] => (int_part, 0, s)
    end in
  match int_count + frac_count with
  | O => zero
  | S _ => decimal_to_double sign mantissa
             (read_exponent s - Z.of_nat frac_count)
  end.

(** *** Number, keyword and punctuation tokens *)

(** The three digit loops of [tokenizer_parse_numeric_literal]:
    [while (pos < length && isdigit (input[pos])) { guarded store; pos++; column++; }] *)
Fixpoint digits_loop (rest : text) (p : parser_t) (buf : text) : text * parser_t :=
  match rest with
  | c :: rest' =>
      if isdigit c then digits_loop rest' (step_column p) (push_guarded buf c)
      else (buf, p)
  | [] => (buf, p)
  end.

(** The exponent part. *)
Definition numeric_exponent (p : parser_t) (buf : text) : text * parser_t :=
  match remaining p with
  | c :: _ =>
      if (Ascii.eqb c "e" || Ascii.eqb c "E")%bool then
        let buf := push_guarded buf c in
        let p := step_column p in
        let '(buf, p) :=
          match remaining p with
          | d :: _ =>
              if (Ascii.eqb d "+" || Ascii.eqb d "-")%bool
              then (push_guarded buf d, step_column p)
              else (buf, p)
          | [] => (buf, p)
          end in
        digits_loop (remaining p) p buf
      else (buf, p)
  | [] => (buf, p)
  end.

(** The fractional part. *)
Definition numeric_fraction (p : parser_t) (buf : text) : text * parser_t :=
  match remaining p with
  | c :: _ =>
      if Ascii.eqb c "." then
        let buf := push_guarded buf c in
        let p := step_column p in
        digits_loop (remaining p) p buf
      else (buf, p)
  | [] => (buf, p)
  end.

(** After the integer part: fraction, exponent, and the conversion of the
    captured text. *)
Definition numeric_tail (buf : text) (p : parser_t) : token_t * parser_t :=
  let '(buf, p) := numeric_fraction p buf in
  let '(buf, p) := numeric_exponent p buf in
  (mk_token TOKEN_NUMBER buf (atof buf), p).

(** The integer part that does not start with [0]: a run of digits. *)
Definition numeric_digits (buf : text) (p : parser_t) : token_t * parser_t :=
  let '(buf, p) := digits_loop (remaining p) p buf in numeric_tail buf p.

(** After the optional sign: a single [0], which must not be followed by a
    digit, or a run of digits. *)
Definition numeric_integer_part (buf : text) (p : parser_t) : token_t * parser_t :=
  match remaining p with
  | c :: _ =>
      if Ascii.eqb c "0" then
        let buf := buf ++ [c] in
        let p := step_column p in
        match remaining p with
        | d :: _ =>
            if isdigit d
            then (mk_token TOKEN_ERROR buf zero,
                  report p (Leading_zero (line p) (column p)))
            else numeric_tail buf p
        | [] => numeric_tail buf p
        end
      else numeric_digits buf p
  | [] => numeric_digits buf p
  end.

Definition tokenizer_parse_numeric_literal (p : parser_t) : token_t * parser_t :=
  match remaining p with
  | c :: _ =>
      if Ascii.eqb c "-"
      then numeric_integer_part [c] (step_column p)
      else numeric_integer_part [] p
  | [] => numeric_integer_part [] p
  end.

Definition tokenizer_parse_keyword_literal (p : parser_t) : token_t * parser_t :=
  if starts_with (chars "true") (remaining p)
  then (mk_token TOKEN_TRUE (chars "true") zero, step_columns 4 p)
  else if starts_with (chars "false") (remaining p)
  then (mk_token TOKEN_FALSE (chars "false") zero, step_columns 5 p)
  else if starts_with (chars "null") (remaining p)
  then (mk_token TOKEN_NULL (chars "null") zero, step_columns 4 p)
  else (empty_token TOKEN_ERROR, p).

(** The six single-character tokens of the [switch]. *)
Definition punctuation (c : ascii) : option token_type_t :=
  if Ascii.eqb c "{" then Some TOKEN_LBRACE
  else if Ascii.eqb c "}" then Some TOKEN_RBRACE
  else if Ascii.eqb c "[" then Some TOKEN_LBRACKET
  else if Ascii.eqb c "]" then Some TOKEN_RBRACKET
  else if Ascii.eqb c ":" then Some TOKEN_COLON
  else if Ascii.eqb c "," then Some TOKEN_COMMA
  else None.

Definition tokenizer_get_next_token (p : parser_t) : token_t * parser_t :=
  let p := tokenizer_skip_whitespace p in
  match remaining p with
  | [] => (empty_token TOKEN_EOF, p)
  | c :: _ =>
      match punctuation c with
      | Some ty => (mk_token ty [c] zero, step_column p)
      | None =>
          if Ascii.eqb c DQUOTE then tokenizer_parse_string_literal p
          else if (Ascii.eqb c "-" || isdigit c)%bool
          then tokenizer_parse_numeric_literal p
          else if (Ascii.eqb c "t" || Ascii.eqb c "f" || Ascii.eqb c "n")%bool
          then tokenizer_parse_keyword_literal p
          else (empty_token TOKEN_ERROR,
                report p (Unexpected_character c (line p) (column p)))
      end
  end.

(** [parser->current_token = tokenizer_get_next_token (parser);] *)
Definition next_token (p : parser_t) : parser_t :=
  let '(t, p') := tokenizer_get_next_token p in set_current_token p' t.

Definition parser_initialize (input : text) : parser_t :=
  next_token (mk_parser input 0 (strlen input) (empty_token TOKEN_EOF) 1 1 []).

(** ** Parser (parser.c) *)

(** What a parse function hands back: the returned pointer ([None] is NULL)
    and the parser context it leaves, or [OutOfFuel] when the fuel given to
    the embedding did not suffice. *)
Inductive result : Set :=
| Ret (r : option json_value_t) (p : parser_t)
| OutOfFuel.

Definition current_type (p : parser_t) : token_type_t := type (current_token p).

Section Containers.

(** The recursive call to [json_parser_parse_value]. *)
Variable parse_value : parser_t -> result.

(** The [while (parser->current_token.type != TOKEN_EOF)] loop of
    [json_parser_parse_object]; [members] is the list hanging off
    [object->data.object]. *)
Fixpoint object_loop (fuel : nat) (p : parser_t)
         (members : list (text * json_value_t)) : result :=
  match fuel with
  | O => OutOfFuel
  | S fuel' =>
      if token_type_eqb (current_type p) TOKEN_EOF
      then Ret (Some (JSON_OBJECT members)) p
      else if negb (token_type_eqb (current_type p) TOKEN_STRING)
      then Ret None (report p Expected_string_key)
      else
        let key := value (current_token p) in
        let p := next_token p in
        if negb (token_type_eqb (current_type p) TOKEN_COLON)
        then Ret None (report p Expected_colon)
        else
          let p := next_token p in
          match parse_value p with
          | OutOfFuel => OutOfFuel
          | Ret None p => Ret None p
          | Ret (Some v) p =>
              let members := members ++ [(key, v)] in
              if token_type_eqb (current_type p) TOKEN_COMMA
              then object_loop fuel' (next_token p) members
              else if token_type_eqb (current_type p) TOKEN_RBRACE
              then Ret (Some (JSON_OBJECT members)) (next_token p)
              else Ret None (report p Expected_comma_or_rbrace)
          end
  end.

Definition json_parser_parse_object (fuel : nat) (p : parser_t) : result :=
  let p := next_token p in
  if token_type_eqb (current_type p) TOKEN_RBRACE
  then Ret (Some (JSON_OBJECT [])) (next_token p)
  else object_loop fuel p [].

(** The [while] loop of [json_parser_parse_array]. *)
Fixpoint array_loop (fuel : nat) (p : parser_t)
         (elements : list json_value_t) : result :=
  match fuel with
  | O => OutOfFuel
  | S fuel' =>
      if token_type_eqb (current_type p) TOKEN_EOF
      then Ret (Some (JSON_ARRAY elements)) p
      else
        match parse_value p with
        | OutOfFuel => OutOfFuel
        | Ret None p => Ret None p
        | Ret (Some v) p =>
            let elements := elements ++ [v] in
            if token_type_eqb (current_type p) TOKEN_COMMA
            then array_loop fuel' (next_token p) elements
            else if token_type_eqb (current_type p) TOKEN_RBRACKET
            then Ret (Some (JSON_ARRAY elements)) (next_token p)
            else Ret None (report p Expected_comma_or_rbracket)
        end
  end.

Definition json_parser_parse_array (fuel : nat) (p : parser_t) : result :=
  let p := next_token p in
  if token_type_eqb (current_type p) TOKEN_RBRACKET
  then Ret (Some (JSON_ARRAY [])) (next_token p)
  else array_loop fuel p [].

End Containers.

Fixpoint json_parser_parse_value (fuel : nat) (p : parser_t) : result :=
  match fuel with
  | O => OutOfFuel
  | S fuel' =>
      match current_type p with
      | TOKEN_LBRACE =>
          json_parser_parse_object (json_parser_parse_value fuel') fuel' p
      | TOKEN_LBRACKET =>
          json_parser_parse_array (json_parser_parse_value fuel') fuel' p
      | TOKEN_STRING =>
          Ret (Some (JSON_STRING (value (current_token p)))) (next_token p)
      | TOKEN_NUMBER =>
          Ret (Some (JSON_NUMBER (number_value (current_token p)))) (next_token p)
      | TOKEN_TRUE => Ret (Some (JSON_BOOLEAN true)) (next_token p)
      | TOKEN_FALSE => Ret (Some (JSON_BOOLEAN false)) (next_token p)
      | TOKEN_NULL => Ret (Some JSON_NULL) (next_token p)
      | TOKEN_ERROR => Ret None (report p Invalid_token)
      | _ => Ret None (report p Unexpected_token_type)
      end
  end.

Definition json_parser_parse_document (fuel : nat) (p : parser_t) : result :=
  json_parser_parse_value fuel p.

(** Fuel that always suffices (see [parse_value_fuel]): every nested call and
    every loop iteration has consumed at least one more character. *)
Definition enough_fuel (p : parser_t) : nat := S (S (List.length (remaining p))).

(** The parse entry point of the driver:
    [parser_initialize (&parser, text); json_parser_parse_document (&parser)]. *)
Definition parse (input : text) : result :=
  let p := parser_initialize input in
  json_parser_parse_document (enough_fuel p) p.

Definition succeeds (r : result) : bool :=
  match r with
  | Ret (Some _) _ => true
  | _ => false
  end.

Definition parsed_value (r : result) : option json_value_t :=
  match r with
  | Ret v _ => v
  | OutOfFuel => None
  end.

(** ** Writer (sexpr_output.c) *)

Fixpoint escape_loop (input_string : text) : text :=
  match input_string with
  | [] => []
  | current_char :: rest =>
      (if Ascii.eqb current_char DQUOTE then [BACKSLASH; DQUOTE]
       else if Ascii.eqb current_char BACKSLASH then [BACKSLASH; BACKSLASH]
       else if Ascii.eqb current_char LF then [BACKSLASH; "n"%char]
       else if Ascii.eqb current_char CR then [BACKSLASH; "r"%char]
       else if Ascii.eqb current_char TAB then [BACKSLASH; "t"%char]
       else [current_char]) ++ escape_loop rest
  end.

Definition string_utils_escape_for_lisp (input_string : text) : text :=
  [DQUOTE] ++ escape_loop input_string ++ [DQUOTE].

Definition SPACES_PER_LEVEL : nat := 2.

Definition output_formatter_write_indentation (indentation_level : nat) : text :=
  repeat " "%char (indentation_level * SPACES_PER_LEVEL).

(** *** Numbers: the cast to [long long], [%lld] and [%.15g] *)

Definition LLONG_MIN : Z := - 2 ^ 63.
Definition LLONG_MAX : Z := 2 ^ 63 - 1.

(** The value of a finite double with its fractional part dropped. *)
Definition truncate (x : double) : option Z :=
  match x with
  | S754_zero _ => Some 0%Z
  | S754_finite s m e =>
      let a := (if 0 <=? e then Zpos m * 2 ^ e else Zpos m / 2 ^ (- e))%Z in
      Some (if s then (- a)%Z else a)
  | _ => None
  end.

(** [(long long) x].  C defines the cast when the truncated value fits; for
    the other doubles (too large, infinite, NaN) the embedding takes what
    the x86-64 conversion instruction gives, [LLONG_MIN]. *)
Definition double_to_long_long (x : double) : Z :=
  match truncate x with
  | Some z => if ((LLONG_MIN <=? z)%Z && (z <=? LLONG_MAX)%Z)%bool then z else LLONG_MIN
  | None => LLONG_MIN
  end.

(** [(double) z]: the nearest binary64 value, ties to even. *)
Definition long_long_to_double (z : Z) : double :=
  binary_normalize prec emax z 0 false.

(** [printf ("%lld", z)] *)
Definition printf_lld (z : Z) : text :=
  chars (NilZero.string_of_int (Z.to_int z)).

(** [width] decimal digits of [n], most significant first. *)
Fixpoint decimal_digits (width : nat) (n : Z) : text :=
  match width with
  | O => []
  | S w => decimal_digits w (n / 10) ++ [ascii_of_N (Z.to_N (48 + n mod 10))]
  end.

Fixpoint strip_trailing_zeros_rev (r : text) : text :=
  match r with
  | c :: r' => if Ascii.eqb c "0" then strip_trailing_zeros_rev r' else r
  | [] => []
  end.

Definition strip_trailing_zeros (s : text) : text :=
  rev (strip_trailing_zeros_rev (rev s)).

(** [10^x <= num / den], for positive [num] and [den]. *)
Definition pow10_le (x num den : Z) : bool :=
  (if 0 <=? x then 10 ^ x * den <=? num else den <=? num * 10 ^ (- x))%Z.

(** The largest [x], searched downwards from [x0], with [10^x <= num / den]. *)
Fixpoint decimal_exponent (fuel : nat) (x0 num den : Z) : Z :=
  match fuel with
  | O => x0
  | S fuel' => if pow10_le x0 num den then x0
               else decimal_exponent fuel' (x0 - 1)%Z num den
  end.

(** [num / den] rounded to an integer, ties to even. *)
Definition round_half_even (num den : Z) : Z :=
  let q := (num / den)%Z in
  let r := (num mod den)%Z in
  match (2 * r ?= den)%Z with
  | Lt => q
  | Gt => (q + 1)%Z
  | Eq => if Z.even q then q else (q + 1)%Z
  end.

(** The 15 significant digits of [num / den] and their decimal exponent:
    [num / den] is [digits * 10^(x - 14)] up to rounding, with
    [10^14 <= digits < 10^15]. *)
Definition significant_digits (num den : Z) : Z * Z :=
  let x := decimal_exponent 700 308 num den in
  let q := (if 0 <=? 14 - x
            then round_half_even (num * 10 ^ (14 - x)) den
            else round_half_even num (den * 10 ^ (x - 14)))%Z in
  if (10 ^ 15 <=? q)%Z then ((q / 10)%Z, (x + 1)%Z) else (q, x).

Definition with_fraction (int_part frac : text) : text :=
  match strip_trailing_zeros frac with
  | [] => int_part
  | f => int_part ++ ["."%char] ++ f
  end.

(** [printf ("%.15g", x)]: style [%e] when the decimal exponent is below -4
    or at least 15, style [%f] otherwise, trailing zeros removed. *)
Definition printf_g15 (x : double) : text :=
  match x with
  | S754_zero s => if s then chars "-0" else chars "0"
  | S754_infinity s => if s then chars "-inf" else chars "inf"
  | S754_nan => chars "nan"
  | S754_finite s m e =>
      let '(num, den) :=
        (if 0 <=? e then (Zpos m * 2 ^ e, 1) else (Zpos m, 2 ^ (- e)))%Z in
      let '(digits, x10) := significant_digits num den in
      (if s then ["-"%char] else []) ++
      (if ((x10 <? -4)%Z || (15 <=? x10)%Z)%bool then
         with_fraction (decimal_digits 1 (digits / 10 ^ 14))
                       (decimal_digits 14 (digits mod 10 ^ 14))
         ++ ["e"%char] ++ (if (x10 <? 0)%Z then ["-"%char] else ["+"%char])
         ++ (if (Z.abs x10 <? 10)%Z then ["0"%char] else [])
         ++ printf_lld (Z.abs x10)
       else
         let scale := (14 - x10)%Z in
         with_fraction (printf_lld (digits / 10 ^ scale))
                       (decimal_digits (Z.to_nat scale) (digits mod 10 ^ scale)))
  end.

Definition write_number (number_value : double) : text :=
  let integer_value := double_to_long_long number_value in
  if SFeqb number_value (long_long_to_double integer_value)
  then printf_lld integer_value
  else printf_g15 number_value.

(** *** The tree walk *)

Section Children.

(** The recursive call to [sexpr_writer_write_value]. *)
Variable write_value : json_value_t -> nat -> text.

Fixpoint object_members_loop (member_node : list (text * json_value_t))
         (is_first_member : bool) (indentation_level : nat) : text :=
  match member_node with
  | [] => []
  | (key, v) :: next =>
      (if is_first_member then []
       else [LF] ++ output_formatter_write_indentation indentation_level)
      ++ chars "(json:" ++ key ++ chars " "
      ++ write_value v (indentation_level + 1)
      ++ chars ")"
      ++ object_members_loop next false indentation_level
  end.

Definition sexpr_writer_write_object_members
           (member_node : list (text * json_value_t)) (indentation_level : nat) : text :=
  object_members_loop member_node true indentation_level.

Fixpoint array_elements_loop (element_node : list json_value_t)
         (is_first_element : bool) (indentation_level : nat) : text :=
  match element_node with
  | [] => []
  | v :: next =>
      (if is_first_element then []
       else [LF] ++ output_formatter_write_indentation indentation_level)
      ++ write_value v indentation_level
      ++ array_elements_loop next false indentation_level
  end.

Definition sexpr_writer_write_array_elements
           (element_node : list json_value_t) (indentation_level : nat) : text :=
  array_elements_loop element_node true indentation_level.

End Children.

Fixpoint sexpr_writer_write_value (json_value : json_value_t)
         (indentation_level : nat) : text :=
  match json_value with
  | JSON_OBJECT [] => chars "(json:object)"
  | JSON_OBJECT members =>
      chars "(json:object" ++ [LF]
      ++ output_formatter_write_indentation (indentation_level + 1)
      ++ sexpr_writer_write_object_members sexpr_writer_write_value
           members (indentation_level + 1)
      ++ chars ")"
  | JSON_ARRAY [] => chars "(json:array)"
  | JSON_ARRAY elements =>
      chars "(json:array" ++ [LF]
      ++ output_formatter_write_indentation (indentation_level + 1)
      ++ sexpr_writer_write_array_elements sexpr_writer_write_value
           elements (indentation_level + 1)
      ++ chars ")"
  | JSON_STRING s => string_utils_escape_for_lisp s
  | JSON_NUMBER number => write_number number
  | JSON_BOOLEAN boolean => if boolean then chars "#t" else chars "#f"
  | JSON_NULL => chars "nil"
  end.

(** ** Driver (main.c) *)

(** What [main] does once the input text has been read, with standard output
    as the sink: the exit status, the text written to the output and the
    messages printed on standard error. *)
Record outcome : Set := mk_outcome {
  exit_status : Z;
  output : text;
  errors : list diagnostic
}.

Definition header : text :=
  chars ";; JSON to S-expression conversion" ++ [LF; LF].

Definition main (json_string : text) : outcome :=
  let parser := parser_initialize json_string in
  match json_parser_parse_document (enough_fuel parser) parser with
  | Ret (Some json_value) parser =>
      let parser :=
        if negb (token_type_eqb (current_type parser) TOKEN_EOF)
        then report parser (Extra_content (line parser) (column parser))
        else parser in
      mk_outcome 0
        (header ++ sexpr_writer_write_value json_value 0 ++ [LF])
        (stderr parser)
  | Ret None parser => mk_outcome 1 [] (stderr (report parser Failed_to_parse))
  | OutOfFuel => mk_outcome 1 [] []
  end.

(** ** Notions used by the statements *)

(** The parser context before the first token is read. *)
Definition start (input : text) : parser_t :=
  mk_parser input 0 (strlen input) (empty_token TOKEN_EOF) 1 1 [].

(** The context after [n] more tokens have been read. *)
Definition ahead (n : nat) (p : parser_t) : parser_t := Nat.iter n next_token p.

(** The types of the current token and of the [n - 1] tokens after it. *)
Fixpoint types (n : nat) (p : parser_t) : list token_type_t :=
  match n with
  | O => []
  | S n' => current_type p :: types n' (next_token p)
  end.

Definition is_space (c : ascii) : bool :=
  (Ascii.eqb c " " || Ascii.eqb c TAB || Ascii.eqb c CR || Ascii.eqb c LF)%bool.

(** [s] with the characters [ws] inserted before index [i]. *)
Definition insert_at (i : nat) (ws s : text) : text :=
  firstn i s ++ ws ++ skipn i s.

(** [i] is a token boundary of [input]: after [k] tokens, none of them an
    error token or the end of the input, the tokenizer stands at [i] or at
    some blanks before [i]. *)
Definition token_boundary (input : text) (i : nat) : Prop :=
  exists k,
    (forall j, 1 <= j <= k ->
               current_type (ahead j (start input)) <> TOKEN_EOF
               /\ current_type (ahead j (start input)) <> TOKEN_ERROR)
    /\ pos (ahead k (start input)) <= i <= strlen input
    /\ forallb is_space (firstn (i - pos (ahead k (start input)))
                                (remaining (ahead k (start input)))) = true.

(** The grammar of the parser over token types:
    a value is an object, an array, STRING, NUMBER, TRUE, FALSE or NULL;
    an object is LBRACE RBRACE or LBRACE members RBRACE;
    members are one or more members separated by COMMA;
    a member is STRING COLON value;
    an array is LBRACKET RBRACKET or LBRACKET elements RBRACKET;
    elements are one or more values separated by COMMA. *)
Inductive G_value : list token_type_t -> Prop :=
| G_string : G_value [TOKEN_STRING]
| G_number : G_value [TOKEN_NUMBER]
| G_true : G_value [TOKEN_TRUE]
| G_false : G_value [TOKEN_FALSE]
| G_null : G_value [TOKEN_NULL]
| G_object_empty : G_value [TOKEN_LBRACE; TOKEN_RBRACE]
| G_object ms : G_members ms -> G_value (TOKEN_LBRACE :: ms ++ [TOKEN_RBRACE])
| G_array_empty : G_value [TOKEN_LBRACKET; TOKEN_RBRACKET]
| G_array es : G_elements es -> G_value (TOKEN_LBRACKET :: es ++ [TOKEN_RBRACKET])
with G_members : list token_type_t -> Prop :=
| G_member v : G_value v -> G_members (TOKEN_STRING :: TOKEN_COLON :: v)
| G_member_more v ms :
    G_value v -> G_members ms ->
    G_members (TOKEN_STRING :: TOKEN_COLON :: v ++ TOKEN_COMMA :: ms)
with G_elements : list token_type_t -> Prop :=
| G_element v : G_value v -> G_elements v
| G_element_more v es :
    G_value v -> G_elements es -> G_elements (v ++ TOKEN_COMMA :: es).

(** A top-level container cut off by the end of the input directly after its
    opening bracket or after a comma. *)
Inductive G_cut_off : list token_type_t -> Prop :=
| G_cut_object : G_cut_off [TOKEN_LBRACE]
| G_cut_members ms : G_members ms -> G_cut_off (TOKEN_LBRACE :: ms ++ [TOKEN_COMMA])
| G_cut_array : G_cut_off [TOKEN_LBRACKET]
| G_cut_elements es : G_elements es -> G_cut_off (TOKEN_LBRACKET :: es ++ [TOKEN_COMMA]).

(** The whole token sequence of [input], up to the end of the input, is a
    value of the grammar. *)
Definition matches_grammar (input : text) : Prop :=
  exists n, G_value (types n (parser_initialize input))
            /\ current_type (ahead n (parser_initialize input)) = TOKEN_EOF.

(** The token sequence of [input] begins with a value of the grammar. *)
Definition begins_with_value (input : text) : Prop :=
  exists n, G_value (types n (parser_initialize input)).

(** The tokens of [input] are those of a cut-off container, and nothing
    more. *)
Definition cut_off (input : text) : Prop :=
  exists n, G_cut_off (types n (parser_initialize input))
            /\ current_type (ahead n (parser_initialize input)) = TOKEN_EOF.

(** The current token and the [n - 1] tokens after it. *)
Fixpoint tokens (n : nat) (p : parser_t) : list token_t :=
  match n with
  | O => []
  | S n' => current_token p :: tokens n' (next_token p)
  end.

(** [of_type ty t]: the token [t] is of type [ty]. *)
Definition of_type (ty : token_type_t) (t : token_t) : Prop := type t = ty.

(** The value that a token sequence of the grammar stands for: a STRING
    token stands for the string of its text, a NUMBER token for its number,
    TRUE, FALSE and NULL for the two booleans and null; an object for its
    members (the text of the key token and the value of what follows the
    colon) and an array for its elements, both in the order of the tokens. *)
Inductive V_value : list token_t -> json_value_t -> Prop :=
| V_string t : of_type TOKEN_STRING t -> V_value [t] (JSON_STRING (value t))
| V_number t : of_type TOKEN_NUMBER t -> V_value [t] (JSON_NUMBER (number_value t))
| V_true t : of_type TOKEN_TRUE t -> V_value [t] (JSON_BOOLEAN true)
| V_false t : of_type TOKEN_FALSE t -> V_value [t] (JSON_BOOLEAN false)
| V_null t : of_type TOKEN_NULL t -> V_value [t] JSON_NULL
| V_object_empty l r :
    of_type TOKEN_LBRACE l -> of_type TOKEN_RBRACE r -> V_value [l; r] (JSON_OBJECT [])
| V_object l ms members r :
    of_type TOKEN_LBRACE l -> V_members ms members -> of_type TOKEN_RBRACE r ->
    V_value (l :: ms ++ [r]) (JSON_OBJECT members)
| V_array_empty l r :
    of_type TOKEN_LBRACKET l -> of_type TOKEN_RBRACKET r -> V_value [l; r] (JSON_ARRAY [])
| V_array l es elements r :
    of_type TOKEN_LBRACKET l -> V_elements es elements -> of_type TOKEN_RBRACKET r ->
    V_value (l :: es ++ [r]) (JSON_ARRAY elements)
with V_members : list token_t -> list (text * json_value_t) -> Prop :=
| V_member k c ts v :
    of_type TOKEN_STRING k -> of_type TOKEN_COLON c -> V_value ts v ->
    V_members (k :: c :: ts) [(value k, v)]
| V_member_more k c ts v comma ms members :
    of_type TOKEN_STRING k -> of_type TOKEN_COLON c -> V_value ts v ->
    of_type TOKEN_COMMA comma -> V_members ms members ->
    V_members (k :: c :: ts ++ comma :: ms) ((value k, v) :: members)
with V_elements : list token_t -> list json_value_t -> Prop :=
| V_element ts v : V_value ts v -> V_elements ts [v]
| V_element_more ts v comma es elements :
    V_value ts v -> of_type TOKEN_COMMA comma -> V_elements es elements ->
    V_elements (ts ++ comma :: es) (v :: elements).

(** The mantissa of a decimal numeral: digits, and digits after a point if
    there is one.  The result is the number that all these digits make, how
    many digits stand before and after the point, and the rest of the
    text. *)
Definition read_mantissa (s : text) : Z * nat * nat * text :=
  let '(int_part, int_count, s) := read_digits s 0%Z 0 in
  match s with
  | c :: s' =>
      if Ascii.eqb c "."
      then let '(mantissa, frac_count, s) := read_digits s' int_part 0 in
           (mantissa, int_count, frac_count, s)
      else (int_part, int_count, 0, s)
  | [] => (int_part, int_count, 0, s)
  end.

(** What follows the [e] of a decimal numeral: an optional sign and at least
    one digit, up to the end of the text. *)
Definition read_exponent_digits (s : text) : option Z :=
  let '(negative, s) :=
    match s with
    | c :: s' => if Ascii.eqb c "-" then (true, s')
                 else if Ascii.eqb c "+" then (false, s')
                 else (false, s)
    | [] => (false, s)
    end in
  let '(e, count, rest) := read_digits s 0%Z 0 in
  match count, rest with
  | S _, [] => Some (if negative then (- e)%Z else e)
  | _, _ => None
  end.

(** The decimal numeral [s] read as (negative, mantissa, exponent), which
    stands for the number [+- mantissa * 10^exponent]: an optional [-],
    digits, an optional point followed by digits, and an optional [e] with a
    sign and digits; [None] when [s] is not of that shape. *)
Definition read_decimal (s : text) : option (bool * Z * Z) :=
  let '(negative, s) :=
    match s with
    | c :: s' => if Ascii.eqb c "-" then (true, s') else (false, s)
    | [] => (false, s)
    end in
  let '(mantissa, int_count, frac_count, s) := read_mantissa s in
  match int_count with
  | O => None
  | S _ =>
      match s with
      | [] => Some (negative, mantissa, (- Z.of_nat frac_count)%Z)
      | c :: s' =>
          if Ascii.eqb c "e" then
            match read_exponent_digits s' with
            | Some e => Some (negative, mantissa, (e - Z.of_nat frac_count)%Z)
            | None => None
            end
          else None
      end
  end.

(** The magnitude of the finite number with mantissa [m] and exponent [e],
    as the fraction [num / den]. *)
Definition magnitude (m : positive) (e : Z) : Z * Z :=
  (if 0 <=? e then (Zpos m * 2 ^ e, 1) else (Zpos m, 2 ^ (- e)))%Z.

(** [fifteen_digits num den d x10]: the fraction [num / den] rounded to 15
    significant decimal digits is [d * 10^(x10 - 14)]: [d] has 15 digits and
    differs from [num / den * 10^(14 - x10)] by one half at most. *)
Definition fifteen_digits (num den d x10 : Z) : Prop :=
  (10 ^ 14 <= d < 10 ^ 15
   /\ if 0 <=? 14 - x10
      then 2 * Z.abs (num * 10 ^ (14 - x10) - d * den) <= den
      else 2 * Z.abs (num - d * (den * 10 ^ (x10 - 14))) <= den * 10 ^ (x10 - 14))%Z.

(** [reads_as s negative d x10]: the text [s] is a decimal numeral that
    stands for [+- d * 10^(x10 - 14)]; its mantissa is [d] without some of
    its trailing zeros. *)
Definition reads_as (s : text) (negative : bool) (d x10 : Z) : Prop :=
  exists mantissa exponent j,
    read_decimal s = Some (negative, mantissa, exponent)
    /\ (0 <= j /\ mantissa * 10 ^ j = d /\ exponent = x10 - 14 + j)%Z.

(** ** The concrete scenario of the specification *)

Definition scenario : text := json "{'a':1,'b':[true,false,null]}".

Definition indent (n : nat) : text := repeat " "%char n.

(** The expected body, with the elements of the nested array indented by [n]
    spaces. *)
Definition scenario_body (n : nat) : text :=
  chars "(json:object" ++ [LF]
  ++ indent 2 ++ chars "(json:a 1)" ++ [LF]
  ++ indent 2 ++ chars "(json:b (json:array" ++ [LF]
  ++ indent n ++ chars "#t" ++ [LF]
  ++ indent n ++ chars "#f" ++ [LF]
  ++ indent n ++ chars "nil)))".

(** The rendering, at depth 0, of the tree parsed from [input]. *)
Definition render (input : text) : option text :=
  match parse input with
  | Ret (Some v) _ => Some (sexpr_writer_write_value v 0)
  | _ => None
  end.

(** The stated rule of position tracking: what consuming the character [c]
    does to the line and the column. *)
Definition advance (lc : Z * Z) (c : ascii) : Z * Z :=
  if Ascii.eqb c LF then (fst lc + 1, 1)%Z else (fst lc, snd lc + 1)%Z.

(** The line and the column of a parser context. *)
Definition position (p : parser_t) : Z * Z := (line p, column p).

(** The characters consumed between the contexts [p] and [p']. *)
Definition consumed (p p' : parser_t) : text :=
  firstn (pos p' - pos p) (remaining p).

(** One half as a binary64 number: 2^52 * 2^-53. *)
Definition half : double := S754_finite false (2 ^ 52) (-53).

(** [double_is x z]: the number [x] is the integer [z] (for a negative
    exponent [e], [x = z] is stated as [z * 2^(-e) = +-m]). *)
Definition double_is (x : double) (z : Z) : Prop :=
  match x with
  | S754_zero _ => z = 0%Z
  | S754_finite s m e =>
      let v := if s then Zneg m else Zpos m in
      if (0 <=? e)%Z then z = (v * 2 ^ e)%Z else (z * 2 ^ (- e))%Z = v
  | _ => False
  end.

(** The number equals its own truncation toward zero, and that integer fits
    a [long long]. *)
Definition equals_own_truncation (x : double) : Prop :=
  exists z, truncate x = Some z /\ double_is x z
            /\ (LLONG_MIN <= z <= LLONG_MAX)%Z.

(** The content of a string literal and the text after its closing quote,
    read from the character after the opening quote with no bound on the
    length; [None] when the closing quote is missing. *)
Fixpoint string_content (s : text) : option (text * text) :=
  match s with
  | [] => None
  | c :: s' =>
      if Ascii.eqb c DQUOTE then Some ([], s')
      else if Ascii.eqb c BACKSLASH then
        match s' with
        | escaped :: s'' =>
            match string_content s'' with
            | Some (content, rest) =>
                Some (match unescape escaped with
                      | Some d => d :: content
                      | None => BACKSLASH :: escaped :: content
                      end, rest)
            | None => None
            end
        | [] => None
        end
      else
        match string_content s' with
        | Some (content, rest) => Some (c :: content, rest)
        | None => None
        end
  end.

(** The messages of the tokenizer, as opposed to those of the parser and of
    the driver. *)
Definition lexical (d : diagnostic) : bool :=
  match d with
  | Unterminated_string _ _ | Leading_zero _ _ | Unexpected_character _ _ _ => true
  | _ => false
  end.

(** The messages with which a parse function gives up. *)
Definition parse_error (d : diagnostic) : bool :=
  match d with
  | Invalid_token | Unexpected_token_type | Expected_string_key | Expected_colon
  | Expected_comma_or_rbrace | Expected_comma_or_rbracket => true
  | _ => false
  end.

(** The messages printed between two parser contexts. *)
Definition printed (p p' : parser_t) : list diagnostic :=
  skipn (List.length (stderr p)) (stderr p').

(** ** Notions used by the proofs *)

(** [moved n p p']: [p'] is [p] with the cursor [n] characters further, [n]
    being at most the number of characters left. *)
Definition moved (n : nat) (p p' : parser_t) : Prop :=
  input p' = input p /\ length p' = length p /\ pos p' = pos p + n
  /\ n <= List.length (remaining p)
  /\ exists l, stderr p' = stderr p ++ l /\ forallb lexical l = true.

(** A token that is neither the end of the input nor an error. *)
Definition proper (ty : token_type_t) : Prop :=
  ty <> TOKEN_EOF /\ ty <> TOKEN_ERROR.

(** [chars_left p]: the number of characters not read yet. *)
Definition chars_left (p : parser_t) : nat := List.length (remaining p).

(** The tokens a container starts with. *)
Definition opener (ty : token_type_t) : Prop :=
  ty = TOKEN_LBRACE \/ ty = TOKEN_LBRACKET.

(** What a parse function leaves behind: it returns, it does not move the
    cursor backwards, and after a success whose lookahead is a proper token
    the cursor has moved forwards. *)
Definition shrinks (p : parser_t) (res : result) : Prop :=
  match res with
  | Ret r p' =>
      chars_left p' <= chars_left p
      /\ (r <> None -> proper (current_type p') -> chars_left p' < chars_left p)
  | OutOfFuel => False
  end.

(** The context a parse function returns: [n] tokens further, and, when the
    function returns NULL, one parse error printed after that. *)
Definition left_at (p : parser_t) (r : option json_value_t) (p' : parser_t) : Prop :=
  match r with
  | Some _ => exists n, p' = ahead n p
  | None => exists n d, parse_error d = true /\ p' = report (ahead n p) d
  end.

(** [leaves p res]: a result that returns is left at such a context. *)
Definition leaves (p : parser_t) (res : result) : Prop :=
  match res with
  | Ret r p' => left_at p r p'
  | OutOfFuel => True
  end.

(** Induction over the three mutually defined grammar predicates at once. *)
Scheme G_value_min := Minimality for G_value Sort Prop
  with G_members_min := Minimality for G_members Sort Prop
  with G_elements_min := Minimality for G_elements Sort Prop.

Combined Scheme G_mutual_ind from G_value_min, G_members_min, G_elements_min.

(** [reads ts p]: the current token and the tokens after it have the types [ts]. *)
Definition reads (ts : list token_type_t) (p : parser_t) : Prop :=
  types (List.length ts) p = ts.

(** The token a value starts with. *)
Definition value_start (t : token_type_t) : Prop :=
  match t with
  | TOKEN_LBRACE | TOKEN_LBRACKET | TOKEN_STRING | TOKEN_NUMBER
  | TOKEN_TRUE | TOKEN_FALSE | TOKEN_NULL => True
  | _ => False
  end.

(** The parse functions accept the token sequences of the grammar: with
    enough fuel they return a value and stop just after the sequence; the
    two loops are entered after the opening bracket and stop after the
    closing one. *)
Definition accepts_value (ts : list token_type_t) : Prop :=
  forall p, reads ts p ->
    exists F v, forall f, F <= f ->
      json_parser_parse_value f p = Ret (Some v) (ahead (List.length ts) p).

Definition accepts_members (ms : list token_type_t) : Prop :=
  forall p, reads ms p -> current_type (ahead (List.length ms) p) = TOKEN_RBRACE ->
    exists F vs, forall f n members, F <= f -> F <= n ->
      object_loop (json_parser_parse_value f) n p members
      = Ret (Some (JSON_OBJECT (members ++ vs))) (ahead (S (List.length ms)) p).

Definition accepts_elements (es : list token_type_t) : Prop :=
  forall p, reads es p -> current_type (ahead (List.length es) p) = TOKEN_RBRACKET ->
    exists F vs, forall f n elements, F <= f -> F <= n ->
      array_loop (json_parser_parse_value f) n p elements
      = Ret (Some (JSON_ARRAY (elements ++ vs))) (ahead (S (List.length es)) p).

(** The tokens a successful parse function has read. *)
Definition read_value (p p' : parser_t) : Prop :=
  exists n, p' = ahead n p
            /\ (G_value (types n p)
                \/ (G_cut_off (types n p) /\ current_type p' = TOKEN_EOF)).

(** A parse function that succeeds only after reading such tokens. *)
Definition sound (pv : parser_t -> result) : Prop :=
  forall p v p', pv p = Ret (Some v) p' -> read_value p p'.

(** The tokens a successful loop has read: nothing (the input ends), or
    children and then the closing bracket [close], or children, a comma and
    then the input ends. *)
Definition read_children (G : list token_type_t -> Prop) (close : token_type_t)
           (p p' : parser_t) : Prop :=
  (current_type p = TOKEN_EOF /\ p' = p)
  \/ exists k, G (types k p) /\ p' = ahead (S k) p
               /\ (current_type (ahead k p) = close
                   \/ (current_type (ahead k p) = TOKEN_COMMA
                       /\ current_type p' = TOKEN_EOF)).

(** Two results of a tokenizer function that agree on what was computed and
    on the characters left. *)
Definition same_out (A : Type) (x y : A * parser_t) : Prop :=
  fst x = fst y /\ remaining (snd x) = remaining (snd y).

(** [same_view p q]: the same current token and the same characters left. *)
Definition same_view (p q : parser_t) : Prop :=
  current_token p = current_token q /\ remaining p = remaining q.

(** [same_tokens p q]: the current token and all the tokens read after it are
    the same from [p] and from [q]. *)
Definition same_tokens (p q : parser_t) : Prop :=
  forall n, current_token (ahead n p) = current_token (ahead n q).

(** Two results that agree: the same value and the same tokens to come, or
    a failure on both sides. *)
Definition agree (res res' : result) : Prop :=
  match res, res' with
  | Ret (Some v) p', Ret (Some w) q' => v = w /\ same_tokens p' q'
  | Ret None _, Ret None _ => True
  | OutOfFuel, OutOfFuel => True
  | _, _ => False
  end.

(** The test [P] on the first character of [l], false at the end of the
    text: a loop guard [pos < length && P (input[pos])]. *)
Definition test (P : ascii -> bool) (l : text) : bool :=
  match l with
  | c :: _ => P c
  | [] => false
  end.

(** [halts r2 s]: a token that stops before the text [s] also stops before
    the text [r2], which starts with a blank or with the first character of
    [s], or is empty. *)
Definition halts (r2 s : text) : Prop :=
  match r2 with
  | [] => True
  | w :: _ => is_space w = true \/ hd_error s = Some w
  end.

(** A character test that no blank passes. *)
Definition blank_free (P : ascii -> bool) : Prop :=
  forall w, is_space w = true -> P w = false.

(** The characters of the C string [s]. *)
Definition c_string (s : text) : text := firstn (strlen s) s.

(** The keyword whose text the characters [s] start with, if any. *)
Definition keyword_at (s : text) : token_type_t :=
  if starts_with (chars "true") s then TOKEN_TRUE
  else if starts_with (chars "false") s then TOKEN_FALSE
  else if starts_with (chars "null") s then TOKEN_NULL
  else TOKEN_ERROR.

(** A string literal with 1023 characters [a] between its quotes. *)
Definition long_literal : text := DQUOTE :: repeat "a"%char 1023 ++ [DQUOTE].

(** The mantissa [a] shifted left by [k] bits, for [k >= 0]. *)
Definition shl (a : positive) (k : Z) : positive :=
  match k with
  | Zpos k' => Pos.iter xO a k'
  | _ => a
  end.

(** [flat p p']: from [p] to [p'] the line has not changed and the column has
    grown by as much as the position. *)
Definition flat (p p' : parser_t) : Prop :=
  line p' = line p
  /\ (column p' - Z.of_nat (pos p') = column p - Z.of_nat (pos p))%Z.

(** Induction over the three predicates of the values at once. *)
Scheme V_value_min := Minimality for V_value Sort Prop
  with V_members_min := Minimality for V_members Sort Prop
  with V_elements_min := Minimality for V_elements Sort Prop.

Combined Scheme V_mutual_ind from V_value_min, V_members_min, V_elements_min.

(** [holds ts p]: the current token and the tokens after it are [ts]. *)
Definition holds (ts : list token_t) (p : parser_t) : Prop :=
  tokens (List.length ts) p = ts.

(** The number that the digits [a] make when read after [acc]. *)
Definition value_after (a : text) (acc : Z) : Z := fst (fst (read_digits a acc 0)).

(** ** Reading the input (main.c) *)

(** A block of [char] obtained from [malloc]: a cell is [None] until it is
    written. *)
Definition block := list (option ascii).

Definition malloc (size : nat) : block := repeat None size.

(** [realloc (buffer, size)], for a [size] that is not smaller: the cells
    are kept and new ones follow. *)
Definition realloc (buffer : block) (size : nat) : block :=
  firstn size buffer ++ repeat None (size - List.length buffer).

(** [buffer[index] = c]; [None] when [index] is outside the block. *)
Fixpoint store (buffer : block) (index : nat) (c : ascii) : option block :=
  match buffer, index with
  | [], _ => None
  | _ :: cells, O => Some (Some c :: cells)
  | cell :: cells, S index' =>
      match store cells index' c with
      | Some cells' => Some (cell :: cells')
      | None => None
      end
  end.

(** The C string that starts a block: the cells before the first NUL;
    [None] when a cell that was never written, or the end of the block, comes
    first. *)
Fixpoint string_of_block (buffer : block) : option text :=
  match buffer with
  | [] => None
  | None :: _ => None
  | Some c :: cells =>
      if Ascii.eqb c NUL then Some []
      else match string_of_block cells with
           | Some s => Some (c :: s)
           | None => None
           end
  end.

(** The [while ((c = getchar ()) != EOF)] loop of [read_stdin_to_string]:
    [stdin] is what is left of the standard input. *)
Fixpoint read_stdin_loop (stdin : text) (capacity size : nat) (buffer : block)
  : option (nat * nat * block) :=
  match stdin with
  | [] => Some (capacity, size, buffer)
  | c :: stdin' =>
      let '(capacity, buffer) :=
        if capacity - 1 <=? size
        then (capacity * 2, realloc buffer (capacity * 2))
        else (capacity, buffer) in
      match store buffer size c with
      | Some buffer => read_stdin_loop stdin' capacity (S size) buffer
      | None => None
      end
  end.

Definition read_stdin_to_string (stdin : text) : option block :=
  match read_stdin_loop stdin 1024 0 (malloc 1024) with
  | Some (_, size, buffer) => store buffer size NUL
  | None => None
  end.


(** ** The command line (main.c) *)

(** What [main] prints on standard error besides the messages of the
    tokenizer, the parser and the conversion. *)
Inductive driver_message : Set :=
| Usage (program_name : text)        (* the lines of [print_usage] *)
| Option_o_requires_filename         (* "Error: -o requires an output filename" *)
| Unknown_option (argument : text)   (* "Error: Unknown option %s" *)
| Multiple_input_files               (* "Error: Multiple input files specified" *)
| Error_opening_file                 (* perror ("Error opening file") *)
| Error_opening_output_file          (* perror ("Error opening output file") *)
| Conversion (d : diagnostic).

(** The three local variables that the argument loop of [main] sets. *)
Record options : Set := mk_options {
  input_filename : option text;
  output_filename : option text;
  pretty_print : bool
}.

(** What the argument loop ends with: the options, or a [return] from
    [main] with what was printed. *)
Inductive arguments : Set :=
| Proceed (o : options)
| Return (status : Z) (printed : list driver_message).

(** [strcmp (a, b) == 0] *)
Definition strcmp_eq (a b : text) : bool :=
  if list_eq_dec ascii_dec a b then true else false.

(** The [for (int i = 1; i < argc; i++)] loop of [main] over [argv[1]],
    ..., [argv[argc - 1]]. *)
Fixpoint main_arguments (program_name : text) (argv : list text) (o : options)
  : arguments :=
  match argv with
  | [] => Proceed o
  | argument :: argv' =>
      if (strcmp_eq argument (chars "-h") || strcmp_eq argument (chars "--help"))%bool
      then Return 0 [Usage program_name]
      else if (strcmp_eq argument (chars "-p")
               || strcmp_eq argument (chars "--pretty"))%bool
      then main_arguments program_name argv'
             (mk_options (input_filename o) (output_filename o) true)
      else if strcmp_eq argument (chars "-o") then
        match argv' with
        | [] => Return 1 [Option_o_requires_filename; Usage program_name]
        | filename :: argv'' =>
            main_arguments program_name argv''
              (mk_options (input_filename o) (Some filename) (pretty_print o))
        end
      else if match argument with
              | c :: _ => Ascii.eqb c "-"
              | [] => false
              end
      then Return 1 [Unknown_option argument; Usage program_name]
      else
        match input_filename o with
        | Some _ => Return 1 [Multiple_input_files; Usage program_name]
        | None =>
            main_arguments program_name argv'
              (mk_options (Some argument) (output_filename o) (pretty_print o))
        end
  end.

(** What a run of the program finds around it: the bytes on its standard
    input, the files it can open for reading with their contents, and the
    files it can open for writing. *)
Record environment : Type := mk_environment {
  standard_input : text;
  readable : text -> option text;
  writable : text -> bool
}.

(** What a run leaves behind: its exit status, what it wrote to the standard
    output, the file it wrote with its contents, and what it printed on
    standard error. *)
Record run : Set := mk_run {
  run_status : Z;
  run_stdout : text;
  run_file : option (text * text);
  run_stderr : list driver_message
}.

(** [read_file_to_string]: the contents of the file as a C string and
    nothing printed, or [NULL] after [perror ("Error opening file")] when
    the file cannot be opened.  Getting the size of an opened file and
    [malloc] are taken to succeed, here as everywhere. *)
Definition read_file_to_string (env : environment) (filename : text)
  : option text * list driver_message :=
  match readable env filename with
  | Some contents => (Some (c_string contents), [])
  | None => (None, [Error_opening_file])
  end.

(** [main], from its arguments on.  The part between the reading of the
    input and the writing of the output is [main] above, whose output text
    goes to the file named by [-o] when there is one.  The buffer of
    [read_stdin_to_string] is read as the C string it starts with; a store
    outside that buffer ends the run like a [NULL] from the reader. *)
Definition main_program (env : environment) (program_name : text) (argv : list text)
  : run :=
  match main_arguments program_name argv (mk_options None None false) with
  | Return status printed => mk_run status [] None printed
  | Proceed o =>
      let '(json_string, printed_reading) :=
        match input_filename o with
        | Some filename => read_file_to_string env filename
        | None =>
            match read_stdin_to_string (standard_input env) with
            | Some buffer => (string_of_block buffer, [])
            | None => (None, [])
            end
        end in
      match json_string with
      | None => mk_run 1 [] None printed_reading
      | Some json_string =>
          let converted := main json_string in
          let printed := printed_reading ++ map Conversion (errors converted) in
          if (exit_status converted =? 0)%Z then
            match output_filename o with
            | None => mk_run 0 (output converted) None printed
            | Some filename =>
                if writable env filename
                then mk_run 0 [] (Some (filename, output converted)) printed
                else mk_run 1 [] None (printed ++ [Error_opening_output_file])
            end
          else mk_run 1 [] None printed
      end
  end.

(** The options that matter: the two file names. *)
Definition same_files (o o' : options) : Prop :=
  input_filename o = input_filename o' /\ output_filename o = output_filename o'.

(** Two ends of the argument loop that differ in the [-p] flag at most. *)
Definition same_arguments (a a' : arguments) : Prop :=
  match a, a' with
  | Proceed o, Proceed o' => same_files o o'
  | Return status printed, Return status' printed' =>
      status = status' /\ printed = printed'
  | _, _ => False
  end.

(** ** Memory (memory.c)

    The tree as it lies in memory: blocks obtained from [malloc], linked by
    pointers.  A pointer is a number, [NULL] is 0. *)

Definition pointer := nat.

Definition NULL : pointer := 0.

(** The [data] of a [json_value_t], tagged by its [type]. *)
Inductive value_block : Set :=
| Object_block (object : pointer)
| Array_block (array : pointer)
| String_block (string : pointer)
| Number_block (number : double)
| Boolean_block (boolean : bool)
| Null_block.

(** What a block holds: a [json_value_t], a [json_member_t], a
    [json_element_t] or the characters of a string. *)
Inductive cell : Set :=
| Value_cell (v : value_block)
| Member_cell (key value next : pointer)
| Element_cell (value next : pointer)
| Chars_cell (s : text).

(** The allocated blocks. *)
Definition heap := pointer -> option cell.

(** [free (a)]: nothing for [NULL]; [None] (the behaviour is undefined) when
    [a] is not an allocated block. *)
Definition free (h : heap) (a : pointer) : option heap :=
  if a =? NULL then Some h
  else match h a with
       | Some _ => Some (fun b => if b =? a then None else h b)
       | None => None
       end.

(** The three functions of memory.c.  The result is [None] when fuel runs
    out or when the behaviour is undefined: a block is read that is not
    there or is of another kind, or [free] is given something that is not
    an allocated block. *)
Fixpoint json_memory_free_value (fuel : nat) (h : heap) (json_value : pointer)
  : option heap :=
  match fuel with
  | O => None
  | S fuel' =>
      if json_value =? NULL then Some h
      else
        match h json_value with
        | Some (Value_cell v) =>
            let freed :=
              match v with
              | Object_block object => json_memory_free_object_member fuel' h object
              | Array_block array => json_memory_free_array_element fuel' h array
              | String_block string => free h string
              | Number_block _ | Boolean_block _ | Null_block => Some h
              end in
            match freed with
            | Some h' => free h' json_value
            | None => None
            end
        | _ => None
        end
  end
with json_memory_free_object_member (fuel : nat) (h : heap) (member_node : pointer)
  : option heap :=
  match fuel with
  | O => None
  | S fuel' =>
      if member_node =? NULL then Some h
      else
        match h member_node with
        | Some (Member_cell key value next_member) =>
            match free h key with
            | Some h1 =>
                match json_memory_free_value fuel' h1 value with
                | Some h2 =>
                    match free h2 member_node with
                    | Some h3 => json_memory_free_object_member fuel' h3 next_member
                    | None => None
                    end
                | None => None
                end
            | None => None
            end
        | _ => None
        end
  end
with json_memory_free_array_element (fuel : nat) (h : heap) (element_node : pointer)
  : option heap :=
  match fuel with
  | O => None
  | S fuel' =>
      if element_node =? NULL then Some h
      else
        match h element_node with
        | Some (Element_cell value next_element) =>
            match json_memory_free_value fuel' h value with
            | Some h1 =>
                match free h1 element_node with
                | Some h2 => json_memory_free_array_element fuel' h2 next_element
                | None => None
                end
            | None => None
            end
        | _ => None
        end
  end.

(** [represents h a v blocks]: the blocks [blocks] of the heap [h] hold the
    tree [v], as the parser builds it, with its root at [a]. *)
Inductive represents (h : heap) : pointer -> json_value_t -> list pointer -> Prop :=
| represents_object a object members blocks :
    a <> NULL -> h a = Some (Value_cell (Object_block object)) ->
    represents_members h object members blocks ->
    represents h a (JSON_OBJECT members) (blocks ++ [a])
| represents_array a array elements blocks :
    a <> NULL -> h a = Some (Value_cell (Array_block array)) ->
    represents_elements h array elements blocks ->
    represents h a (JSON_ARRAY elements) (blocks ++ [a])
| represents_string a string s :
    a <> NULL -> h a = Some (Value_cell (String_block string)) ->
    string <> NULL -> h string = Some (Chars_cell s) ->
    represents h a (JSON_STRING s) [string; a]
| represents_number a number :
    a <> NULL -> h a = Some (Value_cell (Number_block number)) ->
    represents h a (JSON_NUMBER number) [a]
| represents_boolean a boolean :
    a <> NULL -> h a = Some (Value_cell (Boolean_block boolean)) ->
    represents h a (JSON_BOOLEAN boolean) [a]
| represents_null a :
    a <> NULL -> h a = Some (Value_cell Null_block) ->
    represents h a JSON_NULL [a]
with represents_members (h : heap)
  : pointer -> list (text * json_value_t) -> list pointer -> Prop :=
| represents_no_member : represents_members h NULL [] []
| represents_member a key_pointer key value v next members blocks blocks' :
    a <> NULL -> h a = Some (Member_cell key_pointer value next) ->
    key_pointer <> NULL -> h key_pointer = Some (Chars_cell key) ->
    represents h value v blocks ->
    represents_members h next members blocks' ->
    represents_members h a ((key, v) :: members)
                       (key_pointer :: blocks ++ a :: blocks')
with represents_elements (h : heap)
  : pointer -> list json_value_t -> list pointer -> Prop :=
| represents_no_element : represents_elements h NULL [] []
| represents_element a value v next elements blocks blocks' :
    a <> NULL -> h a = Some (Element_cell value next) ->
    represents h value v blocks ->
    represents_elements h next elements blocks' ->
    represents_elements h a (v :: elements) (blocks ++ a :: blocks').

Scheme represents_min := Minimality for represents Sort Prop
  with represents_members_min := Minimality for represents_members Sort Prop
  with represents_elements_min := Minimality for represents_elements Sort Prop.

Combined Scheme represents_mutual_ind
  from represents_min, represents_members_min, represents_elements_min.

(** [released blocks h h']: [h'] is [h] without the blocks [blocks]. *)
Definition released (blocks : list pointer) (h h' : heap) : Prop :=
  forall b, h' b = if existsb (Nat.eqb b) blocks then None else h b.

(** [frees f a blocks h]: called with a heap that holds the blocks [blocks]
    as [h] does, [f] returns, given enough fuel, that heap without these
    blocks. *)
Definition frees (f : nat -> heap -> pointer -> option heap)
           (a : pointer) (blocks : list pointer) (h : heap) : Prop :=
  forall h0,
    (forall b, In b blocks -> h0 b = h b) ->
    exists F h',
      released blocks h0 h'
      /\ forall fuel, F <= fuel -> f fuel h0 a = Some h'.

(** ** Notions used by the further properties *)

(** A token buffer that leaves room for the terminating NUL and holds none. *)
Definition well_formed_buffer (buf : text) : Prop :=
  List.length buf <= MAX_TOKEN_SIZE - 1 /\ ~ In NUL buf.

(** The characters a token can start with. *)
Definition token_start (c : ascii) : bool :=
  match punctuation c with
  | Some _ => true
  | None =>
      (Ascii.eqb c DQUOTE || (Ascii.eqb c "-" || isdigit c)
       || (Ascii.eqb c "t" || Ascii.eqb c "f" || Ascii.eqb c "n"))%bool
  end.

(** The decimal digits of [d] as text. *)
Definition digits_of (d : Decimal.uint) : text := chars (NilEmpty.string_of_uint d).

(** [parses p v p']: [json_parser_parse_value], called with the context [p],
    returns the value [v] and leaves the context [p']. *)
Definition parses (p : parser_t) (v : json_value_t) (p' : parser_t) : Prop :=
  exists fuel, json_parser_parse_value fuel p = Ret (Some v) p'.

(** The members of an object as the text has them, from the first key to
    the closing brace: each member is a STRING token (the key), a colon and
    a value; a comma stands between two members. *)
Inductive parses_members :
  parser_t -> list (text * json_value_t) -> parser_t -> Prop :=
| members_last p v p1 :
    current_type p = TOKEN_STRING ->
    current_type (next_token p) = TOKEN_COLON ->
    parses (next_token (next_token p)) v p1 ->
    current_type p1 = TOKEN_RBRACE ->
    parses_members p [(value (current_token p), v)] (next_token p1)
| members_more p v p1 ms p' :
    current_type p = TOKEN_STRING ->
    current_type (next_token p) = TOKEN_COLON ->
    parses (next_token (next_token p)) v p1 ->
    current_type p1 = TOKEN_COMMA ->
    parses_members (next_token p1) ms p' ->
    parses_members p ((value (current_token p), v) :: ms) p'.

(** The elements of an array as the text has them, from the first element
    to the closing bracket. *)
Inductive parses_elements : parser_t -> list json_value_t -> parser_t -> Prop :=
| elements_last p v p1 :
    parses p v p1 ->
    current_type p1 = TOKEN_RBRACKET ->
    parses_elements p [v] (next_token p1)
| elements_more p v p1 vs p' :
    parses p v p1 ->
    current_type p1 = TOKEN_COMMA ->
    parses_elements (next_token p1) vs p' ->
    parses_elements p (v :: vs) p'.

(** Arrays nested in one another: [nest 0] is the empty array. *)
Fixpoint nest (n : nat) : json_value_t :=
  match n with
  | O => JSON_ARRAY []
  | S n' => JSON_ARRAY [nest n']
  end.

(** The characters [%lld] and [%.15g] can print. *)
Definition number_char (c : ascii) : bool :=
  (isdigit c || Ascii.eqb c "-" || Ascii.eqb c "+" || Ascii.eqb c "."
   || Ascii.eqb c "e" || Ascii.eqb c "i" || Ascii.eqb c "n" || Ascii.eqb c "f"
   || Ascii.eqb c "a")%bool.

(** A reader of S-expression text: the parenthesis depth after the text [s],
    read from depth [depth] inside ([in_string]) or outside a string
    literal; [None] when a parenthesis closes below depth 0 or the text ends
    inside a string literal.  In a string literal a backslash takes the
    next character with it. *)
Fixpoint sexpr_depth (s : text) (in_string : bool) (depth : nat) : option nat :=
  match s with
  | [] => if in_string then None else Some depth
  | c :: s' =>
      if in_string then
        if Ascii.eqb c BACKSLASH then
          match s' with
          | _ :: s'' => sexpr_depth s'' true depth
          | [] => None
          end
        else if Ascii.eqb c DQUOTE then sexpr_depth s' false depth
        else sexpr_depth s' true depth
      else if Ascii.eqb c DQUOTE then sexpr_depth s' true depth
      else if Ascii.eqb c "(" then sexpr_depth s' false (S depth)
      else if Ascii.eqb c ")" then
        match depth with
        | O => None
        | S d => sexpr_depth s' false d
        end
      else sexpr_depth s' false depth
  end.

(** [balanced w]: the text [w] leaves the depth as it finds it, whatever
    follows. *)
Definition balanced (w : text) : Prop :=
  forall rest depth,
    sexpr_depth (w ++ rest) false depth = sexpr_depth rest false depth.

(** A character that is neither a parenthesis nor a quote. *)
Definition plain_char (c : ascii) : bool :=
  negb (Ascii.eqb c DQUOTE || Ascii.eqb c "(" || Ascii.eqb c ")").

(** Every key of the tree is made of plain characters. *)
Fixpoint plain_keys (v : json_value_t) : bool :=
  match v with
  | JSON_OBJECT members =>
      forallb (fun member => match member with
                             | (key, v') => forallb plain_char key && plain_keys v'
                             end) members
  | JSON_ARRAY elements => forallb plain_keys elements
  | _ => true
  end.

(** No key of the tree holds a line feed. *)
Fixpoint keys_on_one_line (v : json_value_t) : bool :=
  match v with
  | JSON_OBJECT members =>
      forallb (fun member => match member with
                             | (key, v') =>
                                 forallb (fun c => negb (Ascii.eqb c LF)) key
                                 && keys_on_one_line v'
                             end) members
  | JSON_ARRAY elements => forallb keys_on_one_line elements
  | _ => true
  end.

(** [s] with two more spaces after each of its line feeds. *)
Fixpoint indent_more (s : text) : text :=
  match s with
  | [] => []
  | c :: s' =>
      if Ascii.eqb c LF then LF :: " "%char :: " "%char :: indent_more s'
      else c :: indent_more s'
  end.

Section json_value_induction.

Variable P : json_value_t -> Prop.
Hypothesis P_object :
  forall members, Forall (fun member => P (snd member)) members -> P (JSON_OBJECT members).
Hypothesis P_array : forall elements, Forall P elements -> P (JSON_ARRAY elements).
Hypothesis P_string : forall s, P (JSON_STRING s).
Hypothesis P_number : forall number, P (JSON_NUMBER number).
Hypothesis P_boolean : forall boolean, P (JSON_BOOLEAN boolean).
Hypothesis P_null : P JSON_NULL.

(** Induction over a tree and the lists of its children. *)
Fixpoint json_value_induction (v : json_value_t) : P v :=
  match v with
  | JSON_OBJECT members =>
      P_object
        ((fix children (ms : list (text * json_value_t))
            : Forall (fun member => P (snd member)) ms :=
            match ms with
            | [] => Forall_nil _
            | (key, v') :: ms' =>
                @Forall_cons _ (fun member => P (snd member)) (key, v') ms'
                  (json_value_induction v') (children ms')
            end) members)
  | JSON_ARRAY elements =>
      P_array
        ((fix children (vs : list json_value_t) : Forall P vs :=
            match vs with
            | [] => Forall_nil _
            | v' :: vs' => Forall_cons v' (json_value_induction v') (children vs')
            end) elements)
  | JSON_STRING s => P_string s
  | JSON_NUMBER number => P_number number
  | JSON_BOOLEAN boolean => P_boolean boolean
  | JSON_NULL => P_null
  end.

End json_value_induction.

(** ** Basic facts about the cursor *)

Lemma skipn_S_tl (A : Type) (n : nat) (l : list A) :
  skipn (S n) l = tl (skipn n l).
Proof.
  revert l; induction n as [|n IH]; intros [|x l]; try reflexivity.
  exact (IH l).
Qed.

Lemma remaining_step_column p :
  remaining (step_column p) = tl (remaining p).
Proof. unfold remaining, step_column; simpl. apply skipn_S_tl. Qed.

Lemma remaining_step_line p :
  remaining (step_line p) = tl (remaining p).
Proof. exact (remaining_step_column p). Qed.

Lemma remaining_step_columns n p :
  remaining (step_columns n p) = skipn n (remaining p).
Proof.
  unfold remaining, step_columns; simpl.
  rewrite skipn_skipn. f_equal. lia.
Qed.

Lemma remaining_set_current_token p t :
  remaining (set_current_token p t) = remaining p.
Proof. reflexivity. Qed.

Lemma remaining_report p d : remaining (report p d) = remaining p.
Proof. reflexivity. Qed.

Lemma remaining_start input :
  remaining (start input) = firstn (strlen input) input.
Proof. reflexivity. Qed.

Opaque MAX_TOKEN_SIZE.

Lemma list_length_ind (A : Type) (P : list A -> Prop) :
  (forall l, (forall l', List.length l' < List.length l -> P l') -> P l) ->
  forall l, P l.
Proof.
  intros H l. remember (List.length l) as n eqn:E. revert l E.
  induction n as [n IH] using lt_wf_ind. intros l ->.
  apply H. intros l' Hl. exact (IH _ Hl l' eq_refl).
Qed.

(** ** How far the tokenizer moves *)

Lemma moved_refl p : moved 0 p p.
Proof.
  unfold moved; repeat split; try lia.
  exists []. rewrite app_nil_r. auto.
Qed.

Lemma moved_remaining n p p' : moved n p p' -> remaining p' = skipn n (remaining p).
Proof.
  intros (Hi & Hl & Hp & _). unfold remaining.
  rewrite Hi, Hl, Hp, skipn_skipn. f_equal; lia.
Qed.

Lemma moved_trans n m p p' p'' :
  moved n p p' -> moved m p' p'' -> moved (n + m) p p''.
Proof.
  intros H1 H2. pose proof (moved_remaining H1) as Hr.
  destruct H1 as (Hi & Hl & Hp & Hb & l & He & Hlex),
           H2 as (Hi' & Hl' & Hp' & Hb' & l' & He' & Hlex').
  rewrite Hr, length_skipn in Hb'.
  unfold moved; repeat split; try congruence; try lia.
  exists (l ++ l'). rewrite He', He, app_assoc, forallb_app, Hlex, Hlex'. auto.
Qed.

Lemma moved_length n p p' :
  moved n p p' -> List.length (remaining p') + n = List.length (remaining p).
Proof.
  intros H. rewrite (moved_remaining H), length_skipn.
  destruct H as (_ & _ & _ & H & _). lia.
Qed.

Lemma moved_step_column p c rest :
  remaining p = c :: rest -> moved 1 p (step_column p).
Proof.
  intros H. unfold moved; simpl. rewrite H; simpl. repeat split; try lia.
  exists []. rewrite app_nil_r. auto.
Qed.

Lemma moved_step_line p c rest :
  remaining p = c :: rest -> moved 1 p (step_line p).
Proof.
  intros H. unfold moved; simpl. rewrite H; simpl. repeat split; try lia.
  exists []. rewrite app_nil_r. auto.
Qed.

Lemma moved_step_columns n p :
  n <= List.length (remaining p) -> moved n p (step_columns n p).
Proof.
  intros H. unfold moved; simpl. repeat split; try lia.
  exists []. rewrite app_nil_r. auto.
Qed.

Lemma moved_report n p p' d :
  lexical d = true -> moved n p p' -> moved n p (report p' d).
Proof.
  intros Hd (Hi & Hl & Hp & Hb & l & He & Hlex).
  unfold moved; simpl; repeat split; auto.
  exists (l ++ [d]). rewrite He, app_assoc, forallb_app, Hlex. simpl. rewrite Hd. auto.
Qed.

Lemma moved_set_current_token n p p' t :
  moved n p p' -> moved n p (set_current_token p' t).
Proof. unfold moved; simpl; tauto. Qed.

Lemma remaining_cons_step p c rest :
  remaining p = c :: rest -> remaining (step_column p) = rest.
Proof. intros H. rewrite remaining_step_column, H. reflexivity. Qed.

Lemma skip_whitespace_loop_moved rest p :
  remaining p = rest -> exists n, moved n p (skip_whitespace_loop rest p).
Proof.
  revert p; induction rest as [|c rest IH]; intros p Hp; simpl.
  - exists 0; apply moved_refl.
  - destruct (_ || _)%bool.
    + destruct (IH (step_column p)) as [n Hn].
      * eapply remaining_cons_step; eauto.
      * exists (1 + n). eapply moved_trans; eauto using moved_step_column.
    + destruct (Ascii.eqb c LF).
      * destruct (IH (step_line p)) as [n Hn].
        { rewrite remaining_step_line, Hp; reflexivity. }
        exists (1 + n). eapply moved_trans; eauto using moved_step_line.
      * exists 0; apply moved_refl.
Qed.

Lemma tokenizer_skip_whitespace_moved p :
  exists n, moved n p (tokenizer_skip_whitespace p).
Proof. apply skip_whitespace_loop_moved; reflexivity. Qed.

Lemma string_literal_loop_moved rest :
  forall p buf found buf' p',
    remaining p = rest ->
    string_literal_loop rest p buf = (found, buf', p') ->
    exists n, moved n p p' /\ (found = true -> 1 <= n).
Proof.
  induction rest as [rest IH] using list_length_ind.
  intros p buf found buf' p' Hp H. destruct rest as [|c rest']; simpl in H.
  - inversion H; subst. exists 0; split; [apply moved_refl | discriminate].
  - destruct (_ <=? _).
    { inversion H; subst. exists 0; split; [apply moved_refl | discriminate]. }
    destruct (Ascii.eqb c DQUOTE).
    { inversion H; subst. exists 1; split; [eapply moved_step_column; eauto | lia]. }
    assert (Hone : forall b, string_literal_loop rest' (step_column p) b = (found, buf', p') ->
                   exists n, moved n p p' /\ (found = true -> 1 <= n)).
    { intros b Hb. apply IH in Hb; [| simpl; lia | eapply remaining_cons_step; eauto].
      destruct Hb as (n & Hn & _). exists (1 + n); split; [| lia].
      eapply moved_trans; eauto using moved_step_column. }
    destruct (Ascii.eqb c BACKSLASH); [| eauto].
    destruct rest' as [|escaped rest'']; [eauto |].
    apply IH in H; [| simpl; lia |].
    + destruct H as (n & Hn & _). exists (1 + (1 + n)); split; [| lia].
      eapply moved_trans; [eapply moved_step_column; eauto |].
      eapply moved_trans; [eapply moved_step_column, remaining_cons_step; eauto | exact Hn].
    + erewrite remaining_cons_step; [reflexivity |]. eapply remaining_cons_step; eauto.
Qed.

Lemma tokenizer_parse_string_literal_moved p c rest t p' :
  remaining p = c :: rest ->
  tokenizer_parse_string_literal p = (t, p') ->
  exists n, moved n p p' /\ 1 <= n.
Proof.
  intros Hp H. unfold tokenizer_parse_string_literal in H.
  destruct (string_literal_loop _ _ _) as [[found buf] q] eqn:E.
  apply string_literal_loop_moved in E; [| reflexivity].
  destruct E as (n & Hn & _).
  assert (moved (1 + n) p q) by (eapply moved_trans; eauto using moved_step_column).
  exists (1 + n); split; [| lia].
  destruct found; inversion H; subst; auto using moved_report.
Qed.

Lemma digits_loop_moved rest :
  forall p buf buf' p',
    remaining p = rest -> digits_loop rest p buf = (buf', p') ->
    exists n, moved n p p'.
Proof.
  induction rest as [|c rest IH]; intros p buf buf' p' Hp H; simpl in H.
  - inversion H; subst; exists 0; apply moved_refl.
  - destruct (isdigit c).
    + apply IH in H; [| eapply remaining_cons_step; eauto].
      destruct H as [n Hn]. exists (1 + n).
      eapply moved_trans; eauto using moved_step_column.
    + inversion H; subst; exists 0; apply moved_refl.
Qed.

Lemma numeric_fraction_moved p buf buf' p' :
  numeric_fraction p buf = (buf', p') -> exists n, moved n p p'.
Proof.
  unfold numeric_fraction. intros H.
  destruct (remaining p) as [|c rest] eqn:Hp.
  { inversion H; subst; exists 0; apply moved_refl. }
  destruct (Ascii.eqb c ".").
  - apply digits_loop_moved in H; [| reflexivity]. destruct H as [n Hn].
    exists (1 + n). eapply moved_trans; eauto using moved_step_column.
  - inversion H; subst; exists 0; apply moved_refl.
Qed.

Lemma numeric_exponent_moved p buf buf' p' :
  numeric_exponent p buf = (buf', p') -> exists n, moved n p p'.
Proof.
  unfold numeric_exponent. intros H.
  destruct (remaining p) as [|c rest] eqn:Hp.
  { inversion H; subst; exists 0; apply moved_refl. }
  destruct (_ || _)%bool.
  - assert (H1 : moved 1 p (step_column p)) by eauto using moved_step_column.
    destruct (remaining (step_column p)) as [|d rest'] eqn:Hp'.
    + apply digits_loop_moved in H; [| reflexivity]. destruct H as [n Hn].
      exists (1 + n). eapply moved_trans; eauto.
    + destruct (_ || _)%bool.
      * apply digits_loop_moved in H; [| reflexivity]. destruct H as [n Hn].
        exists (1 + (1 + n)). eapply moved_trans; eauto.
        eapply moved_trans; eauto using moved_step_column.
      * apply digits_loop_moved in H; [| reflexivity]. destruct H as [n Hn].
        exists (1 + n). eapply moved_trans; eauto.
  - inversion H; subst; exists 0; apply moved_refl.
Qed.

Lemma numeric_tail_moved buf p t p' :
  numeric_tail buf p = (t, p') -> exists n, moved n p p'.
Proof.
  unfold numeric_tail. intros H.
  destruct (numeric_fraction p buf) as [b1 p1] eqn:E1.
  destruct (numeric_exponent p1 b1) as [b2 p2] eqn:E2.
  inversion H; subst.
  apply numeric_fraction_moved in E1. apply numeric_exponent_moved in E2.
  destruct E1 as [n1 H1], E2 as [n2 H2]. exists (n1 + n2). eapply moved_trans; eauto.
Qed.

Lemma numeric_digits_moved buf p t p' c rest :
  remaining p = c :: rest -> isdigit c = true ->
  numeric_digits buf p = (t, p') -> exists n, moved n p p' /\ 1 <= n.
Proof.
  unfold numeric_digits. intros Hp Hc H. rewrite Hp in H. simpl in H. rewrite Hc in H.
  destruct (digits_loop _ _ _) as [b1 p1] eqn:E1.
  apply digits_loop_moved in E1; [| eapply remaining_cons_step; eauto].
  apply numeric_tail_moved in H. destruct E1 as [n1 H1], H as [n2 H2].
  exists (1 + (n1 + n2)); split; [| lia].
  eapply moved_trans; [eapply moved_step_column; eauto |]. eapply moved_trans; eauto.
Qed.

Lemma numeric_digits_moved0 buf p t p' :
  numeric_digits buf p = (t, p') -> exists n, moved n p p'.
Proof.
  unfold numeric_digits. intros H.
  destruct (digits_loop _ _ _) as [b1 p1] eqn:E1.
  apply digits_loop_moved in E1; [| reflexivity].
  apply numeric_tail_moved in H. destruct E1 as [n1 H1], H as [n2 H2].
  exists (n1 + n2). eapply moved_trans; eauto.
Qed.

Lemma numeric_integer_part_moved buf p t p' :
  numeric_integer_part buf p = (t, p') ->
  exists n, moved n p p'
            /\ (forall c rest, remaining p = c :: rest -> isdigit c = true -> 1 <= n).
Proof.
  unfold numeric_integer_part. intros H.
  destruct (remaining p) as [|c rest] eqn:Hp.
  { apply numeric_digits_moved0 in H. destruct H as [n Hn]. exists n; split; auto.
    intros; discriminate. }
  destruct (Ascii.eqb c "0") eqn:Ec.
  - assert (H1 : moved 1 p (step_column p)) by eauto using moved_step_column.
    assert (exists n, moved n (step_column p) p') as [n Hn].
    { destruct (remaining (step_column p)) as [|d rest'].
      - eapply numeric_tail_moved; eauto.
      - destruct (isdigit d).
        + inversion H; subst. exists 0. apply moved_report, moved_refl. reflexivity.
        + eapply numeric_tail_moved; eauto. }
    exists (1 + n); split; [eapply moved_trans; eauto | intros; lia].
  - destruct (isdigit c) eqn:Ed.
    + eapply numeric_digits_moved in H; eauto. destruct H as (n & Hn & Hle).
      exists n; split; auto.
    + apply numeric_digits_moved0 in H. destruct H as [n Hn]. exists n; split; auto.
      intros c' rest' E. inversion E; subst. congruence.
Qed.

Lemma tokenizer_parse_numeric_literal_moved p c rest t p' :
  remaining p = c :: rest ->
  (Ascii.eqb c "-" || isdigit c)%bool = true ->
  tokenizer_parse_numeric_literal p = (t, p') ->
  exists n, moved n p p' /\ 1 <= n.
Proof.
  unfold tokenizer_parse_numeric_literal. intros Hp Hc H. rewrite Hp in H.
  destruct (Ascii.eqb c "-") eqn:E.
  - apply numeric_integer_part_moved in H. destruct H as (n & Hn & _).
    exists (1 + n); split; [| lia].
    eapply moved_trans; eauto using moved_step_column.
  - simpl in Hc. apply numeric_integer_part_moved in H. destruct H as (n & Hn & Hle).
    exists n; split; eauto.
Qed.

Lemma starts_with_length lit s :
  starts_with lit s = true -> List.length lit <= List.length s.
Proof.
  revert s; induction lit as [|a lit IH]; intros [|b s]; simpl; try lia; try discriminate.
  intros H. apply andb_prop in H. destruct H as [_ H]. apply IH in H. lia.
Qed.

Lemma tokenizer_parse_keyword_literal_moved p t p' :
  tokenizer_parse_keyword_literal p = (t, p') ->
  exists n, moved n p p' /\ (type t <> TOKEN_ERROR -> 1 <= n).
Proof.
  unfold tokenizer_parse_keyword_literal. intros H.
  destruct (starts_with (chars "true") _) eqn:E1;
    [| destruct (starts_with (chars "false") _) eqn:E2;
       [| destruct (starts_with (chars "null") _) eqn:E3]];
    inversion H; subst; clear H.
  - exists 4; split; [| lia]. apply moved_step_columns. apply starts_with_length in E1. exact E1.
  - exists 5; split; [| lia]. apply moved_step_columns. apply starts_with_length in E2. exact E2.
  - exists 4; split; [| lia]. apply moved_step_columns. apply starts_with_length in E3. exact E3.
  - exists 0; split; [apply moved_refl | simpl; congruence].
Qed.

Lemma punctuation_proper c ty : punctuation c = Some ty -> proper ty.
Proof.
  unfold punctuation.
  repeat (destruct (Ascii.eqb c _); [intros H; inversion H; split; discriminate |]).
  discriminate.
Qed.

Lemma tokenizer_get_next_token_moved p t p' :
  tokenizer_get_next_token p = (t, p') ->
  exists n, moved n p p' /\ (proper (type t) -> 1 <= n).
Proof.
  unfold tokenizer_get_next_token. intros H.
  destruct (tokenizer_skip_whitespace_moved p) as [n0 H0].
  set (q := tokenizer_skip_whitespace p) in *.
  assert (Hgo : forall n, moved n q p' /\ (proper (type t) -> 1 <= n) ->
                exists n, moved n p p' /\ (proper (type t) -> 1 <= n)).
  { intros n [Hn Hle]. exists (n0 + n); split; [eapply moved_trans; eauto |].
    intros Hp. apply Hle in Hp. lia. }
  destruct (remaining q) as [|c rest] eqn:Hq.
  { inversion H; subst. apply (Hgo 0); split; [apply moved_refl |].
    intros [Hp _]. simpl in Hp. congruence. }
  destruct (punctuation c) as [ty|] eqn:Ep.
  { inversion H; subst. apply (Hgo 1); split; [eapply moved_step_column; eauto | lia]. }
  destruct (Ascii.eqb c DQUOTE).
  { eapply tokenizer_parse_string_literal_moved in H; eauto.
    destruct H as (n & Hn & Hle). apply (Hgo n); auto. }
  destruct (_ || _)%bool eqn:En.
  { eapply tokenizer_parse_numeric_literal_moved in H; eauto.
    destruct H as (n & Hn & Hle). apply (Hgo n); auto. }
  destruct (Ascii.eqb c "t" || Ascii.eqb c "f" || Ascii.eqb c "n")%bool eqn:Ek.
  { eapply tokenizer_parse_keyword_literal_moved in H; eauto.
    destruct H as (n & Hn & Hle). apply (Hgo n); split; auto.
    intros [_ Hp]; auto. }
  inversion H; subst. apply (Hgo 0); split; [apply moved_report, moved_refl; reflexivity |].
  intros [_ Hp]. simpl in Hp. congruence.
Qed.

Lemma next_token_moved p :
  exists n, moved n p (next_token p)
            /\ (proper (current_type (next_token p)) -> 1 <= n).
Proof.
  unfold next_token, current_type.
  destruct (tokenizer_get_next_token p) as [t p'] eqn:E.
  apply tokenizer_get_next_token_moved in E. destruct E as (n & Hn & Hle).
  exists n; split; [apply moved_set_current_token; exact Hn | exact Hle].
Qed.

Lemma next_token_left p : chars_left (next_token p) <= chars_left p.
Proof.
  destruct (next_token_moved p) as (n & Hn & _).
  apply moved_length in Hn. unfold chars_left. lia.
Qed.

Lemma next_token_left_proper p :
  proper (current_type (next_token p)) -> chars_left (next_token p) < chars_left p.
Proof.
  destruct (next_token_moved p) as (n & Hn & Hle). intros H. apply Hle in H.
  apply moved_length in Hn. unfold chars_left. lia.
Qed.

(** ** Fuel *)

Lemma opener_proper ty : opener ty -> proper ty.
Proof. intros [-> | ->]; split; discriminate. Qed.

Lemma token_type_eqb_eq a b : token_type_eqb a b = true <-> a = b.
Proof. destruct a, b; simpl; split; intros H; try reflexivity; discriminate. Qed.

Lemma token_type_eqb_neq a b : token_type_eqb a b = false <-> a <> b.
Proof.
  destruct a, b; simpl; split; intros H; try reflexivity; try discriminate;
    try congruence.
Qed.

Lemma shrinks_next_token p q v :
  chars_left q <= chars_left p -> shrinks p (Ret v (next_token q)).
Proof.
  intros H. split.
  - pose proof (next_token_left q). lia.
  - intros _ Hp. apply next_token_left_proper in Hp. lia.
Qed.

Lemma shrinks_failed p q :
  chars_left q <= chars_left p -> shrinks p (Ret None q).
Proof. intros H. split; [exact H | congruence]. Qed.

Lemma chars_left_report p d : chars_left (report p d) = chars_left p.
Proof. reflexivity. Qed.

Section Fuel_of_loops.

Variable parse_value : parser_t -> result.
Variable f : nat.
Hypothesis parse_value_shrinks :
forall p, (opener (current_type p) -> chars_left p + 2 <= f) ->
          shrinks p (parse_value p).

Lemma array_loop_shrinks n :
forall p elements,
  n <= f -> chars_left p + 1 <= n ->
  (opener (current_type p) -> chars_left p + 2 <= f) ->
  shrinks p (array_loop parse_value n p elements).
Proof.
induction n as [|n IH]; intros p elements Hn Hp Ho; [lia |]. simpl.
destruct (token_type_eqb (current_type p) TOKEN_EOF) eqn:Eeof.
{ apply token_type_eqb_eq in Eeof. split; [lia |].
  intros _ [H _]. congruence. }
pose proof (parse_value_shrinks p Ho) as Hpv.
destruct (parse_value p) as [[v|] p' |]; simpl in Hpv;
  [| apply shrinks_failed; tauto | tauto].
destruct Hpv as [Hle Hlt].
destruct (token_type_eqb (current_type p') TOKEN_COMMA) eqn:Ec.
- apply token_type_eqb_eq in Ec.
  assert (chars_left p' < chars_left p).
  { apply Hlt; [discriminate | rewrite Ec; split; discriminate]. }
  pose proof (next_token_left p').
  assert (Hs : shrinks (next_token p')
                 (array_loop parse_value n (next_token p') (elements ++ [v]))).
  { apply IH; lia. }
  destruct (array_loop _ _ _ _) as [r p'' |]; simpl in *; [| tauto].
  split; [lia |]. intros; lia.
- destruct (token_type_eqb (current_type p') TOKEN_RBRACKET).
  + apply shrinks_next_token; lia.
  + apply shrinks_failed. rewrite chars_left_report. lia.
Qed.

Lemma json_parser_parse_array_shrinks p :
chars_left p + 1 <= f ->
shrinks p (json_parser_parse_array parse_value f p).
Proof.
intros Hp. unfold json_parser_parse_array.
pose proof (next_token_left p).
destruct (token_type_eqb _ TOKEN_RBRACKET).
- apply shrinks_next_token; lia.
- assert (Hs : shrinks (next_token p) (array_loop parse_value f (next_token p) [])).
  { apply array_loop_shrinks; try lia. intros Hop. apply opener_proper in Hop.
    apply next_token_left_proper in Hop. lia. }
  destruct (array_loop _ _ _ _) as [r p'' |]; simpl in *; [| tauto].
  split; [lia |]. intros Hr Hpr. destruct Hs as [_ Hs]. specialize (Hs Hr Hpr). lia.
Qed.

Lemma object_loop_shrinks n :
forall p members,
  n <= f -> chars_left p + 1 <= n ->
  shrinks p (object_loop parse_value n p members).
Proof.
induction n as [|n IH]; intros p members Hn Hp; [lia |]. simpl.
destruct (token_type_eqb (current_type p) TOKEN_EOF) eqn:Eeof.
{ apply token_type_eqb_eq in Eeof. split; [lia |].
  intros _ [H _]. congruence. }
destruct (negb (token_type_eqb (current_type p) TOKEN_STRING)).
{ apply shrinks_failed. rewrite chars_left_report. lia. }
pose proof (next_token_left p).
destruct (negb (token_type_eqb (current_type (next_token p)) TOKEN_COLON)).
{ apply shrinks_failed. rewrite chars_left_report. lia. }
pose proof (next_token_left (next_token p)).
set (q := next_token (next_token p)) in *.
assert (Ho : opener (current_type q) -> chars_left q + 2 <= f).
{ intros Hop. apply opener_proper in Hop. apply next_token_left_proper in Hop.
  fold q in Hop. lia. }
pose proof (parse_value_shrinks q Ho) as Hpv.
destruct (parse_value q) as [[v|] p' |]; simpl in Hpv;
  [| apply shrinks_failed; lia | tauto].
destruct Hpv as [Hle Hlt].
destruct (token_type_eqb (current_type p') TOKEN_COMMA) eqn:Ec.
- apply token_type_eqb_eq in Ec.
  assert (chars_left p' < chars_left q).
  { apply Hlt; [discriminate | rewrite Ec; split; discriminate]. }
  pose proof (next_token_left p').
  assert (Hs : shrinks (next_token p')
                 (object_loop parse_value n (next_token p')
                              (members ++ [(value (current_token p), v)]))).
  { apply IH; lia. }
  destruct (object_loop _ _ _ _) as [r p'' |]; simpl in *; [| tauto].
  split; [lia |]. intros; lia.
- destruct (token_type_eqb (current_type p') TOKEN_RBRACE).
  + apply shrinks_next_token; lia.
  + apply shrinks_failed. rewrite chars_left_report. lia.
Qed.

Lemma json_parser_parse_object_shrinks p :
chars_left p + 1 <= f ->
shrinks p (json_parser_parse_object parse_value f p).
Proof.
intros Hp. unfold json_parser_parse_object.
pose proof (next_token_left p).
destruct (token_type_eqb _ TOKEN_RBRACE).
- apply shrinks_next_token; lia.
- assert (Hs : shrinks (next_token p) (object_loop parse_value f (next_token p) [])).
  { apply object_loop_shrinks; lia. }
  destruct (object_loop _ _ _ _) as [r p'' |]; simpl in *; [| tauto].
  split; [lia |]. intros Hr Hpr. destruct Hs as [_ Hs]. specialize (Hs Hr Hpr). lia.
Qed.

End Fuel_of_loops.

Lemma json_parser_parse_value_shrinks fuel :
  forall p, 1 <= fuel -> (opener (current_type p) -> chars_left p + 2 <= fuel) ->
            shrinks p (json_parser_parse_value fuel p).
Proof.
  induction fuel as [|fuel IH]; intros p Hf Ho; [lia |]. simpl.
  destruct (current_type p) eqn:E;
    try (apply shrinks_next_token; lia);
    try (apply shrinks_failed; rewrite chars_left_report; lia).
  - assert (chars_left p + 2 <= S fuel) by (apply Ho; left; reflexivity).
    apply json_parser_parse_object_shrinks; [| lia].
    intros q Hq. apply IH; [lia | exact Hq].
  - assert (chars_left p + 2 <= S fuel) by (apply Ho; right; reflexivity).
    apply json_parser_parse_array_shrinks; [| lia].
    intros q Hq. apply IH; [lia | exact Hq].
Qed.

(** The parser returns: with [enough_fuel] the result is never [OutOfFuel]. *)
Lemma parse_value_fuel p :
  exists r p', json_parser_parse_value (enough_fuel p) p = Ret r p'.
Proof.
  pose proof (@json_parser_parse_value_shrinks (enough_fuel p) p) as H.
  unfold enough_fuel in *. fold (chars_left p) in *.
  destruct (json_parser_parse_value _ p) as [r p' |]; [eauto |].
  exfalso. apply H; intros; lia.
Qed.

(** More fuel does not change a result. *)
Section Fuel_monotone.

Variables pv pv' : parser_t -> result.
Hypothesis pv_le : forall p r p', pv p = Ret r p' -> pv' p = Ret r p'.

Lemma array_loop_monotone n :
forall n' p elements r p',
  n <= n' -> array_loop pv n p elements = Ret r p' ->
  array_loop pv' n' p elements = Ret r p'.
Proof.
induction n as [|n IH]; intros n' p elements r p' Hn H; [discriminate |].
destruct n' as [|n']; [lia |]. simpl in *.
destruct (token_type_eqb (current_type p) TOKEN_EOF); [exact H |].
destruct (pv p) as [[v|] q |] eqn:E; [| |discriminate];
  rewrite (pv_le E); [| exact H].
destruct (token_type_eqb (current_type q) TOKEN_COMMA); [| exact H].
apply IH; [lia | exact H].
Qed.

Lemma object_loop_monotone n :
forall n' p members r p',
  n <= n' -> object_loop pv n p members = Ret r p' ->
  object_loop pv' n' p members = Ret r p'.
Proof.
induction n as [|n IH]; intros n' p members r p' Hn H; [discriminate |].
destruct n' as [|n']; [lia |]. simpl in *.
destruct (token_type_eqb (current_type p) TOKEN_EOF); [exact H |].
destruct (negb (token_type_eqb (current_type p) TOKEN_STRING)); [exact H |].
destruct (negb (token_type_eqb (current_type (next_token p)) TOKEN_COLON));
  [exact H |].
destruct (pv (next_token (next_token p))) as [[v|] q |] eqn:E; [| |discriminate];
  rewrite (pv_le E); [| exact H].
destruct (token_type_eqb (current_type q) TOKEN_COMMA); [| exact H].
apply IH; [lia | exact H].
Qed.

End Fuel_monotone.

Lemma json_parser_parse_value_monotone fuel :
  forall fuel' p r p',
    fuel <= fuel' -> json_parser_parse_value fuel p = Ret r p' ->
    json_parser_parse_value fuel' p = Ret r p'.
Proof.
  induction fuel as [|fuel IH]; intros fuel' p r p' Hf H; [discriminate |].
  destruct fuel' as [|fuel']; [lia |]. simpl in *.
  assert (Hpv : forall q r q', json_parser_parse_value fuel q = Ret r q' ->
                               json_parser_parse_value fuel' q = Ret r q').
  { intros q r0 q'. apply IH. lia. }
  destruct (current_type p); try exact H.
  - unfold json_parser_parse_object in *.
    destruct (token_type_eqb _ TOKEN_RBRACE); [exact H |].
    apply (@object_loop_monotone _ _ Hpv fuel); [lia | exact H].
  - unfold json_parser_parse_array in *.
    destruct (token_type_eqb _ TOKEN_RBRACKET); [exact H |].
    apply (@array_loop_monotone _ _ Hpv fuel); [lia | exact H].
Qed.

(** With any fuel that suffices, the parser gives the result of [parse]. *)
Lemma parse_value_enough fuel p r p' :
  json_parser_parse_value fuel p = Ret r p' ->
  json_parser_parse_value (enough_fuel p) p = Ret r p'.
Proof.
  intros H. destruct (parse_value_fuel p) as (r0 & p0 & H0).
  destruct (Nat.le_ge_cases fuel (enough_fuel p)) as [Hle | Hle].
  - eapply json_parser_parse_value_monotone; eauto.
  - rewrite (json_parser_parse_value_monotone _ Hle H0) in H. congruence.
Qed.

(** ** Where the parser leaves the context *)

Lemma ahead_S n p : ahead (S n) p = next_token (ahead n p).
Proof. reflexivity. Qed.

Lemma ahead_next n p : ahead n (next_token p) = ahead (S n) p.
Proof.
  unfold ahead. induction n as [|n IH]; [reflexivity |].
  simpl in *. rewrite IH. reflexivity.
Qed.

Lemma ahead_ahead n m p : ahead n (ahead m p) = ahead (m + n) p.
Proof.
  induction n as [|n IH]; [rewrite Nat.add_0_r; reflexivity |].
  rewrite Nat.add_succ_r, !ahead_S, IH. reflexivity.
Qed.

Arguments ahead : simpl never.

Lemma left_at_ahead m p r p' : left_at (ahead m p) r p' -> left_at p r p'.
Proof.
  destruct r as [v|]; simpl.
  - intros [n ->]. exists (m + n). apply ahead_ahead.
  - intros (n & d & Hd & ->). exists (m + n), d. rewrite ahead_ahead. auto.
Qed.

Lemma leaves_ahead m p res : leaves (ahead m p) res -> leaves p res.
Proof. destruct res; simpl; [apply left_at_ahead | auto]. Qed.

Lemma leaves_next p res : leaves (next_token p) res -> leaves p res.
Proof. apply (@leaves_ahead 1). Qed.

Lemma leaves_failed p d : parse_error d = true -> leaves p (Ret None (report p d)).
Proof. intros H. exists 0, d. auto. Qed.

Lemma leaves_value p v : leaves p (Ret (Some v) (next_token p)).
Proof. exists 1. reflexivity. Qed.

Lemma leaves_here p v : leaves p (Ret (Some v) p).
Proof. exists 0. reflexivity. Qed.

Lemma leaves_trans p r p' res :
  left_at p r p' -> r <> None -> leaves p' res -> leaves p res.
Proof.
  destruct r as [v|]; [| congruence]. intros [n ->] _. apply leaves_ahead.
Qed.

Section Leaves_of_loops.

Variable parse_value : parser_t -> result.
Hypothesis parse_value_leaves : forall p, leaves p (parse_value p).

Lemma array_loop_leaves n :
forall p elements, leaves p (array_loop parse_value n p elements).
Proof.
induction n as [|n IH]; intros p elements; simpl; [exact I |].
destruct (token_type_eqb (current_type p) TOKEN_EOF); [apply leaves_here |].
pose proof (parse_value_leaves p) as Hpv.
destruct (parse_value p) as [[v|] q |]; [| exact Hpv | exact I].
eapply leaves_trans; [exact Hpv | discriminate |].
destruct (token_type_eqb (current_type q) TOKEN_COMMA).
- apply leaves_next, IH.
- destruct (token_type_eqb (current_type q) TOKEN_RBRACKET).
  + apply leaves_value.
  + apply leaves_failed; reflexivity.
Qed.

Lemma json_parser_parse_array_leaves n p :
leaves p (json_parser_parse_array parse_value n p).
Proof.
unfold json_parser_parse_array. apply leaves_next.
destruct (token_type_eqb _ TOKEN_RBRACKET);
  [apply leaves_value | apply array_loop_leaves].
Qed.

Lemma object_loop_leaves n :
forall p members, leaves p (object_loop parse_value n p members).
Proof.
induction n as [|n IH]; intros p members; simpl; [exact I |].
destruct (token_type_eqb (current_type p) TOKEN_EOF); [apply leaves_here |].
destruct (negb _); [apply leaves_failed; reflexivity |].
apply leaves_next.
destruct (negb _); [apply leaves_failed; reflexivity |].
apply leaves_next.
pose proof (parse_value_leaves (next_token (next_token p))) as Hpv.
destruct (parse_value _) as [[v|] q |]; [| exact Hpv | exact I].
eapply leaves_trans; [exact Hpv | discriminate |].
destruct (token_type_eqb (current_type q) TOKEN_COMMA).
- apply leaves_next, IH.
- destruct (token_type_eqb (current_type q) TOKEN_RBRACE).
  + apply leaves_value.
  + apply leaves_failed; reflexivity.
Qed.

Lemma json_parser_parse_object_leaves n p :
leaves p (json_parser_parse_object parse_value n p).
Proof.
unfold json_parser_parse_object. apply leaves_next.
destruct (token_type_eqb _ TOKEN_RBRACE);
  [apply leaves_value | apply object_loop_leaves].
Qed.

End Leaves_of_loops.

Lemma json_parser_parse_value_leaves fuel :
  forall p, leaves p (json_parser_parse_value fuel p).
Proof.
  induction fuel as [|fuel IH]; intros p; simpl; [exact I |].
  destruct (current_type p);
    try apply leaves_value; try (apply leaves_failed; reflexivity).
  - apply json_parser_parse_object_leaves, IH.
  - apply json_parser_parse_array_leaves, IH.
Qed.

(** Reading tokens prints messages of the tokenizer only. *)
Lemma ahead_stderr n p :
  exists l, stderr (ahead n p) = stderr p ++ l /\ forallb lexical l = true.
Proof.
  induction n as [|n (l & Hl & Hlex)].
  - exists []. rewrite app_nil_r. auto.
  - rewrite ahead_S. destruct (next_token_moved (ahead n p)) as (k & Hk & _).
    destruct Hk as (_ & _ & _ & _ & l' & Hl' & Hlex').
    exists (l ++ l'). rewrite Hl', Hl, app_assoc, forallb_app, Hlex, Hlex'. auto.
Qed.

Lemma lexical_not_parse_error l :
  forallb lexical l = true -> existsb parse_error l = false.
Proof.
  induction l as [|d l IH]; simpl; [reflexivity |].
  intros H. apply andb_prop in H. destruct H as [Hd Hl].
  rewrite (IH Hl). destruct d; simpl in *; congruence.
Qed.

Lemma printed_app p p' l : stderr p' = stderr p ++ l -> printed p p' = l.
Proof.
  intros H. unfold printed. rewrite H, skipn_app, skipn_all, Nat.sub_diag. reflexivity.
Qed.

(** ** The parser and the grammar *)

Lemma types_app n m p : types (n + m) p = types n p ++ types m (ahead n p).
Proof.
  revert p; induction n as [|n IH]; intros p; [reflexivity |].
  simpl. rewrite IH, ahead_next. reflexivity.
Qed.

Lemma types_snoc n p : types (S n) p = types n p ++ [current_type (ahead n p)].
Proof. rewrite <- Nat.add_1_r, types_app. reflexivity. Qed.

Lemma types_length n p : List.length (types n p) = n.
Proof. revert p; induction n as [|n IH]; intros p; simpl; auto. Qed.

Lemma app_eq_length (A : Type) (l1 l1' l2 l2' : list A) :
  l1 ++ l2 = l1' ++ l2' -> List.length l1 = List.length l1' ->
  l1 = l1' /\ l2 = l2'.
Proof.
  revert l1'; induction l1 as [|x l1 IH]; intros [|y l1'] H Hl;
    simpl in *; try discriminate; auto.
  inversion H; subst. destruct (IH l1') as [-> ->]; auto.
Qed.

Lemma reads_types n p : reads (types n p) p.
Proof. unfold reads. rewrite types_length. reflexivity. Qed.

Lemma reads_app ts1 ts2 p :
  reads (ts1 ++ ts2) p <-> reads ts1 p /\ reads ts2 (ahead (List.length ts1) p).
Proof.
  unfold reads. rewrite length_app, types_app. split.
  - intros H. apply app_eq_length in H; [exact H | apply types_length].
  - intros [-> ->]. reflexivity.
Qed.

Lemma reads_cons t ts p :
  reads (t :: ts) p <-> current_type p = t /\ reads ts (next_token p).
Proof.
  unfold reads. simpl. split.
  - intros H. inversion H. rewrite H1, H2. auto.
  - intros [-> ->]. reflexivity.
Qed.

Lemma G_value_start ts : G_value ts -> exists t ts', ts = t :: ts' /\ value_start t.
Proof. intros H; destruct H; simpl; eexists _, _; split; try reflexivity; exact I. Qed.

Lemma G_elements_start es :
  G_elements es -> exists t es', es = t :: es' /\ value_start t.
Proof.
  intros [v H | v es' H _]; apply G_value_start in H;
    destruct H as (t & ts' & -> & Ht); simpl; eauto.
Qed.

Lemma G_members_start ms :
  G_members ms -> exists ms', ms = TOKEN_STRING :: TOKEN_COLON :: ms'.
Proof. intros [v H | v ms' H _]; eauto. Qed.

Lemma ahead_eq n m p : n = m -> ahead n p = ahead m p.
Proof. intros ->; reflexivity. Qed.

Ltac ahead_arith := apply ahead_eq; simpl; rewrite ?length_app; simpl; lia.

Ltac ahead_solve :=
  repeat rewrite <- ahead_S; repeat rewrite ahead_next; repeat rewrite ahead_ahead;
  try reflexivity;
  first [ ahead_arith | f_equal; ahead_arith | do 2 f_equal; ahead_arith | idtac ].

(** *** Every text of the grammar is accepted *)

Lemma accepts_scalar t :
  match t with
  | TOKEN_STRING | TOKEN_NUMBER | TOKEN_TRUE | TOKEN_FALSE | TOKEN_NULL => True
  | _ => False
  end -> accepts_value [t].
Proof.
  intros Ht p Hp. apply reads_cons in Hp. destruct Hp as [Hp _].
  exists 1. destruct t; try contradiction; eexists; intros [|f] Hf; try lia;
    simpl; rewrite Hp; reflexivity.
Qed.

Lemma value_start_not t :
  value_start t ->
  token_type_eqb t TOKEN_EOF = false
  /\ token_type_eqb t TOKEN_RBRACKET = false
  /\ token_type_eqb t TOKEN_RBRACE = false.
Proof. destruct t; simpl; intros H; try contradiction; auto. Qed.

Lemma accepts_object ms : G_members ms -> accepts_members ms ->
  accepts_value (TOKEN_LBRACE :: ms ++ [TOKEN_RBRACE]).
Proof.
  intros Hms IH p Hp. apply reads_cons in Hp. destruct Hp as [H1 Hp].
  apply reads_app in Hp. destruct Hp as [Hp Hclose].
  apply reads_cons in Hclose. destruct Hclose as [Hclose _].
  destruct (IH _ Hp Hclose) as (F & vs & HF).
  exists (S F), (JSON_OBJECT vs). intros [|f] Hf; [lia |]. simpl. rewrite H1.
  unfold json_parser_parse_object.
  destruct (G_members_start Hms) as (ms' & E). rewrite E in Hp.
  apply reads_cons in Hp. destruct Hp as [Hs _]. rewrite Hs. simpl.
  rewrite (HF f f []) by lia. simpl. ahead_solve.
Qed.

Lemma accepts_array es : G_elements es -> accepts_elements es ->
  accepts_value (TOKEN_LBRACKET :: es ++ [TOKEN_RBRACKET]).
Proof.
  intros Hes IH p Hp. apply reads_cons in Hp. destruct Hp as [H1 Hp].
  apply reads_app in Hp. destruct Hp as [Hp Hclose].
  apply reads_cons in Hclose. destruct Hclose as [Hclose _].
  destruct (IH _ Hp Hclose) as (F & vs & HF).
  exists (S F), (JSON_ARRAY vs). intros [|f] Hf; [lia |]. simpl. rewrite H1.
  unfold json_parser_parse_array.
  destruct (G_elements_start Hes) as (t & es' & E & Ht). rewrite E in Hp.
  apply reads_cons in Hp. destruct Hp as [Hs _]. rewrite Hs.
  destruct (value_start_not _ Ht) as (_ & -> & _).
  rewrite (HF f f []) by lia. simpl. ahead_solve.
Qed.

Lemma accepts_member v : G_value v -> accepts_value v ->
  accepts_members (TOKEN_STRING :: TOKEN_COLON :: v).
Proof.
  intros Hv IH p Hp Hclose. apply reads_cons in Hp. destruct Hp as [H1 Hp].
  apply reads_cons in Hp. destruct Hp as [H2 Hp].
  destruct (IH _ Hp) as (F & val & HF).
  exists (S F), [(value (current_token p), val)].
  intros f [|n] members Hf Hn; [lia |]. simpl.
  rewrite H1, H2. simpl. rewrite (HF f) by lia.
  replace (ahead (List.length v) (next_token (next_token p)))
    with (ahead (List.length (TOKEN_STRING :: TOKEN_COLON :: v)) p) by ahead_solve.
  rewrite Hclose. simpl. ahead_solve.
Qed.

Lemma accepts_member_more v ms :
  G_value v -> accepts_value v -> G_members ms -> accepts_members ms ->
  accepts_members (TOKEN_STRING :: TOKEN_COLON :: v ++ TOKEN_COMMA :: ms).
Proof.
  intros Hv IHv Hms IHms p Hp Hclose. apply reads_cons in Hp. destruct Hp as [H1 Hp].
  apply reads_cons in Hp. destruct Hp as [H2 Hp].
  apply reads_app in Hp. destruct Hp as [Hp Hrest].
  apply reads_cons in Hrest. destruct Hrest as [Hcomma Hrest].
  destruct (IHv _ Hp) as (F & val & HF).
  assert (E : ahead (List.length (TOKEN_STRING :: TOKEN_COLON :: v ++ TOKEN_COMMA :: ms)) p
              = ahead (List.length ms)
                  (next_token (ahead (List.length v) (next_token (next_token p))))).
  { ahead_solve. }
  rewrite E in Hclose.
  destruct (IHms _ Hrest Hclose) as (F' & vs & HF').
  exists (S (F + F')), ((value (current_token p), val) :: vs).
  intros f [|n] members Hf Hn; [lia |]. simpl.
  rewrite H1, H2. simpl. rewrite (HF f) by lia. rewrite Hcomma. simpl.
  rewrite HF' by lia. rewrite <- app_assoc. simpl. ahead_solve.
Qed.

Lemma accepts_element v : G_value v -> accepts_value v -> accepts_elements v.
Proof.
  intros Hv IH p Hp Hclose.
  destruct (IH _ Hp) as (F & val & HF).
  destruct (G_value_start Hv) as (t & ts' & E & Ht).
  assert (Hc : current_type p = t).
  { rewrite E in Hp. apply reads_cons in Hp. tauto. }
  exists (S F), [val]. intros f [|n] elements Hf Hn; [lia |]. simpl.
  rewrite Hc. destruct (value_start_not _ Ht) as (-> & _ & _).
  rewrite (HF f) by lia. rewrite Hclose. simpl. ahead_solve.
Qed.

Lemma accepts_element_more v es :
  G_value v -> accepts_value v -> G_elements es -> accepts_elements es ->
  accepts_elements (v ++ TOKEN_COMMA :: es).
Proof.
  intros Hv IHv Hes IHes p Hp Hclose.
  apply reads_app in Hp. destruct Hp as [Hp Hrest].
  apply reads_cons in Hrest. destruct Hrest as [Hcomma Hrest].
  destruct (IHv _ Hp) as (F & val & HF).
  assert (E : ahead (List.length (v ++ TOKEN_COMMA :: es)) p
              = ahead (List.length es) (next_token (ahead (List.length v) p))).
  { ahead_solve. }
  rewrite E in Hclose.
  destruct (IHes _ Hrest Hclose) as (F' & vs & HF').
  destruct (G_value_start Hv) as (t & ts' & Et & Ht).
  assert (Hc : current_type p = t).
  { rewrite Et in Hp. apply reads_cons in Hp. tauto. }
  exists (S (F + F')), (val :: vs).
  intros f [|n] elements Hf Hn; [lia |]. simpl.
  rewrite Hc. destruct (value_start_not _ Ht) as (-> & _ & _).
  rewrite (HF f) by lia. rewrite Hcomma. simpl.
  rewrite HF' by lia. rewrite <- app_assoc. simpl. ahead_solve.
Qed.

Lemma accepts_empty_object : accepts_value [TOKEN_LBRACE; TOKEN_RBRACE].
Proof.
  intros p Hp. apply reads_cons in Hp. destruct Hp as [H1 Hp].
  apply reads_cons in Hp. destruct Hp as [H2 _].
  exists 1, (JSON_OBJECT []). intros [|f] Hf; [lia |]. simpl. rewrite H1.
  unfold json_parser_parse_object. rewrite H2. reflexivity.
Qed.

Lemma accepts_empty_array : accepts_value [TOKEN_LBRACKET; TOKEN_RBRACKET].
Proof.
  intros p Hp. apply reads_cons in Hp. destruct Hp as [H1 Hp].
  apply reads_cons in Hp. destruct Hp as [H2 _].
  exists 1, (JSON_ARRAY []). intros [|f] Hf; [lia |]. simpl. rewrite H1.
  unfold json_parser_parse_array. rewrite H2. reflexivity.
Qed.

Lemma grammar_accepted :
  (forall ts, G_value ts -> accepts_value ts)
  /\ (forall ms, G_members ms -> accepts_members ms)
  /\ (forall es, G_elements es -> accepts_elements es).
Proof.
  apply G_mutual_ind; try (apply accepts_scalar; exact I);
    auto using accepts_empty_object, accepts_empty_array, accepts_object,
      accepts_array, accepts_member, accepts_member_more, accepts_element,
      accepts_element_more.
Qed.

(** *** Every accepted text is a text of the grammar, or a cut-off container *)

Lemma read_children_more (G : list token_type_t -> Prop) close p m p' :
  (forall k, G (types k (ahead (S m) p)) ->
             G (types m p ++ TOKEN_COMMA :: types k (ahead (S m) p))) ->
  G (types m p) ->
  current_type (ahead m p) = TOKEN_COMMA ->
  read_children G close (ahead (S m) p) p' -> read_children G close p p'.
Proof.
  intros Hmore Hone Hcomma [[Heof ->] | (k & Hk & -> & Hend)]; right.
  - exists m. repeat split; auto.
  - exists (m + S k). rewrite types_app. simpl types.
    rewrite <- ahead_S, Hcomma. repeat split; auto.
    + ahead_solve.
    + replace (ahead (m + S k) p) with (ahead k (ahead (S m) p)) by ahead_solve.
      destruct Hend as [Hend | [Hend Heof]]; [left | right]; auto.
Qed.

Section Soundness_of_loops.

Variable pv : parser_t -> result.
Hypothesis pv_sound : sound pv.

Lemma array_loop_sound n :
forall p elements v p',
  array_loop pv n p elements = Ret (Some v) p' ->
  read_children G_elements TOKEN_RBRACKET p p'.
Proof.
induction n as [|n IH]; intros p elements v p' H; [discriminate |]. simpl in H.
destruct (token_type_eqb (current_type p) TOKEN_EOF) eqn:Eeof.
{ apply token_type_eqb_eq in Eeof. inversion H; subst. left; auto. }
destruct (pv p) as [[w|] q |] eqn:E; try discriminate.
apply pv_sound in E. destruct E as (m & -> & Hm).
destruct (token_type_eqb (current_type (ahead m p)) TOKEN_COMMA) eqn:Ec.
- apply token_type_eqb_eq in Ec.
  destruct Hm as [Hm | [_ Hm]]; [| congruence].
  apply IH in H. rewrite <- ahead_S in H.
  eapply read_children_more; eauto using G_element, G_element_more.
- destruct (token_type_eqb (current_type (ahead m p)) TOKEN_RBRACKET) eqn:Eb;
    [| discriminate].
  apply token_type_eqb_eq in Eb. inversion H; subst.
  destruct Hm as [Hm | [_ Hm]]; [| congruence].
  right. exists m. repeat split; auto using G_element.
Qed.

Lemma object_loop_sound n :
forall p members v p',
  object_loop pv n p members = Ret (Some v) p' ->
  read_children G_members TOKEN_RBRACE p p'.
Proof.
induction n as [|n IH]; intros p members v p' H; [discriminate |]. simpl in H.
destruct (token_type_eqb (current_type p) TOKEN_EOF) eqn:Eeof.
{ apply token_type_eqb_eq in Eeof. inversion H; subst. left; auto. }
destruct (token_type_eqb (current_type p) TOKEN_STRING) eqn:Es; [| discriminate].
apply token_type_eqb_eq in Es. simpl in H.
destruct (token_type_eqb (current_type (next_token p)) TOKEN_COLON) eqn:Eco;
  [| discriminate].
apply token_type_eqb_eq in Eco. simpl in H.
destruct (pv (next_token (next_token p))) as [[w|] q |] eqn:E; try discriminate.
apply pv_sound in E. destruct E as (m & -> & Hm).
replace (ahead m (next_token (next_token p))) with (ahead (2 + m) p) in H
  by ahead_solve.
assert (Et : types (2 + m) p
             = TOKEN_STRING :: TOKEN_COLON :: types m (next_token (next_token p))).
{ simpl. rewrite Es, Eco. reflexivity. }
destruct (token_type_eqb (current_type (ahead (2 + m) p)) TOKEN_COMMA) eqn:Ec.
- apply token_type_eqb_eq in Ec.
  destruct Hm as [Hm | [_ Hm]];
    [| replace (ahead m (next_token (next_token p))) with (ahead (2 + m) p) in Hm
         by ahead_solve; congruence].
  apply IH in H. rewrite <- ahead_S in H.
  eapply read_children_more; eauto.
  + intros k Hk. rewrite Et. simpl. apply G_member_more; auto.
  + rewrite Et. apply G_member; auto.
- destruct (token_type_eqb (current_type (ahead (2 + m) p)) TOKEN_RBRACE) eqn:Eb;
    [| discriminate].
  apply token_type_eqb_eq in Eb. inversion H; subst.
  destruct Hm as [Hm | [_ Hm]];
    [| replace (ahead m (next_token (next_token p))) with (ahead (2 + m) p) in Hm
         by ahead_solve; congruence].
  right. exists (2 + m). repeat split; auto.
  rewrite Et. apply G_member; auto.
Qed.

Lemma json_parser_parse_array_sound n p v p' :
current_type p = TOKEN_LBRACKET ->
json_parser_parse_array pv n p = Ret (Some v) p' -> read_value p p'.
Proof.
intros Hp H. unfold json_parser_parse_array in H.
destruct (token_type_eqb (current_type (next_token p)) TOKEN_RBRACKET) eqn:E.
{ apply token_type_eqb_eq in E. inversion H; subst.
  exists 2. split; [ahead_solve |]. left. simpl. rewrite Hp, E. constructor. }
apply array_loop_sound in H.
destruct H as [[Heof ->] | (k & Hk & -> & Hend)].
- exists 1. split; [ahead_solve |]. right. simpl. rewrite Hp.
  split; [constructor | exact Heof].
- exists (S (S k)). split; [ahead_solve |].
  rewrite types_snoc. simpl types. rewrite Hp, ahead_next.
  replace (ahead (S k) p) with (ahead k (next_token p)) by ahead_solve.
  destruct Hend as [-> | [-> Heof]]; [left | right].
  + apply G_array; auto.
  + split; [apply G_cut_elements; auto | rewrite <- Heof; ahead_solve].
Qed.

Lemma json_parser_parse_object_sound n p v p' :
current_type p = TOKEN_LBRACE ->
json_parser_parse_object pv n p = Ret (Some v) p' -> read_value p p'.
Proof.
intros Hp H. unfold json_parser_parse_object in H.
destruct (token_type_eqb (current_type (next_token p)) TOKEN_RBRACE) eqn:E.
{ apply token_type_eqb_eq in E. inversion H; subst.
  exists 2. split; [ahead_solve |]. left. simpl. rewrite Hp, E. constructor. }
apply object_loop_sound in H.
destruct H as [[Heof ->] | (k & Hk & -> & Hend)].
- exists 1. split; [ahead_solve |]. right. simpl. rewrite Hp.
  split; [constructor | exact Heof].
- exists (S (S k)). split; [ahead_solve |].
  rewrite types_snoc. simpl types. rewrite Hp, ahead_next.
  replace (ahead (S k) p) with (ahead k (next_token p)) by ahead_solve.
  destruct Hend as [-> | [-> Heof]]; [left | right].
  + apply G_object; auto.
  + split; [apply G_cut_members; auto | rewrite <- Heof; ahead_solve].
Qed.

End Soundness_of_loops.

Lemma json_parser_parse_value_sound fuel : sound (json_parser_parse_value fuel).
Proof.
  induction fuel as [|fuel IH]; intros p v p' H; [discriminate |]. simpl in H.
  destruct (current_type p) eqn:E; try discriminate;
    try (inversion H; subst; exists 1; split; [reflexivity |];
         left; simpl; rewrite E; constructor).
  - eapply json_parser_parse_object_sound; eauto.
  - eapply json_parser_parse_array_sound; eauto.
Qed.

(** ** The tokenizer looks at the remaining characters only *)

Lemma same_out_refl (A : Type) (a : A) p q :
  remaining p = remaining q -> same_out (a, p) (a, q).
Proof. intros H; split; auto. Qed.

Lemma same_rest_step p q :
  remaining p = remaining q -> remaining (step_column p) = remaining (step_column q).
Proof. intros H. rewrite !remaining_step_column, H. reflexivity. Qed.

Lemma skip_whitespace_loop_local rest :
  forall p q, remaining p = rest -> remaining q = rest ->
    remaining (skip_whitespace_loop rest p) = remaining (skip_whitespace_loop rest q).
Proof.
  induction rest as [|c rest IH]; intros p q Hp Hq; simpl; [congruence |].
  destruct (_ || _)%bool.
  - apply IH; rewrite remaining_step_column; [rewrite Hp | rewrite Hq]; reflexivity.
  - destruct (Ascii.eqb c LF); [| congruence].
    apply IH; rewrite remaining_step_line; [rewrite Hp | rewrite Hq]; reflexivity.
Qed.

Lemma tokenizer_skip_whitespace_local p q :
  remaining p = remaining q ->
  remaining (tokenizer_skip_whitespace p) = remaining (tokenizer_skip_whitespace q).
Proof.
  intros H. unfold tokenizer_skip_whitespace. rewrite <- H.
  apply skip_whitespace_loop_local; auto.
Qed.

Lemma string_literal_loop_local rest :
  forall p q buf, remaining p = rest -> remaining q = rest ->
    same_out (string_literal_loop rest p buf) (string_literal_loop rest q buf).
Proof.
  induction rest as [rest IH] using list_length_ind.
  intros p q buf Hp Hq. destruct rest as [|c rest']; simpl.
  - apply same_out_refl; congruence.
  - destruct (_ <=? _); [apply same_out_refl; congruence |].
    destruct (Ascii.eqb c DQUOTE).
    { apply same_out_refl, same_rest_step; congruence. }
    assert (H1 : remaining (step_column p) = rest') by eauto using remaining_cons_step.
    assert (H2 : remaining (step_column q) = rest') by eauto using remaining_cons_step.
    destruct (Ascii.eqb c BACKSLASH); [| apply IH; simpl; auto].
    destruct rest' as [|escaped rest'']; [apply IH; simpl; auto |].
    apply IH; simpl; eauto using remaining_cons_step.
Qed.

Lemma tokenizer_parse_string_literal_local p q :
  remaining p = remaining q ->
  same_out (tokenizer_parse_string_literal p) (tokenizer_parse_string_literal q).
Proof.
  intros H. unfold tokenizer_parse_string_literal.
  pose proof (@string_literal_loop_local _ (step_column p) (step_column q) []
                eq_refl (eq_sym (same_rest_step _ _ H))) as Hl.
  rewrite <- (same_rest_step _ _ H).
  destruct (string_literal_loop _ (step_column p) []) as [[f b] p'].
  destruct (string_literal_loop _ (step_column q) []) as [[f' b'] q'].
  destruct Hl as [Hfb Hr]. simpl in *. inversion Hfb; subst.
  destruct f'; split; simpl; auto.
Qed.

Lemma digits_loop_local rest :
  forall p q buf, remaining p = rest -> remaining q = rest ->
    same_out (digits_loop rest p buf) (digits_loop rest q buf).
Proof.
  induction rest as [|c rest IH]; intros p q buf Hp Hq; simpl.
  - apply same_out_refl; congruence.
  - destruct (isdigit c); [| apply same_out_refl; congruence].
    apply IH; eauto using remaining_cons_step.
Qed.

Lemma numeric_fraction_local p q buf :
  remaining p = remaining q ->
  same_out (numeric_fraction p buf) (numeric_fraction q buf).
Proof.
  intros H. unfold numeric_fraction. rewrite <- H.
  destruct (remaining p) as [|c rest] eqn:Hp; [apply same_out_refl; congruence |].
  assert (Hq : remaining q = c :: rest) by congruence.
  destruct (Ascii.eqb c "."); [| apply same_out_refl; congruence].
  rewrite (remaining_cons_step _ Hp), (remaining_cons_step _ Hq).
  apply digits_loop_local; eauto using remaining_cons_step.
Qed.

Lemma numeric_exponent_local p q buf :
  remaining p = remaining q ->
  same_out (numeric_exponent p buf) (numeric_exponent q buf).
Proof.
  intros H. unfold numeric_exponent. rewrite <- H.
  destruct (remaining p) as [|c rest] eqn:Hp; [apply same_out_refl; congruence |].
  assert (Hq : remaining q = c :: rest) by congruence.
  destruct (_ || _)%bool; [| apply same_out_refl; congruence].
  rewrite (remaining_cons_step _ Hp), (remaining_cons_step _ Hq).
  destruct rest as [|d rest'].
  { rewrite (remaining_cons_step _ Hp), (remaining_cons_step _ Hq).
    apply digits_loop_local; eauto using remaining_cons_step. }
  destruct (_ || _)%bool.
  - assert (Hp' : remaining (step_column p) = d :: rest') by eauto using remaining_cons_step.
    assert (Hq' : remaining (step_column q) = d :: rest') by eauto using remaining_cons_step.
    rewrite (remaining_cons_step _ Hp'), (remaining_cons_step _ Hq').
    apply digits_loop_local; eauto using remaining_cons_step.
  - rewrite (remaining_cons_step _ Hp), (remaining_cons_step _ Hq).
    apply digits_loop_local; eauto using remaining_cons_step.
Qed.

(** Two runs that agree so far agree after a further step that preserves
    agreement. *)
Lemma same_out_bind (A B : Type) (x y : A * parser_t)
      (k : A -> parser_t -> B * parser_t) :
  same_out x y ->
  (forall a p q, remaining p = remaining q -> same_out (k a p) (k a q)) ->
  same_out (let '(a, p) := x in k a p) (let '(a, q) := y in k a q).
Proof.
  destruct x as [a p], y as [b q]. intros [Ha Hr] Hk. simpl in *. subst. auto.
Qed.

Lemma numeric_tail_local buf p q :
  remaining p = remaining q -> same_out (numeric_tail buf p) (numeric_tail buf q).
Proof.
  intros H. unfold numeric_tail.
  apply (same_out_bind (fun b p' => let '(b2, p2) := numeric_exponent p' b in
                                    (mk_token TOKEN_NUMBER b2 (atof b2), p2))).
  - apply numeric_fraction_local; auto.
  - intros b p' q' H'.
    apply (same_out_bind (fun b2 p2 => (mk_token TOKEN_NUMBER b2 (atof b2), p2))).
    + apply numeric_exponent_local; auto.
    + intros; apply same_out_refl; auto.
Qed.

Lemma numeric_digits_local buf p q :
  remaining p = remaining q -> same_out (numeric_digits buf p) (numeric_digits buf q).
Proof.
  intros H. unfold numeric_digits.
  apply (same_out_bind numeric_tail).
  - rewrite <- H. apply digits_loop_local; auto.
  - intros; apply numeric_tail_local; auto.
Qed.

Lemma numeric_integer_part_local buf p q :
  remaining p = remaining q ->
  same_out (numeric_integer_part buf p) (numeric_integer_part buf q).
Proof.
  intros H. unfold numeric_integer_part. rewrite <- H.
  destruct (remaining p) as [|c rest] eqn:Hp;
    [apply numeric_digits_local; congruence |].
  assert (Hq : remaining q = c :: rest) by congruence.
  destruct (Ascii.eqb c "0"); [| apply numeric_digits_local; congruence].
  rewrite (remaining_cons_step _ Hp), (remaining_cons_step _ Hq).
  assert (remaining (step_column p) = remaining (step_column q))
    by (apply same_rest_step; congruence).
  destruct rest as [|d rest']; [apply numeric_tail_local; auto |].
  destruct (isdigit d); [| apply numeric_tail_local; auto].
  apply same_out_refl. rewrite !remaining_report. auto.
Qed.

Lemma tokenizer_parse_numeric_literal_local p q :
  remaining p = remaining q ->
  same_out (tokenizer_parse_numeric_literal p) (tokenizer_parse_numeric_literal q).
Proof.
  intros H. unfold tokenizer_parse_numeric_literal. rewrite <- H.
  destruct (remaining p) as [|c rest] eqn:Hp;
    [apply numeric_integer_part_local; congruence |].
  destruct (Ascii.eqb c "-"); apply numeric_integer_part_local; try congruence.
  apply same_rest_step; congruence.
Qed.

Lemma tokenizer_parse_keyword_literal_local p q :
  remaining p = remaining q ->
  same_out (tokenizer_parse_keyword_literal p) (tokenizer_parse_keyword_literal q).
Proof.
  intros H. unfold tokenizer_parse_keyword_literal. rewrite <- H.
  repeat (destruct (starts_with _ _);
          [apply same_out_refl; rewrite !remaining_step_columns; congruence |]).
  apply same_out_refl; auto.
Qed.

Lemma tokenizer_get_next_token_local p q :
  remaining p = remaining q ->
  same_out (tokenizer_get_next_token p) (tokenizer_get_next_token q).
Proof.
  intros H. unfold tokenizer_get_next_token.
  apply tokenizer_skip_whitespace_local in H. rewrite <- H.
  destruct (remaining (tokenizer_skip_whitespace p)) as [|c rest] eqn:E;
    [apply same_out_refl; congruence |].
  assert (H' : remaining (tokenizer_skip_whitespace p)
               = remaining (tokenizer_skip_whitespace q)) by congruence.
  destruct (punctuation c); [apply same_out_refl, same_rest_step; auto |].
  destruct (Ascii.eqb c DQUOTE); [apply tokenizer_parse_string_literal_local; auto |].
  destruct (Ascii.eqb c "-" || isdigit c)%bool;
    [apply tokenizer_parse_numeric_literal_local; auto |].
  destruct (Ascii.eqb c "t" || Ascii.eqb c "f" || Ascii.eqb c "n")%bool;
    [apply tokenizer_parse_keyword_literal_local; auto |].
  apply same_out_refl. rewrite !remaining_report. auto.
Qed.

Lemma next_token_local p q :
  remaining p = remaining q -> same_view (next_token p) (next_token q).
Proof.
  intros H. apply tokenizer_get_next_token_local in H. unfold next_token.
  destruct (tokenizer_get_next_token p) as [t p'],
           (tokenizer_get_next_token q) as [t' q'].
  destruct H as [Ht Hr]. simpl in *. subst. split; auto.
Qed.

Lemma ahead_local n p q :
  same_view p q -> same_view (ahead n p) (ahead n q).
Proof.
  intros H. induction n as [|n IH]; [exact H |].
  rewrite !ahead_S. apply next_token_local. apply IH.
Qed.

(** ** The parser looks at the tokens only *)

Lemma same_view_tokens p q : same_view p q -> same_tokens p q.
Proof. intros H n. apply (ahead_local n H). Qed.

Lemma same_tokens_current p q : same_tokens p q -> current_type p = current_type q.
Proof. intros H. exact (f_equal type (H 0)). Qed.

Lemma same_tokens_value p q :
  same_tokens p q -> current_token p = current_token q.
Proof. intros H. exact (H 0). Qed.

Lemma same_tokens_next p q :
  same_tokens p q -> same_tokens (next_token p) (next_token q).
Proof. intros H n. rewrite !ahead_next. apply H. Qed.

Section Tokens_of_loops.

Variables pv pv' : parser_t -> result.
Hypothesis pv_agree : forall p q, same_tokens p q -> agree (pv p) (pv' q).

Lemma array_loop_agree n :
forall p q elements, same_tokens p q ->
  agree (array_loop pv n p elements) (array_loop pv' n q elements).
Proof.
induction n as [|n IH]; intros p q elements H; simpl; [exact I |].
rewrite <- (same_tokens_current H).
destruct (token_type_eqb (current_type p) TOKEN_EOF); [simpl; auto |].
pose proof (pv_agree H) as Hpv.
destruct (pv p) as [[v|] p1 |], (pv' q) as [[w|] q1 |]; simpl in Hpv;
  try contradiction; try exact I.
destruct Hpv as [-> H1]. rewrite <- (same_tokens_current H1).
destruct (token_type_eqb (current_type p1) TOKEN_COMMA).
{ apply IH, same_tokens_next, H1. }
destruct (token_type_eqb (current_type p1) TOKEN_RBRACKET); simpl; auto.
split; auto using same_tokens_next.
Qed.

Lemma object_loop_agree n :
forall p q members, same_tokens p q ->
  agree (object_loop pv n p members) (object_loop pv' n q members).
Proof.
induction n as [|n IH]; intros p q members H; simpl; [exact I |].
rewrite <- (same_tokens_current H), <- (same_tokens_value H).
destruct (token_type_eqb (current_type p) TOKEN_EOF); [simpl; auto |].
destruct (negb _); [exact I |].
pose proof (same_tokens_next H) as H1. rewrite <- (same_tokens_current H1).
destruct (negb _); [exact I |].
pose proof (same_tokens_next H1) as H2.
pose proof (pv_agree H2) as Hpv.
destruct (pv _) as [[v|] p1 |], (pv' _) as [[w|] q1 |]; simpl in Hpv;
  try contradiction; try exact I.
destruct Hpv as [-> H3]. rewrite <- (same_tokens_current H3).
destruct (token_type_eqb (current_type p1) TOKEN_COMMA).
{ apply IH, same_tokens_next, H3. }
destruct (token_type_eqb (current_type p1) TOKEN_RBRACE); simpl; auto.
split; auto using same_tokens_next.
Qed.

End Tokens_of_loops.

Lemma json_parser_parse_value_agree fuel :
  forall p q, same_tokens p q ->
    agree (json_parser_parse_value fuel p) (json_parser_parse_value fuel q).
Proof.
  induction fuel as [|fuel IH]; intros p q H; simpl; [exact I |].
  rewrite <- (same_tokens_current H), <- (same_tokens_value H).
  pose proof (same_tokens_next H) as H1.
  destruct (current_type p); simpl; auto.
  - unfold json_parser_parse_object. rewrite <- (same_tokens_current H1).
    destruct (token_type_eqb _ TOKEN_RBRACE); simpl; auto using same_tokens_next.
    apply object_loop_agree; auto.
  - unfold json_parser_parse_array. rewrite <- (same_tokens_current H1).
    destruct (token_type_eqb _ TOKEN_RBRACKET); simpl; auto using same_tokens_next.
    apply array_loop_agree; auto.
Qed.

(** Two texts with the same tokens parse to the same value. *)
Lemma parse_same_tokens input input' :
  same_tokens (parser_initialize input) (parser_initialize input') ->
  parsed_value (parse input) = parsed_value (parse input').
Proof.
  intros H. unfold parse, json_parser_parse_document.
  set (p := parser_initialize input) in *. set (q := parser_initialize input') in *.
  destruct (parse_value_fuel p) as (r & p' & Hp), (parse_value_fuel q) as (r' & q' & Hq).
  rewrite Hp, Hq. simpl.
  pose proof (@json_parser_parse_value_agree (enough_fuel p + enough_fuel q) _ _ H) as Ha.
  rewrite (json_parser_parse_value_monotone _ (Nat.le_add_r _ _) Hp) in Ha.
  rewrite (json_parser_parse_value_monotone _ (Nat.le_add_l _ _) Hq) in Ha.
  destruct r, r'; simpl in Ha; try contradiction; auto.
  destruct Ha as [-> _]. reflexivity.
Qed.

(** ** A proper token does not depend on what follows it

    The tokenizer is run on two texts that agree up to the position [B]; on
    the second text, what follows from [B] on is [r2], which starts with a
    blank or with the same character as the first text does at [B], or is
    empty.  As long as the first run stays within [B] and produces proper
    tokens, the second run does the same. *)

Lemma is_space_cases w :
  is_space w = true -> w = " "%char \/ w = TAB \/ w = CR \/ w = LF.
Proof.
  unfold is_space. intros H.
  repeat (apply orb_prop in H; destruct H as [H | H]);
    apply Ascii.eqb_eq in H; auto.
Qed.

Ltac solve_blank_free :=
  let w := fresh "w" in let H := fresh "H" in
  intros w H; apply is_space_cases in H;
  destruct H as [-> | [-> | [-> | ->]]]; reflexivity.

Lemma pos_le_moved n p p' : moved n p p' -> pos p <= pos p'.
Proof. intros (_ & _ & H & _). lia. Qed.

Section Stable.

Variable B : nat.
Variable r2 : text.

Definition ext (p q : parser_t) : Prop :=
B <= pos p + List.length (remaining p)
/\ remaining q = firstn (B - pos p) (remaining p) ++ r2
/\ halts r2 (skipn (B - pos p) (remaining p)).

Lemma ext_step p q c rest :
ext p q -> remaining p = c :: rest -> pos p < B ->
remaining q = c :: remaining (step_column q)
/\ ext (step_column p) (step_column q).
Proof.
intros (Hb & Hq & Hh) Hp Hlt. rewrite Hp in *.
destruct (B - pos p) as [|m] eqn:Em; [lia |]. simpl in *.
assert (Hq' : remaining (step_column q) = firstn m rest ++ r2).
{ rewrite remaining_step_column, Hq. reflexivity. }
split; [rewrite Hq', Hq; reflexivity |].
unfold ext. rewrite (remaining_cons_step _ Hp). simpl pos.
replace (B - S (pos p)) with m by lia. repeat split; auto. lia.
Qed.

Lemma ext_step_line p q c rest :
ext p q -> remaining p = c :: rest -> pos p < B ->
remaining q = c :: remaining (step_line q)
/\ ext (step_line p) (step_line q).
Proof. exact (@ext_step p q c rest). Qed.

Lemma ext_stop P p q :
ext p q -> blank_free P ->
test P (remaining p) = false -> test P (remaining q) = false.
Proof.
intros (Hb & Hq & Hh) HP Ht. rewrite Hq.
destruct (B - pos p) as [|m] eqn:Em.
- simpl in *. destruct r2 as [|w r]; [reflexivity |]. simpl.
  destruct Hh as [Hw | Hw]; [apply HP, Hw |].
  destruct (remaining p) as [|c rest]; [discriminate |].
  simpl in *. inversion Hw; subst. exact Ht.
- destruct (remaining p) as [|c rest]; [simpl in *; lia |]. exact Ht.
Qed.

Lemma ext_report p q d d' : ext p q -> ext (report p d) (report q d').
Proof. exact (fun H => H). Qed.

Lemma ext_set_current_token p q t t' :
ext p q -> ext (set_current_token p t) (set_current_token q t').
Proof. exact (fun H => H). Qed.

Lemma digits_loop_stop l q buf :
test isdigit l = false -> digits_loop l q buf = (buf, q).
Proof. destruct l as [|c l]; simpl; [reflexivity |]. intros ->. reflexivity. Qed.

Lemma isdigit_blank_free : blank_free isdigit.
Proof. solve_blank_free. Qed.

Lemma digits_loop_stable rest :
forall p q buf b p',
  remaining p = rest -> ext p q ->
  digits_loop rest p buf = (b, p') -> pos p' <= B ->
  exists q', digits_loop (remaining q) q buf = (b, q') /\ ext p' q'.
Proof.
induction rest as [|c rest IH]; intros p q buf b p' Hp He H Hle; simpl in H.
- inversion H; subst. exists q; split; [| exact He].
  apply digits_loop_stop. eapply ext_stop; eauto using isdigit_blank_free.
  rewrite Hp; reflexivity.
- destruct (isdigit c) eqn:Ed.
  + assert (pos p < B).
    { apply digits_loop_moved in H; [| eapply remaining_cons_step; eauto].
      destruct H as [k Hk]. apply pos_le_moved in Hk. simpl in Hk. lia. }
    destruct (ext_step He Hp) as [Hq He']; [lia |].
    rewrite Hq. simpl. rewrite Ed.
    eapply IH; eauto using remaining_cons_step.
  + inversion H; subst. exists q; split; [| exact He].
    apply digits_loop_stop. eapply ext_stop; eauto using isdigit_blank_free.
    rewrite Hp; exact Ed.
Qed.

Lemma digits_loop_stable' p q buf b p' :
ext p q -> digits_loop (remaining p) p buf = (b, p') -> pos p' <= B ->
exists q', digits_loop (remaining q) q buf = (b, q') /\ ext p' q'.
Proof. intros. eapply digits_loop_stable; eauto. Qed.

Lemma string_literal_loop_stable rest :
forall p q buf b p',
  remaining p = rest -> ext p q ->
  string_literal_loop rest p buf = (true, b, p') -> pos p' <= B ->
  exists q', string_literal_loop (remaining q) q buf = (true, b, q') /\ ext p' q'.
Proof.
induction rest as [rest IH] using list_length_ind.
intros p q buf b p' Hp He H Hle.
assert (Hlt : pos p < B).
{ destruct (string_literal_loop_moved _ _ Hp H) as (k & Hk & Hone).
  destruct Hk as (_ & _ & Hk & _).
  specialize (Hone eq_refl). lia. }
destruct rest as [|c rest']; simpl in H; [discriminate |].
destruct (MAX_TOKEN_SIZE - 1 <=? List.length buf) eqn:Ecap; [discriminate |].
destruct (ext_step He Hp Hlt) as [Hq He1].
assert (Hp1 : remaining (step_column p) = rest') by eauto using remaining_cons_step.
rewrite Hq. simpl. rewrite Ecap.
destruct (Ascii.eqb c DQUOTE).
{ inversion H; subst. eauto. }
destruct (Ascii.eqb c BACKSLASH).
- destruct rest' as [|escaped rest''].
  + simpl in H. discriminate.
  + assert (Hlt1 : pos (step_column p) < B).
    { apply string_literal_loop_moved in H;
        [| eapply remaining_cons_step; eauto].
      destruct H as (k & Hk & _). apply pos_le_moved in Hk. simpl in *. lia. }
    destruct (ext_step He1 Hp1 Hlt1) as [Hq1 He2].
    rewrite Hq1.
    eapply (IH rest'');
      [simpl; lia | eapply remaining_cons_step; eauto | exact He2 | exact H
       | exact Hle].
- eapply (IH rest'); [simpl; lia | exact Hp1 | exact He1 | exact H | exact Hle].
Qed.

Lemma tokenizer_parse_string_literal_stable p q c rest t p' :
remaining p = c :: rest -> ext p q ->
tokenizer_parse_string_literal p = (t, p') -> type t = TOKEN_STRING ->
pos p' <= B ->
exists q', tokenizer_parse_string_literal q = (t, q') /\ ext p' q'.
Proof.
intros Hp He H Ht Hle. unfold tokenizer_parse_string_literal in *.
destruct (string_literal_loop _ (step_column p) []) as [[found b] p1] eqn:E.
destruct found; inversion H; subst; [| discriminate].
assert (Hlt : pos p < B).
{ apply string_literal_loop_moved in E; [| reflexivity].
  destruct E as (k & Hk & _). apply pos_le_moved in Hk. simpl in *. lia. }
destruct (ext_step He Hp Hlt) as [_ He1].
destruct (@string_literal_loop_stable _ _ _ _ _ _ eq_refl He1 E Hle)
  as (q' & Hq' & He').
rewrite Hq'. eauto.
Qed.

(** *** Numbers *)

Lemma numeric_fraction_stable p q buf b p' :
ext p q -> numeric_fraction p buf = (b, p') -> pos p' <= B ->
exists q', numeric_fraction q buf = (b, q') /\ ext p' q'.
Proof.
intros He H Hle. unfold numeric_fraction in *.
assert (Hstop : test (fun c => Ascii.eqb c ".") (remaining p) = false ->
                match remaining q with
                | [] => (buf, q)
                | c :: _ =>
                    if Ascii.eqb c "."
                    then digits_loop (remaining (step_column q)) (step_column q)
                           (push_guarded buf c)
                    else (buf, q)
                end = (buf, q)).
{ intros Ht. eapply ext_stop in Ht; eauto; [| solve_blank_free].
  destruct (remaining q) as [|w rq]; [reflexivity |]. simpl in Ht. rewrite Ht.
  reflexivity. }
destruct (remaining p) as [|c rest] eqn:Hp.
{ inversion H; subst. exists q. split; auto. }
destruct (Ascii.eqb c ".") eqn:Ec.
- assert (Hlt : pos p < B).
  { apply digits_loop_moved in H; [| reflexivity].
    destruct H as [k Hk]. apply pos_le_moved in Hk. simpl in *. lia. }
  destruct (ext_step He Hp Hlt) as [Hq He1]. rewrite Hq, Ec.
  eapply digits_loop_stable'; eauto.
- inversion H; subst. exists q. split; auto.
Qed.

Lemma numeric_exponent_stable p q buf b p' :
ext p q -> numeric_exponent p buf = (b, p') -> pos p' <= B ->
exists q', numeric_exponent q buf = (b, q') /\ ext p' q'.
Proof.
intros He H Hle. unfold numeric_exponent in *.
assert (Hstop : test (fun c => Ascii.eqb c "e" || Ascii.eqb c "E")%bool
                     (remaining p) = false ->
                exists x, numeric_exponent q buf = x /\ x = (buf, q)).
{ intros Ht. eapply ext_stop in Ht; eauto; [| solve_blank_free].
  eexists; split; [reflexivity |]. unfold numeric_exponent.
  destruct (remaining q) as [|w rq]; [reflexivity |]. simpl in Ht. rewrite Ht.
  reflexivity. }
unfold numeric_exponent in Hstop.
destruct (remaining p) as [|c rest] eqn:Hp.
{ inversion H; subst. exists q. destruct Hstop as (x & -> & ->); auto. }
destruct (Ascii.eqb c "e" || Ascii.eqb c "E")%bool eqn:Ec.
2: { inversion H; subst. exists q. destruct Hstop as (x & -> & ->); auto. }
clear Hstop.
set (p1 := step_column p) in *.
assert (Hp1 : remaining p1 = rest) by (eapply remaining_cons_step; eauto).
assert (Hmid : exists p2 b2, digits_loop (remaining p2) p2 b2 = (b, p')
                             /\ pos p1 <= pos p2).
{ destruct (remaining p1) as [|d rest'] eqn:E1; [eauto |].
  destruct (Ascii.eqb d "+" || Ascii.eqb d "-")%bool; [| eauto].
  eexists _, _; split; [exact H | simpl; lia]. }
assert (Hlt : pos p < B).
{ destruct Hmid as (p2 & b2 & Hd & Hp2).
  apply digits_loop_moved in Hd; [| reflexivity].
  destruct Hd as [k Hk]. apply pos_le_moved in Hk. subst p1. simpl in *. lia. }
destruct (ext_step He Hp Hlt) as [Hq He1]. fold p1 in He1. rewrite Hq, Ec.
set (q1 := step_column q) in *.
assert (Hsign : test (fun d => Ascii.eqb d "+" || Ascii.eqb d "-")%bool
                     (remaining p1) = false ->
                match remaining q1 with
                | [] => (push_guarded buf c, q1)
                | d :: _ =>
                    if (Ascii.eqb d "+" || Ascii.eqb d "-")%bool
                    then (push_guarded (push_guarded buf c) d, step_column q1)
                    else (push_guarded buf c, q1)
                end = (push_guarded buf c, q1)).
{ intros Ht. eapply ext_stop in Ht; eauto; [| solve_blank_free].
  destruct (remaining q1) as [|w rq]; [reflexivity |]. simpl in Ht. rewrite Ht.
  reflexivity. }
destruct (remaining p1) as [|d rest'] eqn:E1.
{ rewrite Hsign by reflexivity. eapply digits_loop_stable'; eauto. }
destruct (Ascii.eqb d "+" || Ascii.eqb d "-")%bool eqn:Es.
- assert (Hlt1 : pos p1 < B).
  { apply digits_loop_moved in H; [| reflexivity].
    destruct H as [k Hk]. apply pos_le_moved in Hk. simpl in *. lia. }
  destruct (ext_step He1 E1 Hlt1) as [Hq1 He2]. rewrite Hq1, Es.
  eapply digits_loop_stable'; eauto.
- rewrite Hsign by exact Es. eapply digits_loop_stable'; eauto.
Qed.

Lemma numeric_tail_stable buf p q t p' :
ext p q -> numeric_tail buf p = (t, p') -> pos p' <= B ->
exists q', numeric_tail buf q = (t, q') /\ ext p' q'.
Proof.
intros He H Hle. unfold numeric_tail in *.
destruct (numeric_fraction p buf) as [b1 p1] eqn:E1.
destruct (numeric_exponent p1 b1) as [b2 p2] eqn:E2.
inversion H; subst.
assert (pos p1 <= B).
{ apply numeric_exponent_moved in E2. destruct E2 as [k Hk].
  apply pos_le_moved in Hk. lia. }
destruct (numeric_fraction_stable _ He E1) as (q1 & -> & He1); [lia |].
destruct (numeric_exponent_stable _ He1 E2) as (q2 & -> & He2); [lia |].
eauto.
Qed.

Lemma numeric_digits_stable buf p q t p' :
ext p q -> numeric_digits buf p = (t, p') -> pos p' <= B ->
exists q', numeric_digits buf q = (t, q') /\ ext p' q'.
Proof.
intros He H Hle. unfold numeric_digits in *.
destruct (digits_loop (remaining p) p buf) as [b1 p1] eqn:E1.
assert (pos p1 <= B).
{ apply numeric_tail_moved in H. destruct H as [k Hk].
  apply pos_le_moved in Hk. lia. }
destruct (digits_loop_stable' _ He E1) as (q1 & -> & He1); [lia |].
eapply numeric_tail_stable; eauto.
Qed.

Lemma numeric_integer_part_stable buf p q t p' :
ext p q -> numeric_integer_part buf p = (t, p') -> type t = TOKEN_NUMBER ->
pos p' <= B ->
exists q', numeric_integer_part buf q = (t, q') /\ ext p' q'.
Proof.
intros He H Ht Hle. unfold numeric_integer_part in *.
assert (Hstop : test (fun c => Ascii.eqb c "0") (remaining p) = false ->
                exists x, numeric_integer_part buf q = x
                          /\ x = numeric_digits buf q).
{ intros Hz. eapply ext_stop in Hz; eauto; [| solve_blank_free].
  eexists; split; [reflexivity |]. unfold numeric_integer_part.
  destruct (remaining q) as [|w rq]; [reflexivity |]. simpl in Hz. rewrite Hz.
  reflexivity. }
unfold numeric_integer_part in Hstop.
destruct (remaining p) as [|c rest] eqn:Hp.
{ destruct Hstop as (x & -> & ->); [reflexivity |].
  eapply numeric_digits_stable; eauto. }
destruct (Ascii.eqb c "0") eqn:Ec.
2: { destruct Hstop as (x & -> & ->); [exact Ec |].
     eapply numeric_digits_stable; eauto. }
clear Hstop.
set (p1 := step_column p) in *.
assert (Hp1 : remaining p1 = rest) by (eapply remaining_cons_step; eauto).
assert (Hlt : pos p < B).
{ assert (pos p1 <= pos p') as Hk; [| subst p1; simpl in *; lia].
  destruct (remaining p1) as [|d rest'].
  - apply numeric_tail_moved in H. destruct H as [k Hk].
    apply pos_le_moved in Hk. exact Hk.
  - destruct (isdigit d).
    + inversion H; subst. simpl. lia.
    + apply numeric_tail_moved in H. destruct H as [k Hk].
      apply pos_le_moved in Hk. exact Hk. }
destruct (ext_step He Hp Hlt) as [Hq He1]. fold p1 in He1. rewrite Hq, Ec.
set (q1 := step_column q) in *.
assert (Hd : test isdigit (remaining p1) = false ->
             match remaining q1 with
             | [] => numeric_tail (buf ++ [c]) q1
             | d :: _ =>
                 if isdigit d
                 then (mk_token TOKEN_ERROR (buf ++ [c]) zero,
                       report q1 (Leading_zero (line q1) (column q1)))
                 else numeric_tail (buf ++ [c]) q1
             end = numeric_tail (buf ++ [c]) q1).
{ intros Hz. eapply ext_stop in Hz; eauto using isdigit_blank_free.
  destruct (remaining q1) as [|w rq]; [reflexivity |]. simpl in Hz. rewrite Hz.
  reflexivity. }
destruct (remaining p1) as [|d rest'] eqn:E1.
{ rewrite Hd by reflexivity. eapply numeric_tail_stable; eauto. }
destruct (isdigit d) eqn:Ed.
{ inversion H; subst. discriminate. }
rewrite Hd by exact Ed. eapply numeric_tail_stable; eauto.
Qed.

Lemma tokenizer_parse_numeric_literal_stable p q t p' :
ext p q -> tokenizer_parse_numeric_literal p = (t, p') ->
type t = TOKEN_NUMBER -> pos p' <= B ->
exists q', tokenizer_parse_numeric_literal q = (t, q') /\ ext p' q'.
Proof.
intros He H Ht Hle. unfold tokenizer_parse_numeric_literal in *.
assert (Hstop : test (fun c => Ascii.eqb c "-") (remaining p) = false ->
                exists x, tokenizer_parse_numeric_literal q = x
                          /\ x = numeric_integer_part [] q).
{ intros Hz. eapply ext_stop in Hz; eauto; [| solve_blank_free].
  eexists; split; [reflexivity |]. unfold tokenizer_parse_numeric_literal.
  destruct (remaining q) as [|w rq]; [reflexivity |]. simpl in Hz. rewrite Hz.
  reflexivity. }
unfold tokenizer_parse_numeric_literal in Hstop.
destruct (remaining p) as [|c rest] eqn:Hp.
{ destruct Hstop as (x & -> & ->); [reflexivity |].
  eapply numeric_integer_part_stable; eauto. }
destruct (Ascii.eqb c "-") eqn:Ec.
2: { destruct Hstop as (x & -> & ->); [exact Ec |].
     eapply numeric_integer_part_stable; eauto. }
assert (Hlt : pos p < B).
{ apply numeric_integer_part_moved in H. destruct H as (k & Hk & _).
  apply pos_le_moved in Hk. simpl in *. lia. }
destruct (ext_step He Hp Hlt) as [Hq He1]. rewrite Hq, Ec.
eapply numeric_integer_part_stable; eauto.
Qed.

(** *** Keywords *)

Lemma starts_with_inv lit s :
starts_with lit s = true -> exists rest, s = lit ++ rest.
Proof.
revert s; induction lit as [|a lit IH]; intros s H; [exists s; reflexivity |].
destruct s as [|b s]; [discriminate |]. simpl in H.
apply andb_prop in H. destruct H as [Hab H]. apply Ascii.eqb_eq in Hab. subst.
destruct (IH _ H) as [rest ->]. exists rest. reflexivity.
Qed.

Lemma starts_with_ext lit p q :
ext p q -> pos p + List.length lit <= B ->
starts_with lit (remaining p) = true ->
exists rest, remaining q = lit ++ rest.
Proof.
intros (Hb & Hq & _) Hl H. apply starts_with_inv in H. destruct H as [rest Hr].
rewrite Hq, Hr, firstn_app, firstn_all2, <- app_assoc by lia. eauto.
Qed.

Lemma ext_step_columns n p q :
ext p q -> pos p + n <= B -> ext (step_columns n p) (step_columns n q).
Proof.
intros (Hb & Hq & Hh) Hn. unfold ext.
rewrite !remaining_step_columns, Hq. simpl pos.
rewrite length_skipn, skipn_skipn.
replace (B - (pos p + n) + n) with (B - pos p) by lia.
repeat split; [lia | | exact Hh].
rewrite skipn_app, firstn_skipn_comm, length_firstn.
replace (n + (B - (pos p + n))) with (B - pos p) by lia.
replace (n - Nat.min (B - pos p) (List.length (remaining p))) with 0 by lia.
reflexivity.
Qed.

Lemma tokenizer_parse_keyword_literal_stable p q t p' :
ext p q -> tokenizer_parse_keyword_literal p = (t, p') ->
type t <> TOKEN_ERROR -> pos p' <= B ->
exists q', tokenizer_parse_keyword_literal q = (t, q') /\ ext p' q'.
Proof.
intros He H Ht Hle. unfold tokenizer_parse_keyword_literal in *.
destruct (starts_with (chars "true") (remaining p)) eqn:E1.
{ inversion H; subst. simpl in Hle.
  destruct (@starts_with_ext (chars "true") p q He) as [rest ->]; auto.
  eexists; split; [reflexivity | apply ext_step_columns; auto]. }
destruct (starts_with (chars "false") (remaining p)) eqn:E2.
{ inversion H; subst. simpl in Hle.
  destruct (@starts_with_ext (chars "false") p q He) as [rest ->]; auto.
  eexists; split; [reflexivity | apply ext_step_columns; auto]. }
destruct (starts_with (chars "null") (remaining p)) eqn:E3.
{ inversion H; subst. simpl in Hle.
  destruct (@starts_with_ext (chars "null") p q He) as [rest ->]; auto.
  eexists; split; [reflexivity | apply ext_step_columns; auto]. }
inversion H; subst. simpl in Ht. congruence.
Qed.

(** *** Blanks and the token after them *)

Lemma skip_whitespace_loop_stable rest :
forall p q, remaining p = rest -> ext p q ->
  pos (skip_whitespace_loop rest p) < B ->
  ext (skip_whitespace_loop rest p) (skip_whitespace_loop (remaining q) q).
Proof.
induction rest as [|c rest IH]; intros p q Hp He Hlt; simpl in *.
{ destruct He as (Hb & _). rewrite Hp in Hb. simpl in Hb. lia. }
assert (Hpos : pos p < B).
{ destruct (Ascii.eqb c " " || Ascii.eqb c TAB || Ascii.eqb c CR)%bool.
  - destruct (@skip_whitespace_loop_moved rest (step_column p)) as [k Hk];
      [eapply remaining_cons_step; eauto |].
    apply pos_le_moved in Hk. simpl in *. lia.
  - destruct (Ascii.eqb c LF); [| exact Hlt].
    destruct (@skip_whitespace_loop_moved rest (step_line p)) as [k Hk];
      [rewrite remaining_step_line, Hp; reflexivity |].
    apply pos_le_moved in Hk. simpl in *. lia. }
destruct (ext_step He Hp Hpos) as [Hq He1].
destruct (ext_step_line He Hp Hpos) as [Hq' He1'].
destruct (Ascii.eqb c " " || Ascii.eqb c TAB || Ascii.eqb c CR)%bool eqn:Eb.
- rewrite Hq. simpl. rewrite Eb.
  apply IH; eauto using remaining_cons_step.
- destruct (Ascii.eqb c LF) eqn:El.
  + rewrite Hq'. simpl. rewrite Eb, El.
    apply IH; auto. rewrite remaining_step_line, Hp; reflexivity.
  + rewrite Hq. simpl. rewrite Eb, El. exact He.
Qed.

Lemma tokenizer_parse_string_literal_type p t p' :
tokenizer_parse_string_literal p = (t, p') ->
type t = TOKEN_STRING \/ type t = TOKEN_ERROR.
Proof.
unfold tokenizer_parse_string_literal.
destruct (string_literal_loop _ _ _) as [[[|] b] p1]; intros H; inversion H; auto.
Qed.

Lemma numeric_tail_type buf p t p' :
numeric_tail buf p = (t, p') -> type t = TOKEN_NUMBER.
Proof.
unfold numeric_tail. destruct (numeric_fraction p buf) as [b1 p1].
destruct (numeric_exponent p1 b1) as [b2 p2]. intros H; inversion H; auto.
Qed.

Lemma numeric_integer_part_type buf p t p' :
numeric_integer_part buf p = (t, p') ->
type t = TOKEN_NUMBER \/ type t = TOKEN_ERROR.
Proof.
unfold numeric_integer_part, numeric_digits. intros H.
destruct (remaining p) as [|c rest].
{ destruct (digits_loop _ _ _). left. eapply numeric_tail_type; eauto. }
destruct (Ascii.eqb c "0").
- destruct (remaining (step_column p)) as [|d rest'];
    [left; eapply numeric_tail_type; eauto |].
  destruct (isdigit d); [inversion H; auto |].
  left; eapply numeric_tail_type; eauto.
- destruct (digits_loop _ _ _). left. eapply numeric_tail_type; eauto.
Qed.

Lemma tokenizer_parse_numeric_literal_type p t p' :
tokenizer_parse_numeric_literal p = (t, p') ->
type t = TOKEN_NUMBER \/ type t = TOKEN_ERROR.
Proof.
unfold tokenizer_parse_numeric_literal. intros H.
destruct (remaining p) as [|c rest];
  [| destruct (Ascii.eqb c "-")]; eapply numeric_integer_part_type; eauto.
Qed.

Lemma tokenizer_get_next_token_stable p q t p' :
ext p q -> tokenizer_get_next_token p = (t, p') -> proper (type t) ->
pos p' <= B ->
exists q', tokenizer_get_next_token q = (t, q') /\ ext p' q'.
Proof.
intros He H Ht Hle. unfold tokenizer_get_next_token in *.
unfold tokenizer_skip_whitespace in *.
set (p0 := skip_whitespace_loop (remaining p) p) in *.
destruct (remaining p0) as [|c rest] eqn:Hp0.
{ inversion H; subst. destruct Ht as [Ht _]. simpl in Ht. congruence. }
assert (Hlt : pos p0 < B).
{ destruct (punctuation c) as [ty|] eqn:Ep.
  { inversion H; subst. simpl in *. lia. }
  destruct (Ascii.eqb c DQUOTE).
  { eapply tokenizer_parse_string_literal_moved in H; eauto.
    destruct H as (k & (_ & _ & Hk & _) & Hone). lia. }
  destruct (Ascii.eqb c "-" || isdigit c)%bool eqn:En.
  { eapply tokenizer_parse_numeric_literal_moved in H; eauto.
    destruct H as (k & (_ & _ & Hk & _) & Hone). lia. }
  destruct (Ascii.eqb c "t" || Ascii.eqb c "f" || Ascii.eqb c "n")%bool.
  { eapply tokenizer_parse_keyword_literal_moved in H; eauto.
    destruct H as (k & (_ & _ & Hk & _) & Hone).
    destruct Ht as [_ Ht]. specialize (Hone Ht). lia. }
  inversion H; subst. destruct Ht as [_ Ht]. simpl in Ht. congruence. }
pose proof (@skip_whitespace_loop_stable _ p q eq_refl He Hlt) as He0.
fold p0 in He0. set (q0 := skip_whitespace_loop (remaining q) q) in *.
destruct (ext_step He0 Hp0 Hlt) as [Hq0 He1]. rewrite Hq0.
destruct Ht as [_ Ht].
destruct (punctuation c) as [ty|] eqn:Ep.
{ inversion H; subst. eauto. }
destruct (Ascii.eqb c DQUOTE).
{ destruct (tokenizer_parse_string_literal_type _ H) as [Hty | Hty];
    [| congruence].
  eapply (@tokenizer_parse_string_literal_stable p0 q0); eauto. }
destruct (Ascii.eqb c "-" || isdigit c)%bool eqn:En.
{ destruct (tokenizer_parse_numeric_literal_type _ H) as [Hty | Hty];
    [| congruence].
  eapply (@tokenizer_parse_numeric_literal_stable p0 q0); eauto. }
destruct (Ascii.eqb c "t" || Ascii.eqb c "f" || Ascii.eqb c "n")%bool.
{ eapply (@tokenizer_parse_keyword_literal_stable p0 q0); eauto. }
inversion H; subst. simpl in Ht. congruence.
Qed.

Lemma next_token_stable p q :
ext p q -> proper (current_type (next_token p)) -> pos (next_token p) <= B ->
current_token (next_token q) = current_token (next_token p)
/\ ext (next_token p) (next_token q).
Proof.
unfold next_token, current_type.
destruct (tokenizer_get_next_token p) as [t p'] eqn:E. simpl.
intros He Ht Hle.
destruct (tokenizer_get_next_token_stable He E Ht Hle) as (q' & -> & He').
simpl. split; [reflexivity | exact He'].
Qed.

End Stable.

(** ** Blanks between tokens *)

Lemma skip_whitespace_loop_app w :
  forall s p, forallb is_space w = true -> remaining p = w ++ s ->
    exists p1, remaining p1 = s
               /\ skip_whitespace_loop (w ++ s) p = skip_whitespace_loop s p1.
Proof.
  induction w as [|c w IH]; intros s p Hw Hp; [exists p; auto |].
  simpl in Hw. apply andb_prop in Hw. destruct Hw as [Hc Hw].
  assert (Hp1 : remaining (step_column p) = w ++ s)
    by (eapply remaining_cons_step; exact Hp).
  assert (Hp2 : remaining (step_line p) = w ++ s)
    by (rewrite remaining_step_line, Hp; reflexivity).
  apply is_space_cases in Hc. destruct Hc as [-> | [-> | [-> | ->]]]; simpl;
    first [exact (IH s _ Hw Hp1) | exact (IH s _ Hw Hp2)].
Qed.

Lemma next_token_skipped p p1 :
  tokenizer_skip_whitespace p = tokenizer_skip_whitespace p1 ->
  next_token p = next_token p1.
Proof.
  intros H. unfold next_token, tokenizer_get_next_token. rewrite H. reflexivity.
Qed.

Lemma next_token_absorb p q w1 ws r' :
  forallb is_space w1 = true -> forallb is_space ws = true ->
  remaining p = w1 ++ r' -> remaining q = w1 ++ ws ++ r' ->
  same_view (next_token p) (next_token q).
Proof.
  intros Hw1 Hws Hp Hq.
  destruct (skip_whitespace_loop_app _ _ _ Hw1 Hp) as (p1 & Hp1 & Ep).
  assert (Hw : forallb is_space (w1 ++ ws) = true)
    by (rewrite forallb_app, Hw1, Hws; reflexivity).
  rewrite app_assoc in Hq.
  destruct (skip_whitespace_loop_app _ _ _ Hw Hq) as (q1 & Hq1 & Eq).
  rewrite (@next_token_skipped p p1), (@next_token_skipped q q1).
  - apply next_token_local. congruence.
  - unfold tokenizer_skip_whitespace. rewrite Hq, Eq, Hq1. reflexivity.
  - unfold tokenizer_skip_whitespace. rewrite Hp, Ep, Hp1. reflexivity.
Qed.

(** ** C strings *)

Lemma no_nul_space ws : forallb is_space ws = true -> ~ In NUL ws.
Proof.
  induction ws as [|c ws IH]; simpl; [tauto |].
  intros H. apply andb_prop in H. destruct H as [Hc Hw].
  intros [-> | Hin]; [discriminate | exact (IH Hw Hin)].
Qed.

Lemma strlen_le s : strlen s <= List.length s.
Proof. induction s as [|c s IH]; simpl; [lia |]. destruct (Ascii.eqb c NUL); lia. Qed.

Lemma strlen_app a b : ~ In NUL a -> strlen (a ++ b) = List.length a + strlen b.
Proof.
  induction a as [|c a IH]; simpl; [reflexivity |].
  intros H. destruct (Ascii.eqb c NUL) eqn:E.
  - apply Ascii.eqb_eq in E. tauto.
  - rewrite IH; tauto.
Qed.

Lemma no_nul_firstn i s : i <= strlen s -> ~ In NUL (firstn i s).
Proof.
  revert s; induction i as [|i IH]; intros s Hi; [rewrite firstn_O; simpl; tauto |].
  destruct s as [|c s]; simpl in *; [tauto |].
  destruct (Ascii.eqb c NUL) eqn:E; [lia |].
  intros [-> | Hin]; [discriminate | apply (IH s); [lia | exact Hin]].
Qed.

Lemma strlen_skipn i s : i <= strlen s -> strlen (skipn i s) = strlen s - i.
Proof.
  revert s; induction i as [|i IH]; intros s Hi; [simpl; lia |].
  destruct s as [|c s]; simpl in *; [lia |].
  destruct (Ascii.eqb c NUL); [lia |]. apply IH; lia.
Qed.

Lemma firstn_app_exact (A : Type) (a b : list A) n :
  firstn (List.length a + n) (a ++ b) = a ++ firstn n b.
Proof. induction a as [|x a IH]; simpl; [reflexivity | rewrite IH; reflexivity]. Qed.

Lemma c_string_insert i ws s :
  i <= strlen s -> forallb is_space ws = true ->
  c_string (insert_at i ws s) = insert_at i ws (c_string s).
Proof.
  intros Hi Hws. unfold c_string, insert_at.
  pose proof (strlen_le s) as Hle.
  assert (Hlen : List.length (firstn i s) = i) by (rewrite length_firstn; lia).
  assert (E : strlen (firstn i s ++ ws ++ skipn i s)
              = List.length (firstn i s) + (List.length ws + (strlen s - i))).
  { rewrite strlen_app by auto using no_nul_firstn.
    rewrite strlen_app by auto using no_nul_space.
    rewrite strlen_skipn by lia. reflexivity. }
  rewrite E, firstn_app_exact, firstn_app_exact.
  rewrite firstn_firstn, Nat.min_l by lia.
  rewrite skipn_firstn_comm. reflexivity.
Qed.

(** ** Inserting blanks at a token boundary *)

Lemma ahead_moved k p : exists n, moved n p (ahead k p).
Proof.
  induction k as [|k [n Hn]]; [exists 0; apply moved_refl |].
  rewrite ahead_S. destruct (next_token_moved (ahead k p)) as (m & Hm & _).
  exists (n + m). eapply moved_trans; eauto.
Qed.

Lemma pos_ahead_le j k p : j <= k -> pos (ahead j p) <= pos (ahead k p).
Proof.
  intros H. replace k with (j + (k - j)) by lia. rewrite <- ahead_ahead.
  destruct (ahead_moved (k - j) (ahead j p)) as [n Hn].
  apply pos_le_moved in Hn. exact Hn.
Qed.

Lemma firstn_add (A : Type) (n m : nat) (l : list A) :
  firstn (n + m) l = firstn n l ++ firstn m (skipn n l).
Proof.
  revert l; induction n as [|n IH]; intros [|x l]; simpl;
    rewrite ?firstn_nil; try reflexivity.
  rewrite IH. reflexivity.
Qed.

Lemma halts_inserted w1 ws r' :
  forallb is_space ws = true -> halts (w1 ++ ws ++ r') (w1 ++ r').
Proof.
  intros Hws. destruct w1 as [|w w1]; simpl; [| right; reflexivity].
  destruct ws as [|w ws]; simpl in *.
  - destruct r'; simpl; [exact I | right; reflexivity].
  - apply andb_prop in Hws. left. tauto.
Qed.

Section Inserted.

Variables (input ws : text) (i k : nat).
Hypothesis blanks : forallb is_space ws = true.
Hypothesis proper_tokens :
forall j, 1 <= j <= k -> proper (current_type (ahead j (start input))).
Hypothesis within : pos (ahead k (start input)) <= i <= strlen input.
Hypothesis blanks_before :
forallb is_space (firstn (i - pos (ahead k (start input)))
                         (remaining (ahead k (start input)))) = true.

Let p0 := start input.
Let q0 := start (insert_at i ws input).
Let B := pos (ahead k p0).
Let w1 := firstn (i - B) (remaining (ahead k p0)).
Let r' := skipn (i - B) (remaining (ahead k p0)).

Lemma inserted_remaining_k : remaining (ahead k p0) = skipn B (c_string input).
Proof.
destruct (ahead_moved k p0) as [n Hn].
rewrite (moved_remaining Hn). f_equal.
destruct Hn as (_ & _ & Hn & _). unfold B. rewrite Hn. reflexivity.
Qed.

Lemma inserted_bound : B <= List.length (c_string input).
Proof.
destruct (ahead_moved k p0) as [n Hn].
destruct Hn as (_ & _ & Hn & Hb & _). unfold B. rewrite Hn. exact Hb.
Qed.

Lemma inserted_start : ext B (w1 ++ ws ++ r') p0 q0.
Proof.
unfold ext. change (pos p0) with 0. rewrite Nat.sub_0_r.
change (remaining p0) with (c_string input).
change (remaining q0) with (c_string (insert_at i ws input)).
repeat split.
- apply inserted_bound.
- rewrite c_string_insert by (auto; lia). unfold insert_at, w1, r'.
  rewrite inserted_remaining_k, skipn_skipn.
  replace (i - B + B) with i by (unfold B, p0; lia).
  replace i with (B + (i - B)) at 1 by (unfold B, p0; lia).
  rewrite firstn_add, <- !app_assoc. reflexivity.
- rewrite <- inserted_remaining_k.
  rewrite <- (firstn_skipn (i - B) (remaining (ahead k p0))).
  apply halts_inserted, blanks.
Qed.

Lemma inserted_ext j :
j <= k -> ext B (w1 ++ ws ++ r') (ahead j p0) (ahead j q0).
Proof.
induction j as [|j IH]; intros Hj; [exact inserted_start |].
rewrite !ahead_S. apply next_token_stable.
- apply IH; lia.
- rewrite <- ahead_S. apply proper_tokens. lia.
- rewrite <- ahead_S. apply pos_ahead_le. exact Hj.
Qed.

Lemma inserted_token j :
1 <= j <= k -> current_token (ahead j q0) = current_token (ahead j p0).
Proof.
intros Hj. destruct j as [|j]; [lia |]. rewrite !ahead_S.
apply next_token_stable with (B := B) (r2 := w1 ++ ws ++ r').
- apply inserted_ext; lia.
- rewrite <- ahead_S. apply proper_tokens. lia.
- rewrite <- ahead_S. apply pos_ahead_le. lia.
Qed.

Lemma inserted_after : same_view (ahead (S k) p0) (ahead (S k) q0).
Proof.
rewrite !ahead_S.
destruct (@inserted_ext k (Nat.le_refl k)) as (_ & Hq & _).
fold B in Hq. rewrite Nat.sub_diag, firstn_O in Hq. simpl in Hq.
apply next_token_absorb with (w1 := w1) (ws := ws) (r' := r');
  auto using blanks_before.
unfold w1, r'. rewrite firstn_skipn. reflexivity.
Qed.

Lemma inserted_same_tokens :
same_tokens (parser_initialize (insert_at i ws input)) (parser_initialize input).
Proof.
intros n. change (parser_initialize (insert_at i ws input)) with (ahead 1 q0).
change (parser_initialize input) with (ahead 1 p0).
rewrite !ahead_ahead.
destruct (Nat.le_gt_cases (1 + n) k) as [Hle | Hgt].
- apply inserted_token. lia.
- replace (1 + n) with (S k + (1 + n - S k)) by lia.
  rewrite <- !ahead_ahead. symmetry.
  apply (ahead_local (1 + n - S k) inserted_after).
Qed.

End Inserted.

(** Inserting blanks at a token boundary leaves the parsed value as it is. *)
Lemma insert_at_token_boundary input i ws :
  token_boundary input i -> forallb is_space ws = true ->
  parsed_value (parse (insert_at i ws input)) = parsed_value (parse input).
Proof.
  intros (k & Hp & Hi & Hb) Hws.
  apply parse_same_tokens. eapply inserted_same_tokens; eauto.
Qed.

(** ** The grammar and the parse entry point *)

Lemma succeeds_parsed_value r :
  succeeds r = match parsed_value r with Some _ => true | None => false end.
Proof. destruct r as [[v|] p |]; reflexivity. Qed.

Lemma begins_with_value_succeeds input :
  begins_with_value input ->
  exists v n, parse input = Ret (Some v) (ahead n (parser_initialize input))
              /\ G_value (types n (parser_initialize input)).
Proof.
  intros [n Hn]. destruct grammar_accepted as (Hv & _ & _).
  destruct (Hv _ Hn _ (reads_types n _)) as (F & v & HF).
  exists v, n. split; [| exact Hn].
  unfold parse, json_parser_parse_document.
  rewrite types_length in HF. apply (@parse_value_enough F), HF, Nat.le_refl.
Qed.

Lemma succeeds_begins_with_value input :
  succeeds (parse input) = true -> begins_with_value input \/ cut_off input.
Proof.
  unfold parse, json_parser_parse_document.
  destruct (json_parser_parse_value _ _) as [[v|] p' |] eqn:E; try discriminate.
  intros _. apply json_parser_parse_value_sound in E.
  destruct E as (n & -> & [H | [H Heof]]); [left | right]; exists n; auto.
Qed.

Lemma proper_of ty : ty <> TOKEN_EOF -> ty <> TOKEN_ERROR -> proper ty.
Proof. intros H1 H2. split; assumption. Qed.

Ltac proper_tokens :=
  repeat match goal with
         | |- Forall _ [] => apply Forall_nil
         | |- Forall _ (_ :: _) => apply Forall_cons
         | |- Forall _ (_ ++ _) => apply Forall_app; split
         | |- proper _ => apply proper_of; discriminate
         | |- _ => assumption
         end.

(** The grammar holds proper tokens only. *)
Lemma G_tokens_proper :
  (forall ts, G_value ts -> Forall proper ts)
  /\ (forall ms, G_members ms -> Forall proper ms)
  /\ (forall es, G_elements es -> Forall proper es).
Proof. apply G_mutual_ind; intros; proper_tokens. Qed.

Lemma G_cut_off_proper ts : G_cut_off ts -> Forall proper ts.
Proof.
  destruct G_tokens_proper as (_ & Hm & He).
  intros H. destruct H as [| ms H | | es H];
    [| apply Hm in H | | apply He in H]; proper_tokens.
Qed.

Lemma types_In n : forall k p, n < k -> In (current_type (ahead n p)) (types k p).
Proof.
  induction n as [|n IH]; intros k p Hk; (destruct k as [|k]; [lia |]).
  - left. reflexivity.
  - right. rewrite <- ahead_next. apply IH. lia.
Qed.

(** C1, as stated, at the input [1 2]: the parse entry point succeeds, and
    the text does not match the grammar (a second value follows the first). *)
Lemma trailing_value_accepted :
  succeeds (parse (chars "1 2")) = true /\ ~ matches_grammar (chars "1 2").
Proof.
  split; [vm_compute; reflexivity |].
  intros (n & Hn & Heof).
  destruct n as [|[|n]].
  - inversion Hn.
  - vm_compute in Heof. discriminate.
  - simpl in Hn. remember (types n _) as l. vm_compute in Hn. inversion Hn.
Qed.

(** The slip next to it: a container that the end of the input cuts off
    directly after its opening bracket is accepted. *)
Example cut_off_array_accepted :
  succeeds (parse (chars "[")) = true /\ cut_off (chars "[").
Proof.
  split; [vm_compute; reflexivity |].
  exists 1. split; [| vm_compute; reflexivity].
  vm_compute. constructor.
Qed.

(** C1 (amended).  For every input text: if the token sequence of the text
    begins with a value of the grammar of section 4.2, the parse entry point
    succeeds (whatever follows that value); if it succeeds on a text whose
    tokens are not those of a top-level container that the end of the input
    cuts off directly after its opening bracket or after a comma, the token
    sequence begins with such a value; and inserting blanks at a token
    boundary changes neither the outcome nor the value. *)
Theorem parse_succeeds_on_grammar :
  forall input,
    (begins_with_value input -> succeeds (parse input) = true)
    /\ (~ cut_off input -> succeeds (parse input) = true -> begins_with_value input)
    /\ (forall i ws,
           token_boundary input i -> forallb is_space ws = true ->
           succeeds (parse (insert_at i ws input)) = succeeds (parse input)
           /\ parsed_value (parse (insert_at i ws input)) = parsed_value (parse input)).
Proof.
  intros input. split; [| split].
  - intros H. destruct (begins_with_value_succeeds H) as (v & n & -> & _). reflexivity.
  - intros Hn H. destruct (succeeds_begins_with_value _ H) as [Hb | Hc];
      [exact Hb | contradiction].
  - intros i ws Hi Hws. pose proof (insert_at_token_boundary _ Hi Hws) as E.
    rewrite !succeeds_parsed_value, E. split; reflexivity.
Qed.

Lemma parse_succeeds_on_grammar_witness :
  ~ cut_off (json "[1,2]")
  /\ succeeds (parse (json "[1,2]")) = true
  /\ begins_with_value (json "[1,2]")
  /\ parsed_value (parse (insert_at 3 (chars "  ") (json "[1,2]")))
     = parsed_value (parse (json "[1,2]")).
Proof.
  destruct (parse_succeeds_on_grammar (json "[1,2]")) as (H1 & H2 & H3).
  assert (Hn : ~ cut_off (json "[1,2]")).
  { intros (k & Hc & Heof).
    destruct k as [|[|[|[|[|[|k]]]]]];
      [vm_compute in Heof; discriminate | vm_compute in Heof; discriminate
       | vm_compute in Heof; discriminate | vm_compute in Heof; discriminate
       | vm_compute in Heof; discriminate | |].
    - assert (E : types 5 (parser_initialize (json "[1,2]"))
                  = [TOKEN_LBRACKET; TOKEN_NUMBER; TOKEN_COMMA; TOKEN_NUMBER;
                     TOKEN_RBRACKET]) by (vm_compute; reflexivity).
      rewrite E in Hc. inversion Hc as [| | | es He Hes].
      apply (f_equal (@rev _)) in Hes. rewrite rev_app_distr in Hes. discriminate.
    - apply G_cut_off_proper in Hc. rewrite Forall_forall in Hc.
      destruct (Hc (current_type (ahead 5 (parser_initialize (json "[1,2]")))))
        as [Hne _]; [apply types_In; lia |].
      apply Hne. vm_compute. reflexivity. }
  assert (Hs : succeeds (parse (json "[1,2]")) = true) by (vm_compute; reflexivity).
  split; [exact Hn |]. split; [exact Hs |]. split; [exact (H2 Hn Hs) |].
  apply H3; [| reflexivity].
  exists 3. split; [| split].
  - intros j Hj. destruct j as [|[|[|[|j]]]]; try lia; vm_compute; split; discriminate.
  - vm_compute. lia.
  - vm_compute. reflexivity.
Defined.

(** ** Failure and trailing content *)

Lemma printed_ahead n p : forallb lexical (printed p (ahead n p)) = true.
Proof.
  destruct (ahead_stderr n p) as (l & Hl & Hlex).
  rewrite (@printed_app _ _ _ Hl). exact Hlex.
Qed.

Lemma printed_failed n p d :
  printed p (report (ahead n p) d) = printed p (ahead n p) ++ [d].
Proof.
  destruct (ahead_stderr n p) as (l & Hl & Hlex).
  rewrite (@printed_app _ _ _ Hl). apply printed_app. simpl. rewrite Hl, app_assoc.
  reflexivity.
Qed.

Lemma main_of_parse input :
  main input =
  match parse input with
  | Ret (Some v) p' =>
      mk_outcome 0 (header ++ sexpr_writer_write_value v 0 ++ [LF])
        (if negb (token_type_eqb (current_type p') TOKEN_EOF)
         then stderr p' ++ [Extra_content (line p') (column p')]
         else stderr p')
  | Ret None p' => mk_outcome 1 [] (stderr p' ++ [Failed_to_parse])
  | OutOfFuel => mk_outcome 1 [] []
  end.
Proof.
  unfold main, parse. destruct (json_parser_parse_document _ _) as [[v|] p' |];
    try reflexivity.
  destruct (negb _); reflexivity.
Qed.

(** C2.  Whenever a parse function prints a parse error (the point where
    parsing fails, in [json_parser_parse_value] or in the member or element
    loop of a container), the call returns NULL and nothing else: the context
    it leaves is the one at the failure, some tokens after the start, with
    that one message printed last; a call that returns a value has printed no
    parse error.  For the driver: the parse of every input returns, and when
    it does not succeed, there is no value, the exit status is 1 and nothing
    is written to the output. *)
Theorem parse_failure_propagates :
  (forall fuel p r p',
      json_parser_parse_value fuel p = Ret r p' ->
      (existsb parse_error (printed p p') = true -> r = None)
      /\ (r = None ->
          exists n d, parse_error d = true /\ p' = report (ahead n p) d
                      /\ printed p p' = printed p (ahead n p) ++ [d])
      /\ (r <> None -> exists n, p' = ahead n p))
  /\ (forall input,
         (exists r p', parse input = Ret r p')
         /\ (succeeds (parse input) = false ->
             parsed_value (parse input) = None
             /\ exit_status (main input) = 1%Z /\ output (main input) = [])).
Proof.
  split.
  - intros fuel p r p' H.
    pose proof (json_parser_parse_value_leaves fuel p) as Hl. rewrite H in Hl.
    destruct r as [v|]; simpl in Hl.
    + destruct Hl as [n ->]. repeat split.
      * intros He. rewrite (@lexical_not_parse_error _ (printed_ahead n p)) in He.
        discriminate.
      * discriminate.
      * eauto.
    + destruct Hl as (n & d & Hd & ->). repeat split; auto.
      * exists n, d. auto using printed_failed.
      * congruence.
  - intros input. split; [apply parse_value_fuel |].
    intros H. rewrite main_of_parse.
    destruct (parse input) as [[v|] p' |]; try discriminate; auto.
Qed.

Lemma parse_failure_propagates_witness :
  let p := parser_initialize (json "[1,{'a' 2}]") in
  let p' := report (ahead 5 p) Expected_colon in
  (exists n d, parse_error d = true /\ p' = report (ahead n p) d
               /\ printed p p' = printed p (ahead n p) ++ [d])
  /\ parsed_value (parse (json "[1,{'a' 2}]")) = None
  /\ exit_status (main (json "[1,{'a' 2}]")) = 1%Z
  /\ output (main (json "[1,{'a' 2}]")) = [].
Proof.
  intros p p'. destruct parse_failure_propagates as [H1 H2]. split.
  - destruct (H1 10 p None p') as (_ & H & _); [vm_compute; reflexivity |].
    exact (H eq_refl).
  - destruct (H2 (json "[1,{'a' 2}]")) as [_ H3]. apply H3. vm_compute. reflexivity.
Defined.

Lemma stderr_parser_initialize_ahead n input :
  forallb lexical (stderr (ahead n (parser_initialize input))) = true.
Proof.
  change (parser_initialize input) with (ahead 1 (start input)).
  rewrite ahead_ahead.
  destruct (ahead_stderr (1 + n) (start input)) as (l & -> & Hl). exact Hl.
Qed.

(** ** Keywords, trailing commas, long strings *)

Lemma parse_value_on_error fuel p :
  current_type p = TOKEN_ERROR ->
  json_parser_parse_value (S fuel) p = Ret None (report p Invalid_token).
Proof. intros H. simpl. rewrite H. reflexivity. Qed.

Lemma parse_on_error input :
  current_type (parser_initialize input) = TOKEN_ERROR ->
  succeeds (parse input) = false /\ exit_status (main input) = 1%Z.
Proof.
  intros H. rewrite main_of_parse. unfold parse, json_parser_parse_document, enough_fuel.
  rewrite parse_value_on_error by exact H. split; reflexivity.
Qed.

(** The match is on the first characters only: a keyword followed by more
    letters is the keyword token, and the lex error comes with the token
    after it. *)
Example keyword_then_letters :
  current_type (parser_initialize (chars "truex")) = TOKEN_TRUE
  /\ current_type (ahead 1 (parser_initialize (chars "truex"))) = TOKEN_ERROR
  /\ keyword_at (chars "truex") = TOKEN_TRUE.
Proof. repeat split; vm_compute; reflexivity. Qed.

(** C8.  The documents [[1,2,]] and [{"a":1,}] fail.  In general, the member
    loop of an object fails with "expected string key" at a closing brace
    (the position after a comma, since an empty object never enters the
    loop), and the element loop of an array fails in the value parser at a
    closing bracket. *)
Theorem trailing_commas_rejected :
  succeeds (parse (json "[1,2,]")) = false
  /\ succeeds (parse (json "{'a':1,}")) = false
  /\ errors (main (json "[1,2,]")) = [Unexpected_token_type; Failed_to_parse]
  /\ errors (main (json "{'a':1,}")) = [Expected_string_key; Failed_to_parse]
  /\ (forall pv n p members,
         current_type p = TOKEN_RBRACE ->
         object_loop pv (S n) p members = Ret None (report p Expected_string_key))
  /\ (forall fuel n p elements,
         current_type p = TOKEN_RBRACKET ->
         array_loop (json_parser_parse_value (S fuel)) (S n) p elements
         = Ret None (report p Unexpected_token_type)).
Proof.
  split; [vm_compute; reflexivity |]. split; [vm_compute; reflexivity |].
  split; [vm_compute; reflexivity |]. split; [vm_compute; reflexivity |].
  split.
  - intros pv n p members H. simpl. rewrite H. reflexivity.
  - intros fuel n p elements H. simpl. rewrite H. reflexivity.
Qed.

Lemma trailing_commas_rejected_witness :
  let p := ahead 5 (parser_initialize (json "[1,2,]")) in
  array_loop (json_parser_parse_value 1) 1 p [] = Ret None (report p Unexpected_token_type).
Proof.
  intros p. destruct trailing_commas_rejected as (_ & _ & _ & _ & _ & H).
  apply H. vm_compute. reflexivity.
Defined.

Lemma string_content_shorter s :
  forall content rest, string_content s = Some (content, rest) ->
                       List.length rest < List.length s.
Proof.
  induction s as [s IH] using list_length_ind. intros content rest H.
  destruct s as [|c s']; simpl in H; [discriminate |].
  destruct (Ascii.eqb c DQUOTE); [inversion H; subst; simpl; lia |].
  destruct (Ascii.eqb c BACKSLASH).
  - destruct s' as [|escaped s'']; [discriminate |].
    destruct (string_content s'') as [[content' rest'] |] eqn:E; [| discriminate].
    inversion H; subst. apply IH in E; simpl in *; lia.
  - destruct (string_content s') as [[content' rest'] |] eqn:E; [| discriminate].
    inversion H; subst. apply IH in E; simpl in *; lia.
Qed.

Lemma push_guarded_length buf c :
  List.length (push_guarded buf c) = List.length buf + 1
  \/ (MAX_TOKEN_SIZE - 1 <= List.length buf /\ push_guarded buf c = buf).
Proof.
  unfold push_guarded. destruct (List.length buf <? MAX_TOKEN_SIZE - 1) eqn:E.
  - left. rewrite length_app. reflexivity.
  - right. apply Nat.ltb_ge in E. auto.
Qed.

(** The loop gives up, before the closing quote, on a literal whose content
    does not fit into what is left of the buffer. *)
Lemma string_literal_loop_overflow body :
  forall p buf content rest,
    remaining p = body ->
    string_content body = Some (content, rest) ->
    MAX_TOKEN_SIZE - 1 <= List.length buf + List.length content ->
    exists buf' p',
      string_literal_loop body p buf = (false, buf', p')
      /\ List.length rest < List.length (remaining p')
      /\ stderr p' = stderr p.
Proof.
  induction body as [body IH] using list_length_ind.
  intros p buf content rest Hp Hc Hlen.
  pose proof (string_content_shorter _ Hc) as Hshort.
  destruct body as [|c body']; simpl in Hc; [discriminate |]. simpl.
  destruct (MAX_TOKEN_SIZE - 1 <=? List.length buf) eqn:Ecap.
  { exists buf, p. rewrite Hp. auto. }
  apply Nat.leb_gt in Ecap.
  destruct (Ascii.eqb c DQUOTE).
  { inversion Hc; subst. simpl in Hlen. lia. }
  assert (Hp1 : remaining (step_column p) = body') by eauto using remaining_cons_step.
  destruct (Ascii.eqb c BACKSLASH).
  - destruct body' as [|escaped body'']; [discriminate |].
    destruct (string_content body'') as [[content' rest'] |] eqn:E; [| discriminate].
    injection Hc as <- <-.
    set (buf1 := match unescape escaped with
                 | Some d => buf ++ [d]
                 | None => push_guarded (buf ++ [BACKSLASH]) escaped
                 end).
    assert (Hlen1 : MAX_TOKEN_SIZE - 1 <= List.length buf1 + List.length content').
    { subst buf1. destruct (unescape escaped).
      - rewrite length_app. simpl in *. lia.
      - destruct (push_guarded_length (buf ++ [BACKSLASH]) escaped) as [-> | [Hfull ->]];
          rewrite length_app in *; simpl in *; lia. }
    destruct (IH body'' ltac:(simpl; lia) (step_column (step_column p)) buf1
                 content' rest' (remaining_cons_step _ Hp1) E Hlen1)
      as (buf' & p' & H1 & H2 & H3).
    exists buf', p'. auto.
  - destruct (string_content body') as [[content' rest'] |] eqn:E; [| discriminate].
    injection Hc as <- <-.
    assert (Hlen1 : MAX_TOKEN_SIZE - 1 <= List.length (buf ++ [c]) + List.length content').
    { rewrite length_app. simpl in *. lia. }
    destruct (IH body' ltac:(simpl; lia) (step_column p) (buf ++ [c])
                 content' rest' Hp1 E Hlen1)
      as (buf' & p' & H1 & H2 & H3).
    exists buf', p'. auto.
Qed.

Lemma current_type_next_token p :
  current_type (next_token p) = type (fst (tokenizer_get_next_token p)).
Proof.
  unfold next_token, current_type. destruct (tokenizer_get_next_token p). reflexivity.
Qed.

(** ** Position tracking *)

Lemma flat_refl p : flat p p.
Proof. split; reflexivity. Qed.

Lemma flat_trans p q r : flat p q -> flat q r -> flat p r.
Proof. unfold flat. intros [H1 H2] [H3 H4]. split; congruence. Qed.

Lemma flat_step_column p : flat p (step_column p).
Proof. unfold flat; simpl. split; [reflexivity | lia]. Qed.

Lemma flat_step_columns n p : flat p (step_columns n p).
Proof. unfold flat; simpl. split; [reflexivity | lia]. Qed.

Lemma flat_report p d : flat p (report p d).
Proof. split; reflexivity. Qed.

Lemma flat_set_current_token p t : flat p (set_current_token p t).
Proof. split; reflexivity. Qed.

Lemma string_literal_loop_flat rest :
  forall p buf, flat p (snd (string_literal_loop rest p buf)).
Proof.
  induction rest as [rest IH] using list_length_ind.
  intros p buf. destruct rest as [|c rest']; simpl; [apply flat_refl |].
  destruct (MAX_TOKEN_SIZE - 1 <=? List.length buf); [apply flat_refl |].
  destruct (Ascii.eqb c DQUOTE); [apply flat_step_column |].
  destruct (Ascii.eqb c BACKSLASH); [destruct rest' as [|escaped rest''] |].
  - eapply flat_trans; [apply flat_step_column | apply IH; simpl; lia].
  - eapply flat_trans; [apply flat_step_column |].
    eapply flat_trans; [apply flat_step_column | apply IH; simpl; lia].
  - eapply flat_trans; [apply flat_step_column | apply IH; simpl; lia].
Qed.

Lemma tokenizer_parse_string_literal_flat p :
  flat p (snd (tokenizer_parse_string_literal p)).
Proof.
  unfold tokenizer_parse_string_literal.
  pose proof (string_literal_loop_flat (remaining (step_column p)) (step_column p) [])
    as H.
  destruct (string_literal_loop _ _ _) as [[found buf] p']. simpl in H.
  eapply flat_trans; [apply flat_step_column |].
  destruct found; simpl; [exact H | eapply flat_trans; [exact H | apply flat_report]].
Qed.

Lemma digits_loop_flat rest :
  forall p buf, flat p (snd (digits_loop rest p buf)).
Proof.
  induction rest as [|c rest IH]; intros p buf; simpl; [apply flat_refl |].
  destruct (isdigit c); [| apply flat_refl].
  eapply flat_trans; [apply flat_step_column | apply IH].
Qed.

Lemma numeric_fraction_flat p buf : flat p (snd (numeric_fraction p buf)).
Proof.
  unfold numeric_fraction. destruct (remaining p) as [|c r]; [apply flat_refl |].
  destruct (Ascii.eqb c "."); [| apply flat_refl].
  eapply flat_trans; [apply flat_step_column | apply digits_loop_flat].
Qed.

Lemma numeric_exponent_flat p buf : flat p (snd (numeric_exponent p buf)).
Proof.
  unfold numeric_exponent. destruct (remaining p) as [|c r]; [apply flat_refl |].
  destruct (_ || _)%bool; [| apply flat_refl].
  eapply flat_trans; [apply flat_step_column |].
  destruct (remaining (step_column p)) as [|d r']; [apply digits_loop_flat |].
  destruct (_ || _)%bool; [| apply digits_loop_flat].
  eapply flat_trans; [apply flat_step_column | apply digits_loop_flat].
Qed.

Lemma numeric_tail_flat buf p : flat p (snd (numeric_tail buf p)).
Proof.
  unfold numeric_tail.
  pose proof (numeric_fraction_flat p buf) as H1.
  destruct (numeric_fraction p buf) as [b1 p1].
  pose proof (numeric_exponent_flat p1 b1) as H2.
  destruct (numeric_exponent p1 b1) as [b2 p2]. simpl in *.
  eapply flat_trans; eauto.
Qed.

Lemma numeric_digits_flat buf p : flat p (snd (numeric_digits buf p)).
Proof.
  unfold numeric_digits.
  pose proof (digits_loop_flat (remaining p) p buf) as H1.
  destruct (digits_loop _ _ _) as [b1 p1]. simpl in H1.
  eapply flat_trans; [exact H1 | apply numeric_tail_flat].
Qed.

Lemma numeric_integer_part_flat buf p : flat p (snd (numeric_integer_part buf p)).
Proof.
  unfold numeric_integer_part.
  destruct (remaining p) as [|c r]; [apply numeric_digits_flat |].
  destruct (Ascii.eqb c "0"); [| apply numeric_digits_flat].
  eapply flat_trans; [apply flat_step_column |].
  destruct (remaining (step_column p)) as [|d r']; [apply numeric_tail_flat |].
  destruct (isdigit d); [apply flat_report | apply numeric_tail_flat].
Qed.

Lemma tokenizer_parse_numeric_literal_flat p :
  flat p (snd (tokenizer_parse_numeric_literal p)).
Proof.
  unfold tokenizer_parse_numeric_literal.
  destruct (remaining p) as [|c r]; [apply numeric_integer_part_flat |].
  destruct (Ascii.eqb c "-"); [| apply numeric_integer_part_flat].
  eapply flat_trans; [apply flat_step_column | apply numeric_integer_part_flat].
Qed.

Lemma tokenizer_parse_keyword_literal_flat p :
  flat p (snd (tokenizer_parse_keyword_literal p)).
Proof.
  unfold tokenizer_parse_keyword_literal.
  repeat (destruct (starts_with _ _); [apply flat_step_columns |]).
  apply flat_refl.
Qed.

(** After the blanks, a token moves the column by its length and leaves the
    line alone, whatever characters it holds. *)
Lemma next_token_flat p : flat (tokenizer_skip_whitespace p) (next_token p).
Proof.
  unfold next_token, tokenizer_get_next_token.
  set (q := tokenizer_skip_whitespace p).
  assert (H : flat q (snd (match remaining q with
                           | [] => (empty_token TOKEN_EOF, q)
                           | c :: _ =>
                               match punctuation c with
                               | Some ty => (mk_token ty [c] zero, step_column q)
                               | None =>
                                   if Ascii.eqb c DQUOTE
                                   then tokenizer_parse_string_literal q
                                   else if (Ascii.eqb c "-" || isdigit c)%bool
                                   then tokenizer_parse_numeric_literal q
                                   else if (Ascii.eqb c "t" || Ascii.eqb c "f"
                                            || Ascii.eqb c "n")%bool
                                   then tokenizer_parse_keyword_literal q
                                   else (empty_token TOKEN_ERROR,
                                         report q (Unexpected_character c (line q)
                                                                        (column q)))
                               end
                           end))).
  { destruct (remaining q) as [|c r]; [apply flat_refl |].
    destruct (punctuation c); [apply flat_step_column |].
    destruct (Ascii.eqb c DQUOTE); [apply tokenizer_parse_string_literal_flat |].
    destruct (Ascii.eqb c "-" || isdigit c)%bool;
      [apply tokenizer_parse_numeric_literal_flat |].
    destruct (_ || _)%bool; [apply tokenizer_parse_keyword_literal_flat |].
    apply flat_report. }
  destruct (match remaining q with [] => _ | _ => _ end) as [t p']. exact H.
Qed.

Lemma consumed_self p : consumed p p = [].
Proof. unfold consumed. rewrite Nat.sub_diag. reflexivity. Qed.

Lemma consumed_cons n p p' c rest :
  remaining p = c :: rest -> moved n (step_column p) p' ->
  consumed p p' = c :: consumed (step_column p) p'.
Proof.
  intros Hp (_ & _ & Hpos & _). unfold consumed.
  rewrite (remaining_cons_step _ Hp), Hp, Hpos. simpl pos.
  replace (S (pos p) + n - pos p) with (S n) by lia.
  replace (S (pos p) + n - S (pos p)) with n by lia. reflexivity.
Qed.

Lemma consumed_cons_line n p p' c rest :
  remaining p = c :: rest -> moved n (step_line p) p' ->
  consumed p p' = c :: consumed (step_line p) p'.
Proof.
  intros Hp (_ & _ & Hpos & _). unfold consumed.
  rewrite remaining_step_line, Hp, Hpos. simpl pos. simpl tl.
  replace (S (pos p) + n - pos p) with (S n) by lia.
  replace (S (pos p) + n - S (pos p)) with n by lia. reflexivity.
Qed.

(** Between tokens the stated rule is obeyed. *)
Lemma skip_whitespace_loop_tracks rest :
  forall p, remaining p = rest ->
            position (skip_whitespace_loop rest p)
            = fold_left advance (consumed p (skip_whitespace_loop rest p)) (position p).
Proof.
  induction rest as [|c rest IH]; intros p Hp; simpl.
  - rewrite consumed_self. reflexivity.
  - destruct (Ascii.eqb c " " || Ascii.eqb c TAB || Ascii.eqb c CR)%bool eqn:Eb.
    + assert (Hr : remaining (step_column p) = rest) by eauto using remaining_cons_step.
      destruct (@skip_whitespace_loop_moved _ _ Hr) as [n Hn].
      rewrite (@consumed_cons _ _ _ _ _ Hp Hn), (IH _ Hr). simpl. f_equal.
      unfold advance, position.
      replace (Ascii.eqb c LF) with false; [reflexivity |].
      destruct (Ascii.eqb_spec c LF) as [-> |]; [discriminate | reflexivity].
    + destruct (Ascii.eqb_spec c LF) as [-> | Hne].
      * assert (Hr : remaining (step_line p) = rest)
          by (rewrite remaining_step_line, Hp; reflexivity).
        destruct (@skip_whitespace_loop_moved _ _ Hr) as [n Hn].
        rewrite (@consumed_cons_line _ _ _ _ _ Hp Hn), (IH _ Hr). reflexivity.
      * rewrite consumed_self. reflexivity.
Qed.

Lemma fold_advance_flat l :
  forall lc, ~ In LF l ->
             fold_left advance l lc = (fst lc, snd lc + Z.of_nat (List.length l))%Z.
Proof.
  induction l as [|c l IH]; intros [ln col] Hl; simpl.
  - f_equal. lia.
  - rewrite IH by (intros H; apply Hl; right; exact H).
    unfold advance. destruct (Ascii.eqb_spec c LF) as [-> | Hne].
    + exfalso. apply Hl. left. reflexivity.
    + simpl. f_equal. lia.
Qed.

Lemma consumed_app n m p q r :
  moved n p q -> moved m q r -> consumed p r = consumed p q ++ consumed q r.
Proof.
  intros Hn Hm. pose proof (@moved_remaining _ _ _ Hn) as Hq.
  destruct Hn as (_ & _ & Hpq & Hle & _), Hm as (_ & _ & Hqr & _).
  unfold consumed. rewrite Hq, Hqr, Hpq.
  replace (pos p + n + m - pos p) with (n + m) by lia.
  replace (pos p + n - pos p) with n by lia.
  replace (pos p + n + m - (pos p + n)) with m by lia.
  apply firstn_add.
Qed.

Lemma skip_whitespace_loop_idem rest :
  forall p, remaining p = rest ->
            tokenizer_skip_whitespace (skip_whitespace_loop rest p)
            = skip_whitespace_loop rest p.
Proof.
  induction rest as [|c rest IH]; intros p Hp; simpl.
  - unfold tokenizer_skip_whitespace. rewrite Hp. reflexivity.
  - destruct (Ascii.eqb c " " || Ascii.eqb c TAB || Ascii.eqb c CR)%bool eqn:Eb.
    + apply IH. eauto using remaining_cons_step.
    + destruct (Ascii.eqb c LF) eqn:El.
      * apply IH. rewrite remaining_step_line, Hp. reflexivity.
      * unfold tokenizer_skip_whitespace. rewrite Hp. simpl. rewrite Eb, El. reflexivity.
Qed.

Lemma next_token_moved_after p :
  exists n, moved n (tokenizer_skip_whitespace p) (next_token p).
Proof.
  destruct (next_token_moved (tokenizer_skip_whitespace p)) as (n & Hn & _).
  exists n. rewrite (@next_token_skipped p (tokenizer_skip_whitespace p)); [exact Hn |].
  symmetry. apply skip_whitespace_loop_idem. reflexivity.
Qed.

Lemma consumed_length n p p' : moved n p p' -> List.length (consumed p p') = pos p' - pos p.
Proof.
  intros (_ & _ & Hpos & Hle & _). unfold consumed.
  rewrite length_firstn. lia.
Qed.

(** What reading one token does to the line and the column. *)
Lemma next_token_position p :
  let q := tokenizer_skip_whitespace p in
  let p' := next_token p in
  consumed p p' = consumed p q ++ consumed q p'
  /\ position q = fold_left advance (consumed p q) (position p)
  /\ position p' = (line q, column q + Z.of_nat (List.length (consumed q p')))%Z
  /\ (~ In LF (consumed q p') ->
      position p' = fold_left advance (consumed p p') (position p)).
Proof.
  intros q p'.
  destruct (tokenizer_skip_whitespace_moved p) as [n0 H0]. fold q in H0.
  destruct (next_token_moved_after p) as [n Hn]. fold q p' in Hn.
  assert (Happ : consumed p p' = consumed p q ++ consumed q p')
    by exact (consumed_app H0 Hn).
  assert (Hq : position q = fold_left advance (consumed p q) (position p))
    by (apply skip_whitespace_loop_tracks; reflexivity).
  assert (Hp' : position p'
                = (line q, column q + Z.of_nat (List.length (consumed q p')))%Z).
  { destruct (next_token_flat p) as [Hl Hc]. fold q p' in Hl, Hc.
    rewrite (consumed_length Hn). destruct Hn as (_ & _ & Hpos & _).
    unfold position. f_equal; [exact Hl | lia]. }
  repeat split; auto.
  intros Hlf.
  rewrite Happ, fold_left_app, <- Hq, (@fold_advance_flat _ (position q) Hlf).
  exact Hp'.
Qed.

(** C5.  Line and column start at 1.  Reading a token consumes blanks and
    then the characters of the token: over the blanks the stated rule is
    obeyed (a line feed sets the column to 1 and increments the line, any
    other character increments the column); over the token every character
    increments the column and none touches the line.  So the rule is obeyed
    over all the characters consumed when the token holds no line feed, and
    it is not when a string literal holds one: after a quote, a line feed and
    a quote the tokenizer stands at line 1, column 4 (the rule gives line 2,
    column 2), and the message for a character after the literal carries
    that position. *)
Theorem line_feed_inside_string :
  (forall input, position (start input) = (1, 1)%Z)
  /\ (forall p,
         let q := tokenizer_skip_whitespace p in
         let p' := next_token p in
         consumed p p' = consumed p q ++ consumed q p'
         /\ position q = fold_left advance (consumed p q) (position p)
         /\ position p' = (line q, column q + Z.of_nat (List.length (consumed q p')))%Z
         /\ (~ In LF (consumed q p') ->
             position p' = fold_left advance (consumed p p') (position p)))
  /\ (let input := [DQUOTE; LF; DQUOTE] in
      type (current_token (parser_initialize input)) = TOKEN_STRING
      /\ consumed (start input) (parser_initialize input) = input
      /\ position (parser_initialize input) = (1, 4)%Z
      /\ fold_left advance input (position (start input)) = (2, 2)%Z
      /\ errors (main (input ++ chars "@"))
         = [Unexpected_character "@" 1 4; Extra_content 1 4]).
Proof.
  split; [reflexivity |]. split; [exact next_token_position |].
  vm_compute. repeat split; reflexivity.
Qed.

Lemma line_feed_inside_string_witness :
  let p := start [LF; " "%char; "1"%char; "2"%char] in
  position (next_token p) = fold_left advance (consumed p (next_token p)) (position p)
  /\ position (next_token p) = (2, 4)%Z.
Proof.
  intros p. destruct line_feed_inside_string as (_ & H & _).
  destruct (H p) as (_ & _ & _ & Hrule). split; [| reflexivity].
  apply Hrule. vm_compute. intros [H1 | [H1 | []]]; discriminate.
Defined.

(** ** Concrete documents *)

(** C3, as stated: the body with the elements of the nested array indented
    by 4 spaces is not what the writer produces. *)
Lemma scenario_not_four_spaces : render scenario <> Some (scenario_body 4).
Proof. vm_compute. discriminate. Qed.

(** C3 (amended).  Parsing the scenario input and serializing the tree at
    depth 0 produces the body whose members are indented by 2 spaces and
    whose nested array elements [#t], [#f] and [nil] are each on a line of
    their own, indented by 6 spaces (the array is the value of a member at
    depth 1, written at depth 2, and writes its elements at depth 3), the
    closing parentheses glued to the last element; the driver writes the
    header, that body and a newline. *)
Theorem scenario_six_spaces :
  render scenario = Some (scenario_body 6)
  /\ output (main scenario) = header ++ scenario_body 6 ++ [LF]
  /\ scenario_body 6
     = chars "(json:object" ++ [LF] ++ chars "  (json:a 1)" ++ [LF]
       ++ chars "  (json:b (json:array" ++ [LF] ++ chars "      #t" ++ [LF]
       ++ chars "      #f" ++ [LF] ++ chars "      nil)))".
Proof. repeat split; vm_compute; reflexivity. Qed.

(** C7.  The documents [01] and [-01] fail, with the leading-zero message of
    the tokenizer; [0], [-0] and [0.5] succeed with the numbers zero,
    negative zero and one half. *)
Theorem leading_zero_rule :
  succeeds (parse (chars "01")) = false
  /\ succeeds (parse (chars "-01")) = false
  /\ parsed_value (parse (chars "0")) = Some (JSON_NUMBER (S754_zero false))
  /\ parsed_value (parse (chars "-0")) = Some (JSON_NUMBER (S754_zero true))
  /\ parsed_value (parse (chars "0.5")) = Some (JSON_NUMBER half)
  /\ errors (main (chars "01")) = [Leading_zero 1 2; Invalid_token; Failed_to_parse]
  /\ errors (main (chars "-01")) = [Leading_zero 1 3; Invalid_token; Failed_to_parse].
Proof. vm_compute. repeat split; reflexivity. Qed.

(** ** Numbers: the round trip through [long long] *)

Local Open Scope Z_scope.

Lemma digits2_pos_size p : digits2_pos p = Pos.size p.
Proof. induction p as [p IH | p IH |]; simpl; congruence. Qed.

Lemma digits2_log2 p : Zpos (digits2_pos p) = Z.log2 (Zpos p) + 1.
Proof.
  rewrite digits2_pos_size. destruct p as [p | p |]; simpl; try reflexivity;
    rewrite Pos.add_1_r; destruct p; reflexivity.
Qed.

Lemma iter_pos_nat (A : Type) (f : A -> A) n x :
  iter_pos f n x = Nat.iter (Pos.to_nat n) f x.
Proof.
  revert x; induction n as [n IH | n IH |]; intros x.
  - change (iter_pos f n~1 x) with (iter_pos f n (iter_pos f n (f x))).
    rewrite !IH, Pos2Nat.inj_xI.
    replace (S (2 * Pos.to_nat n)) with (Pos.to_nat n + (Pos.to_nat n + 1))%nat by lia.
    rewrite !Nat.iter_add. reflexivity.
  - change (iter_pos f n~0 x) with (iter_pos f n (iter_pos f n x)).
    rewrite !IH, Pos2Nat.inj_xO.
    replace (2 * Pos.to_nat n)%nat with (Pos.to_nat n + Pos.to_nat n)%nat by lia.
    rewrite !Nat.iter_add. reflexivity.
  - reflexivity.
Qed.

Lemma pos_iter_nat (A : Type) (f : A -> A) n x :
  Pos.iter f x n = Nat.iter (Pos.to_nat n) f x.
Proof.
  rewrite <- (Pos2Nat.id n) at 1. generalize (Pos2Nat.is_pos n).
  induction (Pos.to_nat n) as [|k IH]; intros Hk; [lia |].
  destruct k as [|k]; [reflexivity |].
  rewrite Nat2Pos.inj_succ by lia. rewrite Pos.iter_succ, IH by lia. reflexivity.
Qed.

Lemma shift_pos_mul m k : Zpos (Pos.iter xO m k) = Zpos m * 2 ^ Zpos k.
Proof.
  rewrite pos_iter_nat, <- (positive_nat_Z k).
  induction (Pos.to_nat k) as [|n IH]; [simpl; lia |].
  rewrite Nat2Z.inj_succ, Z.pow_succ_r by lia. simpl Nat.iter.
  rewrite Pos2Z.inj_xO, IH. lia.
Qed.

Lemma digits2_shift m k :
  Zpos (digits2_pos (Pos.iter xO m k)) = Zpos (digits2_pos m) + Zpos k.
Proof.
  rewrite !digits2_log2, shift_pos_mul, Z.log2_mul_pow2 by lia. lia.
Qed.

Lemma shr_shift m k :
  iter_pos shr_1 k (Build_shr_record (Zpos (Pos.iter xO m k)) false false)
  = Build_shr_record (Zpos m) false false.
Proof.
  rewrite iter_pos_nat, pos_iter_nat.
  induction (Pos.to_nat k) as [|n IH]; [reflexivity |].
  rewrite Nat.iter_succ_r. simpl. exact IH.
Qed.

Lemma fexp_unfold d : fexp prec emax d = Z.max (d - 53) (-1074).
Proof. reflexivity. Qed.

(** A mantissa and exponent in canonical form are left as they are. *)
Lemma binary_round_aux_exact s m e :
  fexp prec emax (Zpos (digits2_pos m) + e) = e -> e <= emax - prec ->
  binary_round_aux prec emax s (Zpos m) e loc_Exact = S754_finite s m e.
Proof.
  intros Hc Hb. unfold binary_round_aux, shr_fexp. simpl Zdigits2.
  rewrite Hc, Z.sub_diag.
  cbn [shr shr_record_of_loc loc_of_shr_record round_nearest_even shr_m Zdigits2].
  rewrite Hc, Z.sub_diag. cbn [shr shr_m].
  apply Z.leb_le in Hb. rewrite Hb. reflexivity.
Qed.

Lemma shl_mul a k : 0 <= k -> Zpos (shl a k) = Zpos a * 2 ^ k.
Proof.
  destruct k as [|k|k]; intros Hk; try lia; simpl shl.
  - rewrite Z.mul_1_r. reflexivity.
  - apply shift_pos_mul.
Qed.

Lemma digits2_shl a k :
  0 <= k -> Zpos (digits2_pos (shl a k)) = Zpos (digits2_pos a) + k.
Proof.
  destruct k as [|k|k]; intros Hk; try lia; simpl shl.
  - lia.
  - apply digits2_shift.
Qed.

(** An integer of at most 53 bits converts exactly. *)
Lemma binary_round_small s a e' :
  fexp prec emax (Zpos (digits2_pos a)) = e' -> e' <= 0 ->
  binary_round prec emax s a 0 = S754_finite s (shl a (- e')) e'.
Proof.
  intros Hf He. unfold binary_round, shl_align. rewrite Z.add_0_r, Hf, Z.sub_0_r.
  assert (Hb : e' <= emax - prec) by (unfold emax, prec; lia).
  destruct e' as [|k|k]; try lia.
  - simpl shl. apply binary_round_aux_exact; [rewrite Z.add_0_r; exact Hf | exact Hb].
  - simpl shl. apply binary_round_aux_exact; [| exact Hb].
    rewrite digits2_shift. replace (Zpos (digits2_pos a) + Zpos k + Zneg k)
      with (Zpos (digits2_pos a)) by lia. exact Hf.
Qed.

(** A canonical number with a positive exponent is the conversion of the
    integer it stands for. *)
Lemma binary_round_large s m e :
  0 < e -> fexp prec emax (Zpos (digits2_pos m) + e) = e -> e <= emax - prec ->
  binary_round prec emax s (shl m e) 0 = S754_finite s m e.
Proof.
  intros He Hc Hb. unfold binary_round, shl_align.
  rewrite Z.add_0_r, digits2_shl, Hc, Z.sub_0_r by lia.
  destruct e as [|k|k]; try lia. simpl shl.
  unfold binary_round_aux, shr_fexp. simpl Zdigits2.
  rewrite Z.add_0_r, digits2_shift, Hc, Z.sub_0_r.
  cbn [shr shr_record_of_loc]. rewrite shr_shift.
  cbn [shr shr_record_of_loc loc_of_shr_record round_nearest_even shr_m Zdigits2].
  rewrite Z.add_0_l, Hc, Z.sub_diag. cbn [shr shr_m].
  apply Z.leb_le in Hb. rewrite Hb. reflexivity.
Qed.

Lemma SFeqb_finite s m m' e :
  SFeqb (S754_finite s m e) (S754_finite s m' e) = Pos.eqb m m'.
Proof.
  unfold SFeqb, SFcompare. rewrite Z.compare_refl.
  rewrite Pos.eqb_compare. unfold Pos.compare.
  destruct s; destruct (Pos.compare_cont Eq m m'); reflexivity.
Qed.

Lemma valid_finite s m e :
  valid_binary prec emax (S754_finite s m e) = true ->
  fexp prec emax (Zpos (digits2_pos m) + e) = e /\ e <= emax - prec.
Proof.
  simpl. unfold bounded, canonical_mantissa. intros H.
  apply andb_prop in H. destruct H as [H1 H2].
  apply Z.eqb_eq in H1. apply Z.leb_le in H2. auto.
Qed.

Lemma mantissa_bound m : Zpos m < 2 ^ Zpos (digits2_pos m).
Proof.
  rewrite digits2_log2. apply Z.log2_spec. lia.
Qed.

Lemma SFeqb_finite_inv s m e s' m' e' :
  SFeqb (S754_finite s m e) (S754_finite s' m' e') = true ->
  s = s' /\ m = m' /\ e = e'.
Proof.
  unfold SFeqb, SFcompare.
  destruct s, s'; try discriminate; destruct (Z.compare_spec e e') as [-> | H | H];
    try discriminate; intros Hc;
    (assert (Pos.compare m m' = Eq) as Hm
        by (unfold Pos.compare; destruct (Pos.compare_cont Eq m m');
            simpl in Hc; congruence));
    apply Pos.compare_eq in Hm; auto.
Qed.

Lemma long_long_to_double_signed (s : bool) (a : positive) :
  long_long_to_double (if s then Zneg a else Zpos a) = binary_round prec emax s a 0.
Proof. destruct s; reflexivity. Qed.

Lemma truncate_finite s m e :
  truncate (S754_finite s m e)
  = Some (let a := if 0 <=? e then Zpos m * 2 ^ e else Zpos m / 2 ^ (- e) in
          if s then - a else a).
Proof. reflexivity. Qed.

Lemma double_to_long_long_in_range x z :
  truncate x = Some z -> LLONG_MIN <= z <= LLONG_MAX -> double_to_long_long x = z.
Proof.
  unfold double_to_long_long. intros -> [H1 H2].
  apply Z.leb_le in H1, H2. rewrite H1, H2. reflexivity.
Qed.

Lemma double_to_long_long_out_of_range x z :
  truncate x = Some z -> ~ (LLONG_MIN <= z <= LLONG_MAX) ->
  double_to_long_long x = LLONG_MIN.
Proof.
  unfold double_to_long_long. intros -> H.
  destruct (LLONG_MIN <=? z) eqn:E1; [| reflexivity].
  destruct (z <=? LLONG_MAX) eqn:E2; [| reflexivity].
  apply Z.leb_le in E1, E2. tauto.
Qed.

Lemma signed_pos (s : bool) (a : positive) :
  (if s then - Zpos a else Zpos a) = if s then Zneg a else Zpos a.
Proof. destruct s; reflexivity. Qed.

(** The round trip of a number with a nonnegative exponent whose value fits. *)
Lemma round_trip_large s m e :
  valid_binary prec emax (S754_finite s m e) = true -> 0 <= e ->
  long_long_to_double (if s then Zneg (shl m e) else Zpos (shl m e))
  = S754_finite s m e.
Proof.
  intros Hv He. apply valid_finite in Hv. destruct Hv as [Hc Hb].
  rewrite long_long_to_double_signed.
  destruct (Z.eq_dec e 0) as [-> | Hne].
  - rewrite Z.add_0_r in Hc. simpl shl. rewrite (binary_round_small s m Hc) by lia.
    reflexivity.
  - apply binary_round_large; auto; lia.
Qed.

(** The round trip of a number with a negative exponent and a truncation of
    at least 1. *)
Lemma round_trip_small s m e (a : positive) :
  valid_binary prec emax (S754_finite s m e) = true -> e < 0 ->
  Zpos m / 2 ^ (- e) = Zpos a ->
  long_long_to_double (if s then Zneg a else Zpos a)
  = S754_finite s (shl a (- e)) e.
Proof.
  intros Hv He Ha. apply valid_finite in Hv. destruct Hv as [Hc Hb].
  rewrite long_long_to_double_signed.
  apply binary_round_small; [| lia].
  rewrite <- Hc. f_equal. rewrite !digits2_log2, <- Ha.
  rewrite <- Z.shiftr_div_pow2, Z.log2_shiftr by lia.
  assert (0 <= Z.log2 (Zpos m) - - e); [| lia].
  destruct (Z.le_gt_cases (- e) (Z.log2 (Zpos m))) as [H | H]; [lia |].
  exfalso. assert (Zpos m < 2 ^ (- e)).
  { apply Z.log2_lt_pow2; lia. }
  rewrite Z.div_small in Ha by lia. discriminate.
Qed.

Lemma llong_min_double :
  long_long_to_double LLONG_MIN = S754_finite true 4503599627370496 11.
Proof. vm_compute. reflexivity. Qed.

(** The comparison [number_value == (double) integer_value] of the writer
    holds exactly for the numbers that equal their own truncation and fit. *)
Lemma round_trip_test x :
  valid_binary prec emax x = true ->
  (SFeqb x (long_long_to_double (double_to_long_long x)) = true
   <-> equals_own_truncation x).
Proof.
  intros Hv. destruct x as [s | s | | s m e].
  - split; [| reflexivity]. intros _. exists 0.
    split; [reflexivity |]. split; [reflexivity |]. split; discriminate.
  - change (double_to_long_long (S754_infinity s)) with LLONG_MIN.
    rewrite llong_min_double.
    split; [destruct s; discriminate |]. intros (z & Hz & _). discriminate.
  - split; [discriminate |]. intros (z & Hz & _). discriminate.
  - pose proof (valid_finite _ _ _ Hv) as [Hc Hb].
    destruct (Z.leb_spec 0 e) as [He | He].
    + (* nonnegative exponent: the truncation is the value *)
      set (z := if s then Zneg (shl m e) else Zpos (shl m e)).
      assert (Ht : truncate (S754_finite s m e) = Some z).
      { rewrite truncate_finite. destruct (Z.leb_spec 0 e); [| lia].
        cbv zeta. rewrite <- shl_mul by lia. rewrite signed_pos. reflexivity. }
      assert (Hd : double_is (S754_finite s m e) z).
      { simpl. destruct (Z.leb_spec 0 e); [| lia]. unfold z.
        destruct s; rewrite ?Pos2Z.opp_pos; rewrite <- ?Pos2Z.opp_pos, shl_mul by lia;
          lia. }
      destruct (Z_le_dec LLONG_MIN z) as [H1 | H1];
        [destruct (Z_le_dec z LLONG_MAX) as [H2 | H2] |].
      * rewrite (double_to_long_long_in_range _ Ht) by auto.
        unfold z. rewrite round_trip_large, SFeqb_finite, Pos.eqb_refl by auto.
        split; auto. intros _. exists z. auto.
      * rewrite (double_to_long_long_out_of_range _ Ht), llong_min_double by lia.
        split.
        -- intros E. apply SFeqb_finite_inv in E. destruct E as (-> & -> & ->).
           vm_compute in H2. exfalso. apply H2. discriminate.
        -- intros (z' & Hz' & _ & Hr). rewrite Ht in Hz'. inversion Hz'; subst. lia.
      * rewrite (double_to_long_long_out_of_range _ Ht), llong_min_double by lia.
        split.
        -- intros E. apply SFeqb_finite_inv in E. destruct E as (-> & -> & ->).
           vm_compute in H1. exfalso. apply H1. discriminate.
        -- intros (z' & Hz' & _ & Hr). rewrite Ht in Hz'. inversion Hz'; subst. lia.
    + (* negative exponent *)
      assert (Hm : Zpos m < 2 ^ 53).
      { pose proof (mantissa_bound m) as Hm. rewrite fexp_unfold in Hc.
        eapply Z.lt_le_trans; [exact Hm |]. apply Z.pow_le_mono_r; lia. }
      assert (Hpow : 0 < 2 ^ (- e)) by (apply Z.pow_pos_nonneg; lia).
      assert (Ha : 0 <= Zpos m / 2 ^ (- e) <= Zpos m).
      { split; [apply Z.div_pos; lia |].
        apply Z.div_le_upper_bound; [lia |]. nia. }
      destruct (Zpos m / 2 ^ (- e)) as [|a|a] eqn:Ea; [| | lia].
      * (* the truncation is 0 *)
        assert (Ht : truncate (S754_finite s m e) = Some 0).
        { rewrite truncate_finite. destruct (Z.leb_spec 0 e); [lia |].
          cbv zeta. rewrite Ea. destruct s; reflexivity. }
        rewrite (double_to_long_long_in_range _ Ht) by (split; discriminate).
        change (long_long_to_double 0) with (S754_zero false).
        split; [destruct s; discriminate |].
        intros (z' & Hz' & Hd & _). rewrite Ht in Hz'. inversion Hz'; subst.
        simpl in Hd. destruct (Z.leb_spec 0 e); [lia |]. destruct s; discriminate.
      * set (z := if s then Zneg a else Zpos a).
        assert (Ht : truncate (S754_finite s m e) = Some z).
        { rewrite truncate_finite. destruct (Z.leb_spec 0 e); [lia |].
          cbv zeta. rewrite Ea. unfold z. destruct s; reflexivity. }
        assert (Hr : LLONG_MIN <= z <= LLONG_MAX).
        { unfold LLONG_MIN, LLONG_MAX, z. destruct s; lia. }
        rewrite (double_to_long_long_in_range _ Ht) by exact Hr.
        unfold z. rewrite (@round_trip_small s m e a Hv He Ea), SFeqb_finite.
        assert (Hs : Zpos (shl a (- e)) = Zpos a * 2 ^ (- e)) by (apply shl_mul; lia).
        split.
        -- intros E. apply Pos.eqb_eq in E. rewrite <- E in Hs.
           exists z. repeat split; try apply Hr; auto.
           simpl. destruct (Z.leb_spec 0 e); [lia |]. unfold z.
           destruct s; rewrite <- ?Pos2Z.opp_pos; lia.
        -- intros (z' & Hz' & Hd & _). rewrite Ht in Hz'. inversion Hz'; subst z'.
           simpl in Hd. destruct (Z.leb_spec 0 e); [lia |]. unfold z in Hd.
           apply Pos.eqb_eq. apply Pos2Z.inj. rewrite Hs.
           destruct s; rewrite <- ?Pos2Z.opp_pos in Hd; lia.
Qed.

(** [%lld] prints a decimal literal that reads back as the integer. *)
Lemma printf_lld_reads_back z :
  option_map Z.of_int (NilZero.int_of_string (string_of_list_ascii (printf_lld z)))
  = Some z.
Proof.
  unfold printf_lld, chars. rewrite string_of_list_ascii_of_string.
  assert (Hn : forall p, Pos.to_uint p <> Decimal.Nil)
    by (intros p Hp; apply (DecimalPos.Unsigned.to_uint_nonnil p); exact Hp).
  rewrite NilZero.isi.
  - simpl. rewrite DecimalZ.of_to. reflexivity.
  - destruct z; simpl; try discriminate. intros [= Hp]. exact (Hn _ Hp).
  - destruct z; simpl; try discriminate. intros [= Hp]. exact (Hn _ Hp).
Qed.

Local Close Scope Z_scope.

(** ** The cursor and the token buffer stay within their bounds *)

Lemma MAX_TOKEN_SIZE_value : MAX_TOKEN_SIZE = 1024.
Proof. reflexivity. Qed.

Lemma remaining_ahead_start n text0 :
  exists k, remaining (ahead n (start text0)) = skipn k (c_string text0)
            /\ pos (ahead n (start text0)) = k /\ k <= strlen text0
            /\ input (ahead n (start text0)) = text0
            /\ length (ahead n (start text0)) = strlen text0.
Proof.
  destruct (ahead_moved n (start text0)) as [k Hk].
  pose proof (@moved_remaining _ _ _ Hk) as Hr.
  destruct Hk as (Hi & Hl & Hp & Hle & _).
  rewrite remaining_start in Hr, Hle. rewrite length_firstn in Hle.
  exists k. repeat split; auto.
  pose proof (strlen_le text0). lia.
Qed.

Lemma no_nul_skipn (k : nat) (s : text) : ~ In NUL s -> ~ In NUL (skipn k s).
Proof.
  intros H Hin. apply H. rewrite <- (firstn_skipn k s). apply in_or_app. auto.
Qed.

Lemma no_nul_remaining n text0 : ~ In NUL (remaining (ahead n (start text0))).
Proof.
  destruct (remaining_ahead_start n text0) as (k & -> & _).
  apply no_nul_skipn. apply no_nul_firstn. lia.
Qed.

(** X1.  Reading tokens from the start of an input, the cursor never leaves
    the text: it is at most [strlen] of the input, a token never moves it
    backwards, and a token that is neither an error nor the end of the input
    moves it forwards. *)
Theorem cursor_stays_in_bounds :
  forall text0 n,
    let p := ahead n (start text0) in
    input p = text0 /\ length p = strlen text0
    /\ pos p <= strlen text0
    /\ pos p <= pos (next_token p)
    /\ pos (next_token p) <= strlen text0
    /\ (proper (current_type (next_token p)) -> pos p < pos (next_token p)).
Proof.
  intros text0 n p.
  destruct (remaining_ahead_start n text0) as (k & _ & Hk & Hle & Hi & Hl).
  destruct (remaining_ahead_start (S n) text0) as (k' & _ & Hk' & Hle' & _).
  rewrite ahead_S in Hk'. fold p in Hk, Hi, Hl, Hk'.
  destruct (next_token_moved p) as (m & (_ & _ & Hp & _) & Hm).
  repeat split; auto; try lia.
  intros H. apply Hm in H. lia.
Qed.

Lemma push_guarded_well_formed buf c :
  well_formed_buffer buf -> c <> NUL -> well_formed_buffer (push_guarded buf c).
Proof.
  unfold well_formed_buffer, push_guarded. intros [Hl Hn] Hc.
  destruct (List.length buf <? MAX_TOKEN_SIZE - 1) eqn:E; [| auto].
  apply Nat.ltb_lt in E. rewrite length_app. simpl. split; [lia |].
  intros H. apply in_app_or in H. destruct H as [H | [H | []]]; auto.
Qed.

Lemma push_well_formed buf c :
  List.length buf < MAX_TOKEN_SIZE - 1 -> ~ In NUL buf -> c <> NUL ->
  well_formed_buffer (buf ++ [c]).
Proof.
  intros Hl Hn Hc. split; [rewrite length_app; simpl; lia |].
  intros H. apply in_app_or in H. destruct H as [H | [H | []]]; auto.
Qed.

Lemma unescape_not_nul escaped d : unescape escaped = Some d -> d <> NUL.
Proof.
  unfold unescape.
  repeat (destruct (Ascii.eqb escaped _); [intros [= <-]; discriminate |]).
  discriminate.
Qed.

Lemma string_literal_loop_well_formed rest :
  forall p buf,
    ~ In NUL rest -> well_formed_buffer buf ->
    well_formed_buffer (snd (fst (string_literal_loop rest p buf))).
Proof.
  induction rest as [rest IH] using list_length_ind.
  intros p buf Hr Hb. destruct rest as [|c rest']; simpl; [exact Hb |].
  destruct (MAX_TOKEN_SIZE - 1 <=? List.length buf) eqn:Ecap; [exact Hb |].
  apply Nat.leb_gt in Ecap.
  assert (Hc : c <> NUL) by (intros ->; apply Hr; left; reflexivity).
  assert (Hr' : ~ In NUL rest') by (intros H; apply Hr; right; exact H).
  pose proof Hb as [_ Hn].
  destruct (Ascii.eqb c DQUOTE); [exact Hb |].
  destruct (Ascii.eqb c BACKSLASH); [destruct rest' as [|escaped rest''] |].
  - apply IH; [simpl; lia | exact Hr' | apply push_well_formed; auto].
  - assert (He : escaped <> NUL) by (intros ->; apply Hr'; left; reflexivity).
    apply IH; [simpl; lia | intros H; apply Hr'; right; exact H |].
    destruct (unescape escaped) as [d|] eqn:Ed.
    + apply push_well_formed; eauto using unescape_not_nul.
    + apply push_guarded_well_formed; [| exact He].
      apply push_well_formed; auto. discriminate.
  - apply IH; [simpl; lia | exact Hr' | apply push_well_formed; auto].
Qed.

Lemma digits_loop_well_formed rest :
  forall p buf,
    ~ In NUL rest -> well_formed_buffer buf ->
    well_formed_buffer (fst (digits_loop rest p buf)).
Proof.
  induction rest as [|c rest IH]; intros p buf Hr Hb; simpl; [exact Hb |].
  destruct (isdigit c); [| exact Hb].
  apply IH; [intros H; apply Hr; right; exact H |].
  apply push_guarded_well_formed; [exact Hb |].
  intros ->. apply Hr. left. reflexivity.
Qed.

Lemma no_nul_step_column p : ~ In NUL (remaining p) -> ~ In NUL (remaining (step_column p)).
Proof.
  rewrite remaining_step_column. intros H Hin. apply H.
  destruct (remaining p); [exact Hin | right; exact Hin].
Qed.

Lemma no_nul_head p :
  ~ In NUL (remaining p) -> forall c rest, remaining p = c :: rest -> c <> NUL.
Proof. intros H c rest E ->. apply H. rewrite E. left. reflexivity. Qed.

Lemma digits_loop_no_nul rest :
  forall p buf, remaining p = rest -> ~ In NUL rest ->
                ~ In NUL (remaining (snd (digits_loop rest p buf))).
Proof.
  induction rest as [|c rest IH]; intros p buf Hp Hr; cbn [digits_loop snd];
    [rewrite Hp; exact Hr |].
  destruct (isdigit c); [| cbn [snd]; rewrite Hp; exact Hr].
  apply IH; [eauto using remaining_cons_step | intros H; apply Hr; right; exact H].
Qed.

Lemma numeric_fraction_well_formed p buf :
  ~ In NUL (remaining p) -> well_formed_buffer buf ->
  well_formed_buffer (fst (numeric_fraction p buf))
  /\ ~ In NUL (remaining (snd (numeric_fraction p buf))).
Proof.
  unfold numeric_fraction. intros Hr Hb.
  pose proof (no_nul_step_column _ Hr) as Hr1.
  pose proof (@no_nul_head _ Hr) as Hc.
  destruct (remaining p) as [|c r] eqn:E; [cbn [fst snd]; rewrite E; auto |].
  destruct (Ascii.eqb c "."); [| cbn [fst snd]; rewrite E; auto].
  split.
  - apply digits_loop_well_formed; [exact Hr1 |].
    apply push_guarded_well_formed; [exact Hb | eapply Hc; reflexivity].
  - apply digits_loop_no_nul; [reflexivity | exact Hr1].
Qed.

Lemma numeric_exponent_well_formed p buf :
  ~ In NUL (remaining p) -> well_formed_buffer buf ->
  well_formed_buffer (fst (numeric_exponent p buf)).
Proof.
  unfold numeric_exponent. intros Hr Hb.
  pose proof (no_nul_step_column _ Hr) as Hr1.
  pose proof (@no_nul_head _ Hr) as Hc.
  destruct (remaining p) as [|c r] eqn:E; [exact Hb |].
  destruct (_ || _)%bool; [| exact Hb].
  assert (Hb1 : well_formed_buffer (push_guarded buf c)).
  { apply push_guarded_well_formed; [exact Hb | eapply Hc; reflexivity]. }
  pose proof (no_nul_step_column _ Hr1) as Hr2.
  pose proof (@no_nul_head _ Hr1) as Hd.
  destruct (remaining (step_column p)) as [|d r'] eqn:E1.
  - cbv beta iota zeta. rewrite E1. exact Hb1.
  - destruct (_ || _)%bool; cbv beta iota zeta.
    + apply digits_loop_well_formed; [exact Hr2 |].
      apply push_guarded_well_formed; [exact Hb1 | eapply Hd; reflexivity].
    + apply digits_loop_well_formed; [rewrite E1; exact Hr1 | exact Hb1].
Qed.

Lemma numeric_tail_well_formed buf p :
  ~ In NUL (remaining p) -> well_formed_buffer buf ->
  well_formed_buffer (value (fst (numeric_tail buf p))).
Proof.
  unfold numeric_tail. intros Hr Hb.
  destruct (numeric_fraction_well_formed p Hr Hb) as [H1 H2].
  destruct (numeric_fraction p buf) as [b1 p1]. simpl in H1, H2.
  pose proof (numeric_exponent_well_formed p1 H2 H1) as H3.
  destruct (numeric_exponent p1 b1) as [b2 p2]. exact H3.
Qed.

Lemma numeric_integer_part_well_formed buf p :
  ~ In NUL (remaining p) -> List.length buf <= 1 -> ~ In NUL buf ->
  well_formed_buffer (value (fst (numeric_integer_part buf p))).
Proof.
  intros Hr Hl Hn. pose proof MAX_TOKEN_SIZE_value as HM.
  assert (Hb : well_formed_buffer buf) by (split; [lia | exact Hn]).
  assert (Hd : well_formed_buffer (value (fst (numeric_digits buf p)))).
  { unfold numeric_digits.
    pose proof (@digits_loop_well_formed (remaining p) p buf Hr Hb) as H1.
    pose proof (@digits_loop_no_nul (remaining p) p buf eq_refl Hr) as H2.
    destruct (digits_loop _ _ _) as [b1 p1]. cbn [fst snd] in H1, H2.
    apply numeric_tail_well_formed; auto. }
  unfold numeric_integer_part.
  pose proof (no_nul_step_column _ Hr) as Hr1.
  pose proof (@no_nul_head _ Hr) as Hc.
  destruct (remaining p) as [|c r] eqn:E; [exact Hd |].
  destruct (Ascii.eqb c "0"); [| exact Hd].
  assert (Hb0 : well_formed_buffer (buf ++ [c])).
  { apply push_well_formed; [lia | exact Hn | eapply Hc; reflexivity]. }
  pose proof (numeric_tail_well_formed (step_column p) Hr1 Hb0) as Ht.
  destruct (remaining (step_column p)) as [|d r'] eqn:E1; [exact Ht |].
  destruct (isdigit d); [exact Hb0 | exact Ht].
Qed.

(** Whatever token is read from a text without NUL, its buffer is well
    formed. *)
Lemma next_token_well_formed p :
  ~ In NUL (remaining p) -> well_formed_buffer (value (current_token (next_token p))).
Proof.
  intros Hr. pose proof MAX_TOKEN_SIZE_value as HM.
  assert (Hq : ~ In NUL (remaining (tokenizer_skip_whitespace p))).
  { destruct (tokenizer_skip_whitespace_moved p) as [n Hn].
    rewrite (@moved_remaining _ _ _ Hn). apply no_nul_skipn, Hr. }
  unfold next_token, tokenizer_get_next_token.
  set (q := tokenizer_skip_whitespace p) in *.
  assert (He : well_formed_buffer []) by (split; [simpl; lia | intros []]).
  pose proof (no_nul_step_column _ Hq) as Hq1.
  pose proof (@no_nul_head _ Hq) as Hc.
  pose proof (@numeric_integer_part_well_formed [] q Hq) as Hnum.
  pose proof (fun c => @numeric_integer_part_well_formed [c] (step_column q) Hq1) as Hneg.
  unfold tokenizer_parse_numeric_literal.
  destruct (remaining q) as [|c r] eqn:E; [exact He |].
  specialize (Hc c r eq_refl).
  destruct (punctuation c).
  { simpl. split; [simpl; lia | intros [H | []]; auto]. }
  destruct (Ascii.eqb c DQUOTE).
  { unfold tokenizer_parse_string_literal.
    pose proof (@string_literal_loop_well_formed (remaining (step_column q))
                  (step_column q) [] Hq1 He) as H.
    destruct (string_literal_loop _ _ _) as [[found buf] p']. cbn [fst snd] in H.
    destruct found; exact H. }
  destruct (Ascii.eqb c "-" || isdigit c)%bool.
  { destruct (Ascii.eqb c "-").
    - specialize (Hneg c).
      destruct (numeric_integer_part [c] (step_column q)) as [t p'].
      apply Hneg; [simpl; lia | intros [H1 | []]; auto].
    - destruct (numeric_integer_part [] q) as [t p'].
      apply Hnum; [simpl; lia | intros []]. }
  destruct (_ || _)%bool; [| exact He].
  unfold tokenizer_parse_keyword_literal.
  repeat (destruct (starts_with _ _);
          [split; [simpl; lia | simpl; intuition discriminate] |]).
  exact He.
Qed.

(** X2.  The text of every token read from an input fits the token buffer
    [char value[MAX_TOKEN_SIZE]] together with its terminating NUL, and holds
    no NUL itself, so that [strlen] and [strcpy] see all of it. *)
Theorem token_buffer_never_overflows :
  forall text0 n,
    let t := current_token (ahead n (start text0)) in
    List.length (value t) + 1 <= MAX_TOKEN_SIZE
    /\ strlen (value t) = List.length (value t).
Proof.
  intros text0 n t. pose proof MAX_TOKEN_SIZE_value as HM.
  assert (H : well_formed_buffer (value t)).
  { subst t. destruct n as [|n].
    - split; [simpl; lia | intros []].
    - rewrite ahead_S. apply next_token_well_formed, no_nul_remaining. }
  destruct H as [Hl Hn]. split; [lia |].
  rewrite <- (app_nil_r (value t)) at 1. rewrite (@strlen_app _ [] Hn). simpl. lia.
Qed.

(** ** Blank input, stuck errors *)

Lemma skip_whitespace_loop_stderr rest :
  forall p, stderr (skip_whitespace_loop rest p) = stderr p.
Proof.
  induction rest as [|c rest IH]; intros p; simpl; [reflexivity |].
  destruct (_ || _)%bool; [rewrite IH; reflexivity |].
  destruct (Ascii.eqb c LF); [rewrite IH; reflexivity | reflexivity].
Qed.

Lemma tokenizer_skip_whitespace_stderr p :
  stderr (tokenizer_skip_whitespace p) = stderr p.
Proof. apply skip_whitespace_loop_stderr. Qed.

Lemma skip_whitespace_blank p :
  forallb is_space (remaining p) = true ->
  remaining (tokenizer_skip_whitespace p) = [].
Proof.
  intros H. unfold tokenizer_skip_whitespace.
  destruct (@skip_whitespace_loop_app (remaining p) [] p H) as (p1 & H1 & H2).
  { rewrite app_nil_r. reflexivity. }
  rewrite app_nil_r in H2. rewrite H2. exact H1.
Qed.

(** X3.  An input that holds nothing but blanks before its end (the empty
    input among them) has no token: the parse fails with "unexpected token
    type", and the driver prints that and the failure message, writes
    nothing and exits with status 1. *)
Theorem blank_input_rejected :
  forall text0,
    forallb is_space (c_string text0) = true ->
    current_type (parser_initialize text0) = TOKEN_EOF
    /\ parsed_value (parse text0) = None
    /\ main text0 = mk_outcome 1 [] [Unexpected_token_type; Failed_to_parse].
Proof.
  intros text0 H.
  assert (Hr : remaining (tokenizer_skip_whitespace (start text0)) = []).
  { apply skip_whitespace_blank. rewrite remaining_start. exact H. }
  assert (Hp : parser_initialize text0
               = set_current_token (tokenizer_skip_whitespace (start text0))
                   (empty_token TOKEN_EOF)).
  { unfold parser_initialize. fold (start text0).
    unfold next_token, tokenizer_get_next_token. rewrite Hr. reflexivity. }
  assert (Ht : current_type (parser_initialize text0) = TOKEN_EOF)
    by (rewrite Hp; reflexivity).
  assert (Hv : parse text0
               = Ret None (report (parser_initialize text0) Unexpected_token_type)).
  { unfold parse, json_parser_parse_document, enough_fuel. simpl.
    rewrite Ht. reflexivity. }
  split; [exact Ht |]. split; [rewrite Hv; reflexivity |].
  rewrite main_of_parse, Hv. simpl. rewrite Hp. simpl.
  rewrite tokenizer_skip_whitespace_stderr. reflexivity.
Qed.

Lemma blank_input_rejected_witness :
  main [" "%char; LF; TAB] = mk_outcome 1 [] [Unexpected_token_type; Failed_to_parse].
Proof.
  destruct (@blank_input_rejected [" "%char; LF; TAB]) as (_ & _ & H);
    [reflexivity | exact H].
Defined.

Lemma tokenizer_skip_whitespace_idem p :
  tokenizer_skip_whitespace (tokenizer_skip_whitespace p) = tokenizer_skip_whitespace p.
Proof. apply skip_whitespace_loop_idem. reflexivity. Qed.

Lemma skip_whitespace_at_token p c rest :
  remaining p = c :: rest -> is_space c = false -> tokenizer_skip_whitespace p = p.
Proof.
  intros E Hc. unfold tokenizer_skip_whitespace. rewrite E. simpl.
  unfold is_space in Hc.
  destruct (Ascii.eqb c " " || Ascii.eqb c TAB || Ascii.eqb c CR)%bool;
    [discriminate |].
  simpl in Hc. rewrite Hc. reflexivity.
Qed.

Lemma skip_whitespace_loop_stops rest :
  forall p c r,
    remaining p = rest ->
    remaining (skip_whitespace_loop rest p) = c :: r -> is_space c = false.
Proof.
  induction rest as [|d rest IH]; intros p c r Hp H; simpl in H.
  - rewrite Hp in H. discriminate.
  - unfold is_space.
    destruct (Ascii.eqb d " " || Ascii.eqb d TAB || Ascii.eqb d CR)%bool eqn:Eb.
    + eapply IH; [| exact H]. eauto using remaining_cons_step.
    + destruct (Ascii.eqb d LF) eqn:El.
      * eapply IH; [| exact H]. rewrite remaining_step_line, Hp. reflexivity.
      * rewrite Hp in H. injection H as <- _. rewrite Eb, El. reflexivity.
Qed.

Lemma tokenizer_skip_whitespace_stops p c r :
  remaining (tokenizer_skip_whitespace p) = c :: r -> is_space c = false.
Proof. apply skip_whitespace_loop_stops. reflexivity. Qed.

(** At a character no token starts with, the tokenizer prints its message
    and returns an error token without consuming the character. *)
Lemma next_token_unexpected p c rest :
  remaining (tokenizer_skip_whitespace p) = c :: rest ->
  token_start c = false ->
  let q := tokenizer_skip_whitespace p in
  next_token p
  = set_current_token (report q (Unexpected_character c (line q) (column q)))
      (empty_token TOKEN_ERROR).
Proof.
  intros E Hc q. subst q. unfold next_token, tokenizer_get_next_token. rewrite E.
  unfold token_start in Hc. destruct (punctuation c); [discriminate |].
  apply orb_false_iff in Hc. destruct Hc as [Hc H3].
  apply orb_false_iff in Hc. destruct Hc as [H1 H2].
  rewrite H1, H2, H3. reflexivity.
Qed.

(** X4.  A character that no token starts with is never consumed: the
    tokenizer reports it, with its line and column, each time a token is
    asked for, and every token from there on is an error token at the same
    place. *)
Theorem unexpected_character_is_never_consumed :
  forall p c rest,
    remaining (tokenizer_skip_whitespace p) = c :: rest ->
    token_start c = false ->
    let q := tokenizer_skip_whitespace p in
    forall n,
      current_token (ahead (S n) p) = empty_token TOKEN_ERROR
      /\ remaining (ahead (S n) p) = c :: rest
      /\ position (ahead (S n) p) = position q
      /\ stderr (ahead (S n) p)
         = stderr p ++ repeat (Unexpected_character c (line q) (column q)) (S n).
Proof.
  intros p c rest E Hc q n.
  assert (Hfix : forall p', remaining p' = c :: rest ->
                            tokenizer_skip_whitespace p' = p').
  { intros p' Hp'. eapply skip_whitespace_at_token; eauto.
    eapply tokenizer_skip_whitespace_stops; eauto. }
  assert (Hstep : forall p', remaining p' = c :: rest ->
                    next_token p'
                    = set_current_token
                        (report p' (Unexpected_character c (line p') (column p')))
                        (empty_token TOKEN_ERROR)).
  { intros p' Hp'. pose proof (Hfix p' Hp') as Hf.
    pose proof (@next_token_unexpected p' c rest) as H. rewrite Hf in H.
    exact (H Hp' Hc). }
  induction n as [|n IH].
  - change (ahead 1 p) with (next_token p).
    rewrite (@next_token_unexpected p c rest E Hc). fold q.
    repeat split; try reflexivity.
    + exact E.
    + simpl. unfold q. rewrite tokenizer_skip_whitespace_stderr. reflexivity.
  - destruct IH as (Ht & Hr & Hpos & Herr).
    rewrite ahead_S. rewrite (Hstep _ Hr).
    injection Hpos as Hl Hcol. rewrite Hl, Hcol.
    repeat split; try reflexivity.
    + exact Hr.
    + unfold position. simpl. rewrite Hl, Hcol. reflexivity.
    + simpl. rewrite Herr, <- app_assoc. f_equal.
      change (?x :: repeat ?x ?k) with (repeat x (S k)).
      rewrite <- repeat_cons. reflexivity.
Qed.

Lemma unexpected_character_is_never_consumed_witness :
  current_token (ahead 3 (start (chars " @1"))) = empty_token TOKEN_ERROR
  /\ stderr (ahead 3 (start (chars " @1"))) = repeat (Unexpected_character "@" 1 2) 3.
Proof.
  destruct (@unexpected_character_is_never_consumed (start (chars " @1")) "@"%char
              (chars "1") eq_refl eq_refl 2) as (H1 & _ & _ & H2).
  split; [exact H1 | exact H2].
Defined.

(** ** String literals *)

(** The loop decodes a closed literal whose content fits the buffer. *)
Lemma string_literal_loop_decodes body :
  forall p buf content rest,
    remaining p = body ->
    string_content body = Some (content, rest) ->
    List.length buf + List.length content < MAX_TOKEN_SIZE - 1 ->
    exists p',
      string_literal_loop body p buf = (true, buf ++ content, p')
      /\ remaining p' = rest /\ stderr p' = stderr p.
Proof.
  induction body as [body IH] using list_length_ind.
  intros p buf content rest Hp Hc Hlen.
  destruct body as [|c body']; simpl in Hc; [discriminate |]. simpl.
  destruct (MAX_TOKEN_SIZE - 1 <=? List.length buf) eqn:Ecap.
  { apply Nat.leb_le in Ecap. lia. }
  assert (Hp1 : remaining (step_column p) = body') by eauto using remaining_cons_step.
  destruct (Ascii.eqb c DQUOTE).
  { injection Hc as <- <-. exists (step_column p). rewrite app_nil_r. auto. }
  destruct (Ascii.eqb c BACKSLASH) eqn:Eb.
  - destruct body' as [|escaped body'']; [discriminate |].
    destruct (string_content body'') as [[content' rest'] |] eqn:E; [| discriminate].
    injection Hc as <- <-.
    assert (Hp2 : remaining (step_column (step_column p)) = body'')
      by eauto using remaining_cons_step.
    destruct (unescape escaped) as [d|].
    + destruct (IH body'' ltac:(simpl; lia) (step_column (step_column p))
                  (buf ++ [d]) content' rest' Hp2 E) as (p' & H1 & H2 & H3).
      { rewrite length_app. simpl in *. lia. }
      exists p'. rewrite H1, <- app_assoc. auto.
    + assert (Hg : push_guarded (buf ++ [BACKSLASH]) escaped
                   = buf ++ [BACKSLASH; escaped]).
      { unfold push_guarded. rewrite length_app.
        destruct (List.length buf + List.length [BACKSLASH] <? MAX_TOKEN_SIZE - 1) eqn:El.
        - rewrite <- app_assoc. reflexivity.
        - apply Nat.ltb_ge in El. simpl in *. lia. }
      rewrite Hg.
      destruct (IH body'' ltac:(simpl; lia) (step_column (step_column p))
                  (buf ++ [BACKSLASH; escaped]) content' rest' Hp2 E)
        as (p' & H1 & H2 & H3).
      { rewrite length_app. simpl in *. lia. }
      exists p'. rewrite H1, <- app_assoc. auto.
  - destruct (string_content body') as [[content' rest'] |] eqn:E; [| discriminate].
    injection Hc as <- <-.
    destruct (IH body' ltac:(simpl; lia) (step_column p) (buf ++ [c])
                content' rest' Hp1 E) as (p' & H1 & H2 & H3).
    { rewrite length_app. simpl in *. lia. }
    exists p'. rewrite H1, <- app_assoc. auto.
Qed.

(** The loop finds no closing quote where there is none. *)
Lemma string_literal_loop_unterminated body :
  forall p buf,
    string_content body = None ->
    fst (fst (string_literal_loop body p buf)) = false
    /\ stderr (snd (string_literal_loop body p buf)) = stderr p.
Proof.
  induction body as [body IH] using list_length_ind.
  intros p buf Hc. destruct body as [|c body']; simpl in *; [auto |].
  destruct (MAX_TOKEN_SIZE - 1 <=? List.length buf); [auto |].
  destruct (Ascii.eqb c DQUOTE); [discriminate |].
  destruct (Ascii.eqb c BACKSLASH).
  - destruct body' as [|escaped body''].
    + simpl. auto.
    + destruct (string_content body'') as [[content' rest'] |] eqn:E; [discriminate |].
      match goal with
      | |- context [string_literal_loop body'' ?p1 ?b1] =>
          destruct (IH body'' ltac:(simpl; lia) p1 b1 E) as [H1 H2]
      end.
      split; [exact H1 | exact H2].
  - destruct (string_content body') as [[content' rest'] |] eqn:E; [discriminate |].
    match goal with
    | |- context [string_literal_loop body' ?p1 ?b1] =>
        destruct (IH body' ltac:(simpl; lia) p1 b1 E) as [H1 H2]
    end.
    split; [exact H1 | exact H2].
Qed.

(** X5.  A closed string literal whose decoded content is shorter than
    [MAX_TOKEN_SIZE - 1] is a STRING token that holds exactly that content
    (each of the eight escapes replaced by its character, any other
    backslash pair kept as it is); the tokenizer stands right after the
    closing quote and has printed nothing. *)
Theorem short_string_decoded :
  forall p body content rest,
    remaining (tokenizer_skip_whitespace p) = DQUOTE :: body ->
    string_content body = Some (content, rest) ->
    List.length content < MAX_TOKEN_SIZE - 1 ->
    current_token (next_token p) = mk_token TOKEN_STRING content zero
    /\ remaining (next_token p) = rest
    /\ stderr (next_token p) = stderr p.
Proof.
  intros p body content rest Hp Hc Hlen.
  set (q := tokenizer_skip_whitespace p) in *.
  destruct (@string_literal_loop_decodes body (step_column q) [] content rest)
    as (p' & Hloop & Hrest & Herr); auto.
  { eapply remaining_cons_step; eauto. }
  assert (E : next_token p = set_current_token p' (mk_token TOKEN_STRING content zero)).
  { unfold next_token, tokenizer_get_next_token. fold q. rewrite Hp. simpl.
    unfold tokenizer_parse_string_literal.
    rewrite (remaining_cons_step _ Hp), Hloop. reflexivity. }
  rewrite E. repeat split; auto.
  simpl. rewrite Herr. apply tokenizer_skip_whitespace_stderr.
Qed.

Lemma short_string_decoded_witness :
  current_token (parser_initialize (json "'a\nb\x' 1"))
  = mk_token TOKEN_STRING ["a"%char; LF; "b"%char; BACKSLASH; "x"%char] zero.
Proof.
  destruct (@short_string_decoded (start (json "'a\nb\x' 1")) (json "a\nb\x' 1")
              ["a"%char; LF; "b"%char; BACKSLASH; "x"%char] (chars " 1"))
    as (H & _ & _).
  - reflexivity.
  - reflexivity.
  - vm_compute. lia.
  - exact H.
Defined.

(** X6.  A string literal without a closing quote is an error token, with
    the message "unterminated string" and nothing else printed; parsing a
    value there fails, and so does the parse of a document that starts with
    such a literal. *)
Theorem unterminated_string_rejected :
  forall p body,
    remaining (tokenizer_skip_whitespace p) = DQUOTE :: body ->
    string_content body = None ->
    current_type (next_token p) = TOKEN_ERROR
    /\ (exists l c, stderr (next_token p) = stderr p ++ [Unterminated_string l c])
    /\ (forall fuel,
           json_parser_parse_value (S fuel) (next_token p)
           = Ret None (report (next_token p) Invalid_token))
    /\ (forall text0, p = start text0 ->
                      parsed_value (parse text0) = None
                      /\ exit_status (main text0) = 1%Z
                      /\ output (main text0) = []).
Proof.
  intros p body Hp Hc.
  set (q := tokenizer_skip_whitespace p) in *.
  pose proof (@string_literal_loop_unterminated body (step_column q) [] Hc) as [Hf He].
  destruct (string_literal_loop body (step_column q) []) as [[found buf] p'] eqn:Hloop.
  simpl in Hf, He. subst found.
  assert (E : next_token p
              = set_current_token
                  (report p' (Unterminated_string (line p') (column p')))
                  (mk_token TOKEN_ERROR buf zero)).
  { unfold next_token, tokenizer_get_next_token. fold q. rewrite Hp. simpl.
    unfold tokenizer_parse_string_literal.
    rewrite (remaining_cons_step _ Hp), Hloop. reflexivity. }
  assert (Ht : current_type (next_token p) = TOKEN_ERROR) by (rewrite E; reflexivity).
  split; [exact Ht |]. split; [| split].
  - exists (line p'), (column p'). rewrite E. simpl. rewrite He. simpl.
    unfold q. rewrite tokenizer_skip_whitespace_stderr. reflexivity.
  - intros fuel. apply parse_value_on_error, Ht.
  - intros text0 ->. destruct (@parse_on_error text0 Ht) as [H1 H2].
    rewrite succeeds_parsed_value in H1.
    assert (Hv : parsed_value (parse text0) = None)
      by (destruct (parsed_value (parse text0)); [discriminate | reflexivity]).
    repeat split; auto.
    rewrite main_of_parse. destruct (parse text0) as [[v|] p1 |]; try reflexivity.
    discriminate.
Qed.

Lemma unterminated_string_rejected_witness :
  parsed_value (parse (json "'abc\'")) = None
  /\ exit_status (main (json "'abc\'")) = 1%Z.
Proof.
  destruct (@unterminated_string_rejected (start (json "'abc\'")) (json "abc\'")
              eq_refl eq_refl) as (_ & _ & _ & H).
  destruct (H _ eq_refl) as (H1 & H2 & _). split; [exact H1 | exact H2].
Defined.

(** ** The escaper of the writer *)

Lemma escape_loop_length s :
  List.length s <= List.length (escape_loop s) <= 2 * List.length s.
Proof.
  induction s as [|c s IH]; simpl; [lia |].
  rewrite length_app.
  repeat (destruct (Ascii.eqb c _); [simpl; lia |]). simpl; lia.
Qed.

(** X7.  The escaped string, with its two quotes and its terminating NUL,
    fits the [input_length * 2 + 3] bytes that the escaper allocates, and is
    never shorter than the input with its quotes. *)
Theorem escape_fits_its_buffer :
  forall s,
    List.length (string_utils_escape_for_lisp s) + 1 <= List.length s * 2 + 3
    /\ List.length s + 2 <= List.length (string_utils_escape_for_lisp s).
Proof.
  intros s. unfold string_utils_escape_for_lisp.
  pose proof (escape_loop_length s). rewrite !length_app. simpl. lia.
Qed.

Lemma escape_loop_no_nul s : ~ In NUL s -> ~ In NUL (escape_loop s).
Proof.
  induction s as [|c s IH]; simpl; [auto |]. intros H Hin.
  apply in_app_or in Hin. destruct Hin as [Hin | Hin].
  - assert (Hc : c <> NUL) by (intros ->; apply H; left; reflexivity).
    repeat (destruct (Ascii.eqb c _);
            [destruct Hin as [Hin | [Hin | []]]; discriminate |]).
    destruct Hin as [Hin | []]. auto.
  - apply IH; [intros H'; apply H; right; exact H' | exact Hin].
Qed.

(** What the escaper writes is a string literal of the tokenizer, with the
    string as its content. *)
Lemma string_content_escape_loop s rest :
  string_content (escape_loop s ++ DQUOTE :: rest) = Some (s, rest).
Proof.
  induction s as [|c s IH]; simpl; [reflexivity |].
  destruct (Ascii.eqb_spec c DQUOTE) as [-> | H1]; [simpl; rewrite IH; reflexivity |].
  destruct (Ascii.eqb_spec c BACKSLASH) as [-> | H2]; [simpl; rewrite IH; reflexivity |].
  destruct (Ascii.eqb_spec c LF) as [-> | H3]; [simpl; rewrite IH; reflexivity |].
  destruct (Ascii.eqb_spec c CR) as [-> | H4]; [simpl; rewrite IH; reflexivity |].
  destruct (Ascii.eqb_spec c TAB) as [-> | H5]; [simpl; rewrite IH; reflexivity |].
  simpl. apply Ascii.eqb_neq in H1, H2. rewrite H1, H2, IH. reflexivity.
Qed.

Lemma strlen_no_nul s : ~ In NUL s -> strlen s = List.length s.
Proof.
  intros H. rewrite <- (app_nil_r s) at 1. rewrite (@strlen_app s [] H). simpl. lia.
Qed.

Lemma remaining_start_no_nul s : ~ In NUL s -> remaining (start s) = s.
Proof.
  intros H. rewrite remaining_start, (@strlen_no_nul s H). apply firstn_all.
Qed.

(** X8.  Round trip between the escaper of the writer and the string rule
    of the tokenizer: for a string without NUL that is shorter than
    [MAX_TOKEN_SIZE - 1], what the escaper writes is read back as that very
    string, without any message, and the driver renders it as the escaped
    text again. *)
Theorem escaped_string_reads_back :
  forall s,
    ~ In NUL s -> List.length s < MAX_TOKEN_SIZE - 1 ->
    parsed_value (parse (string_utils_escape_for_lisp s)) = Some (JSON_STRING s)
    /\ main (string_utils_escape_for_lisp s)
       = mk_outcome 0 (header ++ string_utils_escape_for_lisp s ++ [LF]) [].
Proof.
  intros s Hn Hl.
  set (literal := string_utils_escape_for_lisp s).
  assert (Hlit : remaining (start literal) = DQUOTE :: escape_loop s ++ [DQUOTE]).
  { apply remaining_start_no_nul. unfold literal, string_utils_escape_for_lisp.
    intros [H | H]; [discriminate |].
    apply in_app_or in H. destruct H as [H | [H | []]]; [| discriminate].
    revert H. apply escape_loop_no_nul, Hn. }
  assert (Hskip : tokenizer_skip_whitespace (start literal) = start literal).
  { eapply skip_whitespace_at_token; [exact Hlit | reflexivity]. }
  rewrite <- Hskip in Hlit at 1.
  destruct (@short_string_decoded (start literal) (escape_loop s ++ [DQUOTE]) s []
              Hlit (string_content_escape_loop s []) Hl)
    as (Ht & Hr & He).
  change (next_token (start literal)) with (parser_initialize literal) in Ht, Hr, He.
  assert (Hnext : next_token (parser_initialize literal)
                  = set_current_token (parser_initialize literal)
                      (empty_token TOKEN_EOF)).
  { unfold next_token, tokenizer_get_next_token.
    assert (Hs : tokenizer_skip_whitespace (parser_initialize literal)
                 = parser_initialize literal)
      by (unfold tokenizer_skip_whitespace; rewrite Hr; reflexivity).
    rewrite Hs, Hr. reflexivity. }
  assert (Hp : parse literal
               = Ret (Some (JSON_STRING s)) (next_token (parser_initialize literal))).
  { unfold parse, json_parser_parse_document, enough_fuel.
    cbn [json_parser_parse_value]. unfold current_type. rewrite Ht. reflexivity. }
  split; [rewrite Hp; reflexivity |].
  rewrite main_of_parse, Hp, Hnext. simpl. rewrite He. reflexivity.
Qed.

Lemma escaped_string_reads_back_witness :
  parsed_value (parse (string_utils_escape_for_lisp [DQUOTE; LF; BACKSLASH; "("%char]))
  = Some (JSON_STRING [DQUOTE; LF; BACKSLASH; "("%char]).
Proof.
  destruct (@escaped_string_reads_back [DQUOTE; LF; BACKSLASH; "("%char]) as [H _].
  - intros [H | [H | [H | [H | []]]]]; discriminate.
  - vm_compute. lia.
  - exact H.
Defined.

(** ** The end of the C string *)

(** X9.  The parser sees its input as a C string: whatever follows the
    first NUL of the text is ignored, value, exit status and output being
    those of the text before it. *)
Theorem text_after_NUL_is_ignored :
  forall s t,
    ~ In NUL s ->
    parsed_value (parse (s ++ NUL :: t)) = parsed_value (parse s)
    /\ exit_status (main (s ++ NUL :: t)) = exit_status (main s)
    /\ output (main (s ++ NUL :: t)) = output (main s).
Proof.
  intros s t Hn.
  assert (Hv : parsed_value (parse (s ++ NUL :: t)) = parsed_value (parse s)).
  { apply parse_same_tokens. apply same_view_tokens.
    apply (@next_token_local (start (s ++ NUL :: t)) (start s)).
    rewrite (@remaining_start_no_nul s Hn).
    rewrite remaining_start, (@strlen_app s (NUL :: t) Hn). simpl.
    rewrite firstn_app_exact. simpl. rewrite app_nil_r. reflexivity. }
  split; [exact Hv |].
  rewrite !main_of_parse.
  destruct (parse (s ++ NUL :: t)) as [[v|] p1 |], (parse s) as [[w|] p2 |];
    simpl in Hv; try discriminate; auto.
  injection Hv as ->. auto.
Qed.

Lemma text_after_NUL_is_ignored_witness :
  output (main (chars "[1]" ++ NUL :: chars "]]")) = output (main (chars "[1]")).
Proof.
  destruct (@text_after_NUL_is_ignored (chars "[1]") (chars "]]")) as (_ & _ & H).
  - intros [H | [H | [H | []]]]; discriminate.
  - exact H.
Defined.

(** ** Integers are rendered as they are written *)

Lemma digits_of_isdigit d : forallb isdigit (digits_of d) = true.
Proof. induction d; simpl; auto. Qed.

Lemma digits_of_length d : List.length (digits_of d) = Decimal.nb_digits d.
Proof. induction d; simpl; auto. Qed.

Lemma digits_of_cons :
  forall d,
    digits_of (Decimal.D0 d) = "0"%char :: digits_of d
    /\ digits_of (Decimal.D1 d) = "1"%char :: digits_of d
    /\ digits_of (Decimal.D2 d) = "2"%char :: digits_of d
    /\ digits_of (Decimal.D3 d) = "3"%char :: digits_of d
    /\ digits_of (Decimal.D4 d) = "4"%char :: digits_of d
    /\ digits_of (Decimal.D5 d) = "5"%char :: digits_of d
    /\ digits_of (Decimal.D6 d) = "6"%char :: digits_of d
    /\ digits_of (Decimal.D7 d) = "7"%char :: digits_of d
    /\ digits_of (Decimal.D8 d) = "8"%char :: digits_of d
    /\ digits_of (Decimal.D9 d) = "9"%char :: digits_of d.
Proof. intros d. repeat split; reflexivity. Qed.

Ltac digits_of_head d :=
  let H := fresh in
  pose proof (digits_of_cons d) as H;
  decompose [and] H; clear H;
  match goal with
  | E : digits_of (?k d) = _ |- context [digits_of (?k d)] => rewrite E
  end.

Lemma read_digits_acc d :
  forall acc count,
    read_digits (digits_of d) (Zpos acc) count
    = (Zpos (Pos.of_uint_acc d acc), count + Decimal.nb_digits d, []).
Proof.
  induction d; intros acc count;
    [cbn; rewrite Nat.add_0_r; reflexivity | ..];
    digits_of_head d;
    cbn [read_digits Decimal.nb_digits Pos.of_uint_acc];
    change (isdigit _) with true; cbv iota;
    match goal with
    | |- context [digit_value ?c] =>
        let v := eval vm_compute in (digit_value c) in
        change (digit_value c) with v
    end;
    match goal with
    | |- read_digits _ ?z _ = (Zpos (Pos.of_uint_acc _ ?a), _, _) =>
        replace z with (Zpos a) by lia
    end;
    rewrite IHd; f_equal; f_equal; lia.
Qed.

Lemma read_digits_of d count :
  read_digits (digits_of d) 0%Z count
  = (Z.of_N (Pos.of_uint d), count + Decimal.nb_digits d, []).
Proof.
  revert count. induction d; intros count;
    [cbn; rewrite Nat.add_0_r; reflexivity | ..];
    digits_of_head d;
    cbn [read_digits Decimal.nb_digits Pos.of_uint];
    change (isdigit _) with true; cbv iota;
    match goal with
    | |- context [digit_value ?c] =>
        let v := eval vm_compute in (digit_value c) in
        change (digit_value c) with v
    end;
    [change (10 * 0 + 0)%Z with 0%Z; rewrite IHd; f_equal; f_equal; lia | ..];
    match goal with
    | |- read_digits _ ?z _ = _ =>
        let v := eval vm_compute in z in change z with v
    end;
    rewrite read_digits_acc; cbn [Z.of_N]; f_equal; f_equal; lia.
Qed.

(** A decimal numeral that is its own normal form and is not zero does not
    start with the digit zero. *)
Lemma to_uint_head a :
  exists c ds, digits_of (Pos.to_uint a) = c :: ds
               /\ isdigit c = true /\ c <> "0"%char.
Proof.
  assert (Hn : Decimal.unorm (Pos.to_uint a) = Pos.to_uint a).
  { rewrite <- (DecimalPos.Unsigned.to_of (Pos.to_uint a)).
    rewrite DecimalPos.Unsigned.of_to. reflexivity. }
  pose proof (DecimalPos.Unsigned.to_uint_nonzero a) as Hz.
  pose proof (DecimalPos.Unsigned.to_uint_nonnil a) as Hnil.
  destruct (Pos.to_uint a) as [|d|d|d|d|d|d|d|d|d|d] eqn:E; [congruence | | ..];
    try (digits_of_head d; eexists; eexists; split; [reflexivity |];
         split; [reflexivity | discriminate]).
  exfalso. unfold Decimal.unorm in Hn. cbn [Decimal.nzhead] in Hn.
  pose proof (DecimalFacts.nb_digits_nzhead d) as Hle.
  destruct (Decimal.nzhead d) eqn:En.
  - apply Hz. symmetry. exact Hn.
  - rewrite Hn in Hle. simpl in Hle. lia.
  - discriminate.
  - discriminate.
  - discriminate.
  - discriminate.
  - discriminate.
  - discriminate.
  - discriminate.
  - discriminate.
  - discriminate.
Qed.

Lemma of_uint_acc_lower l :
  forall acc,
    (Zpos acc * 10 ^ Z.of_nat (Decimal.nb_digits l) <= Zpos (Pos.of_uint_acc l acc))%Z.
Proof.
  induction l; intros acc; cbn [Decimal.nb_digits Pos.of_uint_acc];
    [simpl; lia | ..];
    rewrite Nat2Z.inj_succ, Z.pow_succ_r by lia;
    match goal with
    | |- (_ <= Zpos (Pos.of_uint_acc _ ?k))%Z => pose proof (IHl k) as H
    end;
    assert (H0 : (0 <= 10 ^ Z.of_nat (Decimal.nb_digits l))%Z)
      by (apply Z.pow_nonneg; lia);
    revert H H0; generalize (10 ^ Z.of_nat (Decimal.nb_digits l))%Z;
    intros P H H0; nia.
Qed.

Lemma to_uint_short a :
  (Zpos a < 10 ^ 16)%Z -> Decimal.nb_digits (Pos.to_uint a) <= 16.
Proof.
  intros Ha.
  pose proof (DecimalPos.Unsigned.of_to a) as Hof.
  destruct (Nat.le_gt_cases (Decimal.nb_digits (Pos.to_uint a)) 16) as [H | H];
    [exact H | exfalso].
  assert (Hlow : forall l k,
             (10 ^ 16 <= Zpos (Pos.of_uint_acc l k))%Z
             \/ Decimal.nb_digits l < 16).
  { intros l k. destruct (Nat.le_gt_cases 16 (Decimal.nb_digits l)) as [Hl | Hl];
      [left | right; exact Hl].
    eapply Z.le_trans; [| apply of_uint_acc_lower].
    assert (10 ^ 16 <= 10 ^ Z.of_nat (Decimal.nb_digits l))%Z
      by (apply Z.pow_le_mono_r; lia).
    nia. }
  pose proof (DecimalPos.Unsigned.to_uint_nonzero a) as Hz.
  assert (Hn : Decimal.unorm (Pos.to_uint a) = Pos.to_uint a).
  { rewrite <- (DecimalPos.Unsigned.to_of (Pos.to_uint a)).
    rewrite DecimalPos.Unsigned.of_to. reflexivity. }
  destruct (Pos.to_uint a) as [|d|d|d|d|d|d|d|d|d|d] eqn:E;
    cbn [Decimal.nb_digits] in H; [lia | | ..];
    try (cbn [Pos.of_uint] in Hof; injection Hof as Hof;
         match type of Hof with
         | Pos.of_uint_acc ?l ?k = _ => destruct (Hlow l k) as [Hb | Hb]
         end; [rewrite Hof in Hb; lia | lia]).
  unfold Decimal.unorm in Hn. cbn [Decimal.nzhead] in Hn.
  pose proof (DecimalFacts.nb_digits_nzhead d) as Hle.
  destruct (Decimal.nzhead d) eqn:En; try discriminate.
  - apply Hz. symmetry. exact Hn.
  - rewrite Hn in Hle. simpl in Hle. lia.
Qed.

(** The digit loop reads a run of digits that ends the text, and stores all
    of it when it fits the buffer. *)
Lemma digits_loop_all ds :
  forall p buf,
    remaining p = ds -> forallb isdigit ds = true ->
    List.length buf + List.length ds <= MAX_TOKEN_SIZE - 1 ->
    exists p', digits_loop ds p buf = (buf ++ ds, p')
               /\ remaining p' = [] /\ stderr p' = stderr p.
Proof.
  induction ds as [|c ds IH]; intros p buf Hp Hd Hl; simpl.
  - exists p. rewrite List.app_nil_r. auto.
  - simpl in Hd. apply andb_prop in Hd. destruct Hd as [Hc Hd]. rewrite Hc.
    assert (Hg : push_guarded buf c = buf ++ [c]).
    { unfold push_guarded. destruct (List.length buf <? MAX_TOKEN_SIZE - 1) eqn:E;
        [reflexivity |]. apply Nat.ltb_ge in E. simpl in Hl. lia. }
    rewrite Hg.
    destruct (IH (step_column p) (buf ++ [c])) as (p' & H1 & H2 & H3); auto.
    { eauto using remaining_cons_step. }
    { rewrite length_app. simpl in *. lia. }
    exists p'. rewrite H1, <- List.app_assoc. auto.
Qed.

Lemma numeric_tail_at_end buf p :
  remaining p = [] -> numeric_tail buf p = (mk_token TOKEN_NUMBER buf (atof buf), p).
Proof.
  intros H. unfold numeric_tail, numeric_fraction, numeric_exponent. rewrite H.
  rewrite H. reflexivity.
Qed.

Lemma isdigit_class c :
  isdigit c = true ->
  is_space c = false /\ punctuation c = None /\ Ascii.eqb c DQUOTE = false
  /\ Ascii.eqb c "-" = false.
Proof.
  destruct c as [[] [] [] [] [] [] [] []]; intros H; try discriminate H;
    repeat split; reflexivity.
Qed.

(** An integer literal that ends the text, with or without a minus sign, is
    a NUMBER token that holds the literal. *)
Lemma integer_literal_token (negative : bool) c ds p :
  let sign := if negative then ["-"%char] else [] in
  remaining p = sign ++ c :: ds ->
  forallb isdigit (c :: ds) = true ->
  (c = "0"%char -> ds = []) ->
  List.length (c :: ds) < MAX_TOKEN_SIZE - 2 ->
  exists p',
    next_token p
    = set_current_token p'
        (mk_token TOKEN_NUMBER (sign ++ c :: ds) (atof (sign ++ c :: ds)))
    /\ remaining p' = [] /\ stderr p' = stderr p.
Proof.
  intros sign Hp Hd Hz Hl.
  pose proof Hd as Hd'. simpl in Hd'. apply andb_prop in Hd'. destruct Hd' as [Hc _].
  destruct (@isdigit_class c Hc) as (Hs & Hpu & Hq & Hm).
  assert (Hskip : tokenizer_skip_whitespace p = p).
  { destruct negative; simpl in Hp; eapply skip_whitespace_at_token; eauto. }
  assert (Hint : forall q buf,
             List.length buf <= 1 -> remaining q = c :: ds -> stderr q = stderr p ->
             exists p', numeric_integer_part buf q
                        = (mk_token TOKEN_NUMBER (buf ++ c :: ds)
                                    (atof (buf ++ c :: ds)), p')
                        /\ remaining p' = [] /\ stderr p' = stderr p).
  { intros q buf Hb Hr He. unfold numeric_integer_part. rewrite Hr.
    destruct (Ascii.eqb_spec c "0") as [-> | Hne].
    - rewrite (Hz eq_refl) in *.
      rewrite (remaining_cons_step _ Hr).
      exists (step_column q). rewrite numeric_tail_at_end
        by (eapply remaining_cons_step; eauto).
      split; [reflexivity | split; [eapply remaining_cons_step; eauto | exact He]].
    - unfold numeric_digits. rewrite Hr.
      destruct (@digits_loop_all (c :: ds) q buf Hr Hd) as (p' & H1 & H2 & H3).
      { simpl in *. lia. }
      rewrite H1, numeric_tail_at_end by exact H2.
      exists p'. rewrite H3. auto. }
  unfold next_token, tokenizer_get_next_token. rewrite Hskip.
  destruct negative; simpl in Hp; rewrite Hp.
  - change (punctuation "-") with (@None token_type_t). cbv iota.
    change (Ascii.eqb "-" DQUOTE) with false. cbv iota.
    change (Ascii.eqb "-" "-" || isdigit "-")%bool with true. cbv iota.
    unfold tokenizer_parse_numeric_literal. rewrite Hp.
    change (Ascii.eqb "-" "-") with true. cbv iota.
    destruct (Hint (step_column p) ["-"%char]) as (p' & H1 & H2 & H3);
      [simpl; lia | eapply remaining_cons_step; eauto | reflexivity |].
    rewrite H1. exists p'. auto.
  - rewrite Hpu, Hq, Hc, orb_true_r.
    unfold tokenizer_parse_numeric_literal. rewrite Hp, Hm.
    destruct (Hint p []) as (p' & H1 & H2 & H3); [simpl; lia | exact Hp | reflexivity |].
    rewrite H1. exists p'. auto.
Qed.

Lemma next_token_at_end p :
  remaining p = [] -> next_token p = set_current_token p (empty_token TOKEN_EOF).
Proof.
  intros H. unfold next_token, tokenizer_get_next_token, tokenizer_skip_whitespace.
  rewrite H. simpl. rewrite H. reflexivity.
Qed.

Lemma isdigit_not_sign c :
  isdigit c = true -> Ascii.eqb c "-" = false /\ Ascii.eqb c "+" = false.
Proof.
  destruct c as [[] [] [] [] [] [] [] []]; intros H; try discriminate H;
    split; reflexivity.
Qed.

(** [atof] of the decimal numeral of a positive integer, with or without a
    minus sign. *)
Lemma atof_integer_literal (negative : bool) a :
  atof ((if negative then ["-"%char] else []) ++ digits_of (Pos.to_uint a))
  = binary_round prec emax negative a 0.
Proof.
  destruct (to_uint_head a) as (c & ds & E & Hc & _).
  destruct (@isdigit_not_sign c Hc) as [Hm Hp].
  pose proof (read_digits_of (Pos.to_uint a) 0) as Hr.
  rewrite DecimalPos.Unsigned.of_to in Hr. cbn [Z.of_N] in Hr.
  assert (Hn : exists k, 0 + Decimal.nb_digits (Pos.to_uint a) = S k).
  { rewrite <- digits_of_length, E. simpl. eauto. }
  destruct Hn as [k Hk]. rewrite Hk in Hr.
  unfold atof. destruct negative; cbn [app].
  - change (Ascii.eqb "-" "-") with true. cbv iota. rewrite Hr.
    cbn. rewrite Pos.mul_1_r. reflexivity.
  - rewrite E, Hm, Hp, <- E, Hr. cbn. rewrite Pos.mul_1_r. reflexivity.
Qed.

(** A double made from an integer below 2^53 prints as that integer. *)
Lemma write_number_integer (s : bool) a :
  (Zpos a < 2 ^ 53)%Z ->
  write_number (binary_round prec emax s a 0)
  = printf_lld (if s then Zneg a else Zpos a).
Proof.
  intros Ha.
  assert (Hd : (Zpos (digits2_pos a) <= 53)%Z).
  { rewrite digits2_log2.
    assert (Z.log2 (Zpos a) < 53)%Z by (apply Z.log2_lt_pow2; lia). lia. }
  set (e' := fexp prec emax (Zpos (digits2_pos a))).
  assert (He : (e' <= 0)%Z) by (unfold e'; rewrite fexp_unfold; lia).
  assert (Hlow : (-1074 <= e')%Z) by (unfold e'; rewrite fexp_unfold; lia).
  rewrite (@binary_round_small s a e' eq_refl He).
  set (x := S754_finite s (shl a (- e')) e').
  assert (Ht : truncate x = Some (if s then Zneg a else Zpos a)).
  { unfold x. rewrite truncate_finite. f_equal. rewrite shl_mul by lia.
    destruct (0 <=? e')%Z eqn:E.
    - apply Z.leb_le in E. replace e' with 0%Z by lia.
      change (- 0)%Z with 0%Z. rewrite Z.pow_0_r, !Z.mul_1_r. destruct s; reflexivity.
    - rewrite Z.div_mul by (apply Z.pow_nonzero; lia). destruct s; reflexivity. }
  assert (Hr : (LLONG_MIN <= (if s then Zneg a else Zpos a) <= LLONG_MAX)%Z).
  { unfold LLONG_MIN, LLONG_MAX.
    assert (2 ^ 53 < 2 ^ 63)%Z by (apply Z.pow_lt_mono_r; lia).
    destruct s; lia. }
  unfold write_number. rewrite (double_to_long_long_in_range _ Ht Hr).
  rewrite long_long_to_double_signed, (@binary_round_small s a e' eq_refl He).
  fold x. unfold x. rewrite SFeqb_finite, Pos.eqb_refl. reflexivity.
Qed.

Lemma printf_lld_cases z :
  match z with
  | Z0 => printf_lld z = ["0"%char]
  | Zpos a => printf_lld z = digits_of (Pos.to_uint a)
  | Zneg a => printf_lld z = "-"%char :: digits_of (Pos.to_uint a)
  end.
Proof.
  destruct z as [|a|a]; [reflexivity | |];
    pose proof (DecimalPos.Unsigned.to_uint_nonnil a) as Hn;
    unfold printf_lld, digits_of; cbn [Z.to_int NilZero.string_of_int];
    unfold NilZero.string_of_uint; destruct (Pos.to_uint a); try congruence;
    reflexivity.
Qed.

Lemma no_nul_digits ds : forallb isdigit ds = true -> ~ In NUL ds.
Proof.
  intros H Hin. rewrite forallb_forall in H. apply H in Hin. discriminate.
Qed.

(** The parse of a text that is one integer literal. *)
Lemma parse_integer_literal (negative : bool) c ds :
  let sign := if negative then ["-"%char] else [] in
  forallb isdigit (c :: ds) = true ->
  (c = "0"%char -> ds = []) ->
  List.length (c :: ds) < MAX_TOKEN_SIZE - 2 ->
  exists p',
    parse (sign ++ c :: ds)
    = Ret (Some (JSON_NUMBER (atof (sign ++ c :: ds)))) p'
    /\ current_type p' = TOKEN_EOF /\ stderr p' = [].
Proof.
  intros sign Hd Hz Hl.
  assert (Hn : ~ In NUL (sign ++ c :: ds)).
  { intros H. apply in_app_or in H. destruct H as [H | H].
    - subst sign. destruct negative; [destruct H as [H | []]; discriminate | destruct H].
    - revert H. apply no_nul_digits, Hd. }
  destruct (@integer_literal_token negative c ds (start (sign ++ c :: ds))
              (@remaining_start_no_nul _ Hn) Hd Hz Hl) as (p1 & H1 & H2 & H3).
  change (next_token (start (sign ++ c :: ds)))
    with (parser_initialize (sign ++ c :: ds)) in H1.
  exists (next_token (parser_initialize (sign ++ c :: ds))).
  split; [| split].
  - unfold parse, json_parser_parse_document, enough_fuel.
    cbn [json_parser_parse_value]. unfold current_type. rewrite H1. reflexivity.
  - rewrite H1, next_token_at_end by exact H2. reflexivity.
  - rewrite H1, next_token_at_end by exact H2. simpl. exact H3.
Qed.

(** X10.  An integer of magnitude below 2^53, written in decimal (as [%lld]
    prints it), is a document that the converter renders as it stands: the
    parse gives the double of that integer, the output is the header, the
    same digits and a newline, and nothing is printed on standard error. *)
Theorem integer_documents_render_unchanged :
  forall z,
    (- 2 ^ 53 < z < 2 ^ 53)%Z ->
    parsed_value (parse (printf_lld z)) = Some (JSON_NUMBER (long_long_to_double z))
    /\ render (printf_lld z) = Some (printf_lld z)
    /\ main (printf_lld z) = mk_outcome 0 (header ++ printf_lld z ++ [LF]) [].
Proof.
  intros z Hz. pose proof MAX_TOKEN_SIZE_value as HM.
  assert (H : exists p',
             parse (printf_lld z) = Ret (Some (JSON_NUMBER (long_long_to_double z))) p'
             /\ current_type p' = TOKEN_EOF /\ stderr p' = []
             /\ write_number (long_long_to_double z) = printf_lld z).
  { pose proof (printf_lld_cases z) as Hc. destruct z as [|a|a].
    - eexists. repeat split; vm_compute; reflexivity.
    - destruct (to_uint_head a) as (c & ds & E & Hd & Hne).
      pose proof (digits_of_isdigit (Pos.to_uint a)) as Hds.
      assert (Hlen : List.length (digits_of (Pos.to_uint a)) <= 16).
      { rewrite digits_of_length. apply to_uint_short.
        assert (2 ^ 53 < 10 ^ 16)%Z by reflexivity. lia. }
      rewrite E in Hds, Hlen.
      destruct (@parse_integer_literal false c ds Hds) as (p' & H1 & H2 & H3).
      { intros ->. congruence. }
      { lia. }
      cbn [app] in H1. rewrite <- E in H1. rewrite Hc.
      pose proof (atof_integer_literal false a) as Ha. cbn [app] in Ha.
      rewrite Ha in H1.
      exists p'. change (long_long_to_double (Z.pos a)) with (binary_round prec emax false a 0).
      repeat split; auto.
      rewrite (@write_number_integer false a) by lia. rewrite <- Hc. reflexivity.
    - destruct (to_uint_head a) as (c & ds & E & Hd & Hne).
      pose proof (digits_of_isdigit (Pos.to_uint a)) as Hds.
      assert (Hlen : List.length (digits_of (Pos.to_uint a)) <= 16).
      { rewrite digits_of_length. apply to_uint_short.
        assert (2 ^ 53 < 10 ^ 16)%Z by reflexivity. lia. }
      rewrite E in Hds, Hlen.
      destruct (@parse_integer_literal true c ds Hds) as (p' & H1 & H2 & H3).
      { intros ->. congruence. }
      { lia. }
      cbn [app] in H1. rewrite <- E in H1. rewrite Hc.
      pose proof (atof_integer_literal true a) as Ha. cbn [app] in Ha.
      rewrite Ha in H1.
      exists p'. change (long_long_to_double (Z.neg a)) with (binary_round prec emax true a 0).
      repeat split; auto.
      rewrite (@write_number_integer true a) by lia. rewrite <- Hc. reflexivity. }
  destruct H as (p' & Hp & Ht & He & Hw).
  split; [rewrite Hp; reflexivity |]. split.
  - unfold render. rewrite Hp. simpl. rewrite Hw. reflexivity.
  - rewrite main_of_parse, Hp, Ht. simpl. rewrite Hw, He. reflexivity.
Qed.

Lemma integer_documents_render_unchanged_witness :
  render (chars "-9007199254740991") = Some (chars "-9007199254740991").
Proof.
  destruct (@integer_documents_render_unchanged (-9007199254740991)) as (_ & H & _).
  - split; reflexivity.
  - exact H.
Defined.

(** ** Containers keep their children in the order of the text *)

Lemma parses_fuel p v p' :
  parses p v p' ->
  exists F, forall f, F <= f -> json_parser_parse_value f p = Ret (Some v) p'.
Proof.
  intros [F H]. exists F. intros f Hf.
  eapply json_parser_parse_value_monotone; eauto.
Qed.

Lemma parses_not_at p v p' :
  parses p v p' ->
  current_type p <> TOKEN_EOF /\ current_type p <> TOKEN_RBRACKET.
Proof.
  intros [[|f] H]; [discriminate |]. simpl in H.
  destruct (current_type p); try discriminate; split; discriminate.
Qed.

Lemma parses_members_loop p ms p' :
  parses_members p ms p' ->
  exists F, forall f n members,
      F <= f -> F <= n ->
      object_loop (json_parser_parse_value f) n p members
      = Ret (Some (JSON_OBJECT (members ++ ms))) p'.
Proof.
  induction 1 as [p v p1 Hs Hc Hv Hr | p v p1 ms p' Hs Hc Hv Hr Hms IH].
  - destruct (parses_fuel Hv) as [F HF]. exists (S F).
    intros f [|n] members Hf Hn; [lia |]. simpl.
    rewrite Hs, Hc. simpl. rewrite HF by lia. rewrite Hr. reflexivity.
  - destruct (parses_fuel Hv) as [F HF]. destruct IH as [F' HF'].
    exists (S (F + F')). intros f [|n] members Hf Hn; [lia |]. simpl.
    rewrite Hs, Hc. simpl. rewrite HF by lia. rewrite Hr. simpl.
    rewrite HF' by lia. rewrite <- app_assoc. reflexivity.
Qed.

Lemma parses_elements_loop p vs p' :
  parses_elements p vs p' ->
  exists F, forall f n elements,
      F <= f -> F <= n ->
      array_loop (json_parser_parse_value f) n p elements
      = Ret (Some (JSON_ARRAY (elements ++ vs))) p'.
Proof.
  induction 1 as [p v p1 Hv Hr | p v p1 vs p' Hv Hr Hvs IH].
  - destruct (parses_fuel Hv) as [F HF]. destruct (parses_not_at Hv) as [He _].
    apply token_type_eqb_neq in He.
    exists (S F). intros f [|n] elements Hf Hn; [lia |]. simpl.
    rewrite He. rewrite HF by lia. rewrite Hr. reflexivity.
  - destruct (parses_fuel Hv) as [F HF]. destruct IH as [F' HF'].
    destruct (parses_not_at Hv) as [He _]. apply token_type_eqb_neq in He.
    exists (S (F + F')). intros f [|n] elements Hf Hn; [lia |]. simpl.
    rewrite He. rewrite HF by lia. rewrite Hr. simpl.
    rewrite HF' by lia. rewrite <- app_assoc. reflexivity.
Qed.

Lemma parses_members_first p ms p' :
  parses_members p ms p' -> current_type p = TOKEN_STRING.
Proof. destruct 1; assumption. Qed.

Lemma parses_elements_first p vs p' :
  parses_elements p vs p' -> current_type p <> TOKEN_RBRACKET.
Proof. destruct 1 as [p v p1 Hv _ | p v p1 vs p' Hv _ _]; apply (parses_not_at Hv). Qed.

Lemma parses_object_of_members p ms p' :
  current_type p = TOKEN_LBRACE ->
  parses_members (next_token p) ms p' ->
  parses p (JSON_OBJECT ms) p'.
Proof.
  intros Hp Hms.
  destruct (parses_members_loop Hms) as [F HF].
  pose proof (parses_members_first Hms) as Hs.
  exists (S F). simpl. rewrite Hp. unfold json_parser_parse_object.
  rewrite Hs. simpl. apply (HF F F []); lia.
Qed.

Lemma parses_array_of_elements p vs p' :
  current_type p = TOKEN_LBRACKET ->
  parses_elements (next_token p) vs p' ->
  parses p (JSON_ARRAY vs) p'.
Proof.
  intros Hp Hvs.
  destruct (parses_elements_loop Hvs) as [F HF].
  pose proof (parses_elements_first Hvs) as Hs.
  apply token_type_eqb_neq in Hs.
  exists (S F). simpl. rewrite Hp. unfold json_parser_parse_array.
  rewrite Hs. apply (HF F F []); lia.
Qed.

(** X11.  A container keeps its children in the order of the text, none
    dropped and none merged: after an opening brace, members read as key,
    colon, value with commas between them and a closing brace after the last
    give the object with exactly these members, keys included, duplicates
    too; after an opening bracket, values separated by commas and closed by
    a bracket give the array with exactly these elements. *)
Theorem containers_keep_their_children :
  (forall p ms p',
      current_type p = TOKEN_LBRACE ->
      parses_members (next_token p) ms p' ->
      parses p (JSON_OBJECT ms) p')
  /\ (forall p vs p',
         current_type p = TOKEN_LBRACKET ->
         parses_elements (next_token p) vs p' ->
         parses p (JSON_ARRAY vs) p').
Proof.
  split; [exact parses_object_of_members | exact parses_array_of_elements].
Qed.

Lemma containers_keep_their_children_witness :
  let p := parser_initialize (json "{'a':1,'a':[2]}") in
  let key1 := next_token p in
  let one := next_token (next_token key1) in
  let key2 := next_token (next_token one) in
  let two := next_token (next_token (next_token key2)) in
  let done := next_token (next_token (next_token two)) in
  parses p (JSON_OBJECT
              [(value (current_token key1), JSON_NUMBER (atof (chars "1")));
               (value (current_token key2),
                JSON_ARRAY [JSON_NUMBER (atof (chars "2"))])])
         done
  /\ value (current_token key1) = chars "a"
  /\ value (current_token key2) = chars "a"
  /\ current_type done = TOKEN_EOF.
Proof.
  intros p key1 one key2 two done.
  destruct containers_keep_their_children as [Hobj Harr].
  split; [| repeat split; vm_compute; exact eq_refl].
  apply Hobj; [vm_compute; exact eq_refl |].
  refine (@members_more key1 (JSON_NUMBER (atof (chars "1"))) (next_token one)
            _ _ _ _ _ _ _);
    [vm_compute; exact eq_refl | vm_compute; exact eq_refl
     | exists 1; vm_compute; exact eq_refl | vm_compute; exact eq_refl |].
  refine (@members_last key2 (JSON_ARRAY [JSON_NUMBER (atof (chars "2"))])
            (next_token (next_token two)) _ _ _ _);
    [vm_compute; exact eq_refl | vm_compute; exact eq_refl |
     | vm_compute; exact eq_refl].
  apply Harr; [vm_compute; exact eq_refl |].
  refine (@elements_last two (JSON_NUMBER (atof (chars "2"))) (next_token two) _ _);
    [exists 1; vm_compute; exact eq_refl | vm_compute; exact eq_refl].
Defined.

(** ** The nesting depth and the recursion *)

Lemma next_token_punctuation p c rest ty :
  remaining p = c :: rest -> punctuation c = Some ty ->
  next_token p = set_current_token (step_column p) (mk_token ty [c] zero).
Proof.
  intros Hp Hc.
  assert (Hs : is_space c = false).
  { destruct (is_space c) eqn:E; [| reflexivity]. apply is_space_cases in E.
    destruct E as [-> | [-> | [-> | ->]]]; discriminate. }
  unfold next_token, tokenizer_get_next_token.
  rewrite (skip_whitespace_at_token _ Hp Hs), Hp, Hc. reflexivity.
Qed.

Lemma repeat_shift (A : Type) (a : A) n rest :
  a :: repeat a n ++ rest = repeat a n ++ a :: rest.
Proof. induction n as [|n IH]; simpl; [reflexivity | rewrite <- IH; reflexivity]. Qed.

(** Arrays nested [n] deep inside an array, read from the first bracket with
    [fuel] nested calls allowed. *)
Lemma nested_arrays_fuel n :
  forall p rest fuel,
    current_type p = TOKEN_LBRACKET ->
    remaining p = repeat "["%char n ++ repeat "]"%char (S n) ++ rest ->
    (n < fuel ->
     exists q, json_parser_parse_value fuel p = Ret (Some (nest n)) (next_token q)
               /\ remaining q = rest /\ stderr q = stderr p)
    /\ (fuel <= n -> json_parser_parse_value fuel p = OutOfFuel).
Proof.
  induction n as [|n IH]; intros p rest fuel Hp Hr.
  - simpl in Hr.
    pose proof (@next_token_punctuation p "]"%char rest TOKEN_RBRACKET Hr eq_refl) as E.
    split.
    + intros Hf. destruct fuel as [|f]; [lia |].
      exists (next_token p). split; [| split].
      * simpl. rewrite Hp. unfold json_parser_parse_array. rewrite E. reflexivity.
      * rewrite E. simpl. eapply remaining_cons_step; eauto.
      * rewrite E. reflexivity.
    + intros Hf. replace fuel with 0 by lia. reflexivity.
  - cbn [repeat app] in Hr.
    pose proof (@next_token_punctuation p "["%char _ TOKEN_LBRACKET Hr eq_refl) as E.
    assert (Hp1 : current_type (next_token p) = TOKEN_LBRACKET) by (rewrite E; reflexivity).
    assert (Hr1 : remaining (next_token p)
                  = repeat "["%char n ++ repeat "]"%char (S n) ++ "]"%char :: rest).
    { rewrite E. change (remaining (set_current_token ?x ?t)) with (remaining x).
      rewrite (remaining_cons_step _ Hr). f_equal.
      cbn [repeat app]. f_equal. apply repeat_shift. }
    destruct fuel as [|[|f]].
    + split; [lia | reflexivity].
    + split; [lia |]. intros _. simpl. rewrite Hp. unfold json_parser_parse_array.
      rewrite Hp1. reflexivity.
    + destruct (IH (next_token p) ("]"%char :: rest) (S f) Hp1 Hr1) as [Hyes Hno].
      assert (Hstep : json_parser_parse_value (S (S f)) p
                      = match json_parser_parse_value (S f) (next_token p) with
                        | OutOfFuel => OutOfFuel
                        | Ret None p' => Ret None p'
                        | Ret (Some v) p' =>
                            if token_type_eqb (current_type p') TOKEN_COMMA
                            then array_loop (json_parser_parse_value (S f)) f
                                   (next_token p') [v]
                            else if token_type_eqb (current_type p') TOKEN_RBRACKET
                            then Ret (Some (JSON_ARRAY [v])) (next_token p')
                            else Ret None (report p' Expected_comma_or_rbracket)
                        end).
      { change (json_parser_parse_value (S (S f)) p)
          with (match current_type p with
                | TOKEN_LBRACE =>
                    json_parser_parse_object (json_parser_parse_value (S f)) (S f) p
                | TOKEN_LBRACKET =>
                    json_parser_parse_array (json_parser_parse_value (S f)) (S f) p
                | TOKEN_STRING =>
                    Ret (Some (JSON_STRING (value (current_token p)))) (next_token p)
                | TOKEN_NUMBER =>
                    Ret (Some (JSON_NUMBER (number_value (current_token p))))
                      (next_token p)
                | TOKEN_TRUE => Ret (Some (JSON_BOOLEAN true)) (next_token p)
                | TOKEN_FALSE => Ret (Some (JSON_BOOLEAN false)) (next_token p)
                | TOKEN_NULL => Ret (Some JSON_NULL) (next_token p)
                | TOKEN_ERROR => Ret None (report p Invalid_token)
                | _ => Ret None (report p Unexpected_token_type)
                end).
        rewrite Hp. unfold json_parser_parse_array. rewrite Hp1.
        cbn [token_type_eqb array_loop]. rewrite Hp1. cbn [token_type_eqb app].
        reflexivity. }
      split.
      * intros Hf. destruct Hyes as (q & Hq & Hrq & Heq); [lia |].
        pose proof (@next_token_punctuation q "]"%char rest TOKEN_RBRACKET Hrq eq_refl)
          as Eq.
        exists (next_token q). split; [| split].
        -- rewrite Hstep, Hq, Eq. reflexivity.
        -- rewrite Eq. simpl. eapply remaining_cons_step; eauto.
        -- rewrite Eq. simpl. rewrite Heq, E. reflexivity.
      * intros Hf. rewrite Hstep, Hno by lia. reflexivity.
Qed.

(** X12.  The parser has no check of the nesting depth (the constant
    [MAX_DEPTH] of the header is not used): what bounds the depth is the
    recursion, one nested call of [json_parser_parse_value] for each level.
    For every [n], the text of [n + 1] opening brackets followed by [n + 1]
    closing brackets is parsed into arrays nested that deep, without any
    message and up to the end of the input, when [n + 1] or more nested calls
    are allowed; with fewer the call does not return. *)
Theorem nesting_depth_bounded_by_recursion_only :
  forall n fuel,
    let text0 := repeat "["%char (S n) ++ repeat "]"%char (S n) in
    (n < fuel ->
     exists p', json_parser_parse_document fuel (parser_initialize text0)
                = Ret (Some (nest n)) p'
                /\ current_type p' = TOKEN_EOF /\ stderr p' = [])
    /\ (fuel <= n ->
        json_parser_parse_document fuel (parser_initialize text0) = OutOfFuel).
Proof.
  intros n fuel text0.
  assert (Hn : ~ In NUL text0).
  { intros H. apply in_app_or in H. destruct H as [H | H];
      apply repeat_spec in H; discriminate. }
  pose proof (@remaining_start_no_nul text0 Hn) as Hr.
  assert (E : parser_initialize text0
              = set_current_token (step_column (start text0))
                  (mk_token TOKEN_LBRACKET ["["%char] zero)).
  { apply (@next_token_punctuation (start text0) "["%char
             (repeat "["%char n ++ repeat "]"%char (S n))); [exact Hr | reflexivity]. }
  destruct (@nested_arrays_fuel n (parser_initialize text0) [] fuel) as [Hyes Hno].
  { rewrite E. reflexivity. }
  { rewrite E, app_nil_r. change (remaining (set_current_token ?x ?t)) with (remaining x).
    apply (@remaining_cons_step _ _ _ Hr). }
  split; [| exact Hno].
  intros Hf. destruct (Hyes Hf) as (q & Hq & Hrq & Heq).
  exists (next_token q). split; [exact Hq |].
  rewrite (@next_token_at_end q Hrq). simpl. rewrite Heq, E. split; reflexivity.
Qed.

Lemma nesting_depth_bounded_by_recursion_only_witness :
  (exists p', json_parser_parse_document 3 (parser_initialize (chars "[[[]]]"))
              = Ret (Some (JSON_ARRAY [JSON_ARRAY [JSON_ARRAY []]])) p'
              /\ current_type p' = TOKEN_EOF /\ stderr p' = [])
  /\ json_parser_parse_document 2 (parser_initialize (chars "[[[]]]")) = OutOfFuel.
Proof.
  split.
  - destruct (nesting_depth_bounded_by_recursion_only 2 3) as [H _].
    apply H. lia.
  - destruct (nesting_depth_bounded_by_recursion_only 2 2) as [_ H].
    apply H. lia.
Defined.

(** ** What a rendered number looks like *)

Lemma isdigit_number_char c : isdigit c = true -> number_char c = true.
Proof. intros H. unfold number_char. rewrite H. reflexivity. Qed.

Lemma forallb_isdigit_number_char s :
  forallb isdigit s = true -> forallb number_char s = true.
Proof.
  rewrite !forallb_forall. intros H c Hc. apply isdigit_number_char, H, Hc.
Qed.

Lemma printf_lld_number_chars z :
  forallb number_char (printf_lld z) = true /\ printf_lld z <> [].
Proof.
  pose proof (printf_lld_cases z) as H. destruct z as [|a|a]; rewrite H.
  - split; [reflexivity | discriminate].
  - destruct (to_uint_head a) as (c & ds & E & _).
    split; [apply forallb_isdigit_number_char, digits_of_isdigit | rewrite E; discriminate].
  - split; [| discriminate]. simpl.
    apply forallb_isdigit_number_char, digits_of_isdigit.
Qed.

Lemma decimal_digit_isdigit n :
  isdigit (ascii_of_N (Z.to_N (48 + n mod 10))) = true.
Proof.
  pose proof (Z.mod_pos_bound n 10 ltac:(lia)) as H.
  assert (Hc : (n mod 10 = 0 \/ n mod 10 = 1 \/ n mod 10 = 2 \/ n mod 10 = 3
                \/ n mod 10 = 4 \/ n mod 10 = 5 \/ n mod 10 = 6 \/ n mod 10 = 7
                \/ n mod 10 = 8 \/ n mod 10 = 9)%Z) by lia.
  repeat (destruct Hc as [-> | Hc]; [reflexivity |]). rewrite Hc. reflexivity.
Qed.

Lemma decimal_digits_isdigit width :
  forall n, forallb isdigit (decimal_digits width n) = true.
Proof.
  induction width as [|w IH]; intros n; cbn [decimal_digits]; [reflexivity |].
  rewrite forallb_app, IH. cbn [forallb andb]. rewrite decimal_digit_isdigit. reflexivity.
Qed.

Lemma strip_trailing_zeros_rev_subset (P : ascii -> bool) r :
  forallb P r = true -> forallb P (strip_trailing_zeros_rev r) = true.
Proof.
  induction r as [|c r IH]; simpl; [auto |]. intros H.
  destruct (Ascii.eqb c "0"); [| exact H].
  apply andb_prop in H. apply IH, H.
Qed.

Lemma forallb_rev (P : ascii -> bool) s : forallb P (rev s) = forallb P s.
Proof.
  induction s as [|c s IH]; simpl; [reflexivity |].
  rewrite forallb_app, IH. simpl. rewrite andb_true_r. apply andb_comm.
Qed.

Lemma strip_trailing_zeros_subset (P : ascii -> bool) s :
  forallb P s = true -> forallb P (strip_trailing_zeros s) = true.
Proof.
  intros H. unfold strip_trailing_zeros. rewrite forallb_rev.
  apply strip_trailing_zeros_rev_subset. rewrite forallb_rev. exact H.
Qed.

Lemma with_fraction_number_chars int_part frac :
  forallb number_char int_part = true -> forallb isdigit frac = true ->
  forallb number_char (with_fraction int_part frac) = true.
Proof.
  intros Hi Hf. unfold with_fraction.
  pose proof (strip_trailing_zeros_subset number_char frac
                (forallb_isdigit_number_char frac Hf)) as H.
  destruct (strip_trailing_zeros frac) as [|c f]; [exact Hi |].
  rewrite forallb_app, Hi. simpl. exact H.
Qed.

Lemma with_fraction_not_empty int_part frac :
  int_part <> [] -> with_fraction int_part frac <> [].
Proof.
  unfold with_fraction. intros H.
  destruct (strip_trailing_zeros frac); [exact H |].
  destruct int_part; [congruence | discriminate].
Qed.

Lemma printf_g15_number_chars x :
  forallb number_char (printf_g15 x) = true /\ printf_g15 x <> [].
Proof.
  destruct x as [s | s | | s m e];
    try (destruct s; (split; [reflexivity | intros H; vm_compute in H; discriminate])).
  { split; [reflexivity | intros H; vm_compute in H; discriminate]. }
  unfold printf_g15.
  destruct (if (0 <=? e)%Z then _ else _) as [num den].
  destruct (significant_digits num den) as [digits x10].
  assert (Hsign : forallb number_char (if s then ["-"%char] else []) = true)
    by (destruct s; reflexivity).
  destruct ((x10 <? -4)%Z || (15 <=? x10)%Z)%bool.
  - split.
    + rewrite forallb_app, Hsign. cbn [andb]. rewrite !forallb_app.
      rewrite with_fraction_number_chars;
        [| apply forallb_isdigit_number_char, decimal_digits_isdigit
         | apply decimal_digits_isdigit].
      destruct (printf_lld_number_chars (Z.abs x10)) as [Hl _]. rewrite Hl.
      destruct (x10 <? 0)%Z, (Z.abs x10 <? 10)%Z; reflexivity.
    + intros H. apply app_eq_nil in H. destruct H as [_ H].
      apply app_eq_nil in H. destruct H as [H _]. revert H.
      apply with_fraction_not_empty. cbn [decimal_digits]. intros H.
      apply app_eq_nil in H. destruct H as [_ H]. discriminate.
  - destruct (printf_lld_number_chars (digits / 10 ^ (14 - x10))) as [Hl Hne].
    split.
    + rewrite forallb_app, Hsign. cbn [andb].
      apply with_fraction_number_chars; [exact Hl | apply decimal_digits_isdigit].
    + intros H. apply app_eq_nil in H. destruct H as [_ H]. revert H.
      apply with_fraction_not_empty, Hne.
Qed.

(** X13.  A rendered number is never empty and holds nothing but digits,
    signs, a point and the letters of an exponent, of [inf] and of [nan]: no
    blank, no parenthesis and no quote, whatever the double is. *)
Theorem rendered_number_is_one_atom :
  forall x,
    write_number x <> []
    /\ forallb number_char (write_number x) = true
    /\ forallb (fun c => negb (is_space c || Ascii.eqb c "(" || Ascii.eqb c ")"
                               || Ascii.eqb c DQUOTE))
               (write_number x) = true.
Proof.
  intros x.
  assert (H : write_number x <> [] /\ forallb number_char (write_number x) = true).
  { unfold write_number.
    destruct (SFeqb x (long_long_to_double (double_to_long_long x)));
      [destruct (printf_lld_number_chars (double_to_long_long x))
      | destruct (printf_g15_number_chars x)]; auto. }
  destruct H as [H1 H2]. split; [exact H1 |]. split; [exact H2 |].
  rewrite forallb_forall in *. intros c Hc. specialize (H2 c Hc). revert H2.
  destruct c as [[] [] [] [] [] [] [] []]; intros H; try discriminate H; reflexivity.
Qed.

(** ** The output is a balanced S-expression *)

Lemma write_number_chars x :
  write_number x <> [] /\ forallb number_char (write_number x) = true.
Proof.
  unfold write_number.
  destruct (SFeqb x (long_long_to_double (double_to_long_long x)));
    [destruct (printf_lld_number_chars (double_to_long_long x))
    | destruct (printf_g15_number_chars x)]; auto.
Qed.

Lemma number_char_plain c :
  number_char c = true -> plain_char c = true /\ Ascii.eqb c LF = false.
Proof.
  destruct c as [[] [] [] [] [] [] [] []]; intros H; try discriminate H;
    split; reflexivity.
Qed.

Lemma forallb_impl (P Q : ascii -> bool) s :
  (forall c, P c = true -> Q c = true) -> forallb P s = true -> forallb Q s = true.
Proof.
  intros H. rewrite !forallb_forall. intros Hs c Hc. apply H, Hs, Hc.
Qed.

Lemma sexpr_depth_plain w :
  forallb plain_char w = true ->
  forall rest depth,
    sexpr_depth (w ++ rest) false depth = sexpr_depth rest false depth.
Proof.
  induction w as [|c w IH]; intros H rest depth; [reflexivity |].
  simpl in H. apply andb_prop in H. destruct H as [Hc Hw].
  unfold plain_char in Hc. apply negb_true_iff in Hc.
  apply orb_false_iff in Hc. destruct Hc as [Hc H3].
  apply orb_false_iff in Hc. destruct Hc as [H1 H2].
  cbn [app sexpr_depth]. rewrite H1, H2, H3. apply IH, Hw.
Qed.

Lemma sexpr_depth_open w rest depth :
  forallb plain_char w = true ->
  sexpr_depth ("("%char :: w ++ rest) false depth
  = sexpr_depth rest false (S depth).
Proof. intros H. cbn [sexpr_depth]. simpl. apply sexpr_depth_plain, H. Qed.

Lemma sexpr_depth_close rest depth :
  sexpr_depth (")"%char :: rest) false (S depth) = sexpr_depth rest false depth.
Proof. reflexivity. Qed.

Lemma sexpr_depth_escape_loop s :
  forall rest depth,
    sexpr_depth (escape_loop s ++ DQUOTE :: rest) true depth
    = sexpr_depth rest false depth.
Proof.
  induction s as [|c s IH]; intros rest depth; [reflexivity |].
  cbn [escape_loop].
  destruct (Ascii.eqb_spec c DQUOTE) as [-> | H1]; [apply IH |].
  destruct (Ascii.eqb_spec c BACKSLASH) as [-> | H2]; [apply IH |].
  destruct (Ascii.eqb_spec c LF) as [-> | H3]; [apply IH |].
  destruct (Ascii.eqb_spec c CR) as [-> | H4]; [apply IH |].
  destruct (Ascii.eqb_spec c TAB) as [-> | H5]; [apply IH |].
  apply Ascii.eqb_neq in H1, H2. cbn [app sexpr_depth]. rewrite H1, H2. apply IH.
Qed.

Lemma sexpr_depth_string s rest depth :
  sexpr_depth (string_utils_escape_for_lisp s ++ rest) false depth
  = sexpr_depth rest false depth.
Proof.
  unfold string_utils_escape_for_lisp. rewrite <- !app_assoc.
  cbn [app sexpr_depth]. simpl. apply sexpr_depth_escape_loop.
Qed.

Lemma indentation_plain level :
  forallb plain_char (output_formatter_write_indentation level) = true.
Proof.
  unfold output_formatter_write_indentation.
  induction (level * SPACES_PER_LEVEL) as [|n IH]; [reflexivity | exact IH].
Qed.

Lemma balanced_app a b : balanced a -> balanced b -> balanced (a ++ b).
Proof. intros Ha Hb rest depth. rewrite <- app_assoc, Ha. apply Hb. Qed.

Lemma balanced_plain w : forallb plain_char w = true -> balanced w.
Proof. intros H rest depth. apply sexpr_depth_plain, H. Qed.

Lemma balanced_parenthesised w inner :
  forallb plain_char w = true -> balanced inner ->
  balanced (("("%char :: w) ++ inner ++ [")"%char]).
Proof.
  intros Hw Hi rest depth. rewrite <- !app_assoc. cbn [app].
  rewrite (@sexpr_depth_open w _ _ Hw), Hi. reflexivity.
Qed.

Lemma sexpr_depth_literals rest depth :
  sexpr_depth (chars "(json:object" ++ rest) false depth = sexpr_depth rest false (S depth)
  /\ sexpr_depth (chars "(json:array" ++ rest) false depth = sexpr_depth rest false (S depth)
  /\ sexpr_depth (chars "(json:" ++ rest) false depth = sexpr_depth rest false (S depth)
  /\ sexpr_depth (chars ")" ++ rest) false (S depth) = sexpr_depth rest false depth
  /\ sexpr_depth (chars " " ++ rest) false depth = sexpr_depth rest false depth
  /\ sexpr_depth ([LF] ++ rest) false depth = sexpr_depth rest false depth.
Proof. repeat split; reflexivity. Qed.

Ltac scan_literal :=
  match goal with
  | |- context [sexpr_depth (chars "(json:object" ++ ?r) false ?d] =>
      rewrite (proj1 (sexpr_depth_literals r d))
  | |- context [sexpr_depth (chars "(json:array" ++ ?r) false ?d] =>
      rewrite (proj1 (proj2 (sexpr_depth_literals r d)))
  | |- context [sexpr_depth (chars "(json:" ++ ?r) false ?d] =>
      rewrite (proj1 (proj2 (proj2 (sexpr_depth_literals r d))))
  | |- context [sexpr_depth (chars ")" ++ ?r) false (S ?d)] =>
      rewrite (proj1 (proj2 (proj2 (proj2 (sexpr_depth_literals r d)))))
  | |- context [sexpr_depth (chars " " ++ ?r) false ?d] =>
      rewrite (proj1 (proj2 (proj2 (proj2 (proj2 (sexpr_depth_literals r d))))))
  | |- context [sexpr_depth ([LF] ++ ?r) false ?d] =>
      rewrite (proj2 (proj2 (proj2 (proj2 (proj2 (sexpr_depth_literals r d))))))
  | |- context [sexpr_depth (output_formatter_write_indentation ?l ++ ?r) false ?d] =>
      rewrite (@sexpr_depth_plain _ (indentation_plain l) r d)
  end.

Section Balanced_children.

Variable write_value : json_value_t -> nat -> text.

Lemma object_members_loop_balanced members :
  Forall (fun member => forall level, balanced (write_value (snd member) level)) members ->
  forallb (fun member => forallb plain_char (fst member)) members = true ->
  forall is_first_member level,
    balanced (object_members_loop write_value members is_first_member level).
Proof.
  induction 1 as [|[key v] members Hv _ IH]; intros Hk is_first_member level rest depth;
    [reflexivity |].
  simpl in Hk. apply andb_prop in Hk. destruct Hk as [Hkey Hk].
  cbn [object_members_loop]. rewrite <- !app_assoc.
  assert (Hhead : forall r d,
             sexpr_depth ((if is_first_member then []
                           else [LF] ++ output_formatter_write_indentation level) ++ r)
                         false d
             = sexpr_depth r false d).
  { intros r d. destruct is_first_member; [reflexivity |].
    rewrite <- app_assoc. repeat scan_literal. reflexivity. }
  rewrite Hhead. scan_literal.
  rewrite (@sexpr_depth_plain _ Hkey). scan_literal.
  rewrite (Hv (level + 1)). scan_literal. apply IH, Hk.
Qed.

Lemma array_elements_loop_balanced elements :
  Forall (fun v => forall level, balanced (write_value v level)) elements ->
  forall is_first_element level,
    balanced (array_elements_loop write_value elements is_first_element level).
Proof.
  induction 1 as [|v elements Hv _ IH]; intros is_first_element level rest depth;
    [reflexivity |].
  cbn [array_elements_loop]. rewrite <- !app_assoc.
  assert (Hhead : forall r d,
             sexpr_depth ((if is_first_element then []
                           else [LF] ++ output_formatter_write_indentation level) ++ r)
                         false d
             = sexpr_depth r false d).
  { intros r d. destruct is_first_element; [reflexivity |].
    rewrite <- app_assoc. repeat scan_literal. reflexivity. }
  rewrite Hhead, (Hv level). apply IH.
Qed.

End Balanced_children.

Lemma plain_keys_members members :
  plain_keys (JSON_OBJECT members) = true ->
  forallb (fun member => forallb plain_char (fst member)) members = true
  /\ Forall (fun member => plain_keys (snd member) = true) members.
Proof.
  cbn [plain_keys]. induction members as [|[key v] members IH]; intros H;
    [split; [reflexivity | constructor] |].
  cbn [forallb] in H. apply andb_prop in H. destruct H as [H1 H2].
  apply andb_prop in H1. destruct H1 as [Hk Hv]. destruct (IH H2) as [IH1 IH2].
  split; [cbn [forallb fst]; rewrite Hk, IH1; reflexivity | constructor; assumption].
Qed.

Lemma plain_keys_elements elements :
  plain_keys (JSON_ARRAY elements) = true ->
  Forall (fun v => plain_keys v = true) elements.
Proof.
  cbn [plain_keys]. intros H. apply Forall_forall. intros v Hv.
  rewrite forallb_forall in H. apply H, Hv.
Qed.

Lemma Forall_modus (A : Type) (P Q : A -> Prop) l :
  Forall (fun x => P x -> Q x) l -> Forall P l -> Forall Q l.
Proof.
  induction 1 as [|x l H _ IH]; intros HP; [constructor |].
  inversion HP; subst. constructor; auto.
Qed.

Lemma sexpr_writer_write_value_balanced v :
  plain_keys v = true -> forall level, balanced (sexpr_writer_write_value v level).
Proof.
  induction v as [members IH | elements IH | s | number | boolean |]
    using json_value_induction; intros Hp level rest depth.
  - destruct (@plain_keys_members _ Hp) as [Hk Hv].
    pose proof (@Forall_modus _ _ _ _ IH Hv) as Hb.
    destruct members as [|m members']; [reflexivity |].
    set (members := m :: members') in *.
    change (sexpr_writer_write_value (JSON_OBJECT members) level)
      with (chars "(json:object" ++ [LF]
            ++ output_formatter_write_indentation (level + 1)
            ++ object_members_loop sexpr_writer_write_value members true (level + 1)
            ++ chars ")").
    rewrite <- !app_assoc. repeat scan_literal.
    rewrite (@object_members_loop_balanced _ _ Hb Hk). scan_literal. reflexivity.
  - pose proof (@Forall_modus _ _ _ _ IH (@plain_keys_elements _ Hp)) as Hb.
    destruct elements as [|e elements']; [reflexivity |].
    set (elements := e :: elements') in *.
    change (sexpr_writer_write_value (JSON_ARRAY elements) level)
      with (chars "(json:array" ++ [LF]
            ++ output_formatter_write_indentation (level + 1)
            ++ array_elements_loop sexpr_writer_write_value elements true (level + 1)
            ++ chars ")").
    rewrite <- !app_assoc. repeat scan_literal.
    rewrite (@array_elements_loop_balanced _ _ Hb). scan_literal. reflexivity.
  - apply sexpr_depth_string.
  - destruct (write_number_chars number) as [_ H].
    apply sexpr_depth_plain.
    eapply forallb_impl; [| exact H]. intros c Hc. apply number_char_plain, Hc.
  - destruct boolean; reflexivity.
  - reflexivity.
Qed.

(** X14.  The rendering of a tree whose keys hold no parenthesis and no
    quote is a balanced S-expression text: read with string literals and
    their backslashes taken into account, every parenthesis it opens is
    closed, none closes too early, and no string literal is left open; this
    holds at every indentation level and whatever text follows.  So the
    output of the driver is balanced for every document that parses into
    such a tree. *)
Theorem rendering_is_balanced :
  forall v,
    plain_keys v = true ->
    (forall level rest depth,
        sexpr_depth (sexpr_writer_write_value v level ++ rest) false depth
        = sexpr_depth rest false depth)
    /\ (forall text0,
           parsed_value (parse text0) = Some v ->
           sexpr_depth (output (main text0)) false 0 = Some 0).
Proof.
  intros v Hv. split.
  - intros level. apply sexpr_writer_write_value_balanced, Hv.
  - intros text0 Hp. rewrite main_of_parse.
    destruct (parse text0) as [[w|] p' |]; simpl in Hp; try discriminate.
    injection Hp as ->. cbn [output].
    unfold header. rewrite <- !app_assoc.
    rewrite (@sexpr_depth_plain (chars ";; JSON to S-expression conversion") eq_refl).
    rewrite (@sexpr_depth_plain [LF; LF] eq_refl).
    rewrite (@sexpr_writer_write_value_balanced _ Hv). reflexivity.
Qed.

Lemma rendering_is_balanced_witness :
  sexpr_depth (output (main (json "{'a':['(',{}],'b':'\\\''}"))) false 0 = Some 0.
Proof.
  pose proof (@rendering_is_balanced
                (JSON_OBJECT [(chars "a", JSON_ARRAY [JSON_STRING (chars "(");
                                                       JSON_OBJECT []]);
                              (chars "b", JSON_STRING [BACKSLASH; DQUOTE])])
                eq_refl) as [_ H].
  apply H. vm_compute. exact eq_refl.
Defined.

(** ** One level deeper is two spaces further *)

Lemma indent_more_app a b : indent_more (a ++ b) = indent_more a ++ indent_more b.
Proof.
  induction a as [|c a IH]; [reflexivity |]. cbn [app indent_more].
  destruct (Ascii.eqb c LF); rewrite IH; reflexivity.
Qed.

Lemma indent_more_one_line s :
  forallb (fun c => negb (Ascii.eqb c LF)) s = true -> indent_more s = s.
Proof.
  induction s as [|c s IH]; [reflexivity |]. cbn [forallb indent_more]. intros H.
  apply andb_prop in H. destruct H as [Hc Hs]. apply negb_true_iff in Hc.
  rewrite Hc, (IH Hs). reflexivity.
Qed.

Lemma indentation_one_line level :
  forallb (fun c => negb (Ascii.eqb c LF)) (output_formatter_write_indentation level)
  = true.
Proof.
  unfold output_formatter_write_indentation.
  induction (level * SPACES_PER_LEVEL) as [|n IH]; [reflexivity | exact IH].
Qed.

Lemma indentation_deeper level :
  output_formatter_write_indentation (S level)
  = " "%char :: " "%char :: output_formatter_write_indentation level.
Proof. reflexivity. Qed.

Lemma indent_more_line level :
  indent_more ([LF] ++ output_formatter_write_indentation level)
  = [LF] ++ output_formatter_write_indentation (S level).
Proof.
  cbn [app indent_more]. change (Ascii.eqb LF LF) with true. cbv iota.
  rewrite (indent_more_one_line _ (indentation_one_line level)). reflexivity.
Qed.

Lemma escape_loop_one_line s :
  forallb (fun c => negb (Ascii.eqb c LF)) (escape_loop s) = true.
Proof.
  induction s as [|c s IH]; [reflexivity |]. cbn [escape_loop].
  rewrite forallb_app, IH, andb_true_r.
  destruct (Ascii.eqb_spec c DQUOTE) as [-> | H1]; [reflexivity |].
  destruct (Ascii.eqb_spec c BACKSLASH) as [-> | H2]; [reflexivity |].
  destruct (Ascii.eqb c LF) eqn:H3; [reflexivity |].
  destruct (Ascii.eqb_spec c CR) as [-> | H4]; [reflexivity |].
  destruct (Ascii.eqb_spec c TAB) as [-> | H5]; [reflexivity |].
  cbn [forallb]. rewrite H3. reflexivity.
Qed.

Section Deeper_children.

Variable write_value : json_value_t -> nat -> text.

Lemma object_members_loop_deeper members :
  Forall (fun member => forall level,
              write_value (snd member) (S level)
              = indent_more (write_value (snd member) level)) members ->
  forallb (fun member => forallb (fun c => negb (Ascii.eqb c LF)) (fst member)) members
  = true ->
  forall is_first_member level,
    object_members_loop write_value members is_first_member (S level)
    = indent_more (object_members_loop write_value members is_first_member level).
Proof.
  induction 1 as [|[key v] members Hv _ IH]; intros Hk is_first_member level;
    [reflexivity |].
  cbn [forallb fst] in Hk. apply andb_prop in Hk. destruct Hk as [Hkey Hk].
  cbn [object_members_loop snd] in *. rewrite !indent_more_app.
  rewrite (IH Hk false level), (indent_more_one_line _ Hkey).
  change (S level + 1) with (S (level + 1)). rewrite (Hv (level + 1)).
  destruct is_first_member; [reflexivity |].
  rewrite indent_more_line. reflexivity.
Qed.

Lemma array_elements_loop_deeper elements :
  Forall (fun v => forall level,
              write_value v (S level) = indent_more (write_value v level)) elements ->
  forall is_first_element level,
    array_elements_loop write_value elements is_first_element (S level)
    = indent_more (array_elements_loop write_value elements is_first_element level).
Proof.
  induction 1 as [|v elements Hv _ IH]; intros is_first_element level;
    [reflexivity |].
  cbn [array_elements_loop]. rewrite !indent_more_app.
  rewrite (IH false level), (Hv level).
  destruct is_first_element; [reflexivity |].
  rewrite indent_more_line. reflexivity.
Qed.

End Deeper_children.

Lemma keys_on_one_line_members members :
  keys_on_one_line (JSON_OBJECT members) = true ->
  forallb (fun member => forallb (fun c => negb (Ascii.eqb c LF)) (fst member)) members
  = true
  /\ Forall (fun member => keys_on_one_line (snd member) = true) members.
Proof.
  cbn [keys_on_one_line]. induction members as [|[key v] members IH]; intros H;
    [split; [reflexivity | constructor] |].
  cbn [forallb] in H. apply andb_prop in H. destruct H as [H1 H2].
  apply andb_prop in H1. destruct H1 as [Hk Hv]. destruct (IH H2) as [IH1 IH2].
  split; [cbn [forallb fst]; rewrite Hk, IH1; reflexivity | constructor; assumption].
Qed.

Lemma keys_on_one_line_elements elements :
  keys_on_one_line (JSON_ARRAY elements) = true ->
  Forall (fun v => keys_on_one_line v = true) elements.
Proof.
  cbn [keys_on_one_line]. intros H. apply Forall_forall. intros v Hv.
  rewrite forallb_forall in H. apply H, Hv.
Qed.

Lemma sexpr_writer_write_value_deeper v :
  keys_on_one_line v = true ->
  forall level,
    sexpr_writer_write_value v (S level)
    = indent_more (sexpr_writer_write_value v level).
Proof.
  induction v as [members IH | elements IH | s | number | boolean |]
    using json_value_induction; intros Hp level.
  - destruct (@keys_on_one_line_members _ Hp) as [Hk Hv].
    pose proof (@Forall_modus _ _ _ _ IH Hv) as Hb.
    destruct members as [|m members']; [reflexivity |].
    set (members := m :: members') in *.
    change (sexpr_writer_write_value (JSON_OBJECT members) (S level))
      with (chars "(json:object" ++ ([LF]
            ++ output_formatter_write_indentation (S (level + 1)))
            ++ object_members_loop sexpr_writer_write_value members true (S (level + 1))
            ++ chars ")").
    change (sexpr_writer_write_value (JSON_OBJECT members) level)
      with (chars "(json:object" ++ ([LF]
            ++ output_formatter_write_indentation (level + 1))
            ++ object_members_loop sexpr_writer_write_value members true (level + 1)
            ++ chars ")").
    rewrite (indent_more_app (chars "(json:object")).
    rewrite (indent_more_app ([LF] ++ output_formatter_write_indentation (level + 1))).
    rewrite indent_more_line, indent_more_app.
    rewrite (@object_members_loop_deeper _ _ Hb Hk). reflexivity.
  - pose proof (@Forall_modus _ _ _ _ IH (@keys_on_one_line_elements _ Hp)) as Hb.
    destruct elements as [|e elements']; [reflexivity |].
    set (elements := e :: elements') in *.
    change (sexpr_writer_write_value (JSON_ARRAY elements) (S level))
      with (chars "(json:array" ++ ([LF]
            ++ output_formatter_write_indentation (S (level + 1)))
            ++ array_elements_loop sexpr_writer_write_value elements true (S (level + 1))
            ++ chars ")").
    change (sexpr_writer_write_value (JSON_ARRAY elements) level)
      with (chars "(json:array" ++ ([LF]
            ++ output_formatter_write_indentation (level + 1))
            ++ array_elements_loop sexpr_writer_write_value elements true (level + 1)
            ++ chars ")").
    rewrite (indent_more_app (chars "(json:array")).
    rewrite (indent_more_app ([LF] ++ output_formatter_write_indentation (level + 1))).
    rewrite indent_more_line, indent_more_app.
    rewrite (@array_elements_loop_deeper _ _ Hb). reflexivity.
  - symmetry. apply indent_more_one_line. cbn [sexpr_writer_write_value].
    unfold string_utils_escape_for_lisp. rewrite !forallb_app, escape_loop_one_line.
    reflexivity.
  - symmetry. apply indent_more_one_line. cbn [sexpr_writer_write_value].
    destruct (write_number_chars number) as [_ H].
    eapply forallb_impl; [| exact H]. intros c Hc.
    destruct (number_char_plain _ Hc) as [_ ->]. reflexivity.
  - destruct boolean; reflexivity.
  - reflexivity.
Qed.

(** X15.  Indentation is uniform: for a tree none of whose keys holds a line
    feed, the rendering at one level deeper is the rendering at the level
    itself with two more spaces after each line feed; a tree without
    children (a scalar or an empty container) is rendered alike at every
    level. *)
Theorem one_level_deeper_is_two_spaces_further :
  forall v,
    keys_on_one_line v = true ->
    forall level,
      sexpr_writer_write_value v (S level)
      = indent_more (sexpr_writer_write_value v level).
Proof. exact sexpr_writer_write_value_deeper. Qed.

Lemma one_level_deeper_is_two_spaces_further_witness :
  sexpr_writer_write_value (JSON_ARRAY [JSON_NULL; JSON_OBJECT [(chars "k", JSON_NULL)]]) 1
  = chars "(json:array" ++ [LF] ++ chars "    nil" ++ [LF]
    ++ chars "    (json:object" ++ [LF] ++ chars "      (json:k nil)))".
Proof.
  rewrite (@one_level_deeper_is_two_spaces_further
             (JSON_ARRAY [JSON_NULL; JSON_OBJECT [(chars "k", JSON_NULL)]]) eq_refl 0).
  reflexivity.
Defined.

(** ** The reader of the standard input *)

Lemma store_length buffer :
  forall index c buffer', store buffer index c = Some buffer' ->
                          List.length buffer' = List.length buffer.
Proof.
  induction buffer as [|cell cells IH]; intros [|index] c buffer' H; simpl in H;
    try discriminate.
  - injection H as <-. reflexivity.
  - destruct (store cells index c) eqn:E; [| discriminate]. injection H as <-.
    simpl. f_equal. eapply IH; eauto.
Qed.

(** A store right after the written cells, inside the block. *)
Lemma store_next written :
  forall rest c,
    rest <> [] ->
    exists rest',
      store (map Some written ++ rest) (List.length written) c
      = Some (map Some (written ++ [c]) ++ rest')
      /\ List.length rest = S (List.length rest').
Proof.
  induction written as [|d written IH]; intros rest c Hr.
  - destruct rest as [|cell rest']; [congruence |]. exists rest'. auto.
  - destruct (IH rest c Hr) as (rest' & H & Hl). exists rest'.
    simpl. rewrite H. auto.
Qed.

Lemma realloc_written written rest size :
  List.length (map Some written ++ rest) <= size ->
  realloc (map Some written ++ rest) size
  = map Some written ++ rest ++ repeat None (size - List.length (map Some written ++ rest)).
Proof.
  intros H. unfold realloc. rewrite firstn_all2 by exact H.
  rewrite <- app_assoc. reflexivity.
Qed.

(** The loop keeps the bytes read so far at the start of the block, one
    free cell at least after them, and the block as long as [capacity]. *)
Lemma read_stdin_loop_invariant stdin :
  forall capacity written rest,
    List.length (map Some written ++ rest) = capacity ->
    rest <> [] ->
    exists capacity' rest',
      read_stdin_loop stdin capacity (List.length written) (map Some written ++ rest)
      = Some (capacity', List.length (written ++ stdin),
              map Some (written ++ stdin) ++ rest')
      /\ List.length (map Some (written ++ stdin) ++ rest') = capacity'
      /\ rest' <> [] /\ capacity <= capacity'.
Proof.
  induction stdin as [|c stdin IH]; intros capacity written rest Hc Hr.
  - exists capacity, rest. rewrite app_nil_r. auto.
  - cbn [read_stdin_loop].
    assert (Hlen : List.length written + List.length rest = capacity)
      by (rewrite <- Hc, length_app, length_map; reflexivity).
    assert (Hrest : 1 <= List.length rest) by (destruct rest; [congruence | simpl; lia]).
    destruct (capacity - 1 <=? List.length written) eqn:E.
    + rewrite realloc_written by lia.
      set (rest1 := rest ++ repeat None (capacity * 2 - List.length (map Some written ++ rest))).
      assert (Hr1 : List.length rest1 = List.length rest + capacity).
      { unfold rest1. rewrite length_app, repeat_length. lia. }
      destruct (@store_next written rest1 c) as (rest2 & Hs & Hl2).
      { intros H. rewrite H in Hr1. simpl in Hr1. lia. }
      rewrite Hs.
      replace (S (List.length written)) with (List.length (written ++ [c]))
        by (rewrite length_app; simpl; lia).
      destruct (IH (capacity * 2) (written ++ [c]) rest2) as (cap' & rest' & H1 & H2 & H3 & H4).
      { rewrite length_app, length_map, length_app. simpl. lia. }
      { intros H. rewrite H in Hl2. simpl in Hl2. apply Nat.leb_le in E. lia. }
      exists cap', rest'. rewrite <- app_assoc in H1, H2. simpl in H1, H2.
      repeat split; auto. lia.
    + apply Nat.leb_gt in E.
      destruct (@store_next written rest c Hr) as (rest2 & Hs & Hl2).
      rewrite Hs.
      replace (S (List.length written)) with (List.length (written ++ [c]))
        by (rewrite length_app; simpl; lia).
      destruct (IH capacity (written ++ [c]) rest2) as (cap' & rest' & H1 & H2 & H3 & H4).
      { rewrite length_app, length_map, length_app. simpl. lia. }
      { intros H. rewrite H in Hl2. simpl in Hl2. lia. }
      exists cap', rest'. rewrite <- app_assoc in H1, H2. simpl in H1, H2.
      repeat split; auto.
Qed.

Lemma string_of_block_written s :
  forall rest, string_of_block (map Some (s ++ [NUL]) ++ rest) = Some (c_string s).
Proof.
  unfold c_string. induction s as [|c s IH]; intros rest; [reflexivity |].
  cbn [app map string_of_block strlen].
  destruct (Ascii.eqb c NUL); [reflexivity |]. rewrite IH. reflexivity.
Qed.

Lemma read_stdin_to_string_block :
  forall stdin,
    exists buffer,
      read_stdin_to_string stdin = Some buffer
      /\ firstn (List.length stdin + 1) buffer = map Some (stdin ++ [NUL])
      /\ 1024 <= List.length buffer
      /\ string_of_block buffer = Some (c_string stdin).
Proof.
  intros stdin. unfold read_stdin_to_string.
  destruct (@read_stdin_loop_invariant stdin 1024 [] (malloc 1024))
    as (capacity & rest & H1 & H2 & H3 & H4);
    [reflexivity | discriminate |].
  cbn [app map List.length] in H1. rewrite H1.
  destruct (@store_next stdin rest NUL H3) as (rest' & Hs & Hl).
  rewrite Hs. exists (map Some (stdin ++ [NUL]) ++ rest').
  split; [reflexivity |]. split; [| split].
  - rewrite <- (length_map Some stdin) at 1.
    replace (List.length (map Some stdin) + 1)
      with (List.length (map Some (stdin ++ [NUL])) + 0)
      by (rewrite !length_map, length_app; simpl; lia).
    rewrite firstn_app_exact. simpl. apply app_nil_r.
  - rewrite length_app, length_map, length_app in *. simpl in *. lia.
  - apply string_of_block_written.
Qed.

(** X16.  [read_stdin_to_string] never writes outside its block, however
    long the standard input is: the block it returns holds all the bytes of
    the standard input in order, a NUL after them, and is at least 1024
    cells long; read as a C string it is the input up to its first NUL. *)
Theorem read_stdin_to_string_in_bounds :
  forall stdin,
    exists buffer,
      read_stdin_to_string stdin = Some buffer
      /\ firstn (List.length stdin + 1) buffer = map Some (stdin ++ [NUL])
      /\ 1024 <= List.length buffer
      /\ string_of_block buffer = Some (c_string stdin).
Proof. exact read_stdin_to_string_block. Qed.

(** ** The command line *)

Lemma main_status s :
  (exit_status (main s) = 0%Z /\ exists v, parsed_value (parse s) = Some v
                                          /\ output (main s)
                                             = header ++ sexpr_writer_write_value v 0 ++ [LF])
  \/ (exit_status (main s) = 1%Z /\ output (main s) = []
      /\ parsed_value (parse s) = None).
Proof.
  rewrite main_of_parse. destruct (parse s) as [[v|] p' |]; simpl; eauto.
Qed.

Lemma main_arguments_same program_name argv :
  forall o o', same_files o o' ->
               same_arguments (main_arguments program_name argv o)
                              (main_arguments program_name argv o').
Proof.
  induction argv as [argv IH] using list_length_ind. intros o o' [Hi Ho].
  destruct argv as [|argument argv']; [split; assumption |].
  cbn [main_arguments].
  destruct (_ || _)%bool; [split; reflexivity |].
  destruct (_ || _)%bool; [apply IH; [simpl; lia | split; assumption] |].
  destruct (strcmp_eq argument (chars "-o")).
  { destruct argv' as [|filename argv'']; [split; reflexivity |].
    apply IH; [simpl; lia | split; [exact Hi | reflexivity]]. }
  destruct (match argument with [] => false | c :: _ => Ascii.eqb c "-" end);
    [split; reflexivity |].
  rewrite <- Hi. destruct (input_filename o); [split; reflexivity |].
  apply IH; [simpl; lia | split; [reflexivity | exact Ho]].
Qed.

Lemma main_arguments_app program_name argv1 :
  forall argv2 o o1,
    main_arguments program_name argv1 o = Proceed o1 ->
    main_arguments program_name (argv1 ++ argv2) o
    = main_arguments program_name argv2 o1.
Proof.
  induction argv1 as [argv1 IH] using list_length_ind. intros argv2 o o1 H.
  destruct argv1 as [|argument argv1']; [injection H as <-; reflexivity |].
  cbn [main_arguments app] in *.
  destruct (_ || _)%bool; [discriminate |].
  destruct (_ || _)%bool; [apply IH; [simpl; lia | exact H] |].
  destruct (strcmp_eq argument (chars "-o")).
  { destruct argv1' as [|filename argv1'']; [discriminate |].
    cbn [app]. apply IH; [simpl; lia | exact H]. }
  destruct (match argument with [] => false | c :: _ => Ascii.eqb c "-" end);
    [discriminate |].
  destruct (input_filename o); [discriminate |].
  apply IH; [simpl; lia | exact H].
Qed.

(** The rest of [main] after the argument loop. *)
Lemma main_program_of_arguments env program_name argv argv' :
  same_arguments (main_arguments program_name argv (mk_options None None false))
                 (main_arguments program_name argv' (mk_options None None false)) ->
  main_program env program_name argv = main_program env program_name argv'.
Proof.
  unfold main_program.
  destruct (main_arguments program_name argv _) as [o | status printed],
           (main_arguments program_name argv' _) as [o' | status' printed'];
    simpl; try contradiction.
  - intros [-> ->]. reflexivity.
  - intros [-> ->]. reflexivity.
Qed.

(** X17.  The option [-p] (or [--pretty]) changes nothing: taken out of a
    command line, at a place where an option can stand (the arguments before
    it are accepted and do not end with an [-o] that waits for its file
    name), it leaves the same run: exit status, output, file written and
    messages. *)
Theorem pretty_option_is_ignored :
  forall env program_name argv1 argv2 flag o1,
    flag = chars "-p" \/ flag = chars "--pretty" ->
    main_arguments program_name argv1 (mk_options None None false) = Proceed o1 ->
    main_program env program_name (argv1 ++ flag :: argv2)
    = main_program env program_name (argv1 ++ argv2).
Proof.
  intros env program_name argv1 argv2 flag o1 Hf H1.
  apply main_program_of_arguments.
  rewrite !(@main_arguments_app _ _ _ _ _ H1).
  assert (E : main_arguments program_name (flag :: argv2) o1
              = main_arguments program_name argv2
                  (mk_options (input_filename o1) (output_filename o1) true)).
  { destruct Hf as [-> | ->]; reflexivity. }
  rewrite E. apply main_arguments_same. split; reflexivity.
Qed.

Lemma pretty_option_is_ignored_witness :
  let env := mk_environment [] (fun _ => Some (chars "[1]")) (fun _ => true) in
  main_program env (chars "json_to_sexpr")
    [chars "-o"; chars "out.lisp"; chars "--pretty"; chars "in.json"]
  = main_program env (chars "json_to_sexpr")
      [chars "-o"; chars "out.lisp"; chars "in.json"].
Proof.
  intros env.
  exact (@pretty_option_is_ignored env (chars "json_to_sexpr")
           [chars "-o"; chars "out.lisp"] [chars "in.json"] (chars "--pretty")
           (mk_options None (Some (chars "out.lisp")) false)
           (or_intror eq_refl) eq_refl).
Defined.

(** X18.  A run ends with status 0 or 1.  With status 1 it has written
    nothing, neither to the standard output nor to a file.  With status 0 it
    has either printed the usage text and written nothing, or written the
    header, the rendering of the parsed value and a newline to exactly one
    place: the standard output, or the file of [-o], which could then be
    opened for writing. *)
Theorem failed_run_writes_nothing :
  forall env program_name argv,
    let r := main_program env program_name argv in
    (run_status r = 0%Z \/ run_status r = 1%Z)
    /\ (run_status r = 1%Z -> run_stdout r = [] /\ run_file r = None)
    /\ (run_status r = 0%Z ->
        (run_stderr r = [Usage program_name] /\ run_stdout r = [] /\ run_file r = None)
        \/ exists v,
            let rendering := header ++ sexpr_writer_write_value v 0 ++ [LF] in
            (run_stdout r = rendering /\ run_file r = None)
            \/ (run_stdout r = []
                /\ exists filename, run_file r = Some (filename, rendering)
                                    /\ writable env filename = true)).
Proof.
  intros env program_name argv r. subst r. unfold main_program.
  assert (Ha : forall argv o status printed,
             main_arguments program_name argv o = Return status printed ->
             (status = 0%Z /\ printed = [Usage program_name]) \/ status = 1%Z).
  { clear. induction argv as [argv IH] using list_length_ind.
    intros o status printed H. destruct argv as [|argument argv']; [discriminate |].
    cbn [main_arguments] in H.
    destruct (_ || _)%bool; [injection H as <- <-; auto |].
    destruct (_ || _)%bool; [eapply IH; [| exact H]; simpl; lia |].
    destruct (strcmp_eq argument (chars "-o")).
    { destruct argv' as [|filename argv'']; [injection H as <- _; auto |].
      eapply IH; [| exact H]; simpl; lia. }
    destruct (match argument with [] => false | c :: _ => Ascii.eqb c "-" end);
      [injection H as <- _; auto |].
    destruct (input_filename o); [injection H as <- _; auto |].
    eapply IH; [| exact H]; simpl; lia. }
  destruct (main_arguments program_name argv _) as [o | status printed] eqn:E.
  - destruct (match input_filename o with Some _ => _ | None => _ end)
      as [[json_string |] printed_reading].
    + destruct (main_status json_string) as [[Hs (v & _ & Hv)] | [Hs [Ho _]]];
        rewrite Hs; cbn [Z.eqb].
      * destruct (output_filename o) as [filename |].
        -- destruct (writable env filename) eqn:Ew; cbn.
           ++ split; [auto |]. split; [discriminate |]. intros _. right.
              exists v. right. split; [reflexivity |]. exists filename.
              rewrite Hv. auto.
           ++ split; [auto |]. split; [auto | discriminate].
        -- cbn. split; [auto |]. split; [discriminate |]. intros _. right.
           exists v. left. rewrite Hv. auto.
      * cbn. split; [auto |]. split; [auto | discriminate].
    + cbn. split; [auto |]. split; [auto | discriminate].
  - cbn. destruct (Ha _ _ _ _ E) as [[-> ->] | ->].
    + split; [auto |]. split; [discriminate | auto].
    + split; [auto |]. split; [auto | discriminate].
Qed.

(** X19.  Without arguments the program converts its standard input, read
    as a C string: the run is the conversion [main] of that text, written to
    the standard output. *)
Theorem run_without_arguments :
  forall env program_name,
    let converted := main (c_string (standard_input env)) in
    main_program env program_name []
    = mk_run (exit_status converted) (output converted) None
        (map Conversion (errors converted)).
Proof.
  intros env program_name converted. unfold main_program. cbn [main_arguments input_filename].
  destruct (read_stdin_to_string_block (standard_input env)) as (buffer & -> & _ & _ & ->).
  fold converted.
  destruct (main_status (c_string (standard_input env))) as [[Hs _] | [Hs [Ho _]]];
    fold converted in Hs; rewrite Hs; cbn [Z.eqb output_filename].
  - reflexivity.
  - fold converted in Ho. rewrite Ho. reflexivity.
Qed.

(** ** Releasing a tree *)

Lemma existsb_eqb_In b blocks : existsb (Nat.eqb b) blocks = true <-> In b blocks.
Proof.
  rewrite existsb_exists. split.
  - intros (x & Hx & E). apply Nat.eqb_eq in E. subst. exact Hx.
  - intros H. exists b. split; [exact H | apply Nat.eqb_refl].
Qed.

Lemma existsb_eqb_not_In b blocks : ~ In b blocks -> existsb (Nat.eqb b) blocks = false.
Proof.
  intros H. destruct (existsb (Nat.eqb b) blocks) eqn:E; [| reflexivity].
  apply existsb_eqb_In in E. contradiction.
Qed.

Lemma released_nil h : released [] h h.
Proof. intros b. reflexivity. Qed.

Lemma released_app blocks1 blocks2 h h1 h2 :
  released blocks1 h h1 -> released blocks2 h1 h2 -> released (blocks1 ++ blocks2) h h2.
Proof.
  intros H1 H2 b. specialize (H1 b). specialize (H2 b). unfold pointer in *.
  rewrite existsb_app, H2, H1.
  destruct (existsb (Nat.eqb b) blocks1), (existsb (Nat.eqb b) blocks2); reflexivity.
Qed.

Lemma released_outside blocks h h' b :
  released blocks h h' -> ~ In b blocks -> h' b = h b.
Proof. intros H Hb. rewrite H, (existsb_eqb_not_In _ _ Hb). reflexivity. Qed.

Lemma free_allocated h a c :
  a <> NULL -> h a = Some c ->
  exists h', free h a = Some h' /\ released [a] h h'.
Proof.
  intros Ha Hc. unfold free. apply Nat.eqb_neq in Ha. rewrite Ha, Hc.
  eexists. split; [reflexivity |]. intros b. simpl. rewrite orb_false_r. reflexivity.
Qed.

Lemma NoDup_app_parts (A : Type) (l1 l2 : list A) :
  NoDup (l1 ++ l2) ->
  NoDup l1 /\ NoDup l2 /\ (forall x, In x l1 -> ~ In x l2).
Proof.
  induction l1 as [|x l1 IH]; simpl; intros H.
  - split; [constructor | split; [exact H | intros x []]].
  - inversion H as [|y l Hx Hn]; subst. destruct (IH Hn) as (H1 & H2 & H3).
    split; [| split; [exact H2 |]].
    + constructor; [| exact H1]. intros Hin. apply Hx, in_or_app. auto.
    + intros y [-> | Hy]; [intros Hin; apply Hx, in_or_app; auto | apply H3, Hy].
Qed.

Lemma releases_tree h :
  (forall a v blocks,
      represents h a v blocks -> NoDup blocks ->
      frees json_memory_free_value a blocks h)
  /\ (forall a members blocks,
         represents_members h a members blocks -> NoDup blocks ->
         frees json_memory_free_object_member a blocks h)
  /\ (forall a elements blocks,
         represents_elements h a elements blocks -> NoDup blocks ->
         frees json_memory_free_array_element a blocks h).
Proof.
  apply represents_mutual_ind.
  - (* object *)
    intros a object members blocks Ha Hc _ IH Hn h0 Hag.
    destruct (NoDup_app_parts _ _ Hn) as (Hn1 & _ & Hd).
    destruct (IH Hn1 h0) as (F & h1 & Hr1 & Hf1).
    { intros b Hb. apply Hag, in_or_app. auto. }
    assert (Ha1 : h1 a = Some (Value_cell (Object_block object))).
    { rewrite (released_outside _ Hr1); [rewrite Hag; [exact Hc | apply in_or_app; simpl; auto] |].
      intros Hin. apply (Hd a Hin). simpl. auto. }
    destruct (free_allocated _ Ha Ha1) as (h2 & Hf2 & Hr2).
    exists (S F), h2. split; [eapply released_app; eauto |].
    intros [|fuel] Hfuel; [lia |]. cbn [json_memory_free_value].
    apply Nat.eqb_neq in Ha. rewrite Ha.
    rewrite (Hag a) by (apply in_or_app; simpl; auto). rewrite Hc.
    rewrite Hf1 by lia. exact Hf2.
  - (* array *)
    intros a array elements blocks Ha Hc _ IH Hn h0 Hag.
    destruct (NoDup_app_parts _ _ Hn) as (Hn1 & _ & Hd).
    destruct (IH Hn1 h0) as (F & h1 & Hr1 & Hf1).
    { intros b Hb. apply Hag, in_or_app. auto. }
    assert (Ha1 : h1 a = Some (Value_cell (Array_block array))).
    { rewrite (released_outside _ Hr1); [rewrite Hag; [exact Hc | apply in_or_app; simpl; auto] |].
      intros Hin. apply (Hd a Hin). simpl. auto. }
    destruct (free_allocated _ Ha Ha1) as (h2 & Hf2 & Hr2).
    exists (S F), h2. split; [eapply released_app; eauto |].
    intros [|fuel] Hfuel; [lia |]. cbn [json_memory_free_value].
    apply Nat.eqb_neq in Ha. rewrite Ha.
    rewrite (Hag a) by (apply in_or_app; simpl; auto). rewrite Hc.
    rewrite Hf1 by lia. exact Hf2.
  - (* string *)
    intros a string s Ha Hc Hs Hcs Hn h0 Hag.
    assert (Hs0 : h0 string = Some (Chars_cell s)) by (rewrite Hag; simpl; auto).
    destruct (free_allocated _ Hs Hs0) as (h1 & Hf1 & Hr1).
    assert (Hne : a <> string).
    { inversion Hn as [|x l Hx _]; subst. intros ->. apply Hx. simpl. auto. }
    assert (Ha1 : h1 a = Some (Value_cell (String_block string))).
    { rewrite (released_outside _ Hr1); [rewrite Hag; [exact Hc | simpl; auto] |].
      intros [H | []]. congruence. }
    destruct (free_allocated _ Ha Ha1) as (h2 & Hf2 & Hr2).
    exists 1, h2. split; [exact (released_app Hr1 Hr2) |].
    intros [|fuel] Hfuel; [lia |]. cbn [json_memory_free_value].
    apply Nat.eqb_neq in Ha. rewrite Ha.
    rewrite (Hag a) by (simpl; auto). rewrite Hc, Hf1. exact Hf2.
  - (* number *)
    intros a number Ha Hc Hn h0 Hag.
    assert (Ha0 : h0 a = Some (Value_cell (Number_block number)))
      by (rewrite Hag; simpl; auto).
    destruct (free_allocated _ Ha Ha0) as (h1 & Hf1 & Hr1).
    exists 1, h1. split; [exact Hr1 |].
    intros [|fuel] Hfuel; [lia |]. cbn [json_memory_free_value].
    apply Nat.eqb_neq in Ha. rewrite Ha, Ha0. exact Hf1.
  - (* boolean *)
    intros a boolean Ha Hc Hn h0 Hag.
    assert (Ha0 : h0 a = Some (Value_cell (Boolean_block boolean)))
      by (rewrite Hag; simpl; auto).
    destruct (free_allocated _ Ha Ha0) as (h1 & Hf1 & Hr1).
    exists 1, h1. split; [exact Hr1 |].
    intros [|fuel] Hfuel; [lia |]. cbn [json_memory_free_value].
    apply Nat.eqb_neq in Ha. rewrite Ha, Ha0. exact Hf1.
  - (* null *)
    intros a Ha Hc Hn h0 Hag.
    assert (Ha0 : h0 a = Some (Value_cell Null_block)) by (rewrite Hag; simpl; auto).
    destruct (free_allocated _ Ha Ha0) as (h1 & Hf1 & Hr1).
    exists 1, h1. split; [exact Hr1 |].
    intros [|fuel] Hfuel; [lia |]. cbn [json_memory_free_value].
    apply Nat.eqb_neq in Ha. rewrite Ha, Ha0. exact Hf1.
  - (* no member *)
    intros _ h0 _. exists 1, h0. split; [apply released_nil |].
    intros [|fuel] Hfuel; [lia | reflexivity].
  - (* member *)
    intros a key_pointer key value v next members blocks blocks'
           Ha Hc Hk Hkc _ IHv _ IHn Hn h0 Hag.
    inversion Hn as [|x l Hkx Hn']; subst.
    destruct (NoDup_app_parts _ _ Hn') as (Hnv & Hna & Hd).
    inversion Hna as [|x l Hax Hnn]; subst.
    assert (Hk0 : h0 key_pointer = Some (Chars_cell key)) by (rewrite Hag; simpl; auto).
    destruct (free_allocated _ Hk Hk0) as (h1 & Hf1 & Hr1).
    destruct (IHv Hnv h1) as (Fv & h2 & Hr2 & Hf2).
    { intros b Hb. rewrite (released_outside _ Hr1).
      - apply Hag. right. apply in_or_app. auto.
      - intros [H | []]. subst. apply Hkx, in_or_app. auto. }
    assert (Ha2 : h2 a = Some (Member_cell key_pointer value next)).
    { rewrite (released_outside _ Hr2), (released_outside _ Hr1).
      - rewrite Hag; [exact Hc | right; apply in_or_app; simpl; auto].
      - intros [H | []]. subst. apply Hkx, in_or_app. simpl. auto.
      - intros Hin. apply (Hd a Hin). simpl. auto. }
    destruct (free_allocated _ Ha Ha2) as (h3 & Hf3 & Hr3).
    destruct (IHn Hnn h3) as (Fn & h4 & Hr4 & Hf4).
    { intros b Hb.
      rewrite (released_outside _ Hr3), (released_outside _ Hr2), (released_outside _ Hr1).
      - apply Hag. right. apply in_or_app. simpl. auto.
      - intros [H | []]. subst. apply Hkx, in_or_app. simpl. auto.
      - intros Hin. apply (Hd b Hin). simpl. auto.
      - intros [H | []]. subst. contradiction. }
    exists (S (Fv + Fn)), h4. split.
    + change (key_pointer :: blocks ++ a :: blocks')
        with ([key_pointer] ++ blocks ++ [a] ++ blocks').
      eauto using released_app.
    + intros [|fuel] Hfuel; [lia |]. cbn [json_memory_free_object_member].
      apply Nat.eqb_neq in Ha. rewrite Ha.
      rewrite (Hag a) by (right; apply in_or_app; simpl; auto). rewrite Hc, Hf1.
      rewrite Hf2 by lia. rewrite Hf3. apply Hf4. lia.
  - (* no element *)
    intros _ h0 _. exists 1, h0. split; [apply released_nil |].
    intros [|fuel] Hfuel; [lia | reflexivity].
  - (* element *)
    intros a value v next elements blocks blocks' Ha Hc _ IHv _ IHn Hn h0 Hag.
    destruct (NoDup_app_parts _ _ Hn) as (Hnv & Hna & Hd).
    inversion Hna as [|x l Hax Hnn]; subst.
    destruct (IHv Hnv h0) as (Fv & h1 & Hr1 & Hf1).
    { intros b Hb. apply Hag, in_or_app. auto. }
    assert (Ha1 : h1 a = Some (Element_cell value next)).
    { rewrite (released_outside _ Hr1).
      - rewrite Hag; [exact Hc | apply in_or_app; simpl; auto].
      - intros Hin. apply (Hd a Hin). simpl. auto. }
    destruct (free_allocated _ Ha Ha1) as (h2 & Hf2 & Hr2).
    destruct (IHn Hnn h2) as (Fn & h3 & Hr3 & Hf3).
    { intros b Hb. rewrite (released_outside _ Hr2), (released_outside _ Hr1).
      - apply Hag, in_or_app. simpl. auto.
      - intros Hin. apply (Hd b Hin). simpl. auto.
      - intros [H | []]. subst. contradiction. }
    exists (S (Fv + Fn)), h3. split.
    + change (blocks ++ a :: blocks') with (blocks ++ [a] ++ blocks').
      eauto using released_app.
    + intros [|fuel] Hfuel; [lia |]. cbn [json_memory_free_array_element].
      apply Nat.eqb_neq in Ha. rewrite Ha.
      rewrite (Hag a) by (apply in_or_app; simpl; auto). rewrite Hc.
      rewrite Hf1 by lia. rewrite Hf2. apply Hf3. lia.
Qed.

Lemma represents_root h a v blocks :
  represents h a v blocks -> a <> NULL /\ In a blocks.
Proof.
  intros H. destruct H; (split; [assumption |]);
    try (apply in_or_app; right); simpl; auto.
Qed.

(** X20. Called on the root of a tree whose blocks are all distinct,
    [json_memory_free_value] returns (given enough fuel) without reading or
    releasing anything that is not an allocated block, and it leaves the heap
    without exactly the blocks of the tree: every value, member, element, key
    and string block is released, and every other block is as it was.  A
    second call on the same root then has no defined behaviour. *)
Theorem json_memory_free_value_releases_the_tree :
  forall h a v blocks,
    represents h a v blocks ->
    NoDup blocks ->
    exists F h',
      (forall fuel, F <= fuel -> json_memory_free_value fuel h a = Some h')
      /\ (forall b, In b blocks -> h' b = None)
      /\ (forall b, ~ In b blocks -> h' b = h b)
      /\ (forall fuel, json_memory_free_value fuel h' a = None).
Proof.
  intros h a v blocks Hr Hn.
  destruct (releases_tree h) as (Hv & _ & _).
  destruct (Hv a v blocks Hr Hn h) as (F & h' & Hrel & Hf); [reflexivity |].
  assert (Hin : forall b, In b blocks -> h' b = None).
  { intros b Hb. rewrite Hrel.
    destruct (existsb_eqb_In b blocks) as [_ H]. rewrite (H Hb). reflexivity. }
  exists F, h'. split; [exact Hf | split; [exact Hin | split]].
  - intros b Hb. exact (released_outside _ Hrel Hb).
  - destruct (represents_root Hr) as [Ha Hb]. intros [|fuel]; [reflexivity |].
    cbn [json_memory_free_value]. apply Nat.eqb_neq in Ha. rewrite Ha, (Hin a Hb).
    reflexivity.
Qed.

Lemma json_memory_free_value_releases_the_tree_witness :
  let h : heap := fun a =>
    match a with
    | 1 => Some (Value_cell (Array_block 2))
    | 2 => Some (Element_cell 3 4)
    | 3 => Some (Value_cell (Boolean_block true))
    | 4 => Some (Element_cell 5 NULL)
    | 5 => Some (Value_cell (String_block 6))
    | 6 => Some (Chars_cell (chars "a"))
    | 7 => Some (Chars_cell (chars "b"))
    | _ => None
    end in
  let v := JSON_ARRAY [JSON_BOOLEAN true; JSON_STRING (chars "a")] in
  let blocks := [3; 2; 6; 5; 4; 1] in
  represents h 1 v blocks
  /\ NoDup blocks
  /\ exists F h',
      (forall fuel, F <= fuel -> json_memory_free_value fuel h 1 = Some h')
      /\ (forall b, In b blocks -> h' b = None)
      /\ (forall b, ~ In b blocks -> h' b = h b)
      /\ (forall fuel, json_memory_free_value fuel h' 1 = None).
Proof.
  intros h v blocks.
  assert (Hr : represents h 1 v blocks).
  { apply (@represents_array h 1 2 [JSON_BOOLEAN true; JSON_STRING (chars "a")]
                             [3; 2; 6; 5; 4]);
      [discriminate | reflexivity |].
    apply (@represents_element h 2 3 (JSON_BOOLEAN true) 4
                               [JSON_STRING (chars "a")] [3] [6; 5; 4]);
      [discriminate | reflexivity | |].
    - apply represents_boolean; [discriminate | reflexivity].
    - apply (@represents_element h 4 5 (JSON_STRING (chars "a")) NULL [] [6; 5] []);
        [discriminate | reflexivity | |].
      + apply represents_string; [discriminate | reflexivity | discriminate | reflexivity].
      + apply represents_no_element. }
  assert (Hn : NoDup blocks).
  { repeat constructor; simpl; intuition discriminate. }
  split; [exact Hr | split; [exact Hn |]].
  exact (json_memory_free_value_releases_the_tree Hr Hn).
Defined.

(** ** Error tokens and the parse of a document *)

(** A token of a type that the tokenizer gives at the end of the text only:
    the number rule gives NUMBER and ERROR tokens. *)
Lemma numeric_tail_is_number buf p : type (fst (numeric_tail buf p)) = TOKEN_NUMBER.
Proof.
  unfold numeric_tail. destruct (numeric_fraction p buf) as [b1 p1].
  destruct (numeric_exponent p1 b1) as [b2 p2]. reflexivity.
Qed.

Lemma numeric_literal_type p :
  type (fst (tokenizer_parse_numeric_literal p)) <> TOKEN_EOF.
Proof.
  assert (Hd : forall buf q, type (fst (numeric_digits buf q)) <> TOKEN_EOF).
  { intros buf q. unfold numeric_digits. destruct (digits_loop _ _ _) as [b1 p1].
    rewrite numeric_tail_is_number. discriminate. }
  assert (Hi : forall buf q, type (fst (numeric_integer_part buf q)) <> TOKEN_EOF).
  { intros buf q. unfold numeric_integer_part.
    destruct (remaining q) as [|c rest]; [apply Hd |].
    destruct (Ascii.eqb c "0"); [| apply Hd].
    destruct (remaining (step_column q)) as [|d rest'];
      [rewrite numeric_tail_is_number; discriminate |].
    destruct (isdigit d); [discriminate | rewrite numeric_tail_is_number; discriminate]. }
  unfold tokenizer_parse_numeric_literal.
  destruct (remaining p) as [|c rest]; [apply Hi |].
  destruct (Ascii.eqb c "-"); apply Hi.
Qed.

Lemma next_token_eof p :
  current_type (next_token p) = TOKEN_EOF -> remaining (next_token p) = [].
Proof.
  rewrite current_type_next_token. unfold next_token, tokenizer_get_next_token.
  destruct (remaining (tokenizer_skip_whitespace p)) as [|c rest] eqn:E.
  { intros _. simpl. rewrite remaining_set_current_token. exact E. }
  destruct (punctuation c) as [ty |] eqn:Ep.
  { unfold punctuation in Ep. intros H. simpl in H. subst ty.
    repeat (destruct (Ascii.eqb c _); [discriminate |]). discriminate. }
  destruct (Ascii.eqb c DQUOTE).
  { unfold tokenizer_parse_string_literal.
    destruct (string_literal_loop _ _ _) as [[[] buf] q]; discriminate. }
  destruct (_ || _)%bool.
  { intros H. exfalso. exact (numeric_literal_type _ H). }
  destruct (_ || _)%bool; [| discriminate].
  unfold tokenizer_parse_keyword_literal.
  repeat (destruct (starts_with _ _); [discriminate |]). discriminate.
Qed.

(** After the end of the input every token is the end of the input. *)
Lemma eof_stays p n :
  current_type (next_token p) = TOKEN_EOF ->
  current_type (ahead n (next_token p)) = TOKEN_EOF.
Proof.
  intros H. induction n as [|n IH]; [exact H |].
  rewrite ahead_S.
  assert (Hr : remaining (ahead n (next_token p)) = []).
  { clear IH. apply next_token_eof in H. induction n as [|n IH]; [exact H |].
    rewrite ahead_S, (next_token_at_end _ IH), remaining_set_current_token. exact IH. }
  rewrite (next_token_at_end _ Hr). reflexivity.
Qed.

(** A parse that succeeds has read a value that ends before the first error
    token. *)
Lemma value_before_error input n :
  current_type (ahead n (parser_initialize input)) = TOKEN_ERROR ->
  succeeds (parse input) = true ->
  exists k, k <= n /\ G_value (types k (parser_initialize input)).
Proof.
  intros He. unfold parse, json_parser_parse_document.
  destruct (json_parser_parse_value _ _) as [[v|] p' |] eqn:E; try discriminate.
  intros _. apply json_parser_parse_value_sound in E.
  destruct E as (k & -> & H).
  assert (Hk : k <= n \/ n < k) by lia.
  assert (Hin : n < k -> Forall proper (types k (parser_initialize input)) -> False).
  { intros Hlt Hf. rewrite Forall_forall in Hf.
    destruct (Hf _ (types_In (parser_initialize input) Hlt)) as [_ Hne].
    exact (Hne He). }
  destruct H as [H | [H Heof]].
  - destruct Hk as [Hk | Hk]; [exists k; auto |].
    exfalso. apply (Hin Hk). destruct G_tokens_proper as (Hv & _ & _). apply Hv, H.
  - exfalso. destruct Hk as [Hk | Hk].
    + destruct k as [|k]; [inversion H |].
      unfold parser_initialize in *. 
      rewrite ahead_S in Heof.
      replace n with (S k + (n - S k)) in He by lia.
      rewrite <- ahead_ahead, ahead_S in He.
      rewrite (eof_stays _ (n - S k) Heof) in He. discriminate.
    + apply (Hin Hk). apply G_cut_off_proper, H.
Qed.

Lemma exit_status_of_parse input :
  exit_status (main input) = (if succeeds (parse input) then 0 else 1)%Z.
Proof. rewrite main_of_parse. destruct (parse input) as [[v|] p' |]; reflexivity. Qed.

(** The parse of a document with an error token: it succeeds exactly when a
    value of the grammar is complete before that token. *)
Lemma parse_at_error input n :
  current_type (next_token (ahead n (start input))) = TOKEN_ERROR ->
  (succeeds (parse input) = true
   <-> exists k, k <= n /\ G_value (types k (parser_initialize input)))
  /\ exit_status (main input) = (if succeeds (parse input) then 0 else 1)%Z.
Proof.
  intros He. split; [| apply exit_status_of_parse]. split.
  - apply value_before_error. unfold parser_initialize.
    change (mk_parser input 0 (strlen input) (empty_token TOKEN_EOF) 1 1 [])
      with (start input).
    rewrite ahead_next, ahead_S. exact He.
  - intros (k & _ & Hk).
    destruct (@begins_with_value_succeeds input (ex_intro _ k Hk)) as (v & m & -> & _).
    reflexivity.
Qed.

(** C4, as stated, at the input [1 nul]: the text at the second token
    position starts with [n] and is not a keyword, the token is an error
    token, and the parse of the document succeeds. *)
Lemma keyword_after_value_accepted :
  remaining (tokenizer_skip_whitespace (ahead 1 (start (chars "1 nul")))) = chars "nul"
  /\ keyword_at (chars "nul") = TOKEN_ERROR
  /\ current_type (ahead 2 (start (chars "1 nul"))) = TOKEN_ERROR
  /\ succeeds (parse (chars "1 nul")) = true
  /\ exit_status (main (chars "1 nul")) = 0%Z.
Proof. repeat split; vm_compute; reflexivity. Qed.

(** C4 (amended).  Where the text at the next token position starts with
    [t], [f] or [n], the token is TRUE, FALSE or NULL exactly when the text
    at that position starts with [true], [false] or [null] respectively, and
    is a lex-error token in every other case.  Parsing a value at that error
    token fails.  The parse of a document with such a position after [n]
    tokens fails, with exit status 1, unless a value of the grammar is
    complete within these [n] tokens; then the parse succeeds and what
    follows the value is trailing content. *)
Theorem keyword_literals_exact :
  forall p c rest,
    remaining (tokenizer_skip_whitespace p) = c :: rest ->
    c = "t"%char \/ c = "f"%char \/ c = "n"%char ->
    current_type (next_token p) = keyword_at (c :: rest)
    /\ (keyword_at (c :: rest) = TOKEN_ERROR ->
        (forall fuel,
            json_parser_parse_value (S fuel) (next_token p)
            = Ret None (report (next_token p) Invalid_token))
        /\ (forall input n,
               p = ahead n (start input) ->
               (succeeds (parse input) = true
                <-> exists k, k <= n /\ G_value (types k (parser_initialize input)))
               /\ exit_status (main input)
                  = (if succeeds (parse input) then 0 else 1)%Z)).
Proof.
  intros p c rest Hp Hc.
  assert (Ht : current_type (next_token p) = keyword_at (c :: rest)).
  { unfold next_token, tokenizer_get_next_token, current_type. rewrite Hp.
    assert (E : tokenizer_parse_keyword_literal (tokenizer_skip_whitespace p)
                = (fst (tokenizer_parse_keyword_literal (tokenizer_skip_whitespace p)),
                   snd (tokenizer_parse_keyword_literal (tokenizer_skip_whitespace p))))
      by apply surjective_pairing.
    assert (Hk : type (fst (tokenizer_parse_keyword_literal
                              (tokenizer_skip_whitespace p)))
                 = keyword_at (c :: rest)).
    { unfold tokenizer_parse_keyword_literal, keyword_at. rewrite Hp.
      repeat (destruct (starts_with _ (c :: rest)); [reflexivity |]). reflexivity. }
    destruct Hc as [-> | [-> | ->]]; simpl; rewrite E; exact Hk. }
  split; [exact Ht |]. intros He. rewrite He in Ht. split.
  - intros fuel. apply parse_value_on_error, Ht.
  - intros input n ->. apply parse_at_error, Ht.
Qed.

Lemma no_value_in_open_array input :
  types 3 (parser_initialize input) = [TOKEN_LBRACKET; TOKEN_NUMBER; TOKEN_COMMA] ->
  ~ exists k, k <= 3 /\ G_value (types k (parser_initialize input)).
Proof.
  intros E (k & Hk & Hv).
  assert (Hl : forall es l, es ++ [TOKEN_RBRACKET] = l ->
                            rev l = TOKEN_RBRACKET :: rev es).
  { intros es l <-. rewrite rev_app_distr. reflexivity. }
  assert (E3 := E). cbn [types] in E3. injection E3 as E0 E1 E2.
  destruct k as [|[|[|[|k]]]]; [| | | | lia]; cbn [types] in Hv;
    rewrite ?E0, ?E1, ?E2 in Hv; inversion Hv as [| | | | | | | | es Hes Hl'];
    apply Hl in Hl'; discriminate.
Qed.

Lemma keyword_literals_exact_witness :
  current_type (ahead 4 (start (chars "[1, nul]"))) = TOKEN_ERROR
  /\ succeeds (parse (chars "[1, nul]")) = false
  /\ exit_status (main (chars "[1, nul]")) = 1%Z.
Proof.
  destruct (@keyword_literals_exact (ahead 3 (start (chars "[1, nul]")))
              "n"%char (chars "ul]"))
    as [H1 H2]; [vm_compute; reflexivity | right; right; reflexivity |].
  split; [exact H1 |].
  destruct (H2 eq_refl) as [_ H3].
  destruct (H3 (chars "[1, nul]") 3 eq_refl) as [[H4 _] H5].
  assert (Hs : succeeds (parse (chars "[1, nul]")) = false).
  { destruct (succeeds (parse (chars "[1, nul]"))); [exfalso | reflexivity].
    apply (@no_value_in_open_array (chars "[1, nul]"));
      [vm_compute; reflexivity | exact (H4 eq_refl)]. }
  split; [exact Hs |]. rewrite H5, Hs. reflexivity.
Defined.

(** C10, as stated, at the input [1] followed by a literal of 1023
    characters [a]: the literal is properly quoted and the tokenizer reports
    it as unterminated, and the parse of the document succeeds. *)
Lemma long_string_after_value_accepted :
  remaining (tokenizer_skip_whitespace (ahead 1 (start (chars "1 " ++ long_literal))))
  = long_literal
  /\ string_content (repeat "a"%char 1023 ++ [DQUOTE]) = Some (repeat "a"%char 1023, [])
  /\ current_type (ahead 2 (start (chars "1 " ++ long_literal))) = TOKEN_ERROR
  /\ succeeds (parse (chars "1 " ++ long_literal)) = true
  /\ exit_status (main (chars "1 " ++ long_literal)) = 0%Z.
Proof. repeat split; vm_compute; reflexivity. Qed.

(** C10 (amended).  At a properly quoted string literal whose content has
    [MAX_TOKEN_SIZE - 1] = 1023 characters or more, the tokenizer stops before
    the closing quote, prints "unterminated string" and returns an error
    token; parsing a value there fails.  The parse of a document with such a
    literal after [n] tokens fails, with exit status 1, unless a value of the
    grammar is complete within these [n] tokens; then the parse succeeds and
    what follows the value is trailing content. *)
Theorem long_string_rejected :
  forall p body content rest,
    remaining (tokenizer_skip_whitespace p) = DQUOTE :: body ->
    string_content body = Some (content, rest) ->
    MAX_TOKEN_SIZE - 1 <= List.length content ->
    current_type (next_token p) = TOKEN_ERROR
    /\ List.length rest < List.length (remaining (next_token p))
    /\ (exists l c, stderr (next_token p)
                    = stderr (tokenizer_skip_whitespace p) ++ [Unterminated_string l c])
    /\ (forall fuel,
           json_parser_parse_value (S fuel) (next_token p)
           = Ret None (report (next_token p) Invalid_token))
    /\ (forall input n,
           p = ahead n (start input) ->
           (succeeds (parse input) = true
            <-> exists k, k <= n /\ G_value (types k (parser_initialize input)))
           /\ exit_status (main input)
              = (if succeeds (parse input) then 0 else 1)%Z).
Proof.
  intros p body content rest Hp Hc Hlen.
  set (p0 := tokenizer_skip_whitespace p) in *.
  destruct (@string_literal_loop_overflow body (step_column p0) [] content rest)
    as (buf' & p' & Hloop & Hrest & Herr); auto.
  { eapply remaining_cons_step; eauto. }
  assert (E : next_token p
              = set_current_token
                  (report p' (Unterminated_string (line p') (column p')))
                  (mk_token TOKEN_ERROR buf' zero)).
  { unfold next_token, tokenizer_get_next_token. fold p0. rewrite Hp. simpl.
    unfold tokenizer_parse_string_literal.
    rewrite (remaining_cons_step _ Hp), Hloop. reflexivity. }
  assert (Ht : current_type (next_token p) = TOKEN_ERROR) by (rewrite E; reflexivity).
  split; [exact Ht |]. split; [rewrite E; exact Hrest |]. split; [| split].
  - exists (line p'), (column p'). rewrite E. simpl. rewrite Herr. reflexivity.
  - intros fuel. apply parse_value_on_error, Ht.
  - intros input n ->. apply parse_at_error, Ht.
Qed.

Lemma long_string_rejected_witness :
  current_type (ahead 4 (start (chars "[1, " ++ long_literal ++ chars "]")))
  = TOKEN_ERROR
  /\ succeeds (parse (chars "[1, " ++ long_literal ++ chars "]")) = false
  /\ exit_status (main (chars "[1, " ++ long_literal ++ chars "]")) = 1%Z.
Proof.
  destruct (@long_string_rejected
              (ahead 3 (start (chars "[1, " ++ long_literal ++ chars "]")))
              (repeat "a"%char 1023 ++ DQUOTE :: chars "]")
              (repeat "a"%char 1023) (chars "]"))
    as (H1 & _ & _ & _ & H2).
  - vm_compute. reflexivity.
  - vm_compute. reflexivity.
  - vm_compute. lia.
  - split; [exact H1 |].
    destruct (H2 (chars "[1, " ++ long_literal ++ chars "]") 3 eq_refl) as [[H4 _] H5].
    assert (Hs : succeeds (parse (chars "[1, " ++ long_literal ++ chars "]")) = false).
    { destruct (succeeds (parse (chars "[1, " ++ long_literal ++ chars "]")));
        [exfalso | reflexivity].
      apply (@no_value_in_open_array (chars "[1, " ++ long_literal ++ chars "]"));
        [vm_compute; reflexivity | exact (H4 eq_refl)]. }
    split; [exact Hs |]. rewrite H5, Hs. reflexivity.
Defined.

(** ** The first value and what follows it *)

Lemma tokens_length n : forall p, List.length (tokens n p) = n.
Proof. induction n as [|n IH]; intros p; simpl; [| rewrite IH]; reflexivity. Qed.

Lemma tokens_app n m : forall p, tokens (n + m) p = tokens n p ++ tokens m (ahead n p).
Proof.
  induction n as [|n IH]; intros p; [reflexivity |].
  simpl. rewrite IH, ahead_next. reflexivity.
Qed.

Lemma tokens_types n : forall p, map type (tokens n p) = types n p.
Proof. induction n as [|n IH]; intros p; simpl; [| rewrite IH]; reflexivity. Qed.

Lemma holds_tokens n p : holds (tokens n p) p.
Proof. unfold holds. rewrite tokens_length. reflexivity. Qed.

Lemma holds_app ts1 ts2 p :
  holds (ts1 ++ ts2) p -> holds ts1 p /\ holds ts2 (ahead (List.length ts1) p).
Proof.
  unfold holds. rewrite length_app, tokens_app. intros H.
  apply app_eq_length in H; [exact H | apply tokens_length].
Qed.

Lemma holds_cons t ts p :
  holds (t :: ts) p -> current_token p = t /\ holds ts (next_token p).
Proof. unfold holds. simpl. intros H. inversion H as [[H1 H2]]. rewrite H2. auto. Qed.

Lemma holds_is ty t ts p : holds (t :: ts) p -> of_type ty t -> current_type p = ty.
Proof. intros H Ht. apply holds_cons in H. destruct H as [H _]. unfold current_type. rewrite H. exact Ht. Qed.

Lemma parses_scalar p v :
  json_parser_parse_value 1 p = Ret (Some v) (next_token p) -> parses p v (ahead 1 p).
Proof. intros H. exists 1. exact H. Qed.

(** The parser returns the value that the tokens stand for. *)
Lemma value_of_tokens_parsed :
  (forall ts v, V_value ts v ->
                forall p, holds ts p -> parses p v (ahead (List.length ts) p))
  /\ (forall ms members,
         V_members ms members ->
         forall p, holds ms p ->
                   current_type (ahead (List.length ms) p) = TOKEN_RBRACE ->
                   parses_members p members (ahead (S (List.length ms)) p))
  /\ (forall es elements,
         V_elements es elements ->
         forall p, holds es p ->
                   current_type (ahead (List.length es) p) = TOKEN_RBRACKET ->
                   parses_elements p elements (ahead (S (List.length es)) p)).
Proof.
  apply V_mutual_ind.
  - intros t Ht p H. pose proof (holds_is H Ht) as Hty.
    apply holds_cons in H. destruct H as [<- _].
    apply parses_scalar. simpl. rewrite Hty. reflexivity.
  - intros t Ht p H. pose proof (holds_is H Ht) as Hty.
    apply holds_cons in H. destruct H as [<- _].
    apply parses_scalar. simpl. rewrite Hty. reflexivity.
  - intros t Ht p H. pose proof (holds_is H Ht) as Hty.
    apply parses_scalar. simpl. rewrite Hty. reflexivity.
  - intros t Ht p H. pose proof (holds_is H Ht) as Hty.
    apply parses_scalar. simpl. rewrite Hty. reflexivity.
  - intros t Ht p H. pose proof (holds_is H Ht) as Hty.
    apply parses_scalar. simpl. rewrite Hty. reflexivity.
  - (* empty object *)
    intros l r Hl Hr p H. pose proof (holds_is H Hl) as Hty.
    apply holds_cons in H. destruct H as [_ H]. pose proof (holds_is H Hr) as Hty'.
    exists 1. simpl. rewrite Hty. unfold json_parser_parse_object. rewrite Hty'.
    reflexivity.
  - (* object *)
    intros l ms members r Hl _ IH Hr p H. pose proof (holds_is H Hl) as Hty.
    apply holds_cons in H. destruct H as [_ H].
    apply holds_app in H. destruct H as [Hms Hclose].
    pose proof (holds_is Hclose Hr) as Hty'.
    apply parses_object_of_members; [exact Hty |].
    simpl. rewrite length_app. simpl. rewrite Nat.add_1_r, <- ahead_next.
    apply IH; assumption.
  - (* empty array *)
    intros l r Hl Hr p H. pose proof (holds_is H Hl) as Hty.
    apply holds_cons in H. destruct H as [_ H]. pose proof (holds_is H Hr) as Hty'.
    exists 1. simpl. rewrite Hty. unfold json_parser_parse_array. rewrite Hty'.
    reflexivity.
  - (* array *)
    intros l es elements r Hl _ IH Hr p H. pose proof (holds_is H Hl) as Hty.
    apply holds_cons in H. destruct H as [_ H].
    apply holds_app in H. destruct H as [Hes Hclose].
    pose proof (holds_is Hclose Hr) as Hty'.
    apply parses_array_of_elements; [exact Hty |].
    simpl. rewrite length_app. simpl. rewrite Nat.add_1_r, <- ahead_next.
    apply IH; assumption.
  - (* the last member *)
    intros k c ts v Hk Hc _ IH p H Hclose. pose proof (holds_is H Hk) as Hty.
    apply holds_cons in H. destruct H as [<- H]. pose proof (holds_is H Hc) as Hty'.
    apply holds_cons in H. destruct H as [_ H].
    simpl in Hclose. rewrite <- !ahead_next in Hclose.
    simpl. rewrite ahead_S, <- !ahead_next.
    apply members_last; auto.
  - (* a member and more *)
    intros k c ts v comma ms members Hk Hc _ IHv Hcomma _ IHm p H Hclose.
    pose proof (holds_is H Hk) as Hty.
    apply holds_cons in H. destruct H as [<- H]. pose proof (holds_is H Hc) as Hty'.
    apply holds_cons in H. destruct H as [_ H].
    apply holds_app in H. destruct H as [Hts H].
    pose proof (holds_is H Hcomma) as Hty''.
    apply holds_cons in H. destruct H as [_ H].
    set (p1 := ahead (List.length ts) (next_token (next_token p))) in *.
    assert (E : forall j, ahead j (next_token p1)
                          = ahead (S (S (List.length ts + S j))) p).
    { intros j. unfold p1. rewrite !ahead_next, ahead_ahead. apply ahead_eq. lia. }
    simpl in Hclose. rewrite length_app in Hclose. simpl in Hclose.
    rewrite <- E in Hclose.
    simpl. rewrite length_app. simpl.
    replace (S (S (S (List.length ts + S (List.length ms)))))
      with (S (S (List.length ts + S (S (List.length ms))))) by lia.
    rewrite <- E.
    apply (@members_more p v p1); auto.
  - (* the last element *)
    intros ts v _ IH p H Hclose. rewrite ahead_S. apply elements_last; auto.
  - (* an element and more *)
    intros ts v comma es elements _ IHv Hcomma _ IHe p H Hclose.
    apply holds_app in H. destruct H as [Hts H].
    pose proof (holds_is H Hcomma) as Hty.
    apply holds_cons in H. destruct H as [_ H].
    set (p1 := ahead (List.length ts) p) in *.
    assert (E : forall j, ahead j (next_token p1) = ahead (List.length ts + S j) p).
    { intros j. unfold p1. rewrite !ahead_next, ahead_ahead. reflexivity. }
    rewrite length_app in *. simpl in *.
    rewrite <- E in Hclose.
    replace (S (List.length ts + S (List.length es)))
      with (List.length ts + S (S (List.length es))) by lia.
    rewrite <- E.
    apply (@elements_more p v p1); auto.
Qed.

Ltac split_tokens :=
  repeat match goal with
         | H : map type ?toks = _ :: _ |- _ =>
             let t := fresh "t" in
             let Ht := fresh "Ht" in
             destruct toks as [|t toks]; [discriminate |];
             simpl in H; injection H as Ht H
         | H : map type ?toks = [] |- _ =>
             apply map_eq_nil in H; subst toks
         | H : map type ?toks = _ ++ _ |- _ =>
             let l1 := fresh "l" in
             let l2 := fresh "l" in
             let E := fresh "E" in
             let H1 := fresh "H" in
             apply map_eq_app in H; destruct H as (l1 & l2 & E & H1 & H); subst toks
         end.

(** Every token sequence of the grammar stands for a value. *)
Lemma grammar_has_value :
  (forall ts, G_value ts -> forall toks, map type toks = ts -> exists v, V_value toks v)
  /\ (forall ms, G_members ms ->
                 forall toks, map type toks = ms -> exists members, V_members toks members)
  /\ (forall es, G_elements es ->
                 forall toks, map type toks = es ->
                              exists elements, V_elements toks elements).
Proof.
  apply G_mutual_ind; intros; split_tokens;
    repeat match goal with
           | IH : forall toks, map type toks = ?ts -> _, E : map type ?l = ?ts |- _ =>
               let x := fresh "x" in
               let Hx := fresh "Hx" in
               destruct (IH l E) as [x Hx]; clear IH
           end;
    eexists; econstructor; eassumption.
Qed.

Lemma sexpr_writer_write_value_not_empty v level :
  sexpr_writer_write_value v level <> [].
Proof.
  destruct v as [members | elements | s | number | [] |]; try discriminate.
  - destruct members; discriminate.
  - destruct elements; discriminate.
  - apply write_number_chars.
Qed.

(** C6.  When the token sequence of the input begins with a value of the
    grammar and the token after that value is not the end of the input, the
    tokens of that value stand for a value of the data model, and this is the
    value that the parse returns, with the context just after it; the driver
    exits with status 0, writes the header, the rendering of that value,
    which is not empty, and a newline, and prints the extra-content warning
    as its last message, with no parse error and no failure message. *)
Theorem trailing_content_tolerated :
  forall input n,
    G_value (types n (parser_initialize input)) ->
    current_type (ahead n (parser_initialize input)) <> TOKEN_EOF ->
    let after := ahead n (parser_initialize input) in
    (exists v, V_value (tokens n (parser_initialize input)) v)
    /\ (forall v,
           V_value (tokens n (parser_initialize input)) v ->
           parse input = Ret (Some v) after
           /\ sexpr_writer_write_value v 0 <> []
           /\ main input
              = mk_outcome 0 (header ++ sexpr_writer_write_value v 0 ++ [LF])
                  (stderr after ++ [Extra_content (line after) (column after)])
           /\ existsb parse_error (errors (main input)) = false
           /\ ~ In Failed_to_parse (errors (main input))).
Proof.
  intros input n Hn Heof after. split.
  { destruct grammar_has_value as (Hv & _ & _).
    apply (Hv _ Hn). apply tokens_types. }
  intros v Hv.
  assert (Hp : parse input = Ret (Some v) after).
  { destruct value_of_tokens_parsed as (H & _ & _).
    destruct (H _ _ Hv _ (holds_tokens n _)) as [fuel Hf].
    rewrite tokens_length in Hf.
    unfold parse, json_parser_parse_document. exact (parse_value_enough _ _ Hf). }
  split; [exact Hp |]. split; [apply sexpr_writer_write_value_not_empty |].
  assert (Hm : main input
               = mk_outcome 0 (header ++ sexpr_writer_write_value v 0 ++ [LF])
                   (stderr after ++ [Extra_content (line after) (column after)])).
  { rewrite main_of_parse, Hp.
    apply token_type_eqb_neq in Heof. fold after in Heof. rewrite Heof. reflexivity. }
  split; [exact Hm |]. rewrite Hm. simpl.
  pose proof (stderr_parser_initialize_ahead n input) as Hl. fold after in Hl.
  split.
  - rewrite existsb_app, (@lexical_not_parse_error _ Hl). reflexivity.
  - intros Hin. apply in_app_or in Hin. destruct Hin as [Hin | [Hin | []]];
      [| discriminate].
    rewrite forallb_forall in Hl. apply Hl in Hin. discriminate.
Qed.

Lemma trailing_content_tolerated_witness :
  parsed_value (parse (json "{'a':1} 2"))
  = Some (JSON_OBJECT [(chars "a", JSON_NUMBER (S754_finite false (2 ^ 52) (-52)))])
  /\ main (json "{'a':1} 2")
     = mk_outcome 0
         (chars ";; JSON to S-expression conversion" ++ [LF; LF]
          ++ chars "(json:object" ++ [LF]
          ++ chars "  (json:a 1))" ++ [LF])
         [Extra_content 1 10].
Proof.
  destruct (@trailing_content_tolerated (json "{'a':1} 2") 5) as [_ H].
  - vm_compute.
    apply (G_object (ms := [TOKEN_STRING; TOKEN_COLON; TOKEN_NUMBER])).
    apply G_member. apply G_number.
  - vm_compute. discriminate.
  - destruct (H (JSON_OBJECT [(chars "a", JSON_NUMBER (S754_finite false (2 ^ 52) (-52)))]))
      as (Hp & _ & Hm & _).
    + vm_compute.
      eapply (@V_object _ [_; _; _]); [reflexivity | | reflexivity].
      apply (@V_member (mk_token TOKEN_STRING (chars "a") zero) _
                       [mk_token TOKEN_NUMBER (chars "1")
                                 (S754_finite false (2 ^ 52) (-52))]);
        [reflexivity | reflexivity |].
      apply (@V_number (mk_token TOKEN_NUMBER (chars "1")
                                 (S754_finite false (2 ^ 52) (-52)))).
      reflexivity.
    + split; [rewrite Hp; reflexivity |]. rewrite Hm. vm_compute. reflexivity.
Defined.

(** ** Numbers: what [%.15g] prints *)

Local Open Scope Z_scope.

(** *** The fifteen digits *)

Lemma pow10_pos x : 0 < 10 ^ x \/ x < 0.
Proof. destruct (Z.lt_ge_cases x 0); [right; assumption | left; apply Z.pow_pos_nonneg; lia]. Qed.

Lemma pow10_le_spec x num den :
  pow10_le x num den = true
  <-> (if 0 <=? x then 10 ^ x * den <= num else den <= num * 10 ^ (- x)).
Proof. unfold pow10_le. destruct (0 <=? x); apply Z.leb_le. Qed.

Lemma decimal_exponent_spec num den fuel :
  forall x0,
    pow10_le (x0 + 1) num den = false ->
    pow10_le (x0 - Z.of_nat fuel) num den = true ->
    pow10_le (decimal_exponent fuel x0 num den) num den = true
    /\ pow10_le (decimal_exponent fuel x0 num den + 1) num den = false.
Proof.
  induction fuel as [|fuel IH]; intros x0 Hhi Hlo.
  - simpl in *. rewrite Z.sub_0_r in Hlo. auto.
  - cbn [decimal_exponent]. destruct (pow10_le x0 num den) eqn:E; [auto |].
    apply IH.
    + replace (x0 - 1 + 1) with x0 by lia. exact E.
    + replace (x0 - 1 - Z.of_nat fuel) with (x0 - Z.of_nat (S fuel)) by lia. exact Hlo.
Qed.

(** Between two consecutive powers of ten, scaled to 15 digits. *)
Lemma scaled_bounds x num den :
  0 < num -> 0 < den ->
  pow10_le x num den = true -> pow10_le (x + 1) num den = false ->
  let N := if 0 <=? 14 - x then num * 10 ^ (14 - x) else num in
  let D := if 0 <=? 14 - x then den else den * 10 ^ (x - 14) in
  0 < D /\ 10 ^ 14 * D <= N < 10 ^ 15 * D.
Proof.
  intros Hnum Hden Hlo Hhi N D. apply pow10_le_spec in Hlo.
  assert (Hhi' : ~ (if 0 <=? x + 1 then 10 ^ (x + 1) * den <= num
                    else den <= num * 10 ^ (- (x + 1)))).
  { intros H. apply pow10_le_spec in H. congruence. }
  clear Hhi. subst N D.
  destruct (Z.leb_spec 0 (14 - x)) as [H14 | H14].
  - destruct (Z.leb_spec 0 x) as [H0 | H0].
    + (* 0 <= x <= 14 *)
      destruct (Z.leb_spec 0 (x + 1)); [| lia].
      assert (E1 : 10 ^ 14 = 10 ^ (14 - x) * 10 ^ x)
        by (rewrite <- Z.pow_add_r by lia; f_equal; lia).
      assert (E2 : 10 ^ 15 = 10 ^ (14 - x) * 10 ^ (x + 1))
        by (rewrite <- Z.pow_add_r by lia; f_equal; lia).
      assert (Hp : 0 < 10 ^ (14 - x)) by (apply Z.pow_pos_nonneg; lia).
      split; [exact Hden |]. rewrite E1, E2. nia.
    + (* x < 0 *)
      assert (E1 : 10 ^ (14 - x) = 10 ^ (- x) * 10 ^ 14)
        by (rewrite <- Z.pow_add_r by lia; f_equal; lia).
      assert (E2 : 10 ^ (14 - x) = 10 ^ (- (x + 1)) * 10 ^ 15)
        by (rewrite <- Z.pow_add_r by lia; f_equal; lia).
      assert (Hlt : num * 10 ^ (- (x + 1)) < den).
      { destruct (Z.leb_spec 0 (x + 1)) as [H1 | H1].
        - assert (x = -1) by lia. subst x.
          change (10 ^ (-1 + 1)) with 1 in Hhi'. change (10 ^ (- (-1 + 1))) with 1. lia.
        - lia. }
      split; [exact Hden |]. split.
      * rewrite E1. nia.
      * rewrite E2. nia.
  - (* 14 < x *)
    destruct (Z.leb_spec 0 x); [| lia]. destruct (Z.leb_spec 0 (x + 1)); [| lia].
    assert (E1 : 10 ^ x = 10 ^ 14 * 10 ^ (x - 14))
      by (rewrite <- Z.pow_add_r by lia; f_equal; lia).
    assert (E2 : 10 ^ (x + 1) = 10 ^ 15 * 10 ^ (x - 14))
      by (rewrite <- Z.pow_add_r by lia; f_equal; lia).
    assert (Hp : 0 < 10 ^ (x - 14)) by (apply Z.pow_pos_nonneg; lia).
    rewrite E1 in Hlo. rewrite E2 in Hhi'.
    split; [nia |]. split; nia.
Qed.

Lemma round_half_even_spec N D :
  0 < D ->
  let r := round_half_even N D in
  2 * Z.abs (N - r * D) <= D /\ N / D <= r <= N / D + 1.
Proof.
  intros HD r. subst r. unfold round_half_even.
  pose proof (Z.div_mod N D ltac:(lia)) as Hdm.
  pose proof (Z.mod_pos_bound N D HD) as Hm.
  remember (N / D) as q. remember (N mod D) as m. clear Heqq Heqm. subst N.
  assert (E1 : D * q + m - q * D = m) by ring.
  assert (E2 : D * q + m - (q + 1) * D = m - D) by ring.
  destruct (Z.compare_spec (2 * m) D); [destruct (Z.even q) | |];
    rewrite ?E1, ?E2; lia.
Qed.

Lemma significant_digits_spec num den :
  0 < num -> 0 < den ->
  pow10_le 309 num den = false -> pow10_le (-392) num den = true ->
  fifteen_digits num den (fst (significant_digits num den))
                 (snd (significant_digits num den)).
Proof.
  intros Hnum Hden Hhi Hlo. unfold significant_digits.
  destruct (@decimal_exponent_spec num den 700 308 Hhi Hlo) as [Hx Hx1].
  set (x := decimal_exponent 700 308 num den) in *. clearbody x.
  pose proof (@scaled_bounds x num den Hnum Hden Hx Hx1) as Hb.
  cbv zeta in Hb.
  set (r := if 0 <=? 14 - x
            then round_half_even (num * 10 ^ (14 - x)) den
            else round_half_even num (den * 10 ^ (x - 14))).
  assert (Hr : let N := if 0 <=? 14 - x then num * 10 ^ (14 - x) else num in
               let D := if 0 <=? 14 - x then den else den * 10 ^ (x - 14) in
               2 * Z.abs (N - r * D) <= D /\ 10 ^ 14 <= r <= 10 ^ 15).
  { cbv zeta. subst r. destruct (0 <=? 14 - x).
    - destruct Hb as [HD [Hl Hu]].
      destruct (@round_half_even_spec (num * 10 ^ (14 - x)) den HD) as [Ha [Hq1 Hq2]].
      split; [exact Ha |].
      assert (10 ^ 14 <= num * 10 ^ (14 - x) / den)
        by (apply Z.div_le_lower_bound; lia).
      assert (num * 10 ^ (14 - x) / den < 10 ^ 15)
        by (apply Z.div_lt_upper_bound; lia).
      lia.
    - destruct Hb as [HD [Hl Hu]].
      destruct (@round_half_even_spec num (den * 10 ^ (x - 14)) HD) as [Ha [Hq1 Hq2]].
      split; [exact Ha |].
      assert (10 ^ 14 <= num / (den * 10 ^ (x - 14)))
        by (apply Z.div_le_lower_bound; lia).
      assert (num / (den * 10 ^ (x - 14)) < 10 ^ 15)
        by (apply Z.div_lt_upper_bound; lia).
      lia. }
  cbv zeta in Hr. destruct Hr as [Ha Hrange].
  destruct (Z.leb_spec (10 ^ 15) r) as [Hc | Hc]; cbn [fst snd]; unfold fifteen_digits.
  - (* the rounding carries into a sixteenth digit *)
    assert (Er : r = 10 ^ 15) by lia. rewrite Er in *.
    change (10 ^ 15 / 10) with (10 ^ 14).
    split; [split; [lia | reflexivity] |].
    replace (14 - (x + 1)) with (13 - x) by lia.
    replace (x + 1 - 14) with (x - 13) by lia.
    destruct (Z.leb_spec 0 (13 - x)) as [H13 | H13].
    + destruct (Z.leb_spec 0 (14 - x)); [| lia]. destruct Hb as [HD _].
      assert (E : 10 ^ (14 - x) = 10 ^ (13 - x) * 10).
      { change 10 with (10 ^ 1) at 3. rewrite <- Z.pow_add_r by lia. f_equal. lia. }
      rewrite E in Ha.
      replace (num * (10 ^ (13 - x) * 10) - 10 ^ 15 * den)
        with (10 * (num * 10 ^ (13 - x) - 10 ^ 14 * den)) in Ha by ring.
      rewrite Z.abs_mul in Ha. change (Z.abs 10) with 10 in Ha. lia.
    + destruct (Z.leb_spec 0 (14 - x)) as [H14 | H14].
      * assert (x = 14) by lia. subst x.
        change (10 ^ (14 - 14)) with 1 in Ha. change (10 ^ (14 - 13)) with 10.
        replace (num - 10 ^ 14 * (den * 10)) with (num * 1 - 10 ^ 15 * den) by ring.
        lia.
      * destruct Hb as [HD _].
        assert (E : 10 ^ (x - 13) = 10 ^ (x - 14) * 10).
        { change 10 with (10 ^ 1) at 3. rewrite <- Z.pow_add_r by lia. f_equal. lia. }
        rewrite E.
        replace (num - 10 ^ 14 * (den * (10 ^ (x - 14) * 10)))
          with (num - 10 ^ 15 * (den * 10 ^ (x - 14))) by ring.
        lia.
  - split; [lia |]. destruct (0 <=? 14 - x); exact Ha.
Qed.

Lemma finite_bounds s m e :
  valid_binary prec emax (S754_finite s m e) = true ->
  Zpos m < 2 ^ 53 /\ -1074 <= e <= 971.
Proof.
  intros Hv. destruct (valid_finite _ _ _ Hv) as [Hc He].
  rewrite fexp_unfold in Hc. unfold emax, prec in He.
  pose proof (mantissa_bound m) as Hm.
  assert (Hd : Zpos (digits2_pos m) <= 53) by lia.
  split; [| lia].
  eapply Z.lt_le_trans; [exact Hm |]. apply Z.pow_le_mono_r; lia.
Qed.

Lemma magnitude_bounds s m e :
  valid_binary prec emax (S754_finite s m e) = true ->
  0 < fst (magnitude m e) /\ 0 < snd (magnitude m e)
  /\ pow10_le 309 (fst (magnitude m e)) (snd (magnitude m e)) = false
  /\ pow10_le (-392) (fst (magnitude m e)) (snd (magnitude m e)) = true.
Proof.
  intros Hv. destruct (finite_bounds _ _ _ Hv) as [Hm He].
  unfold magnitude. destruct (Z.leb_spec 0 e) as [H0 | H0]; cbn [fst snd].
  - assert (Hp : 0 < 2 ^ e) by (apply Z.pow_pos_nonneg; lia).
    assert (Hpe : 2 ^ e <= 2 ^ 971) by (apply Z.pow_le_mono_r; lia).
    assert (Hbig : 2 ^ 53 * 2 ^ 971 < 10 ^ 309) by (vm_compute; reflexivity).
    split; [nia |]. split; [lia |]. split.
    + change (pow10_le 309 (Zpos m * 2 ^ e) 1)
        with (10 ^ 309 * 1 <=? Zpos m * 2 ^ e). apply Z.leb_gt. nia.
    + change (pow10_le (-392) (Zpos m * 2 ^ e) 1)
        with (1 <=? Zpos m * 2 ^ e * 10 ^ 392). apply Z.leb_le.
      assert (0 < 10 ^ 392) by (vm_compute; reflexivity). nia.
  - assert (Hp : 0 < 2 ^ (- e)) by (apply Z.pow_pos_nonneg; lia).
    assert (Hpe : 2 ^ (- e) <= 2 ^ 1074) by (apply Z.pow_le_mono_r; lia).
    assert (Hsmall : 2 ^ 1074 <= 10 ^ 392) by (vm_compute; discriminate).
    assert (Hbig : 2 ^ 53 < 10 ^ 309) by (vm_compute; reflexivity).
    split; [lia |]. split; [lia |]. split.
    + change (pow10_le 309 (Zpos m) (2 ^ (- e)))
        with (10 ^ 309 * 2 ^ (- e) <=? Zpos m). apply Z.leb_gt. nia.
    + change (pow10_le (-392) (Zpos m) (2 ^ (- e)))
        with (2 ^ (- e) <=? Zpos m * 10 ^ 392). apply Z.leb_le. nia.
Qed.

(** *** Reading digits *)

Lemma read_digits_count a :
  forall acc c, read_digits a acc c
                = (fst (fst (read_digits a acc 0)),
                   (c + snd (fst (read_digits a acc 0)))%nat,
                   snd (read_digits a acc 0)).
Proof.
  induction a as [|x a IH]; intros acc c; simpl.
  - rewrite Nat.add_0_r. reflexivity.
  - destruct (isdigit x); simpl.
    + rewrite (IH _ (S c)), (IH _ 1%nat). simpl. f_equal. f_equal. lia.
    + rewrite Nat.add_0_r. reflexivity.
Qed.

Lemma read_digits_run a :
  forall b acc c,
    forallb isdigit a = true -> test isdigit b = false ->
    read_digits (a ++ b) acc c = (value_after a acc, (c + List.length a)%nat, b).
Proof.
  unfold value_after.
  induction a as [|x a IH]; intros b acc c Ha Hb; simpl in *.
  - rewrite Nat.add_0_r. destruct b as [|y b]; [reflexivity |].
    simpl in Hb. cbn [read_digits]. rewrite Hb. reflexivity.
  - apply andb_prop in Ha. destruct Ha as [Hx Ha]. rewrite Hx.
    rewrite (IH b _ (S c) Ha Hb). rewrite (read_digits_count a _ 1). simpl.
    f_equal. f_equal. lia.
Qed.

Lemma value_after_app a b acc :
  forallb isdigit a = true ->
  value_after (a ++ b) acc = value_after b (value_after a acc).
Proof.
  unfold value_after. revert acc.
  induction a as [|x a IH]; intros acc Ha; simpl in *; [reflexivity |].
  apply andb_prop in Ha. destruct Ha as [Hx Ha]. rewrite Hx.
  rewrite (read_digits_count (a ++ b) _ 1), (read_digits_count a _ 1). simpl.
  apply IH, Ha.
Qed.

Lemma value_after_zeros j acc :
  value_after (repeat "0"%char j) acc = acc * 10 ^ Z.of_nat j.
Proof.
  unfold value_after. revert acc.
  induction j as [|j IH]; intros acc; [simpl; lia |].
  cbn [repeat read_digits]. change (isdigit "0") with true. cbv iota.
  rewrite (read_digits_count _ _ 1). cbn [fst]. rewrite IH.
  change (digit_value "0") with 0. rewrite Nat2Z.inj_succ, Z.pow_succ_r by lia. ring.
Qed.

Lemma digit_value_decimal d :
  0 <= d < 10 -> digit_value (ascii_of_N (Z.to_N (48 + d))) = d.
Proof.
  intros Hd. unfold digit_value. rewrite N_ascii_embedding.
  - rewrite Z2N.id by lia. lia.
  - apply N2Z.inj_lt. rewrite Z2N.id by lia. change (Z.of_N 256) with 256. lia.
Qed.

Lemma decimal_digits_length w : forall n, List.length (decimal_digits w n) = w.
Proof.
  induction w as [|w IH]; intros n; [reflexivity |].
  cbn [decimal_digits]. rewrite length_app, IH. simpl. lia.
Qed.

Lemma value_after_decimal_digits w :
  forall n acc,
    0 <= n ->
    value_after (decimal_digits w n) acc = acc * 10 ^ Z.of_nat w + n mod 10 ^ Z.of_nat w.
Proof.
  induction w as [|w IH]; intros n acc Hn.
  - unfold value_after. simpl. rewrite Z.mod_1_r. lia.
  - cbn [decimal_digits].
    rewrite value_after_app by apply decimal_digits_isdigit.
    rewrite IH by (apply Z.div_pos; lia).
    unfold value_after. cbn [read_digits]. rewrite decimal_digit_isdigit. cbn [fst].
    rewrite digit_value_decimal by (apply Z.mod_pos_bound; lia).
    rewrite Nat2Z.inj_succ, Z.pow_succ_r by lia.
    rewrite (Z.rem_mul_r n 10 (10 ^ Z.of_nat w)) by (try apply Z.pow_pos_nonneg; lia).
    ring.
Qed.

Lemma printf_lld_digits z :
  0 <= z ->
  forallb isdigit (printf_lld z) = true
  /\ printf_lld z <> []
  /\ value_after (printf_lld z) 0 = z.
Proof.
  intros Hz. pose proof (printf_lld_cases z) as Hc.
  destruct z as [|a|a]; [| | lia].
  - rewrite Hc. repeat split. discriminate.
  - rewrite Hc. split; [apply digits_of_isdigit |]. split.
    + intros E. apply (f_equal (@List.length _)) in E.
      rewrite digits_of_length in E. simpl in E.
      pose proof (DecimalPos.Unsigned.to_uint_nonnil a) as Hnn.
      destruct (Pos.to_uint a); try discriminate. apply Hnn. reflexivity.
    + unfold value_after. rewrite read_digits_of. cbn [fst].
      rewrite DecimalPos.Unsigned.of_to. reflexivity.
Qed.

(** *** The fraction without its trailing zeros *)

Lemma rev_zeros (A : Type) (a : A) j : rev (repeat a j) = repeat a j.
Proof.
  induction j as [|j IH]; [reflexivity |].
  simpl. rewrite IH. symmetry. apply repeat_cons.
Qed.

Lemma strip_trailing_zeros_rev_zeros r :
  exists j, r = repeat "0"%char j ++ strip_trailing_zeros_rev r.
Proof.
  induction r as [|c r IH]; [exists 0%nat; reflexivity |].
  simpl. destruct (Ascii.eqb c "0") eqn:E.
  - apply Ascii.eqb_eq in E. subst c. destruct IH as [j Hj].
    exists (S j). simpl. f_equal. exact Hj.
  - exists 0%nat. reflexivity.
Qed.

Lemma strip_trailing_zeros_zeros s :
  exists j, s = strip_trailing_zeros s ++ repeat "0"%char j.
Proof.
  unfold strip_trailing_zeros.
  destruct (strip_trailing_zeros_rev_zeros (rev s)) as [j Hj].
  exists j. rewrite <- (rev_involutive s) at 1. rewrite Hj at 1.
  rewrite rev_app_distr, rev_zeros. reflexivity.
Qed.

(** The mantissa that is read from an integer part and a fraction of [w]
    digits printed without its trailing zeros. *)
Lemma read_mantissa_with_fraction int_part w r rest :
  forallb isdigit int_part = true -> int_part <> [] -> 0 <= r ->
  test (fun c => isdigit c || Ascii.eqb c ".")%bool rest = false ->
  exists mantissa j,
    (j <= w)%nat
    /\ read_mantissa (with_fraction int_part (decimal_digits w r) ++ rest)
       = (mantissa, List.length int_part, (w - j)%nat, rest)
    /\ mantissa * 10 ^ Z.of_nat j
       = value_after int_part 0 * 10 ^ Z.of_nat w + r mod 10 ^ Z.of_nat w.
Proof.
  intros Hint Hne Hr Hrest.
  assert (Hrest1 : test isdigit rest = false).
  { destruct rest as [|c rest]; [reflexivity |]. simpl in *.
    apply orb_false_elim in Hrest. apply Hrest. }
  assert (Hrest2 : test (fun c => Ascii.eqb c ".") rest = false).
  { destruct rest as [|c rest]; [reflexivity |]. simpl in *.
    apply orb_false_elim in Hrest. apply Hrest. }
  destruct (strip_trailing_zeros_zeros (decimal_digits w r)) as [j Hj].
  pose proof (strip_trailing_zeros_subset isdigit _ (decimal_digits_isdigit w r)) as Hf.
  pose proof (value_after_decimal_digits w (value_after int_part 0) Hr) as Hv.
  rewrite Hj in Hv at 1. rewrite value_after_app, value_after_zeros in Hv by exact Hf.
  assert (Hlen : w = (List.length (strip_trailing_zeros (decimal_digits w r)) + j)%nat).
  { rewrite <- (decimal_digits_length w r) at 1. rewrite Hj at 1.
    rewrite length_app, repeat_length. reflexivity. }
  exists (value_after (strip_trailing_zeros (decimal_digits w r)) (value_after int_part 0)), j.
  split; [lia |]. split; [| exact Hv].
  unfold with_fraction, read_mantissa.
  destruct (strip_trailing_zeros (decimal_digits w r)) as [|c f] eqn:Ef.
  - rewrite (read_digits_run int_part rest 0 0 Hint Hrest1). simpl in Hlen.
    replace (w - j)%nat with 0%nat by lia.
    destruct rest as [|c rest]; [reflexivity |]. simpl in Hrest2. rewrite Hrest2.
    reflexivity.
  - rewrite <- app_assoc.
    rewrite (read_digits_run int_part _ 0 0 Hint) by reflexivity.
    cbn [app]. change (Ascii.eqb "." ".") with true. cbv iota.
    rewrite (read_digits_run (c :: f) rest _ 0 Hf Hrest1).
    replace (w - j)%nat with (List.length (c :: f)) by lia. reflexivity.
Qed.

(** *** The exponent and the whole numeral *)

Lemma read_exponent_digits_printed x10 :
  read_exponent_digits
    ((if x10 <? 0 then ["-"%char] else ["+"%char])
     ++ (if Z.abs x10 <? 10 then ["0"%char] else [])
     ++ printf_lld (Z.abs x10))
  = Some x10.
Proof.
  destruct (@printf_lld_digits (Z.abs x10) (Z.abs_nonneg x10)) as (Hd & Hne & Hv).
  set (pad := if Z.abs x10 <? 10 then ["0"%char] else []).
  assert (Hpad : forallb isdigit pad = true) by (subst pad; destruct (_ <? _); reflexivity).
  assert (Hall : forallb isdigit (pad ++ printf_lld (Z.abs x10)) = true)
    by (rewrite forallb_app, Hpad, Hd; reflexivity).
  assert (Hval : value_after (pad ++ printf_lld (Z.abs x10)) 0 = Z.abs x10).
  { rewrite value_after_app by exact Hpad.
    replace (value_after pad 0) with 0; [exact Hv |].
    subst pad. destruct (_ <? _); reflexivity. }
  assert (Hread : read_digits (pad ++ printf_lld (Z.abs x10)) 0 0
                  = (Z.abs x10, List.length (pad ++ printf_lld (Z.abs x10)), [])).
  { rewrite <- (app_nil_r (pad ++ printf_lld (Z.abs x10))) at 1.
    rewrite read_digits_run by (exact Hall || reflexivity). rewrite Hval. reflexivity. }
  assert (Hlen : List.length (pad ++ printf_lld (Z.abs x10)) <> 0%nat).
  { rewrite length_app. destruct (printf_lld (Z.abs x10)); [contradiction | simpl; lia]. }
  unfold read_exponent_digits.
  destruct (Z.ltb_spec x10 0) as [Hneg | Hpos]; cbn [app];
    [change (Ascii.eqb "-" "-") with true
    | change (Ascii.eqb "+" "-") with false; change (Ascii.eqb "+" "+") with true];
    cbv iota; rewrite Hread;
    (destruct (List.length (pad ++ printf_lld (Z.abs x10))); [contradiction |]);
    f_equal; lia.
Qed.

Lemma with_fraction_head int_part frac rest :
  forallb isdigit int_part = true -> int_part <> [] ->
  exists c body, with_fraction int_part frac ++ rest = c :: body /\ isdigit c = true.
Proof.
  intros Hd Hne. destruct int_part as [|c int_part]; [contradiction |].
  simpl in Hd. apply andb_prop in Hd. destruct Hd as [Hc _].
  unfold with_fraction.
  destruct (strip_trailing_zeros frac); exists c; eexists; (split; [reflexivity | exact Hc]).
Qed.

Lemma isdigit_not_minus c : isdigit c = true -> Ascii.eqb c "-" = false.
Proof.
  intros H. destruct (Ascii.eqb c "-") eqn:E; [| reflexivity].
  apply Ascii.eqb_eq in E. subst c. discriminate.
Qed.

(** A printed numeral, read: sign, integer part, fraction of [w] digits
    without its trailing zeros, and exponent. *)
Lemma read_decimal_printed (s : bool) int_part w r (x : option Z) :
  forallb isdigit int_part = true -> int_part <> [] -> 0 <= r ->
  let rest :=
    match x with
    | Some x10 =>
        ["e"%char] ++ (if x10 <? 0 then ["-"%char] else ["+"%char])
        ++ (if Z.abs x10 <? 10 then ["0"%char] else [])
        ++ printf_lld (Z.abs x10)
    | None => []
    end in
  exists mantissa j,
    (j <= w)%nat
    /\ read_decimal ((if s then ["-"%char] else [])
                     ++ with_fraction int_part (decimal_digits w r) ++ rest)
       = Some (s, mantissa,
               match x with Some x10 => x10 | None => 0 end - Z.of_nat (w - j))
    /\ mantissa * 10 ^ Z.of_nat j
       = value_after int_part 0 * 10 ^ Z.of_nat w + r mod 10 ^ Z.of_nat w.
Proof.
  intros Hd Hne Hr rest.
  assert (Hrest : test (fun c => isdigit c || Ascii.eqb c ".")%bool rest = false)
    by (subst rest; destruct x; reflexivity).
  destruct (@read_mantissa_with_fraction int_part w r rest Hd Hne Hr Hrest)
    as (mantissa & j & Hj & Hread & Hval).
  exists mantissa, j. split; [exact Hj |]. split; [| exact Hval].
  destruct (@with_fraction_head int_part (decimal_digits w r) rest Hd Hne)
    as (c & body & Hbody & Hc).
  assert (Hlen : List.length int_part <> 0%nat) by (destruct int_part; [contradiction | discriminate]).
  assert (E : read_decimal ((if s then ["-"%char] else [])
                            ++ with_fraction int_part (decimal_digits w r) ++ rest)
              = let '(mantissa, int_count, frac_count, t) :=
                  read_mantissa (with_fraction int_part (decimal_digits w r) ++ rest) in
                match int_count with
                | O => None
                | S _ =>
                    match t with
                    | [] => Some (s, mantissa, - Z.of_nat frac_count)
                    | c :: t' =>
                        if Ascii.eqb c "e" then
                          match read_exponent_digits t' with
                          | Some e => Some (s, mantissa, e - Z.of_nat frac_count)
                          | None => None
                          end
                        else None
                    end
                end).
  { unfold read_decimal. destruct s; cbn [app].
    - reflexivity.
    - rewrite Hbody, (isdigit_not_minus _ Hc). reflexivity. }
  rewrite E, Hread. destruct (List.length int_part); [contradiction |].
  subst rest. destruct x as [x10 |].
  - cbn [app]. change (Ascii.eqb "e" "e") with true. cbv iota.
    rewrite read_exponent_digits_printed. reflexivity.
  - f_equal.
Qed.

Lemma printf_g15_finite s m e :
  printf_g15 (S754_finite s m e)
  = let digits := fst (significant_digits (fst (magnitude m e)) (snd (magnitude m e))) in
    let x10 := snd (significant_digits (fst (magnitude m e)) (snd (magnitude m e))) in
    (if s then ["-"%char] else [])
    ++ (if ((x10 <? -4) || (15 <=? x10))%bool then
          with_fraction (decimal_digits 1 (digits / 10 ^ 14))
                        (decimal_digits 14 (digits mod 10 ^ 14))
          ++ ["e"%char] ++ (if x10 <? 0 then ["-"%char] else ["+"%char])
          ++ (if Z.abs x10 <? 10 then ["0"%char] else [])
          ++ printf_lld (Z.abs x10)
        else
          with_fraction (printf_lld (digits / 10 ^ (14 - x10)))
                        (decimal_digits (Z.to_nat (14 - x10))
                                        (digits mod 10 ^ (14 - x10)))).
Proof.
  unfold printf_g15, magnitude. destruct (0 <=? e); cbn [fst snd];
    destruct (significant_digits _ _) as [digits x10]; reflexivity.
Qed.

(** What [%.15g] prints for a finite number is a decimal numeral that stands
    for the fifteen digits found for it. *)
Lemma printf_g15_reads s m e :
  let d := fst (significant_digits (fst (magnitude m e)) (snd (magnitude m e))) in
  let x10 := snd (significant_digits (fst (magnitude m e)) (snd (magnitude m e))) in
  10 ^ 14 <= d < 10 ^ 15 ->
  reads_as (printf_g15 (S754_finite s m e)) s d x10.
Proof.
  intros d x10 Hd. rewrite printf_g15_finite. fold d x10. cbv zeta. unfold reads_as.
  destruct ((x10 <? -4) || (15 <=? x10))%bool eqn:Estyle.
  - (* exponent notation *)
    assert (Hi : 0 <= d / 10 ^ 14 < 10).
    { split; [apply Z.div_pos; lia | apply Z.div_lt_upper_bound; lia]. }
    destruct (@read_decimal_printed s (decimal_digits 1 (d / 10 ^ 14)) 14
                (d mod 10 ^ 14) (Some x10))
      as (mantissa & j & Hj & Hread & Hval).
    { apply decimal_digits_isdigit. }
    { discriminate. }
    { apply Z.mod_pos_bound. lia. }
    exists mantissa, (x10 - Z.of_nat (14 - j)), (Z.of_nat j).
    split; [exact Hread |]. split; [lia |]. split; [| lia].
    rewrite Hval, value_after_decimal_digits by lia.
    change (Z.of_nat 1) with 1. change (Z.of_nat 14) with 14.
    rewrite Z.mod_mod by lia. rewrite (Z.mod_small (d / 10 ^ 14) (10 ^ 1)) by lia.
    pose proof (Z.div_mod d (10 ^ 14) ltac:(lia)). lia.
  - (* fixed notation *)
    apply orb_false_elim in Estyle. destruct Estyle as [E1 E2].
    apply Z.ltb_ge in E1. apply Z.leb_gt in E2.
    assert (Hp : 0 < 10 ^ (14 - x10)) by (apply Z.pow_pos_nonneg; lia).
    destruct (@printf_lld_digits (d / 10 ^ (14 - x10))) as (Hdig & Hne & Hv).
    { apply Z.div_pos; lia. }
    destruct (@read_decimal_printed s (printf_lld (d / 10 ^ (14 - x10)))
                (Z.to_nat (14 - x10)) (d mod 10 ^ (14 - x10)) None Hdig Hne)
      as (mantissa & j & Hj & Hread & Hval).
    { apply Z.mod_pos_bound. lia. }
    cbv zeta in Hread. rewrite app_nil_r in Hread.
    exists mantissa, (0 - Z.of_nat (Z.to_nat (14 - x10) - j)), (Z.of_nat j).
    split; [exact Hread |]. split; [lia |]. split; [| lia].
    rewrite Hval, Hv, Z2Nat.id by lia. rewrite Z.mod_mod by lia.
    pose proof (Z.div_mod d (10 ^ (14 - x10)) ltac:(lia)). lia.
Qed.

(** *** The two formats of the writer *)

Lemma write_number_equal x y : SFeqb x y = true -> write_number x = write_number y.
Proof.
  destruct x as [sx | sx | | sx mx ex], y as [sy | sy | | sy my ey]; intros H.
  16: (apply SFeqb_finite_inv in H; destruct H as (H1 & H2 & H3); subst sy my ey;
       exact eq_refl).
  6: (destruct sx, sy; [exact eq_refl | discriminate H | discriminate H | exact eq_refl]).
  1: (destruct sx, sy; vm_compute; reflexivity).
  all: repeat match goal with b : bool |- _ => destruct b end; discriminate H.
Qed.

(** C9, as stated, at the number of the document [123456789012345.6]: it
    does not equal its truncation, and it is printed as a plain integer
    literal. *)
Lemma fraction_printed_as_integer :
  parsed_value (parse (chars "123456789012345.6"))
  = Some (JSON_NUMBER (S754_finite false 7901234496790118 (-6)))
  /\ ~ equals_own_truncation (S754_finite false 7901234496790118 (-6))
  /\ write_number (S754_finite false 7901234496790118 (-6)) = printf_lld 123456789012346
  /\ render (chars "123456789012345.6") = Some (chars "123456789012346").
Proof.
  split; [vm_compute; reflexivity |]. split; [| split; vm_compute; reflexivity].
  intros (z & Hz & Hd & _). vm_compute in Hz. injection Hz as <-.
  vm_compute in Hd. discriminate.
Qed.

(** C9 (amended).  For every binary64 number: when the number equals its own
    truncation toward zero and that integer fits a [long long], the writer
    prints the integer with [%lld], a plain signed decimal literal that reads
    back as that integer; otherwise it prints the number with [%.15g].  For a
    finite number the text of [%.15g] is a decimal numeral that stands for
    the number rounded to 15 significant digits, without the trailing zeros
    of its fraction; an infinite number is printed as [inf] or [-inf].  The
    documents [1] and [1.0] both render as [1]; [0.5] renders as [0.5],
    [1e22] as [1e+22] and [0.000012345] as [1.2345e-05].  Numbers that
    compare equal are rendered alike. *)
Theorem number_rendering :
  (forall x,
      valid_binary prec emax x = true ->
      (forall z, truncate x = Some z -> double_is x z ->
                 LLONG_MIN <= z <= LLONG_MAX ->
                 write_number x = printf_lld z
                 /\ option_map Z.of_int
                      (NilZero.int_of_string (string_of_list_ascii (write_number x)))
                    = Some z)
      /\ (~ equals_own_truncation x ->
          write_number x = printf_g15 x
          /\ (forall s m e,
                 x = S754_finite s m e ->
                 exists d x10,
                   fifteen_digits (fst (magnitude m e)) (snd (magnitude m e)) d x10
                   /\ reads_as (write_number x) s d x10)
          /\ (forall s, x = S754_infinity s ->
                        write_number x = if s then chars "-inf" else chars "inf")))
  /\ render (chars "1") = Some (chars "1")
  /\ render (chars "1.0") = Some (chars "1")
  /\ render (chars "0.5") = Some (chars "0.5")
  /\ render (chars "1e22") = Some (chars "1e+22")
  /\ render (chars "0.000012345") = Some (chars "1.2345e-05")
  /\ (forall x y, SFeqb x y = true -> write_number x = write_number y).
Proof.
  split;
    [| split; [vm_compute; reflexivity |];
       split; [vm_compute; reflexivity |];
       split; [vm_compute; reflexivity |];
       split; [vm_compute; reflexivity |];
       split; [vm_compute; reflexivity | exact write_number_equal]].
  intros x Hv. pose proof (@round_trip_test x Hv) as Hrt. split.
  - intros z Ht Hd Hr. unfold write_number.
    assert (He : equals_own_truncation x) by (exists z; auto).
    apply Hrt in He. rewrite He, (double_to_long_long_in_range _ Ht Hr).
    split; [reflexivity | apply printf_lld_reads_back].
  - intros Hn.
    assert (Hg : write_number x = printf_g15 x).
    { unfold write_number.
      destruct (SFeqb x (long_long_to_double (double_to_long_long x))) eqn:E;
        [| reflexivity].
      exfalso. apply Hn, Hrt. reflexivity. }
    split; [exact Hg |]. split.
    + intros s m e ->. rewrite Hg.
      destruct (magnitude_bounds _ _ _ Hv) as (Hnum & Hden & Hhi & Hlo).
      pose proof (significant_digits_spec Hnum Hden Hhi Hlo) as Hf.
      eexists _, _. split; [exact Hf |].
      apply printf_g15_reads. destruct Hf as [Hd _]. exact Hd.
    + intros s ->. rewrite Hg. reflexivity.
Qed.

Lemma number_rendering_witness :
  write_number (S754_finite false (2 ^ 52) (-52)) = chars "1"
  /\ write_number (S754_finite false 7205759403792794 (-56)) = chars "0.1"
  /\ exists d x10,
      fifteen_digits 7205759403792794 (2 ^ 56) d x10
      /\ reads_as (chars "0.1") false d x10.
Proof.
  destruct number_rendering as [H _]. split.
  - destruct (H (S754_finite false (2 ^ 52) (-52))) as [H1 _]; [reflexivity |].
    destruct (H1 1) as [-> _];
      [reflexivity | reflexivity | split; discriminate | reflexivity].
  - destruct (H (S754_finite false 7205759403792794 (-56))) as [_ H2]; [reflexivity |].
    destruct H2 as (Hg & Hf & _).
    { intros (z & Hz & Hd & _). vm_compute in Hz. injection Hz as <-.
      vm_compute in Hd. discriminate. }
    assert (Ht : write_number (S754_finite false 7205759403792794 (-56)) = chars "0.1")
      by (rewrite Hg; vm_compute; reflexivity).
    split; [exact Ht |]. rewrite <- Ht.
    exact (Hf false 7205759403792794%positive (-56) eq_refl).
Defined.

Local Close Scope Z_scope.
